(** * reorganize_sin.py: VIN-driven document reorganizer

    A shallow embedding of the planning, rename/dedup, collision and
    retry logic of [src/_reorganize_vin_folders/reorganize_sin.py],
    with the properties of its specification stated against it.

    Conventions of the embedding.
    - A Python [str] is a Rocq [string] (a sequence of bytes).  The
      embedding is exact on ASCII text; the few non-ASCII letters that
      occur in the source's patterns are written as their UTF-8 byte
      sequences, in both cases.
    - A compiled regular expression is a value of [Re.re]; the matcher
      [Re.run] is a backtracking matcher with Python's preference order
      (left alternative first, greedy or lazy repetition as written).
    - A [dict] is a [gmap] when only lookups matter and an association
      list in insertion order when the code iterates over it.
    - A path is the string the ledger stores ([str(path)]), with
      [/] as separator. *)

From Stdlib Require Import ZArith QArith String Ascii List Bool Lia.
From Stdlib Require Import DecimalString DecimalNat.
From stdpp Require Import gmap strings list fin_maps sorting.


Local Open Scope nat_scope.

(** ** Characters *)

Definition code (a : ascii) : nat := nat_of_ascii a.

Definition in_range (lo hi : ascii) (a : ascii) : bool :=
  (code lo <=? code a) && (code a <=? code hi).

Definition is_upper (a : ascii) : bool := in_range "A" "Z" a.
Definition is_lower (a : ascii) : bool := in_range "a" "z" a.
Definition is_digit (a : ascii) : bool := in_range "0" "9" a.

(** [str.isalpha] and [str.isdigit] of one character (ASCII). *)
Definition isalpha (a : ascii) : bool := is_upper a || is_lower a.
Definition isdigit (a : ascii) : bool := is_digit a.
Definition isalnum (a : ascii) : bool := isalpha a || isdigit a.

(** The character class [[A-Z0-9]]. *)
Definition upper_digit (a : ascii) : bool := is_upper a || is_digit a.

Definition to_lower (a : ascii) : ascii :=
  if is_upper a then ascii_of_nat (code a + 32) else a.

(** [\s], [\d], [\w] and [.] on ASCII text. *)
Definition is_space (a : ascii) : bool :=
  let n := code a in
  (n =? 32) || ((9 <=? n) && (n <=? 13)) || ((28 <=? n) && (n <=? 31)).
Definition is_word (a : ascii) : bool := isalnum a || (code a =? 95).
Definition not_newline (a : ascii) : bool := negb (code a =? 10).

Definition chars (s : string) : list ascii := list_ascii_of_string s.
Definition str_of (l : list ascii) : string := string_of_list_ascii l.

(** ** Regular expressions *)

Module Re.

Inductive re : Type :=
| Eps
| Chr (p : ascii -> bool)
| Seq (r1 r2 : re)
| Alt (r1 r2 : re)
| Star (greedy : bool) (r : re)
| Grp (n : nat) (r : re)
| Bol
| Eol
| WordB
| NotBehind (p : ascii -> bool)
| NotAhead (p : ascii -> bool).

(** Group number, start and end offset of each capture, latest first. *)
Definition caps : Type := list (nat * (nat * nat)).
Definition result : Type := (nat * caps)%type.
Definition cont : Type := nat -> caps -> option result.

Definition orelse (a b : option result) : option result :=
  match a with Some x => Some x | None => b end.

Definition at_word (t : list ascii) (i : nat) : bool :=
  match t !! i with Some a => is_word a | None => false end.

Definition word_boundary (t : list ascii) (i : nat) : bool :=
  negb (Bool.eqb (match i with 0 => false | S j => at_word t j end)
                 (at_word t i)).

(** [$] without [re.MULTILINE]: the end of the text, or just before a
    newline that ends it. *)
Definition at_end (t : list ascii) (i : nat) : bool :=
  (i =? length t) ||
  ((S i =? length t) &&
   match t !! i with Some a => negb (not_newline a) | None => false end).

(** Repetition of a pattern, given as the function [step] that tries it
    once: an iteration must consume something; the greedy form tries one
    more iteration before the continuation, the lazy form the
    continuation first. *)
Definition star_loop (greedy : bool)
    (step : nat -> caps -> cont -> option result) (k : cont)
  : nat -> nat -> caps -> option result :=
  fix loop (fuel : nat) (i : nat) (c : caps) : option result :=
    match fuel with
    | 0 => k i c
    | S fuel' =>
        let more :=
          step i c (fun j c' => if i <? j then loop fuel' j c' else None) in
        if greedy then orelse more (k i c) else orelse (k i c) more
    end.

Fixpoint run (t : list ascii) (r : re) (i : nat) (c : caps) (k : cont)
  : option result :=
  match r with
  | Eps => k i c
  | Chr p =>
      match t !! i with
      | Some a => if p a then k (S i) c else None
      | None => None
      end
  | Seq r1 r2 => run t r1 i c (fun j c' => run t r2 j c' k)
  | Alt r1 r2 => orelse (run t r1 i c k) (run t r2 i c k)
  | Star greedy r' => star_loop greedy (run t r') k (S (length t - i)) i c
  | Grp n r' => run t r' i c (fun j c' => k j ((n, (i, j)) :: c'))
  | Bol => if i =? 0 then k i c else None
  | Eol => if at_end t i then k i c else None
  | WordB => if word_boundary t i then k i c else None
  | NotBehind p =>
      match i with
      | 0 => k i c
      | S j =>
          match t !! j with
          | Some a => if p a then None else k i c
          | None => k i c
          end
      end
  | NotAhead p =>
      match t !! i with
      | Some a => if p a then None else k i c
      | None => k i c
      end
  end.

Definition ret : cont := fun j c => Some (j, c).

(** One attempt of the pattern at offset [i]. *)
Definition match_at (r : re) (t : list ascii) (i : nat) : option result :=
  run t r i [] ret.

(** [pattern.search]: the attempt at the leftmost offset that succeeds. *)
Fixpoint search_from (r : re) (t : list ascii) (i : nat) (fuel : nat)
  : option (nat * result) :=
  match match_at r t i with
  | Some x => Some (i, x)
  | None =>
      match fuel with
      | 0 => None
      | S fuel' => search_from r t (S i) fuel'
      end
  end.

Definition search (r : re) (s : string) : option (nat * result) :=
  search_from r (chars s) 0 (String.length s).

Definition matches (r : re) (s : string) : bool :=
  match search r s with Some _ => true | None => false end.

(** [re.match] / [pattern.match]: the attempt at offset 0 only. *)
Definition match_start (r : re) (s : string) : option result :=
  match_at r (chars s) 0.

Definition slice (t : list ascii) (i j : nat) : string :=
  str_of (take (j - i) (drop i t)).

Definition group (n : nat) (t : list ascii) (c : caps) : option string :=
  match find (fun e => fst e =? n) c with
  | Some (_, (i, j)) => Some (slice t i j)
  | None => None
  end.

(** [pattern.findall] for a pattern with one group: the group's text at
    each successive non-overlapping match, scanning left to right. *)
Fixpoint findall_from (r : re) (t : list ascii) (i : nat) (fuel : nat)
  : list string :=
  match fuel with
  | 0 => []
  | S fuel' =>
      if length t <? i then [] else
      match match_at r t i with
      | Some (j, c) =>
          match group 1 t c with
          | Some g => g :: findall_from r t (if i <? j then j else S i) fuel'
          | None => findall_from r t (if i <? j then j else S i) fuel'
          end
      | None => findall_from r t (S i) fuel'
      end
  end.

Definition findall (r : re) (s : string) : list string :=
  findall_from r (chars s) 0 (S (String.length s)).

(** Pattern combinators. *)
Definition chr (a : ascii) : re := Chr (fun b => code b =? code a).
Definition chr_i (a : ascii) : re :=
  Chr (fun b => code (to_lower b) =? code (to_lower a)).

Fixpoint seq_of (f : ascii -> re) (s : string) : re :=
  match s with
  | EmptyString => Eps
  | String a EmptyString => f a
  | String a s' => Seq (f a) (seq_of f s')
  end.

Definition lit (s : string) : re := seq_of chr s.
Definition lit_i (s : string) : re := seq_of chr_i s.

Definition plus (r : re) : re := Seq r (Star true r).
Definition plus_lazy (r : re) : re := Seq r (Star false r).
Definition star (r : re) : re := Star true r.
Definition opt (r : re) : re := Alt r Eps.

Fixpoint rep (n : nat) (r : re) : re :=
  match n with
  | 0 => Eps
  | S n' => Seq r (rep n' r)
  end.

Fixpoint seqs (rs : list re) : re :=
  match rs with
  | [] => Eps
  | [r] => r
  | r :: rs' => Seq r (seqs rs')
  end.

Definition any : re := Chr not_newline.
Definition space : re := Chr is_space.
Definition digit : re := Chr is_digit.
Definition one_of (s : string) : re :=
  Chr (fun b => existsb (fun a => code b =? code a) (chars s)).
Definition one_of_i (s : string) : re :=
  Chr (fun b => existsb (fun a => code (to_lower b) =? code (to_lower a))
                        (chars s)).

End Re.

(** ** VIN helpers *)

(** [VIN_PATTERN = (?<![A-Z0-9])([A-Z0-9]{17})(?![A-Z0-9])] *)
Definition VIN_PATTERN : Re.re :=
  Re.Seq (Re.NotBehind upper_digit)
         (Re.Seq (Re.Grp 1 (Re.rep 17 (Re.Chr upper_digit)))
                 (Re.NotAhead upper_digit)).

Definition is_valid_vin (s : string) : bool :=
  if negb (String.length s =? 17) then false
  else existsb isalpha (chars s) && existsb isdigit (chars s).

Definition extract_all_vins (fn : string) : list string :=
  List.filter is_valid_vin (Re.findall VIN_PATTERN fn).


Definition upper_digit_i (a : ascii) : bool := isalnum a.

(** [FL_PATTERN = ^FL\s*-\s*.+?\s*-\s*([A-Z0-9]{17}).*\.pdf$], [re.IGNORECASE] *)
Definition FL_PATTERN : Re.re :=
  Re.seqs [Re.Bol; Re.lit_i "FL"; Re.star Re.space; Re.chr "-";
           Re.star Re.space; Re.plus_lazy Re.any; Re.star Re.space;
           Re.chr "-"; Re.star Re.space;
           Re.Grp 1 (Re.rep 17 (Re.Chr upper_digit_i));
           Re.star Re.any; Re.chr "."; Re.lit_i "pdf"; Re.Eol].

(** [SERIEC_PATTERN = ^seriec_([A-Z0-9]{17})_], [re.IGNORECASE] *)
Definition SERIEC_PATTERN : Re.re :=
  Re.seqs [Re.Bol; Re.lit_i "seriec_";
           Re.Grp 1 (Re.rep 17 (Re.Chr upper_digit_i)); Re.chr "_"].

(** [^([A-Z0-9]{17})[\s_\-]], the inline pattern of [get_parent_vin]. *)
Definition PREFIX_PATTERN : Re.re :=
  Re.seqs [Re.Bol; Re.Grp 1 (Re.rep 17 (Re.Chr upper_digit));
           Re.Chr (fun a => is_space a || (code a =? 95) || (code a =? 45))].

(** Group 1 of [pattern.match(fn)]. *)
Definition match_group1 (r : Re.re) (fn : string) : option string :=
  match Re.match_start r fn with
  | Some (_, c) => Re.group 1 (chars fn) c
  | None => None
  end.

Definition lower (s : string) : string := str_of (map to_lower (chars s)).

(** [needle in haystack] for strings. *)
Definition contains (needle haystack : string) : bool :=
  Re.matches (Re.lit needle) haystack.

(** Decimal rendering of a counter, as an f-string prints it. *)
Definition str_nat (n : nat) : string :=
  NilZero.string_of_uint (Nat.to_uint n).

(** ** Paths

    [pathlib] on the string form of a path, for paths in normal form (no
    doubled or trailing separator, no [.] component). *)

Module Path.

Definition is_sep (a : ascii) : bool := code a =? 47.

Fixpoint take_until (p : ascii -> bool) (l : list ascii) : list ascii :=
  match l with
  | [] => []
  | a :: l' => if p a then [] else a :: take_until p l'
  end.

Fixpoint drop_until (p : ascii -> bool) (l : list ascii) : list ascii :=
  match l with
  | [] => []
  | a :: l' => if p a then l else drop_until p l'
  end.

(** [p.name]: the last component. *)
Definition name (p : string) : string :=
  str_of (rev (take_until is_sep (rev (chars p)))).

(** [p.parent] *)
Definition parent (p : string) : string :=
  match drop_until is_sep (rev (chars p)) with
  | [] => "."
  | [_] => "/"
  | _ :: r => str_of (rev r)
  end.

(** [d / n] *)
Definition join (d n : string) : string :=
  if String.eqb d "." then n
  else if String.eqb d "/" then "/" +:+ n
  else d +:+ "/" +:+ n.

(** Offset of the last dot of a name when it delimits a suffix:
    [i = name.rfind('.')] with [0 < i < len(name) - 1]. *)
Definition suffix_at (n : list ascii) : option nat :=
  let tail := take_until (fun a => code a =? 46) (rev n) in
  let i := length n - S (length tail) in
  if (length tail <? length n) && (0 <? i) && (i <? length n - 1)
  then Some i else None.

Definition suffix (p : string) : string :=
  let n := chars (name p) in
  match suffix_at n with
  | Some i => str_of (drop i n)
  | None => ""
  end.

Definition stem (p : string) : string :=
  let n := chars (name p) in
  match suffix_at n with
  | Some i => str_of (take i n)
  | None => str_of n
  end.

(** [p.parts], the root [/] included when the path is absolute. *)
Fixpoint split_sep (l : list ascii) (cur : list ascii) : list string :=
  match l with
  | [] => [str_of (rev cur)]
  | a :: l' =>
      if is_sep a then str_of (rev cur) :: split_sep l' []
      else split_sep l' (a :: cur)
  end.

Definition parts (p : string) : list string :=
  let comps :=
    List.filter (fun s => negb (String.eqb s "")) (split_sep (chars p) []) in
  match chars p with
  | a :: _ => if is_sep a then "/" :: comps else comps
  | [] => comps
  end.

Fixpoint strip_prefix (pre l : list string) : option (list string) :=
  match pre, l with
  | [], _ => Some l
  | x :: pre', y :: l' =>
      if String.eqb x y then strip_prefix pre' l' else None
  | _ :: _, [] => None
  end.

(** [p.relative_to(root).parts]; [None] stands for [ValueError]. *)
Definition relative_to (p root : string) : option (list string) :=
  strip_prefix (parts root) (parts p).

End Path.

(** ** Change ledger *)

Inductive Action : Type :=
| copy_file
| create_folder
| other_action (name : string).

Inductive Status : Type := planned | done | skipped | failed.

Global Instance Action_eq_dec : EqDecision Action.
Proof. solve_decision. Defined.
Global Instance Status_eq_dec : EqDecision Status.
Proof. solve_decision. Defined.

Record Change : Type := mkChange {
  action : Action;
  source : string;
  destination : string;
  reason : string;
  parent_folder : string;
  vin : string;
  status : Status;
}.

Definition set_status (s : Status) (c : Change) : Change :=
  mkChange (action c) (source c) (destination c) (reason c)
           (parent_folder c) (vin c) s.

Definition set_destination (d : string) (c : Change) : Change :=
  mkChange (action c) (source c) d (reason c)
           (parent_folder c) (vin c) (status c).

Definition is_copy (c : Change) : bool :=
  match action c with copy_file => true | _ => false end.

Record Ledger : Type := mkLedger {
  changes : list Change;
  warnings : list string;
  pdf_scans : list (string * list string);
  _planned_dests : gmap string string;
}.

(** [Ledger()] *)
Definition Ledger_init : Ledger := mkLedger [] [] [] ∅.

(** [Ledger.add] *)
Definition Ledger_add (l : Ledger) (act : Action) (src dst : string)
    (rsn pf v : string) : Ledger :=
  let appended (pd : gmap string string) :=
    mkLedger (changes l ++ [mkChange act src dst rsn pf v planned])
             (warnings l) (pdf_scans l) pd in
  match act with
  | copy_file =>
      match _planned_dests l !! dst with
      | Some s => if String.eqb s src then l
                  else appended (<[dst := src]> (_planned_dests l))
      | None => appended (<[dst := src]> (_planned_dests l))
      end
  | _ => appended (_planned_dests l)
  end.

(** [Ledger.warn] *)
Definition Ledger_warn (l : Ledger) (msg : string) : Ledger :=
  mkLedger (changes l) (warnings l ++ [msg]) (pdf_scans l) (_planned_dests l).

(** [Ledger.log_pdf_scan]; the VINs are passed already sorted. *)
Definition Ledger_log_pdf_scan (l : Ledger) (path : string)
    (vins_found : list string) : Ledger :=
  mkLedger (changes l) (warnings l) (pdf_scans l ++ [(path, vins_found)])
           (_planned_dests l).
(** ** The file system and the operating system

    What the executor observes of the world: the regular files with
    their bytes, the files that cannot be opened for reading, and the
    fates of the calls that the operating system can refuse.  What it
    does to the world besides writing files is recorded: the
    [time.sleep] arguments (seconds), the JSONL records and the console
    lines.  A run is a real run with a log file ([jsonl_path] given),
    from the point where the log file is open.
    Directories are not modelled: [os.makedirs(..., exist_ok=True)]
    changes nothing, and fails as the operating system decides. *)

(** An [OSError]: [getattr(e, 'winerror', 0)] and [str(e)]. *)
Record OSError : Type := mkOSError {
  winerror : Z;
  errmsg : string;
}.

(** The fate of one call.  For [shutil.copy2]: success, or an error
    together with the bytes that the failed call leaves at its
    destination ([None] when the destination is as it was: the call can
    fail before it opens the destination, after it has created or
    truncated it, or after it has written it).  For the other calls
    that can fail ([os.makedirs], a write to the log file, a line on the
    console, and the removal or renaming of a file): success or an
    error. *)
Inductive Fate : Type :=
| copy_fate (r : option (OSError * option string))
| io_fate (r : option OSError).

(** [faults] holds the fates to come.  Each call takes the first fate
    of its kind that is left; a call that finds none succeeds. *)
Record World : Type := mkWorld {
  files : gmap string string;
  unreadable : gset string;
  faults : list Fate;
  slept : list Q;
  jsonl : list Change;
  console : list string;
}.

Fixpoint next_copy (fs : list Fate)
  : option (OSError * option string) * list Fate :=
  match fs with
  | [] => (None, [])
  | copy_fate r :: rest => (r, rest)
  | f :: rest => let '(r, rest') := next_copy rest in (r, f :: rest')
  end.

Fixpoint next_io (fs : list Fate) : option OSError * list Fate :=
  match fs with
  | [] => (None, [])
  | io_fate r :: rest => (r, rest)
  | f :: rest => let '(r, rest') := next_io rest in (r, f :: rest')
  end.

Definition with_files (f : gmap string string) (w : World) : World :=
  mkWorld f (unreadable w) (faults w) (slept w) (jsonl w) (console w).
Definition with_faults (fs : list Fate) (w : World) : World :=
  mkWorld (files w) (unreadable w) fs (slept w) (jsonl w) (console w).

Inductive Outcome (A : Type) : Type :=
| Ok (a : A)
| Raise (e : OSError).
Arguments Ok {A} a.
Arguments Raise {A} e.

(** Computations of the executor: world passing, with exceptions. *)
Definition X (A : Type) : Type := World -> Outcome A * World.

Definition xret {A} (a : A) : X A := fun w => (Ok a, w).
Definition xbind {A B} (m : X A) (k : A -> X B) : X B :=
  fun w => match m w with
           | (Ok a, w') => k a w'
           | (Raise e, w') => (Raise e, w')
           end.
Definition xraise {A} (e : OSError) : X A := fun w => (Raise e, w).
(** [try: m  except OSError as e: h e] *)
Definition xtry {A} (m : X A) (h : OSError -> X A) : X A :=
  fun w => match m w with
           | (Ok a, w') => (Ok a, w')
           | (Raise e, w') => h e w'
           end.

Notation "'do' x <- m ; k" := (xbind m (fun x => k))
  (at level 10, x name, m at level 100, k at level 200).
Notation "'perform' m ; k" := (xbind m (fun _ => k))
  (at level 10, m at level 100, k at level 200).

Definition time_sleep (d : Q) : X unit :=
  fun w => (Ok tt, mkWorld (files w) (unreadable w) (faults w)
                           (slept w ++ [d]) (jsonl w) (console w)).
Definition gc_collect : X unit := xret tt.

(** A call, other than a copy, that the operating system can refuse:
    it raises, or has its [effect]. *)
Definition io_call (effect : World -> World) : X unit :=
  fun w =>
    let '(r, rest) := next_io (faults w) in
    match r with
    | Some e => (Raise e, with_faults rest w)
    | None => (Ok tt, effect (with_faults rest w))
    end.

(** [_log_safe(jsonl_fh, c)], and [Ledger._log_change(jsonl_fh, c)]:
    the record is written and flushed. *)
Definition _log_safe (c : Change) : X unit :=
  io_call (fun w => mkWorld (files w) (unreadable w) (faults w)
                            (slept w) (jsonl w ++ [c]) (console w)).
Definition tqdm_write (line : string) : X unit :=
  io_call (fun w => mkWorld (files w) (unreadable w) (faults w)
                            (slept w) (jsonl w) (console w ++ [line])).
Definition os_makedirs (p : string) : X unit := io_call (fun w => w).

Definition ENOENT : OSError := mkOSError 0 "No such file or directory".

(** What a failed copy to [dst] leaves of the files [fl]. *)
Definition leave (dst : string) (fl : gmap string string)
    (lft : option string) : gmap string string :=
  match lft with
  | Some bytes => <[dst := bytes]> fl
  | None => fl
  end.

(** [shutil.copy2(src, dst)]: fails as the operating system decides,
    leaving at [dst] what the fate says, and otherwise leaves at [dst]
    the bytes of [src]. *)
Definition shutil_copy2 (src dst : string) : X unit :=
  fun w =>
    let '(r, rest) := next_copy (faults w) in
    let w' := with_faults rest w in
    match r with
    | Some (e, lft) => (Raise e, with_files (leave dst (files w) lft) w')
    | None =>
        match files w !! src with
        | Some data => (Ok tt, with_files (<[dst := data]> (files w)) w')
        | None => (Raise ENOENT, w')
        end
    end.

Definition _RETRY_ATTEMPTS : nat := 5.
Definition _RETRY_BASE_DELAY : Q := 1 # 10.
Definition MAX_CROSS_COPY_VINS : nat := 100.

(** [_RETRY_BASE_DELAY * (2 ** attempt)] *)
Definition retry_delay (attempt : nat) : Q :=
  Qred (_RETRY_BASE_DELAY * inject_Z (2 ^ Z.of_nat attempt)).

(** [getattr(e, 'winerror', 0) == 32 or 'being used' in str(e)] *)
Definition is_sharing_violation (e : OSError) : bool :=
  (winerror e =? 32)%Z || contains "being used" (errmsg e).

Inductive DestStatus : Type := ok | skip | renamed.

(** [^(.+?)_(\d+)$] *)
Definition NUMBERED_STEM : Re.re :=
  Re.seqs [Re.Bol; Re.Grp 1 (Re.plus_lazy Re.any); Re.chr "_";
           Re.Grp 2 (Re.plus Re.digit); Re.Eol].

Definition action_name (a : Action) : string :=
  match a with
  | copy_file => "copy_file"
  | create_folder => "create_folder"
  | other_action n => n
  end.

Section Hashing.

(** The MD5 digest of a byte string, in hexadecimal. *)
Variable md5 : string -> string.

Definition _exists (w : World) (p : string) : bool :=
  bool_decide (is_Some (files w !! p)).

(** [_file_hash], as redefined for the rename pass: the definition in
    force when the module is loaded. *)
Definition _file_hash (w : World) (p : string) : string :=
  match files w !! p with
  | Some data =>
      if bool_decide (p ∈ unreadable w) then "__error_" +:+ p else md5 data
  | None => "__error_" +:+ p
  end.

Definition _files_identical (w : World) (a b : string) : bool :=
  match files w !! a, files w !! b with
  | Some da, Some db =>
      if negb (String.length da =? String.length db) then false
      else String.eqb (_file_hash w a) (_file_hash w b)
  | _, _ => false
  end.

Definition candidate (parent base_stem suffix : string) (i : nat) : string :=
  Path.join parent (base_stem +:+ "_" +:+ str_nat i +:+ suffix).

(** The [for i in range(1, 10000)] loop of [_safe_dest]; [None] when the
    loop runs to its end. *)
Fixpoint safe_dest_loop (w : World) (src parent base_stem suffix : string)
    (range : list nat) : option (string * DestStatus) :=
  match range with
  | [] => None
  | i :: range' =>
      let cand := candidate parent base_stem suffix i in
      if negb (_exists w cand) then Some (cand, renamed)
      else if _files_identical w src cand then Some (cand, skip)
      else safe_dest_loop w src parent base_stem suffix range'
  end.

Definition base_stem_of (stem : string) : string :=
  match match_group1 NUMBERED_STEM stem with
  | Some g => g
  | None => stem
  end.

Definition _safe_dest (w : World) (src dst : string)
  : string * DestStatus :=
  if negb (_exists w dst) then (dst, ok)
  else if _files_identical w src dst then (dst, skip)
  else
    let stem := Path.stem dst in
    let suffix := Path.suffix dst in
    let parent := Path.parent dst in
    let base_stem := base_stem_of stem in
    match safe_dest_loop w src parent base_stem suffix (seq 1 9999) with
    | Some r => r
    | None => (dst, ok)
    end.

Definition error_line (c : Change) (src : string) (msg : string) : string :=
  "  ERROR [" +:+ action_name (action c) +:+ "] " +:+ Path.name src
    +:+ ": " +:+ msg.

(** The retry loop of [_exec_copy] over the remaining attempt numbers,
    with the statements that follow it. *)
Fixpoint retry_copy (c : Change) (src actual : string)
    (attempts : list nat) (last_err : string) : X Change :=
  match attempts with
  | [] =>
      let c' := set_status failed c in
      perform _log_safe c' ;
      perform tqdm_write (error_line c' src last_err) ;
      xret c'
  | attempt :: rest =>
      xtry (perform shutil_copy2 src actual ;
            let c' := set_status done c in
            perform _log_safe c' ;
            xret c')
           (fun e =>
              if is_sharing_violation e then
                perform time_sleep (retry_delay attempt) ;
                perform gc_collect ;
                retry_copy c src actual rest (errmsg e)
              else xraise e)
  end.

(** The [except Exception as e] clause of [_exec_copy], for the entry
    as it is when the exception is raised. *)
Definition fail_handler (c : Change) (src : string) (e : OSError)
  : X Change :=
  let c' := set_status failed c in
  perform _log_safe c' ;
  perform tqdm_write (error_line c' src (errmsg e)) ;
  xret c'.

(** [_exec_copy] up to its retry loop: the entry when the function
    returns before the loop, or the entry and the path to copy to. *)
Definition exec_copy_pre (c : Change) : X (Change + Change * string) :=
  fun w =>
    let src := source c in
    let dst := destination c in
    if negb (_exists w src) then
      (let c' := set_status skipped c in
       perform _log_safe c' ; xret (inl c')) w
    else
      (perform os_makedirs (Path.parent dst) ;
       fun w =>
         let '(actual, st) := _safe_dest w src dst in
         match st with
         | skip =>
             (let c' := set_status skipped c in
              perform _log_safe c' ; xret (inl c')) w
         | renamed => (Ok (inr (set_destination actual c, actual)), w)
         | ok => (Ok (inr (c, actual)), w)
         end) w.

(** [_exec_copy].  An exception raised before the retry loop meets the
    entry with the destination it was planned with, an exception raised
    in the loop or after it meets the entry as already renamed; an
    exception raised by the [except] clause itself leaves the
    function. *)
Definition _exec_copy (c : Change) : X Change :=
  fun w =>
    match exec_copy_pre c w with
    | (Ok (inl c'), w') => (Ok c', w')
    | (Ok (inr (c1, actual)), w') =>
        xtry (retry_copy c1 (source c) actual (seq 0 _RETRY_ATTEMPTS) "None")
             (fail_handler c1 (source c)) w'
    | (Raise e, w') => fail_handler c (source c) e w'
    end.

(** One ledger entry of a real run of [Ledger.execute]. *)
Definition exec_one (c : Change) : X Change :=
  match action c with
  | create_folder =>
      perform os_makedirs (destination c) ;
      let c' := set_status done c in
      perform _log_safe c' ;
      xret c'
  | copy_file => _exec_copy c
  | other_action _ => xret c
  end.

Fixpoint exec_all (cs : list Change) : X (list Change) :=
  match cs with
  | [] => xret []
  | c :: cs' =>
      do c' <- exec_one c ;
      do cs'' <- exec_all cs' ;
      xret (c' :: cs'')
  end.

(** [Ledger.execute].  A batch of consecutive copies handed to the
    thread pool is run in ledger order, one of its schedules.  An
    exception that leaves [_exec_copy] or the folder branch leaves
    [execute]: the loop is under [try ... finally] only, and
    [f.result()] raises again what a copy of a batch has raised.  With
    [workers = 1] the run stops there, as modelled; the copies of the
    same batch that a thread pool still runs before the exception
    leaves [execute] are not modelled. *)
Definition Ledger_execute (l : Ledger) (dry_run : bool) : X Ledger :=
  if dry_run then xret l
  else
    do cs <- exec_all (changes l) ;
    xret (mkLedger cs (warnings l) (pdf_scans l) (_planned_dests l)).

End Hashing.

(** ** Rename and dedup pass *)

(** [stats = {"renamed": _, "deduped": _}] *)
Record RenameStats : Type := mkStats {
  renamed_count : nat;
  deduped_count : nat;
}.

(** The objects [_rename_dedup_group] mutates. *)
Record RenameState : Type := mkRenameState {
  rs_changes : list Change;
  rs_stats : RenameStats;
  rs_original_names : gmap (string * string) string;
}.

(** [by_hash[h].append(idx)] on an insertion-ordered [defaultdict(list)]. *)
Fixpoint by_hash_append (h : string) (idx : nat)
    (d : list (string * list nat)) : list (string * list nat) :=
  match d with
  | [] => [(h, [idx])]
  | (h', g) :: d' =>
      if String.eqb h' h then (h', g ++ [idx]) :: d'
      else (h', g) :: by_hash_append h idx d'
  end.

Definition group_by_hash (hashes : list (nat * string))
  : list (string * list nat) :=
  fold_left (fun d ih => by_hash_append (snd ih) (fst ih) d) hashes [].

(** The statements run on the keeper of one hash class. *)
Definition rename_keeper (keeper : nat) (new_name : string)
    (st : RenameState) : RenameState :=
  match rs_changes st !! keeper with
  | Some c =>
      let dst := destination c in
      mkRenameState
        (<[keeper := set_destination (Path.join (Path.parent dst) new_name) c]>
           (rs_changes st))
        (mkStats (S (renamed_count (rs_stats st)))
                 (deduped_count (rs_stats st)))
        (<[(vin c, new_name) := Path.name dst]> (rs_original_names st))
  | None => st
  end.

(** [for idx in group[1:]: remove.add(idx); stats["deduped"] += 1] *)
Definition drop_rest (group : list nat) (acc : gset nat * RenameState)
  : gset nat * RenameState :=
  let '(remove, st) := acc in
  (remove ∪ list_to_set (tail group),
   mkRenameState (rs_changes st)
     (mkStats (renamed_count (rs_stats st))
              (deduped_count (rs_stats st) + length (tail group)))
     (rs_original_names st)).

Section Rename.

Variable md5 : string -> string.

(** [hashes[idx] = _file_hash(changes[idx].source)]; [None] stands for
    the [IndexError] of an index outside the ledger. *)
Fixpoint hash_sources (w : World) (cs : list Change) (indices : list nat)
  : option (list (nat * string)) :=
  match indices with
  | [] => Some []
  | idx :: rest =>
      match cs !! idx, hash_sources w cs rest with
      | Some c, Some hs => Some ((idx, _file_hash md5 w (source c)) :: hs)
      | _, _ => None
      end
  end.

(** The numbering loop over the distinct hashes; [counter] is the value
    before the iteration. *)
Fixpoint number_groups (base_name : string) (counter : nat)
    (groups : list (string * list nat)) (acc : gset nat * RenameState)
  : gset nat * RenameState :=
  match groups with
  | [] => acc
  | (_, group) :: groups' =>
      let '(remove, st) := drop_rest group acc in
      let counter := S counter in
      let st' :=
        match head group with
        | Some keeper =>
            rename_keeper keeper
              (base_name +:+ "_" +:+ str_nat counter +:+ ".pdf") st
        | None => st
        end in
      number_groups base_name counter groups' (remove, st')
  end.

(** [_rename_dedup_group]: the set of indices to remove, and the
    mutated arguments. *)
Definition _rename_dedup_group (w : World) (st : RenameState)
    (indices : list nat) (base_name : string)
  : option (gset nat * RenameState) :=
  match indices with
  | [] => Some (∅, st)
  | _ =>
      match hash_sources w (rs_changes st) indices with
      | None => None
      | Some hashes =>
          let by_hash := group_by_hash hashes in
          match by_hash with
          | [(_, group)] =>
              let '(remove, st1) := drop_rest group (∅, st) in
              match head group with
              | Some keeper =>
                  Some (remove,
                        rename_keeper keeper (base_name +:+ ".pdf") st1)
              | None => Some (remove, st1)
              end
          | _ => Some (number_groups base_name 0 by_hash (∅, st))
          end
      end
  end.

End Rename.

(** [[c for i, c in enumerate(changes) if i not in remove]] *)
Definition remove_indices (remove : gset nat) (cs : list Change)
  : list Change :=
  map snd (List.filter (fun ic => negb (bool_decide (fst ic ∈ remove)))
                       (imap (fun i c => (i, c)) cs)).

(** The planned-destination index as [plan_category_renames] rebuilds it. *)
Definition rebuild_planned_dests (cs : list Change) : gmap string string :=
  fold_left (fun m c => if is_copy c then <[destination c := source c]> m
                        else m) cs ∅.

(** ** Parent and keeper election *)

Inductive Kind : Type := RegularFile | Directory | OtherKind.

(** An item of [folder.iterdir()]. *)
Record DirEntry : Type := mkEntry {
  entry_name : string;
  kind : Kind;
}.

Definition is_file (e : DirEntry) : bool :=
  match kind e with RegularFile => true | _ => false end.
Definition is_dir (e : DirEntry) : bool :=
  match kind e with Directory => true | _ => false end.

Definition is_pdf (name : string) : bool :=
  String.eqb (lower (Path.suffix name)) ".pdf".

(** [max(xs, key=key)]: the first element whose key is maximal. *)
Definition py_max_by {A : Type} (key : A -> nat) (xs : list A) : option A :=
  match xs with
  | [] => None
  | x :: xs' =>
      Some (fold_left (fun best y => if key best <? key y then y else best)
                      xs' x)
  end.

(** [pool.count(v)] *)
Definition count (v : string) (pool : list string) : nat :=
  length (List.filter (String.eqb v) pool).

(** [sorted(names)] *)
Definition sorted (names : list string) : list string :=
  merge_sort String.le names.

(** The three pools of [get_parent_vin]. *)
Record Pools : Type := mkPools {
  fl_vins : list string;
  seriec_vins : list string;
  other_vins : list string;
}.

Definition pool_step (p : Pools) (item : DirEntry) : Pools :=
  let fn := entry_name item in
  if negb (is_file item) || negb (is_pdf fn) then p
  else
    match match_group1 FL_PATTERN fn with
    | Some v => mkPools (fl_vins p ++ [v]) (seriec_vins p) (other_vins p)
    | None =>
        match match_group1 SERIEC_PATTERN fn with
        | Some v => mkPools (fl_vins p) (seriec_vins p ++ [v]) (other_vins p)
        | None =>
            match match_group1 PREFIX_PATTERN fn with
            | Some v =>
                if is_valid_vin v
                then mkPools (fl_vins p) (seriec_vins p) (other_vins p ++ [v])
                else p
            | None => p
            end
        end
    end.

Definition pools_of (items : list DirEntry) : Pools :=
  fold_left pool_step items (mkPools [] [] []).

(** [file_fn_vins[name] = fn_vins] on an insertion-ordered dict. *)
Fixpoint dict_set {V : Type} (k : string) (v : V) (d : list (string * V))
  : list (string * V) :=
  match d with
  | [] => [(k, v)]
  | (k', v') :: d' =>
      if String.eqb k' k then (k', v) :: d' else (k', v') :: dict_set k v d'
  end.

Fixpoint dict_get {V : Type} (k : string) (d : list (string * V)) : option V :=
  match d with
  | [] => None
  | (k', v) :: d' => if String.eqb k' k then Some v else dict_get k d'
  end.

(** [vin_counts[v] += 1] on an insertion-ordered [defaultdict(int)]. *)
Definition count_incr (d : list (string * nat)) (v : string)
  : list (string * nat) :=
  dict_set v (S (default 0 (dict_get v d))) d.

Definition mem (v : string) (s : list string) : bool :=
  existsb (String.eqb v) s.

(** What the first loop of [plan_flat] gathers. *)
Record FlatScan : Type := mkFlatScan {
  file_fn_vins : list (string * list string);
  all_fn_vins : list string;
  all_vins_for_election : list string;
}.

Section SetOrder.

(** The iteration order of the set built from a list, [set(xs)]: some
    arrangement of the distinct elements, fixed by the interpreter. *)
Variable set_iter : list string -> list string.

Definition mode_of (pool : list string) : option string :=
  py_max_by (fun v => count v pool) (set_iter pool).

(** [get_parent_vin]; the listing is [None] when [folder.iterdir()]
    raises [PermissionError]. *)
Definition get_parent_vin (listing : option (list DirEntry))
  : option string :=
  match listing with
  | None => None
  | Some items =>
      let p := pools_of items in
      match fl_vins p, seriec_vins p, other_vins p with
      | _ :: _, _, _ => mode_of (fl_vins p)
      | [], _ :: _, _ => mode_of (seriec_vins p)
      | [], [], _ :: _ => mode_of (other_vins p)
      | [], [], [] => None
      end
  end.

(** The parent VIN of [plan_multi_car]; [None] stands for the
    [IndexError] of an empty [vin_subdirs]. *)
Definition multi_car_parent (listing : option (list DirEntry))
    (vin_subdirs : list string) : option string :=
  match get_parent_vin listing with
  | Some p => if String.eqb p "" then head (sorted vin_subdirs) else Some p
  | None => head (sorted vin_subdirs)
  end.

(** The first loop of [plan_flat]; [pdf_vins] is the outcome of
    [extract_vins_from_pdf] on each file of the folder. *)
Definition flat_scan_step (scan_pdf : bool)
    (pdf_vins : string -> list string) (s : FlatScan) (item : DirEntry)
  : FlatScan :=
  if negb (is_file item) then s
  else
    let fn := entry_name item in
    let fn_vins := set_iter (extract_all_vins fn) in
    let election :=
      if scan_pdf && is_pdf fn
      then all_vins_for_election s ++ pdf_vins fn
      else all_vins_for_election s in
    mkFlatScan (dict_set fn fn_vins (file_fn_vins s))
               (all_fn_vins s ++ fn_vins)
               (election ++ fn_vins).

Definition flat_scan (scan_pdf : bool) (pdf_vins : string -> list string)
    (items : list DirEntry) : FlatScan :=
  fold_left (flat_scan_step scan_pdf pdf_vins) items (mkFlatScan [] [] []).

(** [vin_counts] of [plan_flat], keys in insertion order. *)
Definition vin_counts_of (ffv : list (string * list string))
  : list (string * nat) :=
  fold_left (fun d fvins => fold_left count_incr fvins d) (map snd ffv) [].

(** [max(vin_counts, key=vin_counts.get)] *)
Definition max_count_vin (vin_counts : list (string * nat)) : option string :=
  py_max_by (fun v => default 0 (dict_get v vin_counts))
            (map fst vin_counts).

Definition is_empty {A : Type} (l : list A) : bool :=
  match l with [] => true | _ => false end.

(** The keeper election of [plan_flat], from [# Pick keeper VIN] on;
    [election] is [all_vins_for_election] at that point. *)
Definition elect_keeper (listing : option (list DirEntry)) (s : FlatScan)
    (election : list string) : option string :=
  let parent_vin := get_parent_vin listing in
  let candidates :=
    if is_empty (all_fn_vins s) then election else all_fn_vins s in
  let by_count :=
    let vin_counts := vin_counts_of (file_fn_vins s) in
    if negb (is_empty vin_counts) then max_count_vin vin_counts
    else if negb (is_empty election) then head (set_iter election)
    else None in
  match parent_vin with
  | Some p =>
      if negb (String.eqb p "") && mem p candidates then Some p
      else by_count
  | None => by_count
  end.

(** The keeper of [plan_flat]: [None] when the function returns before
    electing one. *)
Definition flat_keeper (listing : option (list DirEntry))
    (folder_name : string) (scan_pdf : bool)
    (pdf_vins : string -> list string) : option string :=
  match listing with
  | None => None
  | Some items =>
      let s := flat_scan scan_pdf pdf_vins items in
      if is_empty (all_fn_vins s) && is_empty (all_vins_for_election s) then
        let folder_vins := set_iter (extract_all_vins folder_name) in
        if negb (is_empty folder_vins)
        then elect_keeper listing s (all_vins_for_election s ++ folder_vins)
        else None
      else elect_keeper listing s (all_vins_for_election s)
  end.

End SetOrder.

(** ** Content patterns *)

Definition utf8 (bytes : list nat) : Re.re :=
  Re.seqs (map (fun n => Re.Chr (fun b => code b =? n)) bytes).

(** The letters outside ASCII of the source's patterns, either case. *)
Definition a_breve : Re.re := Re.Alt (utf8 [196; 131]) (utf8 [196; 130]).
Definition t_comma : Re.re := Re.Alt (utf8 [200; 155]) (utf8 [200; 154]).
Definition i_circ : Re.re := Re.Alt (utf8 [195; 174]) (utf8 [195; 142]).

(** [[aă]], [[tț]], [[IÎ]] and [[aăi]] under [re.IGNORECASE]. *)
Definition a_or_breve : Re.re := Re.Alt (Re.chr_i "a") a_breve.
Definition t_or_comma : Re.re := Re.Alt (Re.chr_i "t") t_comma.
Definition i_or_circ : Re.re := Re.Alt (Re.chr_i "i") i_circ.
Definition a_breve_i : Re.re := Re.Alt (Re.one_of_i "ai") a_breve.

Definition spaces1 : Re.re := Re.plus Re.space.
Definition spaces0 : Re.re := Re.star Re.space.

Definition any_match (pats : list Re.re) (text : string) : bool :=
  existsb (fun p => Re.matches p text) pats.

(** [_FACTURA_PRIORITY = factur[aăi]], [re.I] *)
Definition _FACTURA_PRIORITY : Re.re :=
  Re.Seq (Re.lit_i "factur") a_breve_i.

Definition _CONTRACT_PATTERNS : list Re.re :=
  [ Re.seqs [Re.lit_i "Contract"; spaces1; Re.lit_i "Cadru"];
    Re.seqs [Re.lit_i "ctr";
             Re.star (Re.Chr (fun a => is_space a || (code a =? 95)
                                       || (code a =? 46)));
             Re.lit_i "cadru"];
    Re.seqs [Re.lit_i "CTR"; Re.chr "."; spaces0; Re.lit_i "CADRU"];
    Re.seqs [Re.lit_i "Contract"; spaces1; Re.lit_i "de"; spaces1;
             Re.lit_i "Leasing"];
    Re.seqs [Re.lit_i "LO"; spaces1; Re.lit_i "Contract"] ].

Definition _SUBCONTRACT_PATTERNS : list Re.re :=
  [ Re.lit_i "Subcontract";
    Re.seqs [Re.lit_i "_sub"; spaces0; Re.digit];
    Re.seqs [Re.Bol; Re.lit_i "VIEW_Subcontract"] ].

Definition _CASCO_PATTERNS : list Re.re :=
  [ Re.lit_i "CASCO";
    Re.lit_i "FlexiCasco";
    Re.seqs [Re.lit_i "Polita"; spaces0; Re.lit_i "DT"] ].

Definition _RCA_PATTERNS : list Re.re :=
  [ Re.lit_i "POLITA_RCA";
    Re.seqs [Re.Bol; Re.lit_i "POLITA_"];
    Re.seqs [Re.WordB; Re.lit_i "RCA"; Re.WordB] ].

Definition _pdf_critical_category (fn : string) : option string :=
  if Re.matches _FACTURA_PRIORITY fn then None
  else if any_match _SUBCONTRACT_PATTERNS fn then Some "Subcontract"
  else if any_match _CONTRACT_PATTERNS fn then Some "Contract Cadru"
  else if any_match _CASCO_PATTERNS fn then Some "CASCO"
  else if any_match _RCA_PATTERNS fn then Some "RCA"
  else None.

Definition _CRITICAL_CATEGORIES : gset string :=
  {[ "Contract Cadru"; "Subcontract"; "CASCO"; "RCA" ]}.

(** [_CONTENT_CATEGORY_PATTERNS] *)
Definition _CONTENT_CATEGORY_PATTERNS : list (string * list Re.re) :=
  [ ("Contract Cadru",
     [ Re.seqs [Re.lit_i "Contract"; spaces1; Re.lit_i "Cadru"];
       Re.seqs [Re.lit_i "Contract"; spaces1; Re.lit_i "de"; spaces1;
                Re.lit_i "Leasing"];
       Re.seqs [Re.lit_i "Leasing"; spaces1; Re.lit_i "Opera"; t_or_comma;
                Re.lit_i "ional"] ]);
    ("Subcontract",
     [ Re.lit_i "Subcontract";
       Re.seqs [Re.lit_i "Act"; spaces1; Re.lit_i "Adi"; t_or_comma;
                Re.lit_i "ional"] ]);
    ("CASCO",
     [ Re.seqs [Re.WordB; Re.lit_i "CASCO"; Re.WordB];
       Re.lit_i "FlexiCasco";
       Re.seqs [Re.lit_i "Poli"; t_or_comma; a_or_breve; spaces1;
                Re.lit_i "DT"; Re.WordB] ]);
    ("RCA",
     [ Re.seqs [Re.WordB; Re.lit "RCA"; Re.WordB];
       Re.seqs [Re.lit_i "R"; a_or_breve; Re.lit_i "spundere"; spaces1;
                Re.lit_i "Civil"; a_or_breve] ]);
    ("TALON / CIV",
     [ Re.seqs [Re.WordB; Re.lit_i "TALON"; Re.WordB];
       Re.seqs [Re.lit_i "Certificat"; spaces1; Re.lit_i "de"; spaces1;
                i_or_circ; Re.lit_i "nmatricul"];
       Re.seqs [Re.WordB; Re.lit "CIV"; Re.WordB] ]);
    ("Facturi",
     [ Re.Seq (Re.lit_i "FACTUR") a_or_breve;
       Re.seqs [Re.lit_i "Factur"; a_or_breve; spaces1; Re.lit_i "fiscal";
                a_or_breve];
       Re.seqs [Re.lit_i "Factur"; a_or_breve; spaces1; Re.lit_i "proform";
                a_or_breve] ]) ].

Definition _CONTENT_PRIORITY : list string :=
  ["Facturi"; "TALON / CIV"; "Contract Cadru"; "Subcontract"; "CASCO"; "RCA"].

Definition patterns_of (cat : string) : list Re.re :=
  default [] (dict_get cat _CONTENT_CATEGORY_PATTERNS).

(** The two nested loops that end [_scan_pdf_for_category]. *)
Fixpoint first_in_priority (priority : list string) (text : string)
  : option string :=
  match priority with
  | [] => None
  | cat :: rest =>
      if any_match (patterns_of cat) text then Some cat
      else first_in_priority rest text
  end.

(** [_scan_pdf_for_category].  [_reclass_cache] is the injectable cache;
    [ocr_cached] is the value found in the persistent OCR cache when
    [ocr] is set and the entry is valid; [extracted] is the text read
    from the PDF, [None] when opening or reading it raises. *)
Definition _scan_pdf_for_category (_reclass_cache : gmap string (option string))
    (ocr_cached : option (option string)) (HAS_PYMUPDF : bool)
    (extracted : option string) (pdf_path : string) : option string :=
  match _reclass_cache !! pdf_path with
  | Some cached => cached
  | None =>
      match ocr_cached with
      | Some val => val
      | None =>
          if negb HAS_PYMUPDF then None
          else
            match extracted with
            | None => None
            | Some text => first_in_priority _CONTENT_PRIORITY text
            end
      end
  end.

(** ** PDF-content cross-copies and contract gap-fill *)

Record CrossStats : Type := mkCrossStats {
  cross_copied : nat;
  skipped_too_many : nat;
  pdfs_checked : nat;
}.

(** [output_root / parts[0]] for a destination under the output root
    with at least two further components. *)
Definition partition_dir (output_root : string) (c : Change) : option string :=
  match Path.relative_to (destination c) output_root with
  | Some (p :: _ :: _) => Some (Path.join output_root p)
  | _ => None
  end.

Definition cross_vin_partition (output_root : string) (cs : list Change)
  : gmap string string :=
  fold_left
    (fun m c =>
       if String.eqb (vin c) "" then m
       else
         match action c with
         | other_action _ => m
         | _ =>
             match partition_dir output_root c with
             | Some p => <[vin c := p]> m
             | None => m
             end
         end)
    cs ∅.

Definition planned_pairs (cs : list Change) : gset (string * string) :=
  list_to_set (map (fun c => (source c, vin c)) (List.filter is_copy cs)).

Definition too_many_warning (src : string) (n : nat) : string :=
  "PDF '" +:+ Path.name src +:+ "' has " +:+ str_nat n
    +:+ " VINs in content, skipping cross-copy (limit="
    +:+ str_nat MAX_CROSS_COPY_VINS +:+ ")".

Record CrossState : Type := mkCrossState {
  cs_ledger : Ledger;
  cs_planned : gset (string * string);
  cs_stats : CrossStats;
}.

(** One iteration of [for vin in sorted(content_vins)]. *)
Definition cross_copy_vin (vin_partition : gmap string string)
    (c : Change) (st : CrossState) (v : string) : CrossState :=
  let src := source c in
  if bool_decide ((src, v) ∈ cs_planned st) then st
  else
    match vin_partition !! v with
    | None => st
    | Some out_part =>
        let dest := Path.join (Path.join out_part v) (Path.name src) in
        mkCrossState
          (Ledger_add (cs_ledger st) copy_file src dest
                      "PDF content VIN cross-copy" (parent_folder c) v)
          ({[ (src, v) ]} ∪ cs_planned st)
          (mkCrossStats (S (cross_copied (cs_stats st)))
                        (skipped_too_many (cs_stats st))
                        (pdfs_checked (cs_stats st)))
    end.

(** One iteration of [for c in original_changes]. *)
Definition cross_copy_step (_pdf_cache : gmap string (gset string))
    (vin_partition : gmap string string) (st : CrossState) (c : Change)
  : CrossState :=
  if negb (is_copy c) then st
  else if negb (is_pdf (source c)) then st
  else
    let content_vins := default ∅ (_pdf_cache !! source c) in
    if bool_decide (content_vins = ∅) then st
    else
      let checked :=
        mkCrossStats (cross_copied (cs_stats st))
                     (skipped_too_many (cs_stats st))
                     (S (pdfs_checked (cs_stats st))) in
      if MAX_CROSS_COPY_VINS <? size content_vins then
        mkCrossState
          (Ledger_warn (cs_ledger st)
                       (too_many_warning (source c) (size content_vins)))
          (cs_planned st)
          (mkCrossStats (cross_copied checked)
                        (S (skipped_too_many checked))
                        (pdfs_checked checked))
      else
        fold_left (cross_copy_vin vin_partition c)
                  (sorted (elements content_vins))
                  (mkCrossState (cs_ledger st) (cs_planned st) checked).

(** [plan_pdf_cross_copies] *)
Definition plan_pdf_cross_copies (_pdf_cache : gmap string (gset string))
    (ledger : Ledger) (output_root : string) : Ledger * CrossStats :=
  let vin_partition := cross_vin_partition output_root (changes ledger) in
  let already_planned := planned_pairs (changes ledger) in
  let original_changes := changes ledger in
  let st :=
    fold_left (cross_copy_step _pdf_cache vin_partition) original_changes
              (mkCrossState ledger already_planned (mkCrossStats 0 0 0)) in
  (cs_ledger st, cs_stats st).

Record GapStats : Type := mkGapStats {
  gap_filled : nat;
  vins_with_gaps : nat;
}.

(** What the first loop of [plan_contract_gap_fill] builds. *)
Record GapIndex : Type := mkGapIndex {
  gi_vin_categories : gmap string (gset string);
  gi_vin_partition : list (string * string);
  gi_already_planned : gset (string * string);
}.

Definition add_category (v cat : string) (m : gmap string (gset string))
  : gmap string (gset string) :=
  <[v := {[ cat ]} ∪ default ∅ (m !! v)]> m.

Definition gap_index_step (_pdf_content_cats : gmap string (gset string))
    (output_root : string) (g : GapIndex) (c : Change) : GapIndex :=
  if negb (is_copy c) then g
  else
    let planned := {[ (source c, vin c) ]} ∪ gi_already_planned g in
    if String.eqb (vin c) "" then
      mkGapIndex (gi_vin_categories g) (gi_vin_partition g) planned
    else
      let fn := Path.name (destination c) in
      let cats1 :=
        match _pdf_critical_category fn with
        | Some fn_cat => add_category (vin c) fn_cat (gi_vin_categories g)
        | None => gi_vin_categories g
        end in
      let content_cats := default ∅ (_pdf_content_cats !! source c) in
      let cats2 :=
        fold_left (fun m cc => if bool_decide (cc ∈ _CRITICAL_CATEGORIES)
                               then add_category (vin c) cc m else m)
                  (elements content_cats) cats1 in
      let part :=
        match partition_dir output_root c with
        | Some p => dict_set (vin c) p (gi_vin_partition g)
        | None => gi_vin_partition g
        end in
      mkGapIndex cats2 part planned.

(** [vins_needing], in the order of [vin_partition]. *)
Definition vins_needing_of (g : GapIndex) : list (string * gset string) :=
  omap (fun vp =>
          let missing :=
            _CRITICAL_CATEGORIES
              ∖ default ∅ (gi_vin_categories g !! fst vp) in
          if bool_decide (missing = ∅) then None
          else Some (fst vp, missing))
       (gi_vin_partition g).

(** One iteration of the loop that builds [pdf_info]. *)
Definition pdf_info_step (_pdf_cache _pdf_content_cats : gmap string (gset string))
    (info : list (string * (gset string * gset string))) (c : Change)
  : list (string * (gset string * gset string)) :=
  if negb (is_copy c) then info
  else
    let src_str := source c in
    match dict_get src_str info with
    | Some _ => info
    | None =>
        if negb (is_pdf src_str) then info
        else
          let content_vins := default ∅ (_pdf_cache !! src_str) in
          if bool_decide (content_vins = ∅) then info
          else
            let from_name : gset string :=
              match _pdf_critical_category (Path.name src_str) with
              | Some fn_cat => {[ fn_cat ]}
              | None => ∅
              end in
            let cats :=
              from_name
                ∪ (default ∅ (_pdf_content_cats !! src_str)
                     ∩ _CRITICAL_CATEGORIES) in
            if bool_decide (cats = ∅) then info
            else info ++ [(src_str, (cats, content_vins))]
    end.

Record GapState : Type := mkGapState {
  gs_ledger : Ledger;
  gs_planned : gset (string * string);
  gs_filled : nat;
}.

(** The loop over [pdf_info.items()] for one VIN; it stops at the
    [break] taken when nothing is missing any more. *)
Fixpoint gap_fill_vin (v out_part : string)
    (info : list (string * (gset string * gset string)))
    (missing_cats : gset string) (st : GapState) : GapState :=
  match info with
  | [] => st
  | (src_str, (cats, content_vins)) :: info' =>
      let matching := cats ∩ missing_cats in
      if bool_decide (matching = ∅) then
        gap_fill_vin v out_part info' missing_cats st
      else if negb (bool_decide (v ∈ content_vins)) then
        gap_fill_vin v out_part info' missing_cats st
      else if bool_decide ((src_str, v) ∈ gs_planned st) then
        gap_fill_vin v out_part info' missing_cats st
      else
        let dest := Path.join (Path.join out_part v) (Path.name src_str) in
        let filled_cat := default "" (head (sorted (elements matching))) in
        let st' :=
          mkGapState
            (Ledger_add (gs_ledger st) copy_file src_str dest
               ("Gap-fill: " +:+ filled_cat +:+ " from PDF content") "" v)
            ({[ (src_str, v) ]} ∪ gs_planned st)
            (S (gs_filled st)) in
        let missing' := missing_cats ∖ matching in
        if bool_decide (missing' = ∅) then st'
        else gap_fill_vin v out_part info' missing' st'
  end.

(** [plan_contract_gap_fill] *)
Definition plan_contract_gap_fill
    (_pdf_cache _pdf_content_cats : gmap string (gset string))
    (ledger : Ledger) (output_root : string) : Ledger * GapStats :=
  let g :=
    fold_left (gap_index_step _pdf_content_cats output_root) (changes ledger)
              (mkGapIndex ∅ [] ∅) in
  let vins_needing := vins_needing_of g in
  match vins_needing with
  | [] => (ledger, mkGapStats 0 0)
  | _ =>
      let pdf_info :=
        fold_left (pdf_info_step _pdf_cache _pdf_content_cats)
                  (changes ledger) [] in
      let st :=
        fold_left
          (fun st vm =>
             match dict_get (fst vm) (gi_vin_partition g) with
             | None => st
             | Some out_part =>
                 gap_fill_vin (fst vm) out_part pdf_info (snd vm) st
             end)
          vins_needing
          (mkGapState ledger (gi_already_planned g) 0) in
      (gs_ledger st, mkGapStats (gs_filled st) (length vins_needing))
  end.

(** ** Vocabulary of the properties *)

(** The ledgers that planning builds: from the empty ledger by
    [Ledger.add], [Ledger.warn] and [Ledger.log_pdf_scan]. *)
Inductive planning : Ledger -> Prop :=
| planning_init : planning Ledger_init
| planning_add l act src dst rsn pf v :
    planning l -> planning (Ledger_add l act src dst rsn pf v)
| planning_warn l msg :
    planning l -> planning (Ledger_warn l msg)
| planning_log l path vins :
    planning l -> planning (Ledger_log_pdf_scan l path vins).

(** The sources of the copies planned for destination [d], oldest first. *)
Definition sources_to (d : string) (cs : list Change) : list string :=
  map source
      (List.filter (fun c => is_copy c && String.eqb (destination c) d) cs).

Fixpoint no_adjacent_repeat (l : list string) : Prop :=
  match l with
  | x :: ((y :: _) as t) => x <> y /\ no_adjacent_repeat t
  | _ => True
  end.

(** No two copies share a destination unless they share a source. *)
Definition dest_determines_source (l : Ledger) : Prop :=
  forall c1 c2,
    In c1 (changes l) -> In c2 (changes l) ->
    is_copy c1 = true -> is_copy c2 = true ->
    destination c1 = destination c2 -> source c1 = source c2.

(** The successive candidates of [_safe_dest] for destination [dst]. *)
Definition candidate_of (dst : string) (i : nat) : string :=
  candidate (Path.parent dst) (base_stem_of (Path.stem dst))
            (Path.suffix dst) i.

(** A candidate is busy for [src] when a file is there and it is not
    identical to [src]. *)
Definition busy (md5 : string -> string) (w : World) (src p : string) : bool :=
  _exists w p && negb (_files_identical md5 w src p).

(** The delays of the five attempts. *)
Definition backoff : list Q := map retry_delay (seq 0 _RETRY_ATTEMPTS).

Definition slept_more (ds : list Q) (w : World) : World :=
  mkWorld (files w) (unreadable w) (faults w) (slept w ++ ds)
          (jsonl w) (console w).
Definition logged (c : Change) (w : World) : World :=
  mkWorld (files w) (unreadable w) (faults w) (slept w)
          (jsonl w ++ [c]) (console w).

(** No fate but those of copies is left: the folders can be made and
    the log file and the console can be written. *)
Definition is_copy_fate (f : Fate) : bool :=
  match f with
  | copy_fate _ => true
  | io_fate _ => false
  end.
Definition copies_only (fs : list Fate) : Prop :=
  forallb is_copy_fate fs = true.

(** The fates of copies that fail one after the other, each with its
    error and with what it leaves at the destination. *)
Definition copy_failures (rs : list (OSError * option string)) : list Fate :=
  map (fun r => copy_fate (Some r)) rs.

(** What failed copies to [dst] leave there. *)
Definition left_over (dst : string) (lefts : list (option string))
    (w : World) : World :=
  with_files (fold_left (leave dst) lefts (files w)) w.


(** An output folder where [doc.pdf] and [doc_1.pdf] ... [doc_9999.pdf]
    all exist, none with the bytes of the source. *)
Definition crowded_src : string := "/SIN/P/V/doc.pdf".
Definition crowded_dst : string := "/OUT/P/V/doc.pdf".
Definition crowded_files : gmap string string :=
  <[crowded_src := "new bytes"]>
    (<[crowded_dst := "old"]>
       (list_to_map
          (map (fun i => (candidate "/OUT/P/V" "doc" ".pdf" i, "old"))
               (seq 1 9999)))).
Definition crowded : World := mkWorld crowded_files ∅ [] [] [] [].
Definition crowded_copy : Change :=
  mkChange copy_file crowded_src crowded_dst "Copy to keeper VIN" "V" "V"
           planned.

(** A stand-in digest for closed examples: the bytes themselves. *)
Definition plain_digest (data : string) : string := data.

(** [str(last_err)] after the sharing violations [es]. *)
Definition last_message (initial : string) (es : list OSError) : string :=
  match last es with
  | Some e => errmsg e
  | None => initial
  end.

Definition sharing (e : OSError) : Prop := is_sharing_violation e = true.

(** The entry as [_exec_copy] holds it when it starts copying. *)
Definition renamed_to (actual : string) (st : DestStatus) (c : Change)
  : Change :=
  match st with
  | renamed => set_destination actual c
  | _ => c
  end.

(** A copy whose destination is free but locked by another process for
    as long as the executor tries. *)
Definition sharing_error : OSError :=
  mkOSError 32 "The process cannot access the file because it is being used by another process".
Definition locked_world : World :=
  mkWorld {[ "/SIN/P/V/FL.pdf" := "fl" ]} ∅
          (copy_failures (replicate 5 (sharing_error, None))) [] [] [].
Definition locked_copy : Change :=
  mkChange copy_file "/SIN/P/V/FL.pdf" "/OUT/P/V/FL.pdf"
           "Copy from VIN folder" "V" "V" planned.


(** A disk that fills up: the copy of the first entry fails after it
    has created its destination, and the record of the failure cannot
    be written to the log file either.  The folder entry keeps the two
    copies in different batches of the thread pool. *)
Definition disk_full : OSError := mkOSError 0 "No space left on device".

(** The copy of [locked_copy] is already at its destination, and the
    log file cannot be written when the skip is recorded. *)
Definition full_log : World :=
  mkWorld (<["/SIN/P/V/FL.pdf" := "fl"]> (<["/OUT/P/V/FL.pdf" := "fl"]> ∅)) ∅
          [io_fate None; io_fate (Some disk_full)] [] [] [].

(** The digest of the source of entry [i], as the rename pass reads it. *)
Definition hash_at (md5 : string -> string) (w : World) (cs : list Change)
    (i : nat) : string :=
  match cs !! i with
  | Some c => _file_hash md5 w (source c)
  | None => ""
  end.

(** The first element of each class of a list, where two elements are
    in one class when they have the same key, in the order in which the
    distinct keys are met; [seen] holds the keys already met. *)
Fixpoint class_firsts {A : Type} (key : A -> string) (seen : list string)
    (l : list A) : list A :=
  match l with
  | [] => []
  | x :: rest =>
      if mem (key x) seen then class_firsts key seen rest
      else x :: class_firsts key (seen ++ [key x]) rest
  end.



(** Heads and tails of the groups of a [by_hash] dictionary. *)
Definition group_heads (d : list (string * list nat)) : list nat :=
  omap (fun hg => head (snd hg)) d.
Definition group_rests (d : list (string * list nat)) : gset nat :=
  ⋃ (map (fun hg => list_to_set (tail (snd hg))) d).
Definition rest_count (d : list (string * list nat)) : nat :=
  sum_list (map (fun hg => length (tail (snd hg))) d).

(** Three contracts planned for one VIN, the first and the third with
    the same bytes. *)
Definition dedup_world : World :=
  mkWorld {[ "/SIN/P/a/ctr_a.pdf" := "content_alpha";
             "/SIN/P/a/ctr_b.pdf" := "content_beta";
             "/SIN/P/b/ctr_c.pdf" := "content_alpha" ]}
          ∅ [] [] [] [].
Definition dedup_state : RenameState :=
  mkRenameState
    [ mkChange copy_file "/SIN/P/a/ctr_a.pdf"
               "/OUT/P/V/Contract Cadru v1.pdf" "" "a" "V" planned;
      mkChange copy_file "/SIN/P/a/ctr_b.pdf"
               "/OUT/P/V/Contract Cadru v2.pdf" "" "a" "V" planned;
      mkChange copy_file "/SIN/P/b/ctr_c.pdf"
               "/OUT/P/V/ctr cadru copy.pdf" "" "b" "V" planned ]
    (mkStats 0 0) ∅.

(** Patterns without capturing group. *)
Fixpoint groupless (r : Re.re) : bool :=
  match r with
  | Re.Grp _ _ => false
  | Re.Seq a b | Re.Alt a b => groupless a && groupless b
  | Re.Star _ a => groupless a
  | _ => true
  end.

(** The names of the PDF files directly in a folder, in listing order. *)
Definition pdf_names (items : list DirEntry) : list string :=
  map entry_name
      (List.filter (fun e => is_file e && is_pdf (entry_name e)) items).

(** The VIN that a PDF name gives to each pool. *)
Definition fl_of (fn : string) : option string := match_group1 FL_PATTERN fn.
Definition seriec_of (fn : string) : option string :=
  match fl_of fn with
  | Some _ => None
  | None => match_group1 SERIEC_PATTERN fn
  end.
Definition prefix_of (fn : string) : option string :=
  match fl_of fn, match_group1 SERIEC_PATTERN fn with
  | None, None =>
      match match_group1 PREFIX_PATTERN fn with
      | Some v => if is_valid_vin v then Some v else None
      | None => None
      end
  | _, _ => None
  end.

(** The first non-empty pool, in the order FL, seriec, prefix. *)
Definition first_pool (p : Pools) : list string :=
  match fl_vins p, seriec_vins p with
  | _ :: _, _ => fl_vins p
  | [], _ :: _ => seriec_vins p
  | [], [] => other_vins p
  end.

(** A set iterates over the elements of the list it was built from. *)
Definition iterates_elements (set_iter : list string -> list string) : Prop :=
  forall l v, In v (set_iter l) <-> In v l.

(** A stand-in for closed examples: a set iterates in insertion order. *)
Definition insertion_order (l : list string) : list string :=
  class_firsts (fun v => v) [] l.

(** A pattern that is a sequence: the elements of [pre], then [r]. *)
Fixpoint seq_chain (pre : list Re.re) (r : Re.re) : Re.re :=
  match pre with
  | [] => r
  | a :: pre' => Re.Seq a (seq_chain pre' r)
  end.

(** The pools as the specification words them: every file directly in
    the folder contributes, whatever its extension. *)
Definition spec_pools (items : list DirEntry) : Pools :=
  let names := map entry_name (List.filter is_file items) in
  mkPools (omap fl_of names) (omap seriec_of names) (omap prefix_of names).

(** A container with one loose text file named after a VIN and one
    VIN-named subdirectory. *)
Definition loose_text_listing : list DirEntry :=
  [ mkEntry "seriec_AAAAA2345678901AB_doc.txt" RegularFile;
    mkEntry "ZZZZZ2345678901AB" Directory ].

(** A flat folder with two files, each named after one VIN, listed by
    the operating system in this order. *)
Definition two_vin_listing : list DirEntry :=
  [ mkEntry "doc BBBBB2345678901AB.txt" RegularFile;
    mkEntry "doc AAAAA2345678901AB.txt" RegularFile ].

(** All the VINs of the file names of a scan, in enumeration order. *)
Definition counted_vins (s : FlatScan) : list string :=
  concat (map snd (file_fn_vins s)).

(** The parent-VIN rule of [plan_flat] does not apply. *)
Definition parent_rule_fails (set_iter : list string -> list string)
    (listing : option (list DirEntry)) (s : FlatScan)
    (election : list string) : Prop :=
  match get_parent_vin set_iter listing with
  | Some p =>
      negb (String.eqb p "")
      && mem p (if is_empty (all_fn_vins s) then election else all_fn_vins s)
      = false
  | None => True
  end.

(** The content VINs on record for a source. *)
Definition content_vins (_pdf_cache : gmap string (gset string))
    (src : string) : gset string :=
  default ∅ (_pdf_cache !! src).

(** A master contract in the folder of VIN A whose text names 109 VINs,
    VIN B among them; VIN B has no contract of its own. *)
Definition master_vin_a : string := "GAPA1234567890123".
Definition master_vin_b : string := "GAPB1234567890123".
Definition zero_padded (width n : nat) : string :=
  str_of (replicate (width - String.length (str_nat n)) "0"%char)
    +:+ str_nat n.
Definition master_vins : gset string :=
  list_to_set (master_vin_a :: master_vin_b
               :: map (fun i => "XTRA" +:+ zero_padded 13 i) (seq 0 107)).
Definition master_pdf : string :=
  "/SIN/P/GAPA1234567890123/Contract Cadru Leasing Operational.pdf".
Definition master_ledger : Ledger :=
  Ledger_add
    (Ledger_add
       (Ledger_add Ledger_init copy_file master_pdf
          "/OUT/P/GAPA1234567890123/Contract Cadru Leasing Operational.pdf"
          "Copy from VIN folder" master_vin_a master_vin_a)
       copy_file "/SIN/P/GAPA1234567890123/seriec_GAPA1234567890123_doc.pdf"
       "/OUT/P/GAPA1234567890123/seriec_GAPA1234567890123_doc.pdf"
       "Copy from VIN folder" master_vin_a master_vin_a)
    copy_file "/SIN/P/GAPB1234567890123/seriec_GAPB1234567890123_doc.pdf"
    "/OUT/P/GAPB1234567890123/seriec_GAPB1234567890123_doc.pdf"
    "Copy from VIN folder" master_vin_b master_vin_b.
Definition master_cache : gmap string (gset string) :=
  {[ master_pdf := master_vins ]}.
Definition master_cats : gmap string (gset string) :=
  {[ master_pdf := {[ "Contract Cadru" ]} ]}.
Definition master_gap_fill : Change :=
  mkChange copy_file master_pdf
    "/OUT/P/GAPB1234567890123/Contract Cadru Leasing Operational.pdf"
    "Gap-fill: Contract Cadru from PDF content" "" master_vin_b planned.

(** The text of the dominance test of the repository. *)
Definition newline : string := String (ascii_of_nat 10) "".
Definition dominance_text : string :=
  "CONTRACT CADRU nr. 12345" +:+ newline +:+ "Clauze contractuale"
    +:+ newline +:+ "Factura atasata" +:+ newline +:+ "Factura nr 1"
    +:+ newline +:+ "Factura nr 2".

(** First-position-wins as the specification words it: the category
    whose earliest match has the lowest offset, ties going to the
    category whose name comes first. *)
Definition earliest_offset (pats : list Re.re) (text : string) : option nat :=
  fold_left
    (fun best p =>
       match Re.search p text, best with
       | Some (i, _), Some b => Some (Nat.min i b)
       | Some (i, _), None => Some i
       | None, _ => best
       end)
    pats None.

Definition spec_first_position (text : string) : option string :=
  fst <$>
    fold_left
      (fun best cat =>
         match earliest_offset (patterns_of cat) text, best with
         | Some i, Some (_, b) => if i <? b then Some (cat, i) else best
         | Some i, None => Some (cat, i)
         | None, _ => best
         end)
      (sorted _CONTENT_PRIORITY) None.

(** A name without path separator. *)
Definition plain_name (n : string) : Prop :=
  existsb Path.is_sep (chars n) = false.

(** The planned-destination index agrees with the ledger's entries. *)
Definition index_invariant (l : Ledger) : Prop :=
  forall d,
    _planned_dests l !! d = last (sources_to d (changes l)) /\
    no_adjacent_repeat (sources_to d (changes l)).

(** Two sources planned for one destination. *)
Definition two_sources_one_destination : Ledger :=
  Ledger_add
    (Ledger_add Ledger_init copy_file "/SIN/P/a/FL.pdf" "/OUT/P/V/FL.pdf"
                "Copy to keeper VIN" "a" "V")
    copy_file "/SIN/P/b/FL.pdf" "/OUT/P/V/FL.pdf" "Copy to keeper VIN" "b" "V".

(** A destination already taken by a different file. *)
Definition one_collision : World :=
  mkWorld {[ "/SIN/a/FL.pdf" := "content_B"; "/OUT/V/FL.pdf" := "other" ]}
          ∅ [] [] [] [].

(** What the cross-copy pass may add for the entry [c]. *)
Definition cross_copy_of (_pdf_cache : gmap string (gset string))
    (c c' : Change) : Prop :=
  action c' = copy_file /\ reason c' = "PDF content VIN cross-copy" /\
  source c' = source c /\
  vin c' ∈ content_vins _pdf_cache (source c) /\
  size (content_vins _pdf_cache (source c)) <= MAX_CROSS_COPY_VINS.

(** ** Name helpers *)

(** [str.lstrip] on the characters of a string. *)
Fixpoint lstrip_chars (l : list ascii) : list ascii :=
  match l with
  | a :: l' => if is_space a then lstrip_chars l' else l
  | [] => []
  end.

(** [s.rstrip()] and [s.strip()] *)
Definition rstrip (s : string) : string :=
  str_of (rev (lstrip_chars (rev (chars s)))).
Definition strip (s : string) : string :=
  str_of (rev (lstrip_chars (rev (lstrip_chars (chars s))))).

(** [pattern.sub('', s)] for a pattern that matches no empty string: the
    text without the successive non-overlapping matches, found from left
    to right. *)
Fixpoint re_delete_from (r : Re.re) (t : list ascii) (i : nat) (fuel : nat)
  : list ascii :=
  match fuel with
  | 0 => []
  | S fuel' =>
      let skip_to :=
        match Re.match_at r t i with
        | Some (j, _) => if i <? j then Some j else None
        | None => None
        end in
      match skip_to with
      | Some j => re_delete_from r t j fuel'
      | None =>
          match t !! i with
          | Some a => a :: re_delete_from r t (S i) fuel'
          | None => []
          end
      end
  end.

Definition re_delete (r : Re.re) (s : string) : string :=
  str_of (re_delete_from r (chars s) 0 (S (String.length s))).

(** [_PART_SUFFIX = \s*-\s*Part\s*\d+\s*$], [re.IGNORECASE] *)
Definition _PART_SUFFIX : Re.re :=
  Re.seqs [Re.star Re.space; Re.chr "-"; Re.star Re.space; Re.lit_i "Part";
           Re.star Re.space; Re.plus Re.digit; Re.star Re.space; Re.Eol].

Definition merge_partition_name (name : string) : string :=
  rstrip (re_delete _PART_SUFFIX name).

(** [^[A-Z0-9]{17}$], the inline pattern of [is_vin]. *)
Definition VIN_NAME_PATTERN : Re.re :=
  Re.seqs [Re.Bol; Re.rep 17 (Re.Chr upper_digit); Re.Eol].

Definition is_vin (name : string) : bool :=
  let name := strip name in
  match Re.match_start VIN_NAME_PATTERN name with
  | Some _ => is_valid_vin name
  | None => false
  end.

(** [extract_vin_from_filename] *)
Definition extract_vin_from_filename (fn : string) : option string :=
  match match_group1 FL_PATTERN fn with
  | Some v => Some v
  | None =>
      match match_group1 SERIEC_PATTERN fn with
      | Some v => Some v
      | None =>
          match match_group1 PREFIX_PATTERN fn with
          | Some v => if is_valid_vin v then Some v else None
          | None => None
          end
      end
  end.

(** [s.upper()] and [s.startswith(pre)] *)
Definition upper (s : string) : string :=
  str_of (map (fun a => if is_lower a then ascii_of_nat (code a - 32) else a)
              (chars s)).

Definition startswith (pre s : string) : bool := String.prefix pre s.

(** [sorted(folder.iterdir())]: the entries of one folder, by name. *)
Definition name_le (a b : DirEntry) : Prop :=
  String.le (entry_name a) (entry_name b).
Global Instance name_le_dec : RelDecision name_le.
Proof. intros a b. unfold name_le. apply _. Defined.
Definition sorted_entries (items : list DirEntry) : list DirEntry :=
  merge_sort name_le items.

(** [_get_partition_dirs], for range arguments that are not negative;
    [listing] is [root.iterdir()]. *)
Definition _get_partition_dirs (listing : list DirEntry)
    (range_start range_end : nat) : list DirEntry :=
  let all_parts :=
    List.filter
      (fun d =>
         is_dir d
         && (startswith "SINDICALIZARE" (upper (entry_name d))
             || startswith "SINICALIZARE" (upper (entry_name d))))
      (sorted_entries listing) in
  let start := (if range_start =? 0 then 1 else range_start) - 1 in
  let stop := if range_end =? 0 then length all_parts else range_end in
  drop start (take stop all_parts).

(** ** Document categories *)

(** [DOC_CATEGORIES]; every pattern is compiled with [re.I]. *)
Definition DOC_CATEGORIES : list (string * list Re.re) :=
  [ ("Formular de Livrare (FL)",
     [ Re.seqs [Re.Bol; Re.lit_i "FL"; Re.space];
       Re.seqs [Re.Bol; Re.lit_i "fl"; Re.space];
       Re.lit_i "_FL_Attachment";
       Re.seqs [Re.lit_i "_FL"; Re.chr "."] ]);
    ("Contract Cadru",
     [ Re.seqs [Re.lit_i "Contract"; spaces1; Re.lit_i "Cadru"];
       Re.seqs [Re.lit_i "ctr";
                Re.star (Re.Chr (fun a => is_space a || (code a =? 95)
                                          || (code a =? 46)));
                Re.lit_i "cadru"];
       Re.seqs [Re.lit_i "CTR"; Re.chr "."; spaces0; Re.lit_i "CADRU"] ]);
    ("Subcontract",
     [ Re.lit_i "Subcontract";
       Re.seqs [Re.lit_i "_sub"; spaces0; Re.digit] ]);
    ("RCA",
     [ Re.seqs [Re.Bol; Re.lit_i "POLITA_RCA"];
       Re.seqs [Re.Bol; Re.lit_i "POLITA_"] ]);
    ("CASCO",
     [ Re.lit_i "CASCO";
       Re.lit_i "FlexiCasco";
       Re.seqs [Re.lit_i "Polita"; spaces0; Re.lit_i "DT"] ]);
    ("Facturi",
     [ Re.seqs [Re.chr_i "F"; Re.lit_i "actur"; a_breve_i];
       Re.seqs [Re.Bol; Re.lit_i "FF_"];
       Re.seqs [Re.Bol; Re.lit_i "ff"; Re.chr "."; Re.lit_i "pdf"; Re.Eol];
       Re.seqs [Re.Bol; Re.lit_i "F"; Re.chr "."; Re.lit_i "FINALA"] ]);
    ("OP Plăți",
     [ Re.seqs [Re.Bol; Re.lit_i "OP"; Re.space] ]);
    ("Cesiune / Supliment",
     [ Re.lit_i "Cesiune";
       Re.lit_i "Supliment" ]);
    ("TALON / CIV",
     [ Re.lit_i "TALON";
       Re.seqs [Re.WordB; Re.lit_i "CIV"; Re.WordB];
       Re.seqs [Re.lit_i "CIV"; Re.chr "+"] ]) ].

Definition _IGNORE_FILES : list string := ["desktop.ini"; "Thumbs.db"].

Definition _TALON_CIV_PRIORITY : list Re.re :=
  [ Re.lit_i "TALON";
    Re.seqs [Re.WordB; Re.lit_i "CIV"; Re.WordB];
    Re.seqs [Re.lit_i "CIV"; Re.chr "+"] ].

(** [_CAT_SHORT_NAMES], in the order of the dictionary. *)
Definition _CAT_SHORT_NAMES : list (string * option string) :=
  [ ("Contract Cadru", Some "cc");
    ("Subcontract", Some "subct");
    ("Cesiune / Supliment", Some "ces");
    ("Formular de Livrare (FL)", Some "fl");
    ("TALON / CIV", None);
    ("CASCO", Some "casco");
    ("RCA", Some "rca");
    ("OP Plăți", Some "op");
    ("Facturi", Some "fact") ].

(** [_SHORT_NAME_TO_CAT], as [_build_short_name_reverse] fills it. *)
Definition _build_short_name_reverse : list (string * string) :=
  let from_short :=
    fold_left
      (fun d cs =>
         match snd cs with
         | Some short =>
             if String.eqb short "" then d
             else dict_set (lower short) (fst cs) d
         | None => d
         end)
      _CAT_SHORT_NAMES [] in
  dict_set "supliment_cesiune" "Cesiune / Supliment"
    (dict_set "talon+civ" "TALON / CIV"
       (dict_set "talon_civ" "TALON / CIV"
          (dict_set "civ" "TALON / CIV"
             (dict_set "talon" "TALON / CIV" from_short)))).

Definition _SHORT_NAME_TO_CAT : list (string * string) :=
  _build_short_name_reverse.

(** [_\d+$], the inline pattern of [categorize_file]. *)
Definition NUMBER_SUFFIX : Re.re :=
  Re.seqs [Re.chr "_"; Re.plus Re.digit; Re.Eol].

(** The first category of [DOC_CATEGORIES] with a pattern found in [fn]. *)
Fixpoint first_category (cats : list (string * list Re.re)) (fn : string)
  : option string :=
  match cats with
  | [] => None
  | (cat_name, patterns) :: rest =>
      if any_match patterns fn then Some cat_name
      else first_category rest fn
  end.

(** [categorize_file]; [None] is Python's [None]. *)
Definition categorize_file (fn : string) : option string :=
  if mem fn _IGNORE_FILES then None
  else
    let stem := lower (Path.stem fn) in
    let base := re_delete NUMBER_SUFFIX stem in
    match dict_get base _SHORT_NAME_TO_CAT with
    | Some cat => Some cat
    | None =>
        if Re.matches _FACTURA_PRIORITY fn then Some "Facturi"
        else if any_match _TALON_CIV_PRIORITY fn then Some "TALON / CIV"
        else
          match first_category DOC_CATEGORIES fn with
          | Some cat_name => Some cat_name
          | None => Some "Alte Documente"
          end
    end.

(** [_detect_talon_civ] *)
Definition CIV_ALONE : Re.re :=
  Re.seqs [Re.NotBehind isalpha; Re.lit_i "CIV"; Re.NotAhead isalpha].

Definition _detect_talon_civ (fn : string) : bool * bool :=
  (Re.matches (Re.lit_i "TALON") fn, Re.matches CIV_ALONE fn).

(** The base name of a TALON / CIV file. *)
Definition talon_civ_base (fn : string) : string :=
  let '(has_talon, has_civ) := _detect_talon_civ fn in
  if has_talon && has_civ then "TALON+CIV"
  else if has_talon then "talon"
  else if has_civ then "civ"
  else "talon_civ".

(** [_short_name_for_category]; [None] is Python's [None]. *)
Definition _short_name_for_category (cat fn : string) : option string :=
  if String.eqb cat "TALON / CIV" then
    let '(has_talon, has_civ) := _detect_talon_civ fn in
    if has_talon && has_civ then Some "TALON+CIV.pdf"
    else if has_talon then Some "talon.pdf"
    else if has_civ then Some "civ.pdf"
    else Some "talon_civ.pdf"
  else
    match dict_get cat _CAT_SHORT_NAMES with
    | Some (Some short) =>
        if String.eqb short "" then None else Some (short +:+ ".pdf")
    | _ => None
    end.

(** ** What a pattern matches

    The spans of a text that a pattern can match, whatever the order in
    which the matcher tries them. *)

(** Zero or more successive spans, each of them not empty. *)
Inductive iter (R : nat -> nat -> Prop) : nat -> nat -> Prop :=
| iter_nil i : iter R i i
| iter_step i m j : R i m -> i < m -> iter R m j -> iter R i j.

Fixpoint span (t : list ascii) (r : Re.re) (i j : nat) : Prop :=
  match r with
  | Re.Eps => j = i
  | Re.Chr p => j = S i /\ exists a, t !! i = Some a /\ p a = true
  | Re.Seq r1 r2 => exists m, span t r1 i m /\ span t r2 m j
  | Re.Alt r1 r2 => span t r1 i j \/ span t r2 i j
  | Re.Star _ r' => iter (span t r') i j
  | Re.Grp _ r' => span t r' i j
  | Re.Bol => j = i /\ i = 0
  | Re.Eol => j = i /\ Re.at_end t i = true
  | Re.WordB => j = i /\ Re.word_boundary t i = true
  | Re.NotBehind p =>
      j = i /\
      match i with
      | 0 => True
      | S i' => forall a, t !! i' = Some a -> p a = false
      end
  | Re.NotAhead p => j = i /\ forall a, t !! i = Some a -> p a = false
  end.

(** Every character that the pattern consumes belongs to the class [q]. *)
Fixpoint consumes_only (q : ascii -> bool) (r : Re.re) : Prop :=
  match r with
  | Re.Chr p => forall a, p a = true -> q a = true
  | Re.Seq r1 r2 | Re.Alt r1 r2 => consumes_only q r1 /\ consumes_only q r2
  | Re.Star _ r' | Re.Grp _ r' => consumes_only q r'
  | _ => True
  end.

(** The characters that can follow the dash of a [ - Part N] suffix. *)
Definition part_char (a : ascii) : bool :=
  is_space a || is_digit a
  || existsb (fun b => code (to_lower a) =? code b) (chars "part").

(** ** Vocabulary of the executor's properties *)

(** What the executor leaves alone in a ledger entry. *)
Definition same_entry (c c' : Change) : Prop :=
  action c' = action c /\ source c' = source c /\ reason c' = reason c /\
  parent_folder c' = parent_folder c /\ vin c' = vin c.

(** A copy that the executor has attempted: a copy that fails can
    leave bytes at its destination. *)
Definition attempted (c : Change) : Prop :=
  action c = copy_file /\ (status c = done \/ status c = failed).

(** The files of [w'] are those of [w] but for the bytes at [p], and no
    file has gone. *)
Definition written_at (p : string) (w w' : World) : Prop :=
  unreadable w' = unreadable w /\
  (forall q, q <> p -> files w' !! q = files w !! q) /\
  (is_Some (files w !! p) -> is_Some (files w' !! p)).


(** A string without the character [|]. *)
Definition no_bar (s : string) : Prop :=
  forallb (fun a => negb (Ascii.eqb a "|")) (chars s) = true.

(** What the gap-fill pass may add: a copy of a PDF whose text names
    the VIN it is copied to. *)
Definition gap_fill_of (_pdf_cache : gmap string (gset string)) (c : Change)
  : Prop :=
  action c = copy_file /\ parent_folder c = "" /\
  is_pdf (source c) = true /\
  vin c ∈ content_vins _pdf_cache (source c).

(** ** Vocabulary of the rename pass *)

(** An entry that differs from [c] by its destination at most. *)
Definition renamed_from (c c' : Change) : Prop :=
  c' = set_destination (destination c') c.

(** What a step of the rename pass over the indices [I] does: it
    removes indices of [I] only, counts each of them once as deduped,
    and changes destinations only, of entries of [I] only. *)
Definition renames_within (I : list nat) (st : RenameState)
    (rm : gset nat) (st' : RenameState) : Prop :=
  (forall i, i ∈ rm -> In i I) /\
  length (rs_changes st') = length (rs_changes st) /\
  (forall i, ~ In i I -> rs_changes st' !! i = rs_changes st !! i) /\
  (forall i c, rs_changes st !! i = Some c ->
               exists c', rs_changes st' !! i = Some c' /\ renamed_from c c') /\
  deduped_count (rs_stats st')
  = deduped_count (rs_stats st) + size rm.

(** ** Persistent OCR cache *)

(** An entry of [_ocr_disk_cache]: a JSON object whose keys may be
    absent ([None]).  [ocr_used] is a boolean when present. *)
Record CacheEntry : Type := mkCacheEntry {
  ce_size : option Z;
  ce_mtime : option Z;
  ce_ocr_used : option bool;
  ce_vins : option (list string);
  ce_cats : option (list string);
  ce_reclass_cat : option (option string);
}.

Definition empty_entry : CacheEntry :=
  mkCacheEntry None None None None None None.

(** [os.stat]: size and modification time, in nanoseconds, of the files
    that can be examined; for the others [os.stat] raises [OSError]. *)
Definition Stat : Type := gmap string (Z * Z).

Definition _file_fingerprint (st : Stat) (path_str : string) : Z * Z :=
  match st !! path_str with
  | Some sm => sm
  | None => (0, 0)%Z
  end.

Definition _ocr_cache_lookup (st : Stat) (_ocr_disk_cache : gmap string CacheEntry)
    (path_str : string) : bool * gset string * gset string :=
  match _ocr_disk_cache !! path_str with
  | None => (false, ∅, ∅)
  | Some entry =>
      if negb (default false (ce_ocr_used entry)) then (false, ∅, ∅)
      else
        let '(size, mtime) := _file_fingerprint st path_str in
        if negb (size =? default (-1) (ce_size entry))%Z
           || negb (mtime =? default (-1) (ce_mtime entry))%Z
        then (false, ∅, ∅)
        else (true, list_to_set (default [] (ce_vins entry)),
              list_to_set (default [] (ce_cats entry)))
  end.

(** [_ocr_cache_store]; an argument left at its default is [None]. *)
Definition _ocr_cache_store (st : Stat) (_ocr_disk_cache : gmap string CacheEntry)
    (path_str : string) (vins cats : option (gset string))
    (reclass_cat : option (option string)) : gmap string CacheEntry :=
  let '(size, mtime) := _file_fingerprint st path_str in
  let entry := default empty_entry (_ocr_disk_cache !! path_str) in
  let entry' :=
    mkCacheEntry (Some size) (Some mtime) (Some true)
      (match vins with
       | Some v => Some (sorted (elements v))
       | None => ce_vins entry
       end)
      (match cats with
       | Some c => Some (sorted (elements c))
       | None => ce_cats entry
       end)
      (match reclass_cat with
       | Some rc => Some rc
       | None => ce_reclass_cat entry
       end) in
  <[path_str := entry']> _ocr_disk_cache.

(** ** Persistent rename map *)

(** The rest of [l] after the prefix [pre], when [l] starts with it. *)
Fixpoint chars_after (pre l : list ascii) : option (list ascii) :=
  match pre, l with
  | [], _ => Some l
  | a :: pre', b :: l' => if Ascii.eqb a b then chars_after pre' l' else None
  | _ :: _, [] => None
  end.

(** [s.split(sep, 1)] when it has two parts: the text before and after
    the first occurrence of [sep]. *)
Fixpoint split_once (sep l : list ascii) : option (list ascii * list ascii) :=
  match chars_after sep l with
  | Some rest => Some ([], rest)
  | None =>
      match l with
      | [] => None
      | a :: l' =>
          match split_once sep l' with
          | Some (h, t) => Some (a :: h, t)
          | None => None
          end
      end
  end.

(** The key of an entry of [rename_map.json], [f"{vin}||{new_fn}"], and
    the pair that [load_rename_map] reads back from a key. *)
Definition encode_key (k : string * string) : string :=
  fst k +:+ "||" +:+ snd k.

Definition decode_key (key : string) : option (string * string) :=
  match split_once (chars "||") (chars key) with
  | Some (a, b) => Some (str_of a, str_of b)
  | None => None
  end.

(** [load_rename_map].  The file is [None] when it does not exist or
    does not hold JSON, and otherwise the JSON object of strings it
    holds. *)
Definition load_rename_map (file : option (gmap string string))
  : gmap (string * string) string :=
  match file with
  | None => ∅
  | Some raw =>
      map_fold
        (fun key orig result =>
           match decode_key key with
           | Some p => <[p := orig]> result
           | None => result
           end)
        ∅ raw
  end.

(** [save_rename_map]: the content of the file afterwards;
    [original_names] is the dictionary in insertion order, [writable]
    tells whether the file can be written. *)
Definition save_rename_map (file : option (gmap string string))
    (original_names : list ((string * string) * string)) (writable : bool)
  : option (gmap string string) :=
  let existing := default ∅ file in
  let merged :=
    fold_left (fun m kv => <[encode_key (fst kv) := snd kv]> m)
              original_names existing in
  if writable then Some merged else file.

(** ** The rename pass over the whole ledger *)

Section RenamePass.

Variable md5 : string -> string.

(** The base name of each entry of a TALON / CIV group, in the order of
    the group; [None] stands for the [IndexError] of an index outside
    the ledger. *)
Fixpoint talon_civ_bases (cs : list Change) (indices : list nat)
  : option (list (nat * string)) :=
  match indices with
  | [] => Some []
  | idx :: rest =>
      match cs !! idx, talon_civ_bases cs rest with
      | Some c, Some bases =>
          Some ((idx, talon_civ_base (Path.name (destination c))) :: bases)
      | _, _ => None
      end
  end.

(** [for base, sub_indices in sub_groups.items()] *)
Fixpoint rename_subgroups (w : World) (sub_groups : list (string * list nat))
    (acc : gset nat * RenameState) : option (gset nat * RenameState) :=
  match sub_groups with
  | [] => Some acc
  | (base, sub_indices) :: rest =>
      match _rename_dedup_group md5 w (snd acc) sub_indices base with
      | Some (rm, st') => rename_subgroups w rest (fst acc ∪ rm, st')
      | None => None
      end
  end.

(** [_rename_talon_civ_group] *)
Definition _rename_talon_civ_group (w : World) (st : RenameState)
    (indices : list nat) : option (gset nat * RenameState) :=
  match indices with
  | [] => Some (∅, st)
  | _ =>
      match talon_civ_bases (rs_changes st) indices with
      | None => None
      | Some bases => rename_subgroups w (group_by_hash bases) (∅, st)
      end
  end.

(** [by_vin]: the indices of the copies of each VIN, in ledger order. *)
Definition copy_indices_by_vin (cs : list Change) : list (string * list nat) :=
  group_by_hash
    (omap (fun ic => if is_copy (snd ic) then Some (fst ic, vin (snd ic))
                     else None)
          (imap (fun i c => (i, c)) cs)).

(** The category of each entry of one VIN, the entries that
    [categorize_file] ignores left out. *)
Fixpoint categories_of (cs : list Change) (indices : list nat)
  : option (list (nat * string)) :=
  match indices with
  | [] => Some []
  | idx :: rest =>
      match cs !! idx, categories_of cs rest with
      | Some c, Some cats =>
          match categorize_file (Path.name (destination c)) with
          | Some cat => Some ((idx, cat) :: cats)
          | None => Some cats
          end
      | _, _ => None
      end
  end.

(** [for cat, short in _CAT_SHORT_NAMES.items()] *)
Fixpoint rename_categories (w : World) (by_cat : list (string * list nat))
    (table : list (string * option string)) (acc : gset nat * RenameState)
  : option (gset nat * RenameState) :=
  match table with
  | [] => Some acc
  | (cat, short) :: rest =>
      match dict_get cat by_cat with
      | None => rename_categories w by_cat rest acc
      | Some indices =>
          let result :=
            if String.eqb cat "TALON / CIV"
            then _rename_talon_civ_group w (snd acc) indices
            else _rename_dedup_group md5 w (snd acc) indices
                                     (default "None" short) in
          match result with
          | Some (rm, st') =>
              rename_categories w by_cat rest (fst acc ∪ rm, st')
          | None => None
          end
      end
  end.

(** [for vin, indices in by_vin.items()] *)
Fixpoint rename_vins (w : World) (by_vin : list (string * list nat))
    (acc : gset nat * RenameState) : option (gset nat * RenameState) :=
  match by_vin with
  | [] => Some acc
  | (_, indices) :: rest =>
      match categories_of (rs_changes (snd acc)) indices with
      | None => None
      | Some cats =>
          match rename_categories w (group_by_hash cats) _CAT_SHORT_NAMES acc
          with
          | Some acc' => rename_vins w rest acc'
          | None => None
          end
      end
  end.

(** [plan_category_renames]: the ledger afterwards, [stats] and
    [original_names]. *)
Definition plan_category_renames (w : World) (ledger : Ledger)
  : option (Ledger * RenameStats * gmap (string * string) string) :=
  let st0 := mkRenameState (changes ledger) (mkStats 0 0) ∅ in
  match rename_vins w (copy_indices_by_vin (changes ledger)) (∅, st0) with
  | None => None
  | Some (remove_all, st) =>
      let ledger' :=
        if bool_decide (remove_all = ∅) then
          mkLedger (rs_changes st) (warnings ledger) (pdf_scans ledger)
                   (_planned_dests ledger)
        else
          let cs := remove_indices remove_all (rs_changes st) in
          mkLedger cs (warnings ledger) (pdf_scans ledger)
                   (rebuild_planned_dests cs) in
      Some (ledger', rs_stats st, rs_original_names st)
  end.

End RenamePass.

(** ** Planning of the copies

    What planning observes of the source tree: the listing of a
    directory, [folder.iterdir()], which is [None] when it raises
    [PermissionError]; the items below a directory in the order of
    [sorted(src_dir.rglob('*'))], each named by its path relative to the
    directory, [None] when the walk raises [PermissionError]; and the
    VINs that [extract_vins_from_pdf] finds in a PDF, each once.  The
    tree does not change while the plan is made: a directory is listed
    the same way each time.  [is_dir] and [is_file] raise nothing. *)

(** [stats] of [scan_and_plan], a [defaultdict(int)]. *)
Record PlanStats : Type := mkPlanStats {
  st_vin_named : nat;
  st_multi_car : nat;
  st_flat : nat;
  st_error : nat;
}.

(** [s - {v}] and [a == b] on sets given by their elements. *)
Definition set_remove (v : string) (s : list string) : list string :=
  List.filter (fun x => negb (String.eqb x v)) s.
Definition set_eqb (a b : list string) : bool :=
  forallb (fun x => mem x b) a && forallb (fun x => mem x a) b.

Section Planning.

Variable set_iter : list string -> list string.
Variable iterdir : string -> option (list DirEntry).
Variable rglob_sorted : string -> option (list DirEntry).
Variable extract_vins_from_pdf : string -> list string.

(** [_copy_dir_files] *)
Definition _copy_dir_files (src_dir dst_dir : string) (ledger : Ledger)
    (parent_folder vin reason : string) : Ledger :=
  match rglob_sorted src_dir with
  | None => Ledger_warn ledger ("Cannot read '" +:+ src_dir +:+ "'")
  | Some items =>
      fold_left
        (fun l item =>
           if is_file item then
             let rel := entry_name item in
             Ledger_add l copy_file (Path.join src_dir rel)
                        (Path.join dst_dir rel) reason parent_folder vin
           else l)
        items ledger
  end.

(** The body of the loop of [plan_vin_folder]. *)
Definition vin_folder_step (folder out_partition vin target : string)
    (l : Ledger) (item : DirEntry) : Ledger :=
  let n := entry_name item in
  if is_dir item then
    if is_vin n then
      _copy_dir_files (Path.join folder n) (Path.join out_partition n) l
                      vin n "Elevate nested VIN"
    else
      _copy_dir_files (Path.join folder n) (Path.join target n) l
                      vin vin "Copy subdir contents"
  else if is_file item then
    Ledger_add l copy_file (Path.join folder n) (Path.join target n)
               "Copy from VIN folder" vin vin
  else l.

(** [plan_vin_folder] *)
Definition plan_vin_folder (folder out_partition : string) (ledger : Ledger)
  : Ledger :=
  let vin := Path.name folder in
  let target := Path.join out_partition vin in
  match iterdir folder with
  | None => Ledger_warn ledger ("Cannot read VIN folder '" +:+ vin +:+ "'")
  | Some items =>
      fold_left (vin_folder_step folder out_partition vin target)
                (sorted_entries items) ledger
  end.

(** The body of the second loop of [plan_multi_car]. *)
Definition multi_car_step (folder name parent_vin target : string)
    (vin_subdir_names : list string) (l : Ledger) (item : DirEntry)
  : Ledger :=
  let n := entry_name item in
  if is_dir item then
    if mem n vin_subdir_names then l
    else
      _copy_dir_files (Path.join folder n) (Path.join target n) l
                      name parent_vin "Copy subdir to parent VIN"
  else if is_file item then
    Ledger_add l copy_file (Path.join folder n) (Path.join target n)
               "Copy to parent VIN" name parent_vin
  else l.

(** [plan_multi_car]; [vin_subdirs] holds the names of the VIN
    subdirectories, and [None] stands for the [IndexError] of an empty
    [vin_subdirs]. *)
Definition plan_multi_car (folder : string) (vin_subdirs : list string)
    (out_partition : string) (ledger : Ledger) : option Ledger :=
  let name := Path.name folder in
  match multi_car_parent set_iter (iterdir folder) vin_subdirs with
  | None => None
  | Some parent_vin =>
      let target := Path.join out_partition parent_vin in
      let l1 :=
        fold_left
          (fun l vd =>
             _copy_dir_files (Path.join folder vd) (Path.join out_partition vd)
                             l name vd "Copy sub-VIN to output")
          vin_subdirs ledger in
      match iterdir folder with
      | None =>
          Some (Ledger_warn l1 ("Cannot list '" +:+ name
                                  +:+ "' for dissolution"))
      | Some items =>
          Some (fold_left
                  (multi_car_step folder name parent_vin target vin_subdirs)
                  (sorted_entries items) l1)
      end
  end.

(** What the first loop of [plan_flat] does to the ledger. *)
Definition flat_log_step (scan_pdf : bool) (folder : string) (l : Ledger)
    (item : DirEntry) : Ledger :=
  if is_file item && (scan_pdf && is_pdf (entry_name item)) then
    let p := Path.join folder (entry_name item) in
    if is_empty (extract_vins_from_pdf p) then l
    else Ledger_log_pdf_scan l p (sorted (extract_vins_from_pdf p))
  else l.

(** The body of the loop of [plan_flat] in the branch without any VIN. *)
Definition no_vin_step (folder name no_vin_target : string) (l : Ledger)
    (item : DirEntry) : Ledger :=
  let n := entry_name item in
  if is_dir item then
    _copy_dir_files (Path.join folder n) (Path.join no_vin_target n) l
                    name "_NO_VIN" "No VIN found — preserve in _NO_VIN"
  else if is_file item then
    Ledger_add l copy_file (Path.join folder n) (Path.join no_vin_target n)
               "No VIN found — preserve in _NO_VIN" name "_NO_VIN"
  else l.

(** The body of the loop of [plan_flat] over the files that name other
    VINs than the keeper; the state is the ledger and [copied_out]. *)
Definition filename_vin_step (folder out_partition name keeper : string)
    (ffv : list (string * list string)) (acc : Ledger * list string)
    (item : DirEntry) : Ledger * list string :=
  if negb (is_file item) then acc
  else
    let fn := entry_name item in
    let fvins := default [] (dict_get fn ffv) in
    let add_for (l : Ledger) (v : string) :=
      Ledger_add l copy_file (Path.join folder fn)
                 (Path.join (Path.join out_partition v) fn)
                 "Filename VIN match" name v in
    if is_empty fvins || set_eqb fvins [keeper] then acc
    else if negb (mem keeper fvins) then
      match sorted fvins with
      | primary :: _ =>
          (fold_left add_for (sorted (set_remove primary fvins))
                     (add_for (fst acc) primary),
           snd acc ++ [fn])
      | [] => acc
      end
    else
      (fold_left add_for (sorted (set_remove keeper fvins)) (fst acc),
       snd acc).

(** The body of the last loop of [plan_flat]. *)
Definition keeper_step (folder out_partition name keeper target : string)
    (copied_out : list string) (l : Ledger) (item : DirEntry) : Ledger :=
  let n := entry_name item in
  if is_dir item then
    if is_vin n then
      _copy_dir_files (Path.join folder n) (Path.join out_partition n) l
                      name n "Elevate VIN subdir"
    else
      _copy_dir_files (Path.join folder n) (Path.join target n) l
                      name keeper "Copy subdir to keeper VIN"
  else if is_file item then
    if mem n copied_out then l
    else
      Ledger_add l copy_file (Path.join folder n) (Path.join target n)
                 "Copy to keeper VIN" name keeper
  else l.

(** [plan_flat], from [# Pick keeper VIN] on; [election] is
    [all_vins_for_election] at that point. *)
Definition plan_flat_keeper (folder out_partition : string)
    (items : list DirEntry) (s : FlatScan) (election : list string)
    (ledger : Ledger) : Ledger :=
  let name := Path.name folder in
  match elect_keeper set_iter (iterdir folder) s election with
  | None => ledger
  | Some keeper =>
      let other_vins := set_remove keeper (all_fn_vins s) in
      let target := Path.join out_partition keeper in
      let '(l1, copied_out) :=
        if negb (is_empty other_vins) then
          fold_left
            (filename_vin_step folder out_partition name keeper
                               (file_fn_vins s))
            items (ledger, [])
        else (ledger, []) in
      fold_left (keeper_step folder out_partition name keeper target
                             copied_out)
                (sorted_entries items) l1
  end.

(** [plan_flat] *)
Definition plan_flat (folder out_partition : string) (ledger : Ledger)
    (scan_pdf : bool) : Ledger :=
  let name := Path.name folder in
  match iterdir folder with
  | None => Ledger_warn ledger ("Cannot read '" +:+ name +:+ "'")
  | Some items =>
      let s :=
        flat_scan set_iter scan_pdf
                  (fun fn => extract_vins_from_pdf (Path.join folder fn))
                  items in
      let l0 := fold_left (flat_log_step scan_pdf folder) items ledger in
      if is_empty (all_fn_vins s) && is_empty (all_vins_for_election s) then
        let folder_vins := set_iter (extract_all_vins name) in
        if negb (is_empty folder_vins) then
          plan_flat_keeper folder out_partition items s
                           (all_vins_for_election s ++ folder_vins) l0
        else if negb (is_empty (file_fn_vins s)) then
          let no_vin_target :=
            Path.join (Path.join out_partition "_NO_VIN") name in
          Ledger_warn
            (fold_left (no_vin_step folder name no_vin_target)
                       (sorted_entries items) l0)
            ("No VINs in '" +:+ name +:+ "' ("
               +:+ str_nat (length (file_fn_vins s))
               +:+ " files) → copied to _NO_VIN")
        else Ledger_warn l0 ("No VINs in '" +:+ name +:+ "' (empty folder)")
      else
        plan_flat_keeper folder out_partition items s
                         (all_vins_for_election s) l0
  end.

(** The folders that [scan_and_plan] collects below one partition, each
    with the name of the partition. *)
Definition partition_folders (root : string) (part_dir : DirEntry)
  : list (string * string) :=
  let p := Path.join root (entry_name part_dir) in
  match iterdir p with
  | None => []
  | Some items =>
      map (fun cdir => (Path.join p (entry_name cdir), entry_name part_dir))
          (List.filter is_dir (sorted_entries items))
  end.

(** The body of the main loop of [scan_and_plan]. *)
Definition scan_step (output_root : string) (scan_pdf : bool)
    (acc : option (Ledger * PlanStats)) (entry : string * string)
  : option (Ledger * PlanStats) :=
  match acc with
  | None => None
  | Some (ledger, stats) =>
      let '(cdir, partition_name) := entry in
      let out_partition :=
        Path.join output_root (merge_partition_name partition_name) in
      if is_vin (Path.name cdir) then
        Some (plan_vin_folder cdir out_partition ledger,
              mkPlanStats (S (st_vin_named stats)) (st_multi_car stats)
                          (st_flat stats) (st_error stats))
      else
        match iterdir cdir with
        | None =>
            Some (Ledger_warn ledger
                    ("Cannot read '" +:+ Path.name cdir +:+ "'"),
                  mkPlanStats (st_vin_named stats) (st_multi_car stats)
                              (st_flat stats) (S (st_error stats)))
        | Some subs =>
            let vin_subdirs :=
              map entry_name
                  (List.filter (fun sub => is_dir sub && is_vin (entry_name sub))
                               subs) in
            let has_files := existsb is_file subs in
            let has_other_dirs :=
              existsb (fun sub => is_dir sub && negb (is_vin (entry_name sub)))
                      subs in
            if is_empty vin_subdirs && negb has_files && negb has_other_dirs
            then Some (ledger, stats)
            else if negb (is_empty vin_subdirs) then
              match plan_multi_car cdir vin_subdirs out_partition ledger with
              | None => None
              | Some l' =>
                  Some (l', mkPlanStats (st_vin_named stats)
                                        (S (st_multi_car stats))
                                        (st_flat stats) (st_error stats))
              end
            else
              Some (plan_flat cdir out_partition ledger scan_pdf,
                    mkPlanStats (st_vin_named stats) (st_multi_car stats)
                                (S (st_flat stats)) (st_error stats))
        end
  end.

(** [scan_and_plan], for range arguments that are not negative; [None]
    stands for an exception that leaves the function: the
    [PermissionError] of [root.iterdir()]. *)
Definition scan_and_plan (root output_root : string) (ledger : Ledger)
    (scan_pdf : bool) (range_start range_end : nat)
  : option (Ledger * PlanStats) :=
  match iterdir root with
  | None => None
  | Some listing =>
      let all_folders :=
        flat_map (partition_folders root)
                 (_get_partition_dirs listing range_start range_end) in
      fold_left (scan_step output_root scan_pdf) all_folders
                (Some (ledger, mkPlanStats 0 0 0 0))
  end.

End Planning.

(** ** Vocabulary for the statements about planning *)

(** A copy of [src] is planned, to a destination that ends in the name,
    or relative path, [rel]. *)
Definition copy_planned (l : Ledger) (src rel : string) : Prop :=
  exists c d,
    In c (changes l) /\ is_copy c = true /\ source c = src /\
    destination c = Path.join d rel.

(** [l'] is [l] with entries appended. *)
Definition appends_to (l l' : Ledger) : Prop :=
  exists ext, changes l' = changes l ++ ext.

(** [l'] comes from [l] by planning: entries are appended, and the
    index stays in step with the entries when it was. *)
Definition grows (l l' : Ledger) : Prop :=
  (index_invariant l -> index_invariant l') /\ appends_to l l'.

(** The folders that [stats] counts. *)
Definition stats_total (st : PlanStats) : nat :=
  st_vin_named st + st_multi_car st + st_flat st + st_error st.

(** A closed example: a source tree with one partition that holds a VIN
    folder, a container with a VIN subdirectory, a flat folder, and a
    folder with nothing but a subdirectory. *)
Definition example_tree (p : string) : option (list DirEntry) :=
  if String.eqb p "/SIN" then
    Some [mkEntry "Sindicalizare 1 - Part 1" Directory]
  else if String.eqb p "/SIN/Sindicalizare 1 - Part 1" then
    Some [mkEntry "WVWZZZ1JZXW000001" Directory;
          mkEntry "FLEET" Directory;
          mkEntry "CLIENT" Directory;
          mkEntry "ARCHIVE" Directory]
  else if String.eqb p "/SIN/Sindicalizare 1 - Part 1/WVWZZZ1JZXW000001" then
    Some [mkEntry "talon.pdf" RegularFile; mkEntry "acte" Directory]
  else if String.eqb p "/SIN/Sindicalizare 1 - Part 1/FLEET" then
    Some [mkEntry "WVWZZZ1JZXW000003" Directory;
          mkEntry "contract.pdf" RegularFile]
  else if String.eqb p "/SIN/Sindicalizare 1 - Part 1/CLIENT" then
    Some [mkEntry "factura WVWZZZ1JZXW000002.pdf" RegularFile;
          mkEntry "acte" Directory]
  else if String.eqb p "/SIN/Sindicalizare 1 - Part 1/ARCHIVE" then
    Some [mkEntry "acte" Directory]
  else None.

Definition example_walk (p : string) : option (list DirEntry) :=
  if String.eqb p "/SIN/Sindicalizare 1 - Part 1/WVWZZZ1JZXW000001/acte"
  then Some [mkEntry "2020" Directory; mkEntry "2020/cc.pdf" RegularFile]
  else if String.eqb p "/SIN/Sindicalizare 1 - Part 1/FLEET/WVWZZZ1JZXW000003"
  then Some [mkEntry "civ.pdf" RegularFile]
  else if String.eqb p "/SIN/Sindicalizare 1 - Part 1/CLIENT/acte"
  then Some [mkEntry "rca.pdf" RegularFile]
  else if String.eqb p "/SIN/Sindicalizare 1 - Part 1/ARCHIVE/acte"
  then Some [mkEntry "vechi.pdf" RegularFile]
  else None.

Definition no_pdf_vins (p : string) : list string := [].

(** ** Placing a rescued file

    [Path.unlink] and [os.rename] fail as the operating system decides,
    each taking its fate like [os.makedirs].  A file that cannot be
    opened for reading stays so where it is renamed. *)

Definition os_unlink (p : string) : X unit :=
  fun w =>
    let '(r, rest) := next_io (faults w) in
    let w' := with_faults rest w in
    match r with
    | Some e => (Raise e, w')
    | None =>
        match files w !! p with
        | Some _ =>
            (Ok tt, mkWorld (delete p (files w')) (unreadable w' ∖ {[p]})
                            (faults w') (slept w') (jsonl w') (console w'))
        | None => (Raise ENOENT, w')
        end
    end.

(** [os.rename(src, dst)], and [Path.rename]: the file is at [dst] and
    no longer at [src], at once.  The callers have checked that nothing
    is at [dst]; where a file is there, the renaming replaces it or
    fails, as the operating system decides. *)
Definition os_rename (src dst : string) : X unit :=
  fun w =>
    let '(r, rest) := next_io (faults w) in
    let w' := with_faults rest w in
    match r with
    | Some e => (Raise e, w')
    | None =>
        match files w !! src with
        | Some data =>
            (Ok tt,
             mkWorld (<[dst := data]> (delete src (files w')))
                     (if bool_decide (src ∈ unreadable w')
                      then {[dst]} ∪ unreadable w' ∖ {[src]}
                      else unreadable w' ∖ {[dst]})
                     (faults w') (slept w') (jsonl w') (console w'))
        | None => (Raise ENOENT, w')
        end
    end.

(** [shutil.move(src, dst)] of a file to a path that is no directory:
    [os.rename], and when that raises an [OSError], [copy2] followed by
    [os.unlink] of the source. *)
Definition shutil_move (src dst : string) : X unit :=
  xtry (os_rename src dst)
       (fun _ => perform shutil_copy2 src dst ; os_unlink src).

(** The [while] loop of [_place_file_with_short_name] from [counter] on:
    the first counter whose numbered name is free; [None] when [fuel]
    rounds do not reach one. *)
Fixpoint first_free (w : World) (parent stem suffix : string)
    (counter fuel : nat) : option nat :=
  match fuel with
  | 0 => None
  | S fuel' =>
      if _exists w (candidate parent stem suffix counter)
      then first_free w parent stem suffix (S counter) fuel'
      else Some counter
  end.

Section Placing.

Variable md5 : string -> string.

(** [_place_file_with_short_name].  The loop is run for one round more
    than there are files, which is enough for it to end; [None] stands
    for a loop that has not ended by then. *)
Definition _place_file_with_short_name (src target_dir cat : string)
  : X (option string) :=
  let dst :=
    match _short_name_for_category cat (Path.name src) with
    | Some short_fn =>
        if String.eqb short_fn "" then Path.join target_dir (Path.name src)
        else Path.join target_dir short_fn
    | None => Path.join target_dir (Path.name src)
    end in
  perform os_makedirs (Path.parent dst) ;
  fun w =>
    if _exists w dst then
      if _files_identical md5 w src dst then
        (perform xtry (os_unlink src) (fun _ => xret tt) ;
         xret (Some dst)) w
      else
        let stem := Path.stem dst in
        let suffix := Path.suffix dst in
        match first_free w (Path.parent dst) stem suffix 1
                         (S (size (files w))) with
        | None => (Ok None, w)
        | Some counter =>
            let dst' := candidate (Path.parent dst) stem suffix counter in
            (perform shutil_move src dst' ; xret (Some dst')) w
        end
    else (perform shutil_move src dst ; xret (Some dst)) w.

End Placing.

(** A closed example: a file that is already where it is to be placed. *)
Definition in_place : World :=
  mkWorld {[ "/OUT/P/V/rca.pdf" := "%PDF rca" ]} ∅ [] [] [] [].

(** ** Renaming the files of a VIN folder on disk

    The dictionaries [stats] and [original_names] are modelled as they
    are when the function returns; what they hold after an exception
    left the function is not modelled. *)

(** [expected_names] of [_rescan_rename_group] *)
Definition expected_names (base_name : string) : list string :=
  (base_name +:+ ".pdf")
    :: map (fun i => base_name +:+ "_" +:+ str_nat i +:+ ".pdf") (seq 1 49).

(** [by_hash[h].append(f)] on an insertion-ordered [defaultdict(list)]. *)
Fixpoint paths_append (h f : string) (d : list (string * list string))
  : list (string * list string) :=
  match d with
  | [] => [(h, [f])]
  | (h', g) :: d' =>
      if String.eqb h' h then (h', g ++ [f]) :: d'
      else (h', g) :: paths_append h f d'
  end.

Definition bump_renamed (st : RenameStats) : RenameStats :=
  mkStats (S (renamed_count st)) (deduped_count st).
Definition bump_deduped (st : RenameStats) : RenameStats :=
  mkStats (renamed_count st) (S (deduped_count st)).

(** [stats] and [original_names] *)
Definition RescanState : Type :=
  (RenameStats * gmap (string * string) string)%type.

Section Rescan.

Variable md5 : string -> string.

(** The file system's own form of a path: two paths name one file when
    their forms are equal.  Where the file system tells all names apart
    the form of a path is the path itself; on Windows, where [RCA.pdf]
    and [rca.pdf] name one file, it is the path with its case folded.
    The files of the world are held under these forms; the program
    compares the names as it has them. *)
Variable canon : string -> string.

(** The loop over [group[1:]]: a duplicate that cannot be removed is
    left where it is. *)
Fixpoint unlink_rest (rest : list string) (stats : RenameStats)
  : X RenameStats :=
  match rest with
  | [] => xret stats
  | f :: rest' =>
      do stats' <- xtry (perform os_unlink (canon f) ;
                         xret (bump_deduped stats))
                        (fun _ => xret stats) ;
      unlink_rest rest' stats'
  end.

(** [hashes[f]]: the MD5 digest of the file, or the mark of a file that
    cannot be read. *)
Definition rescan_hash (w : World) (f : string) : string :=
  match files w !! canon f with
  | Some data =>
      if bool_decide (canon f ∈ unreadable w) then "__err_" +:+ f
      else md5 data
  | None => "__err_" +:+ f
  end.

(** [by_hash], keys in insertion order. *)
Definition group_paths (w : World) (fs : list string)
  : list (string * list string) :=
  fold_left (fun d f => paths_append (rescan_hash w f) f d) fs [].

(** [_file_hash(p)] and [_files_identical(a, b)] for paths as the
    program has them. *)
Definition file_hash_of (w : World) (p : string) : string :=
  match files w !! canon p with
  | Some data =>
      if bool_decide (canon p ∈ unreadable w) then "__error_" +:+ p
      else md5 data
  | None => "__error_" +:+ p
  end.

Definition files_identical_of (w : World) (a b : string) : bool :=
  match files w !! canon a, files w !! canon b with
  | Some da, Some db =>
      if negb (String.length da =? String.length db) then false
      else String.eqb (file_hash_of w a) (file_hash_of w b)
  | _, _ => false
  end.

(** The branch of one single hash. *)
Definition rescan_single (base_name vin : string) (group : list string)
    (st : RescanState) : X RescanState :=
  match group with
  | [] => xret st
  | keeper :: rest =>
      do stats <- unlink_rest rest (fst st) ;
      let new_name := base_name +:+ ".pdf" in
      let new_path := Path.join (Path.parent keeper) new_name in
      if String.eqb (Path.name keeper) new_name then xret (stats, snd st)
      else
        fun w =>
          if _exists w (canon new_path)
             && files_identical_of w keeper new_path
          then
            (perform os_unlink (canon keeper) ;
             xret (bump_deduped stats, snd st)) w
          else if negb (_exists w (canon new_path)) then
            (perform os_rename (canon keeper) (canon new_path) ;
             xret (bump_renamed stats,
                   <[(vin, new_name) := Path.name keeper]> (snd st))) w
          else (Ok (stats, snd st), w)
  end.

(** The branch of several hashes: the loop over [unique_hashes];
    [counter] is the value before the iteration. *)
Fixpoint rescan_numbered (base_name vin : string) (counter : nat)
    (groups : list (string * list string)) (st : RescanState)
  : X RescanState :=
  match groups with
  | [] => xret st
  | (_, group) :: groups' =>
      match group with
      | [] => xret st
      | keeper :: rest =>
          do stats <- unlink_rest rest (fst st) ;
          let counter := S counter in
          let new_name := base_name +:+ "_" +:+ str_nat counter +:+ ".pdf" in
          let new_path := Path.join (Path.parent keeper) new_name in
          do st' <-
            (fun w =>
               if negb (String.eqb (Path.name keeper) new_name)
                  && negb (_exists w (canon new_path))
               then
                 (perform os_rename (canon keeper) (canon new_path) ;
                  xret (bump_renamed stats,
                        <[(vin, new_name) := Path.name keeper]> (snd st))) w
               else (Ok (stats, snd st), w)) ;
          rescan_numbered base_name vin counter groups' st'
      end
  end.

(** [_rescan_rename_group]; [fs] holds the paths of a directory
    listing. *)
Definition _rescan_rename_group (fs : list string) (base_name vin : string)
    (st : RescanState) : X RescanState :=
  fun w =>
    if is_empty fs then (Ok st, w)
    else if forallb (fun f => mem (Path.name f) (expected_names base_name)) fs
    then (Ok st, w)
    else
      match group_paths w fs with
      | [(_, group)] => rescan_single base_name vin group st w
      | groups => rescan_numbered base_name vin 0 groups st w
      end.

End Rescan.

(** For the file system, the name [base_name.pdf] in the folder of a
    file of [fs] that has another name is not that file. *)
Definition expected_apart (canon : string -> string) (base_name : string)
    (fs : list string) : Prop :=
  forall f,
    In f fs -> Path.name f <> base_name +:+ ".pdf" ->
    canon (Path.join (Path.parent f) (base_name +:+ ".pdf")) <> canon f.

(** A file system that tells all names apart. *)
Definition exact_names (p : string) : string := p.

(** A file system that folds the case of the names. *)
Definition folded_names (p : string) : string := lower p.

(** A VIN folder on such a file system, with one insurance policy. *)
Definition one_policy : World :=
  mkWorld {[ folded_names "/OUT/P/V/RCA.pdf" := "%PDF rca" ]} ∅ [] [] [] [].

(** Every file content of [w] is still held, up to its MD5 digest, by a
    file of [w']. *)
Definition content_kept (md5 : string -> string) (w w' : World) : Prop :=
  forall p d,
    files w !! p = Some d ->
    exists p' d', files w' !! p' = Some d' /\ md5 d' = md5 d.

(** The files of [w] at the paths of [P] are in [w'] as they were. *)
Definition untouched (P : string -> Prop) (w w' : World) : Prop :=
  forall p d, P p -> files w !! p = Some d -> files w' !! p = Some d.

(** A digest is written in hexadecimal digits. *)
Definition is_hex (a : ascii) : bool := is_digit a || in_range "a" "f" a.
Definition hex_digests (md5 : string -> string) : Prop :=
  forall d, forallb is_hex (chars (md5 d)) = true.

(** A stand-in for closed examples: the length of the data. *)
Definition length_digest (data : string) : string :=
  str_nat (String.length data).

(** A closed example: a VIN folder, on a file system that folds the
    case of the names, with two copies of one contract and a third
    file. *)
Definition two_copies : World :=
  mkWorld (<[folded_names "/OUT/P/V/Contract A.pdf" := "%PDF one"]>
             (<[folded_names "/OUT/P/V/Contract B.pdf" := "%PDF one"]>
                (<[folded_names "/OUT/P/V/talon.pdf" := "%PDF talon"]> ∅)))
          ∅ [] [] [] [].

(** * Properties *)

(** ** Strings and the matcher *)

Lemma chars_str_of (l : list ascii) : chars (str_of l) = l.
Proof. apply list_ascii_of_string_of_list_ascii. Qed.

Lemma str_of_chars (s : string) : str_of (chars s) = s.
Proof. apply string_of_list_ascii_of_string. Qed.

Lemma length_chars (s : string) : length (chars s) = String.length s.
Proof. induction s as [|a s IH]; simpl; [reflexivity | now rewrite IH]. Qed.

Lemma length_str_of (l : list ascii) : String.length (str_of l) = length l.
Proof. rewrite <- length_chars, chars_str_of. reflexivity. Qed.

Section MatcherFacts.
Import Re.

Lemma run_seq t r1 r2 i c k :
  run t (Seq r1 r2) i c k = run t r1 i c (fun j c' => run t r2 j c' k).
Proof. reflexivity. Qed.

Lemma run_grp t n r i c k :
  run t (Grp n r) i c k = run t r i c (fun j c' => k j ((n, (i, j)) :: c')).
Proof. reflexivity. Qed.

(** A fixed number of characters of one class: the next [n] characters
    must exist and belong to the class. *)
Lemma run_rep_chr (t : list ascii) (p : ascii -> bool) (n : nat) :
  forall i c k,
    run t (rep n (Chr p)) i c k
    = if (n <=? length (drop i t)) && forallb p (take n (drop i t))
      then k (i + n) c else None.
Proof.
  induction n as [|n IH]; intros i c k; simpl.
  - rewrite Nat.add_0_r. reflexivity.
  - destruct (t !! i) as [a|] eqn:Hi.
    + rewrite (drop_S _ _ _ Hi). simpl.
      destruct (p a); simpl.
      * rewrite IH. rewrite Nat.add_succ_r. reflexivity.
      * rewrite andb_false_r. reflexivity.
    + apply lookup_ge_None_1 in Hi.
      rewrite drop_ge by lia. reflexivity.
Qed.

(** What a successful attempt of [VIN_PATTERN] at offset [i] means. *)
Lemma match_at_VIN (t : list ascii) (i j : nat) (c : caps) :
  match_at VIN_PATTERN t i = Some (j, c) ->
  j = i + 17 /\ c = [(1, (i, i + 17))] /\
  i + 17 <= length t /\
  forallb upper_digit (take 17 (drop i t)) = true /\
  (forall a, i <> 0 -> t !! (i - 1) = Some a -> upper_digit a = false) /\
  (forall a, t !! (i + 17) = Some a -> upper_digit a = false).
Proof.
  unfold match_at, VIN_PATTERN. rewrite run_seq.
  assert (Hbody : forall c0,
    run t (Seq (Grp 1 (rep 17 (Chr upper_digit))) (NotAhead upper_digit))
        i c0 ret = Some (j, c) ->
    j = i + 17 /\ c = (1, (i, i + 17)) :: c0 /\ i + 17 <= length t /\
    forallb upper_digit (take 17 (drop i t)) = true /\
    (forall a, t !! (i + 17) = Some a -> upper_digit a = false)).
  { intros c0. rewrite run_seq, run_grp, run_rep_chr.
    destruct (17 <=? length (drop i t)) eqn:Hlen; [|discriminate].
    destruct (forallb upper_digit (take 17 (drop i t))) eqn:Hall;
      [|discriminate].
    cbn [andb run]. apply Nat.leb_le in Hlen. rewrite length_drop in Hlen.
    destruct (t !! (i + 17)) as [a|] eqn:Ha.
    - destruct (upper_digit a) eqn:Hud; [discriminate|].
      unfold ret. intros [= <- <-]. repeat split; try lia.
      intros a' [= <-]. exact Hud.
    - unfold ret. intros [= <- <-]. repeat split; try lia.
      intros a' [=]. }
  cbn [run]. destruct i as [|i'].
  - intros H. apply Hbody in H as (-> & -> & Hl & Hall & Haft).
    repeat split; auto. intros a Hne. congruence.
  - destruct (t !! i') as [b|] eqn:Hb.
    + destruct (upper_digit b) eqn:Hud; [discriminate|].
      intros H. apply Hbody in H as (-> & -> & Hl & Hall & Haft).
      repeat split; auto. intros a _. rewrite Nat.sub_1_r. simpl.
      rewrite Hb. intros [= <-]. exact Hud.
    + intros H. apply Hbody in H as (-> & -> & Hl & Hall & Haft).
      repeat split; auto. intros a _. rewrite Nat.sub_1_r. simpl.
      rewrite Hb. discriminate.
Qed.

(** Every string [findall] returns for [VIN_PATTERN] is the text of a
    successful attempt. *)
Lemma findall_VIN_In (t : list ascii) (v : string) (fuel : nat) :
  forall i,
    In v (findall_from VIN_PATTERN t i fuel) ->
    exists i' j c,
      match_at VIN_PATTERN t i' = Some (j, c) /\ v = slice t i' (i' + 17).
Proof.
  induction fuel as [|fuel IH]; intros i; simpl; [tauto|].
  destruct (length t <? i); [simpl; tauto|].
  destruct (match_at VIN_PATTERN t i) as [[j c]|] eqn:Hm.
  - pose proof (match_at_VIN _ _ _ _ Hm) as (-> & -> & _).
    unfold group. simpl. intros [<- | Hin].
    + exists i, (i + 17), [(1, (i, i + 17))]. split; [exact Hm|reflexivity].
    + eapply IH. exact Hin.
  - apply IH.
Qed.

End MatcherFacts.

Lemma is_valid_vin_true (s : string) :
  is_valid_vin s = true ->
  String.length s = 17 /\ existsb isalpha (chars s) = true
  /\ existsb isdigit (chars s) = true.
Proof.
  unfold is_valid_vin.
  destruct (String.length s =? 17) eqn:Hlen; simpl; [|discriminate].
  apply Nat.eqb_eq in Hlen. rewrite andb_true_iff. tauto.
Qed.

(** ** C3: VINs extracted from free text *)

(** C3 (as amended): every VIN returned by [extract_all_vins] has 17
    characters, all in [[A-Z0-9]], at least one letter and one digit; it
    is a window of the input, and the characters just before and just
    after that window, when they exist, are not in [[A-Z0-9]]. *)
Theorem extract_all_vins_window (fn v : string) :
  In v (extract_all_vins fn) ->
  String.length v = 17 /\
  forallb upper_digit (chars v) = true /\
  existsb isalpha (chars v) = true /\
  existsb isdigit (chars v) = true /\
  exists i,
    i + 17 <= String.length fn /\
    Re.slice (chars fn) i (i + 17) = v /\
    (forall a, i <> 0 -> chars fn !! (i - 1) = Some a ->
               upper_digit a = false) /\
    (forall a, chars fn !! (i + 17) = Some a -> upper_digit a = false).
Proof.
  unfold extract_all_vins. rewrite filter_In. intros [Hin Hvalid].
  apply is_valid_vin_true in Hvalid as (Hlen & Halpha & Hdig).
  apply findall_VIN_In in Hin as (i & j & c & Hm & ->).
  apply match_at_VIN in Hm as (_ & _ & Hl & Hall & Hbef & Haft).
  repeat split; auto.
  - unfold Re.slice. rewrite chars_str_of.
    replace (i + 17 - i) with 17 by lia. exact Hall.
  - exists i. rewrite <- length_chars. repeat split; auto.
Qed.

Lemma extract_all_vins_window_witness :
  In "ABCDE2345678901AB" (extract_all_vins "aABCDE2345678901ABb") /\
  String.length "ABCDE2345678901AB" = 17.
Proof.
  assert (H : In "ABCDE2345678901AB" (extract_all_vins "aABCDE2345678901ABb"))
    by (vm_compute; left; reflexivity).
  split; [exact H|].
  exact (proj1 (extract_all_vins_window "aABCDE2345678901ABb"
                  "ABCDE2345678901AB" H)).
Defined.

(** C3 (as stated) fails: in ["aABCDE2345678901ABb"] the extracted VIN
    occurs only at offset 1, between the letters [a] and [b], which are
    alphanumeric. *)
Lemma extract_all_vins_lowercase_neighbours :
  In "ABCDE2345678901AB" (extract_all_vins "aABCDE2345678901ABb") /\
  ~ exists i,
      Re.slice (chars "aABCDE2345678901ABb") i (i + 17) = "ABCDE2345678901AB"
      /\ (forall a, i <> 0 -> chars "aABCDE2345678901ABb" !! (i - 1) = Some a
                    -> isalnum a = false)
      /\ (forall a, chars "aABCDE2345678901ABb" !! (i + 17) = Some a
                    -> isalnum a = false).
Proof.
  split; [vm_compute; left; reflexivity|].
  intros (i & Hs & Hbef & _).
  destruct i as [|[|[|i]]].
  - vm_compute in Hs. discriminate.
  - assert (H : isalnum "a" = false)
      by (apply Hbef; [discriminate|reflexivity]).
    vm_compute in H. discriminate.
  - vm_compute in Hs. discriminate.
  - apply (f_equal String.length) in Hs. unfold Re.slice in Hs.
    rewrite length_str_of, length_take, length_drop, length_chars in Hs.
    simpl in Hs. lia.
Qed.
(** ** The calls of the operating system *)

Lemma with_faults_same (w : World) : with_faults (faults w) w = w.
Proof. destruct w. reflexivity. Qed.

Lemma copies_only_app (fs gs : list Fate) :
  copies_only (fs ++ gs) <-> copies_only fs /\ copies_only gs.
Proof.
  unfold copies_only. rewrite forallb_app. apply andb_true_iff.
Qed.

Lemma copies_only_failures (rs : list (OSError * option string)) :
  copies_only (copy_failures rs).
Proof.
  unfold copies_only, copy_failures. induction rs; [reflexivity|exact IHrs].
Qed.

Lemma next_io_copies (fs : list Fate) :
  copies_only fs -> next_io fs = (None, fs).
Proof.
  unfold copies_only. induction fs as [|[r|r] fs IH]; intros H;
    [reflexivity| |discriminate].
  cbn [next_io]. rewrite IH by exact H. reflexivity.
Qed.


Lemma io_call_ok (effect : World -> World) (w : World) :
  copies_only (faults w) -> io_call effect w = (Ok tt, effect w).
Proof.
  intros H. unfold io_call. rewrite (next_io_copies _ H), with_faults_same.
  reflexivity.
Qed.

Lemma log_safe_ok (c : Change) (w : World) :
  copies_only (faults w) -> _log_safe c w = (Ok tt, logged c w).
Proof. intros H. unfold _log_safe. rewrite (io_call_ok _ _ H). reflexivity. Qed.


Lemma os_makedirs_ok (p : string) (w : World) :
  copies_only (faults w) -> os_makedirs p w = (Ok tt, w).
Proof. intros H. unfold os_makedirs. rewrite (io_call_ok _ _ H). reflexivity. Qed.

(** What a call other than a copy leaves of the world: the files, and
    no fate that was not there. *)
Lemma io_call_world (effect : World -> World) (w : World) :
  exists rest,
    snd (next_io (faults w)) = rest /\
    (io_call effect w = (Ok tt, effect (with_faults rest w)) \/
     exists e, io_call effect w = (Raise e, with_faults rest w)).
Proof.
  unfold io_call. destruct (next_io (faults w)) as [[e|] rest].
  - exists rest. split; [reflexivity|]. right. exists e. reflexivity.
  - exists rest. split; [reflexivity|]. left. reflexivity.
Qed.

(** A call other than a copy leaves the files as they are. *)
Lemma io_call_files (effect : World -> World) (w : World) :
  (forall v, files (effect v) = files v) ->
  (forall v, unreadable (effect v) = unreadable v) ->
  files (snd (io_call effect w)) = files w /\
  unreadable (snd (io_call effect w)) = unreadable w.
Proof.
  intros Hf Hu. unfold io_call.
  destruct (next_io (faults w)) as [[e|] rest]; cbn [snd].
  - split; reflexivity.
  - rewrite Hf, Hu. split; reflexivity.
Qed.

Lemma log_safe_files (c : Change) (w : World) :
  files (snd (_log_safe c w)) = files w /\
  unreadable (snd (_log_safe c w)) = unreadable w.
Proof. apply io_call_files; reflexivity. Qed.

Lemma tqdm_write_files (line : string) (w : World) :
  files (snd (tqdm_write line w)) = files w /\
  unreadable (snd (tqdm_write line w)) = unreadable w.
Proof. apply io_call_files; reflexivity. Qed.

Lemma os_makedirs_files (p : string) (w : World) :
  files (snd (os_makedirs p w)) = files w /\
  unreadable (snd (os_makedirs p w)) = unreadable w.
Proof. apply io_call_files; reflexivity. Qed.

Lemma fail_handler_files (c : Change) (src : string) (e : OSError)
    (w : World) :
  files (snd (fail_handler c src e w)) = files w.
Proof.
  unfold fail_handler, xbind.
  pose proof (log_safe_files (set_status failed c) w) as [Hl _].
  destruct (_log_safe (set_status failed c) w) as [[[]|e1] w1];
    cbn [snd] in *; [|exact Hl].
  pose proof (tqdm_write_files
                (error_line (set_status failed c) src (errmsg e)) w1)
    as [Ht _].
  destruct (tqdm_write (error_line (set_status failed c) src (errmsg e)) w1)
    as [[[]|e2] w2]; unfold xret; cbn [snd] in *; congruence.
Qed.


Section Calls.

Variable md5 : string -> string.

(** The choice of [_safe_dest] depends on the files only. *)
Lemma files_identical_ext (w1 w2 : World) (a b : string) :
  files w1 = files w2 -> unreadable w1 = unreadable w2 ->
  _files_identical md5 w1 a b = _files_identical md5 w2 a b.
Proof.
  intros Hf Hu. unfold _files_identical, _file_hash. rewrite Hf, Hu.
  reflexivity.
Qed.

Lemma exists_ext (w1 w2 : World) (p : string) :
  files w1 = files w2 -> _exists w1 p = _exists w2 p.
Proof. intros Hf. unfold _exists. rewrite Hf. reflexivity. Qed.

Lemma safe_dest_loop_ext (w1 w2 : World) src parent base sfx range :
  files w1 = files w2 -> unreadable w1 = unreadable w2 ->
  safe_dest_loop md5 w1 src parent base sfx range
  = safe_dest_loop md5 w2 src parent base sfx range.
Proof.
  intros Hf Hu. induction range as [|i range IH]; [reflexivity|].
  cbn [safe_dest_loop].
  rewrite (exists_ext w1 w2 _ Hf), (files_identical_ext w1 w2 _ _ Hf Hu), IH.
  reflexivity.
Qed.

Lemma safe_dest_ext (w1 w2 : World) (src dst : string) :
  files w1 = files w2 -> unreadable w1 = unreadable w2 ->
  _safe_dest md5 w1 src dst = _safe_dest md5 w2 src dst.
Proof.
  intros Hf Hu. unfold _safe_dest.
  rewrite (exists_ext w1 w2 _ Hf), (files_identical_ext w1 w2 _ _ Hf Hu),
    (safe_dest_loop_ext w1 w2 _ _ _ _ _ Hf Hu).
  reflexivity.
Qed.

(** [_exec_copy] up to its loop, when the folder can be made. *)
Lemma exec_copy_pre_chosen w c actual st :
  copies_only (faults w) ->
  _exists w (source c) = true ->
  _safe_dest md5 w (source c) (destination c) = (actual, st) ->
  exec_copy_pre md5 c w
  = match st with
    | skip => (Ok (inl (set_status skipped c)),
               logged (set_status skipped c) w)
    | _ => (Ok (inr (renamed_to actual st c, actual)), w)
    end.
Proof.
  intros Hf Hs Hsd. unfold exec_copy_pre. rewrite Hs. cbn [negb].
  unfold xbind at 1. rewrite (os_makedirs_ok _ _ Hf). rewrite Hsd.
  destruct st; try reflexivity.
  unfold xbind. rewrite (log_safe_ok _ _ Hf). reflexivity.
Qed.

End Calls.

(** ** C2: the ledger and its planned-destination index *)

Lemma no_adjacent_repeat_snoc (l : list string) (x : string) :
  no_adjacent_repeat l -> last l <> Some x -> no_adjacent_repeat (l ++ [x]).
Proof.
  induction l as [|a [|b l'] IH]; simpl; intros Hl Hlast.
  - exact I.
  - split; [|exact I]. intros ->. apply Hlast. reflexivity.
  - destruct Hl as [Hab Hl]. split; [exact Hab|].
    apply IH; [exact Hl|]. exact Hlast.
Qed.

Lemma sources_to_snoc (d : string) (cs : list Change) (c : Change) :
  sources_to d (cs ++ [c])
  = sources_to d cs
    ++ (if is_copy c && String.eqb (destination c) d then [source c] else []).
Proof.
  unfold sources_to. rewrite List.filter_app, map_app. simpl.
  destruct (is_copy c && String.eqb (destination c) d); reflexivity.
Qed.

(** What one [Ledger.add] of a copy does: nothing when the index already
    maps the destination to this source, an append that overwrites the
    index entry in every other case. *)
Lemma Ledger_add_copy (l : Ledger) (src dst rsn pf v : string) :
  let l' := Ledger_add l copy_file src dst rsn pf v in
  (_planned_dests l !! dst = Some src -> l' = l) /\
  (_planned_dests l !! dst <> Some src ->
   changes l' = changes l ++ [mkChange copy_file src dst rsn pf v planned]
   /\ _planned_dests l' = <[dst := src]> (_planned_dests l)
   /\ warnings l' = warnings l).
Proof.
  unfold Ledger_add. split.
  - intros ->. rewrite String.eqb_refl. reflexivity.
  - intros Hne. destruct (_planned_dests l !! dst) as [s|] eqn:Hd.
    + destruct (String.eqb s src) eqn:Heq.
      * apply String.eqb_eq in Heq. congruence.
      * simpl. auto.
    + simpl. auto.
Qed.

Lemma index_invariant_add (l : Ledger) act src dst rsn pf v :
  index_invariant l -> index_invariant (Ledger_add l act src dst rsn pf v).
Proof.
  intros Hinv d. destruct (Hinv d) as [Hidx Hnar].
  destruct act as [| |n].
  - destruct (decide (_planned_dests l !! dst = Some src)) as [Hsame|Hdiff].
    + rewrite (proj1 (Ledger_add_copy l src dst rsn pf v) Hsame). auto.
    + destruct (proj2 (Ledger_add_copy l src dst rsn pf v) Hdiff)
        as (Hch & Hpd & _).
      rewrite Hch, Hpd, sources_to_snoc. simpl.
      destruct (String.eqb dst d) eqn:Hdd.
      * apply String.eqb_eq in Hdd. subst d.
        rewrite lookup_insert_eq, last_snoc. split; [reflexivity|].
        apply no_adjacent_repeat_snoc; [exact Hnar|]. congruence.
      * apply String.eqb_neq in Hdd.
        rewrite lookup_insert_ne by exact Hdd. rewrite app_nil_r. auto.
  - unfold Ledger_add. simpl. rewrite sources_to_snoc. simpl.
    rewrite app_nil_r. auto.
  - unfold Ledger_add. simpl. rewrite sources_to_snoc. simpl.
    rewrite app_nil_r. auto.
Qed.

(** C2 (as amended): at every point of planning the index maps each
    destination to the source of the latest copy planned for it, and two
    copies planned one after the other for one destination never share
    their source.  A copy is dropped silently exactly when the index
    already maps its destination to its source; a copy to a destination
    planned for another source is appended and takes over the index
    entry. *)
Theorem ledger_index_invariant (l : Ledger) :
  planning l ->
  (forall d,
     _planned_dests l !! d = last (sources_to d (changes l)) /\
     no_adjacent_repeat (sources_to d (changes l))) /\
  (forall src dst rsn pf v,
     let l' := Ledger_add l copy_file src dst rsn pf v in
     (_planned_dests l !! dst = Some src -> l' = l) /\
     (_planned_dests l !! dst <> Some src ->
      changes l' = changes l ++ [mkChange copy_file src dst rsn pf v planned]
      /\ _planned_dests l' !! dst = Some src)).
Proof.
  intros Hp. split.
  - change (index_invariant l).
    induction Hp as [|l act src dst rsn pf v _ IH|l msg _ IH|l p vs _ IH].
    + intros d. simpl. split; [apply lookup_empty|exact I].
    + apply index_invariant_add. exact IH.
    + exact IH.
    + exact IH.
  - intros src dst rsn pf v l'. subst l'. split.
    + apply Ledger_add_copy.
    + intros Hne.
      destruct (proj2 (Ledger_add_copy l src dst rsn pf v) Hne)
        as (Hch & Hpd & _).
      split; [exact Hch|]. rewrite Hpd. apply lookup_insert_eq.
Qed.

Lemma ledger_index_invariant_witness :
  planning two_sources_one_destination /\
  _planned_dests two_sources_one_destination !! "/OUT/P/V/FL.pdf"
  = Some "/SIN/P/b/FL.pdf".
Proof.
  assert (Hp : planning two_sources_one_destination)
    by (unfold two_sources_one_destination;
        apply planning_add, planning_add, planning_init).
  split; [exact Hp|].
  rewrite (proj1 (proj1 (ledger_index_invariant _ Hp) "/OUT/P/V/FL.pdf")).
  reflexivity.
Defined.

(** C2 (as stated) fails: after planning two different sources for one
    destination the ledger holds both copies; the later one is not
    dropped. *)
Lemma ledger_keeps_conflicting_copies :
  planning two_sources_one_destination /\
  map (fun c => (action c, source c, destination c))
      (changes two_sources_one_destination)
  = [ (copy_file, "/SIN/P/a/FL.pdf", "/OUT/P/V/FL.pdf");
      (copy_file, "/SIN/P/b/FL.pdf", "/OUT/P/V/FL.pdf") ] /\
  ~ dest_determines_source two_sources_one_destination.
Proof.
  split; [apply planning_add, planning_add, planning_init|].
  split; [reflexivity|].
  intros H.
  specialize (H (mkChange copy_file "/SIN/P/a/FL.pdf" "/OUT/P/V/FL.pdf"
                          "Copy to keeper VIN" "a" "V" planned)
                (mkChange copy_file "/SIN/P/b/FL.pdf" "/OUT/P/V/FL.pdf"
                          "Copy to keeper VIN" "b" "V" planned)).
  simpl in H.
  assert (Habs : "/SIN/P/a/FL.pdf" = "/SIN/P/b/FL.pdf").
  { apply H; try reflexivity.
    - left. reflexivity.
    - right. left. reflexivity. }
  discriminate.
Qed.

(** ** C8, C10: collision resolution *)

Section SafeDest.

Variable md5 : string -> string.

Lemma safe_dest_loop_busy w src parent base sfx range :
  (forall i, In i range ->
             busy md5 w src (candidate parent base sfx i) = true) ->
  safe_dest_loop md5 w src parent base sfx range = None.
Proof.
  induction range as [|i range IH]; intros Hbusy; simpl; [reflexivity|].
  assert (Hi : busy md5 w src (candidate parent base sfx i) = true)
    by (apply Hbusy; left; reflexivity).
  unfold busy in Hi. apply andb_true_iff in Hi as [He Hn].
  rewrite He. simpl. apply negb_true_iff in Hn. rewrite Hn.
  apply IH. intros j Hj. apply Hbusy. right. exact Hj.
Qed.

Lemma safe_dest_loop_first w src parent base sfx pre i post :
  (forall j, In j pre ->
             busy md5 w src (candidate parent base sfx j) = true) ->
  busy md5 w src (candidate parent base sfx i) = false ->
  safe_dest_loop md5 w src parent base sfx (pre ++ i :: post)
  = Some (candidate parent base sfx i,
          if _exists w (candidate parent base sfx i) then skip else renamed).
Proof.
  induction pre as [|j pre IH]; intros Hbusy Hfree; simpl.
  - unfold busy in Hfree.
    destruct (_exists w (candidate parent base sfx i)); simpl in *;
      [|reflexivity].
    apply negb_false_iff in Hfree. rewrite Hfree. reflexivity.
  - assert (Hj : busy md5 w src (candidate parent base sfx j) = true)
      by (apply Hbusy; left; reflexivity).
    unfold busy in Hj. apply andb_true_iff in Hj as [He Hn].
    rewrite He. simpl. apply negb_true_iff in Hn. rewrite Hn.
    apply IH; [|exact Hfree]. intros k Hk. apply Hbusy. right. exact Hk.
Qed.

Lemma safe_dest_absent w src dst :
  _exists w dst = false -> _safe_dest md5 w src dst = (dst, ok).
Proof. intros H. unfold _safe_dest. rewrite H. reflexivity. Qed.

Lemma safe_dest_identical w src dst :
  _exists w dst = true -> _files_identical md5 w src dst = true ->
  _safe_dest md5 w src dst = (dst, skip).
Proof. intros He Hi. unfold _safe_dest. rewrite He, Hi. reflexivity. Qed.

Lemma safe_dest_first_free w src dst i :
  busy md5 w src dst = true ->
  1 <= i <= 9999 ->
  (forall j, 1 <= j < i -> busy md5 w src (candidate_of dst j) = true) ->
  busy md5 w src (candidate_of dst i) = false ->
  _safe_dest md5 w src dst
  = (candidate_of dst i,
     if _exists w (candidate_of dst i) then skip else renamed).
Proof.
  intros Hd Hi Hbusy Hfree. unfold busy in Hd.
  apply andb_true_iff in Hd as [He Hn]. apply negb_true_iff in Hn.
  unfold _safe_dest. rewrite He, Hn. cbn [negb].
  replace (seq 1 9999)
    with (seq 1 (i - 1) ++ i :: seq (S i) (9999 - i)).
  - unfold candidate_of in *.
    rewrite safe_dest_loop_first; [reflexivity| |exact Hfree].
    intros j Hj. apply in_seq in Hj. apply Hbusy. lia.
  - replace 9999 with ((i - 1) + S (9999 - i)) at 2 by lia.
    rewrite seq_app. cbn [seq]. repeat f_equal; lia.
Qed.

Lemma safe_dest_exhausted w src dst :
  busy md5 w src dst = true ->
  (forall j, 1 <= j <= 9999 -> busy md5 w src (candidate_of dst j) = true) ->
  _safe_dest md5 w src dst = (dst, ok).
Proof.
  intros Hd Hbusy. unfold busy in Hd.
  apply andb_true_iff in Hd as [He Hn]. apply negb_true_iff in Hn.
  unfold _safe_dest. rewrite He, Hn. cbn [negb].
  rewrite safe_dest_loop_busy; [reflexivity|].
  intros j Hj. apply in_seq in Hj. apply Hbusy. lia.
Qed.

(** A skip, when the record can be written. *)
Lemma exec_copy_skip w c :
  _exists w (source c) = true ->
  snd (_safe_dest md5 w (source c) (destination c)) = skip ->
  copies_only (faults w) ->
  _exec_copy md5 c w
  = (Ok (set_status skipped c), logged (set_status skipped c) w).
Proof.
  intros Hs Hskip Hf. unfold _exec_copy.
  destruct (_safe_dest md5 w (source c) (destination c)) as [actual st] eqn:Hsd.
  simpl in Hskip. subst st.
  rewrite (exec_copy_pre_chosen md5 w c actual skip Hf Hs Hsd). reflexivity.
Qed.

(** A skip writes no file, whatever else happens. *)
Lemma exec_copy_skip_files w c :
  _exists w (source c) = true ->
  snd (_safe_dest md5 w (source c) (destination c)) = skip ->
  files (snd (_exec_copy md5 c w)) = files w.
Proof.
  intros Hs Hskip. unfold _exec_copy, exec_copy_pre. rewrite Hs. cbn [negb].
  unfold xbind at 1.
  pose proof (os_makedirs_files (Path.parent (destination c)) w) as [Hmf Hmu].
  destruct (os_makedirs (Path.parent (destination c)) w) as [[[]|e] w1];
    cbn [snd] in Hmf, Hmu.
  - rewrite (safe_dest_ext md5 w1 w _ _ Hmf Hmu).
    destruct (_safe_dest md5 w (source c) (destination c)) as [actual st].
    simpl in Hskip. subst st. unfold xbind.
    pose proof (log_safe_files (set_status skipped c) w1) as [Hl _].
    destruct (_log_safe (set_status skipped c) w1) as [[[]|e] w2];
      cbn [snd] in Hl.
    + cbn. congruence.
    + rewrite fail_handler_files. congruence.
  - rewrite fail_handler_files. exact Hmf.
Qed.

(** A copy that meets no fault lands at the path [_safe_dest] chose. *)
Lemma exec_copy_lands w c actual st data :
  files w !! source c = Some data ->
  _safe_dest md5 w (source c) (destination c) = (actual, st) ->
  st <> skip -> faults w = [] ->
  let c1 := match st with renamed => set_destination actual c | _ => c end in
  _exec_copy md5 c w
  = (Ok (set_status done c1),
     logged (set_status done c1)
            (with_files (<[actual := data]> (files w)) w)).
Proof.
  intros Hsrc Hsd Hst Hf c1. unfold _exec_copy.
  assert (He : _exists w (source c) = true).
  { unfold _exists. rewrite Hsrc. apply bool_decide_eq_true. eauto. }
  assert (Hco : copies_only (faults w)) by (rewrite Hf; reflexivity).
  rewrite (exec_copy_pre_chosen md5 w c actual st Hco He Hsd).
  destruct w as [fl un fa sl js co]. simpl in *. subst fa.
  destruct st; try congruence; subst c1;
    unfold xtry, xbind, shutil_copy2, _log_safe, io_call, xret, logged,
           with_files, with_faults; simpl; rewrite Hsrc; reflexivity.
Qed.

End SafeDest.

(** The crowded folder. *)
Lemma crowded_parts :
  Path.parent crowded_dst = "/OUT/P/V" /\
  base_stem_of (Path.stem crowded_dst) = "doc" /\
  Path.suffix crowded_dst = ".pdf".
Proof. repeat split; vm_compute; reflexivity. Qed.

Lemma crowded_candidate (i : nat) :
  candidate_of crowded_dst i = candidate "/OUT/P/V" "doc" ".pdf" i.
Proof.
  unfold candidate_of. destruct crowded_parts as (-> & -> & ->). reflexivity.
Qed.

Lemma crowded_lookup_candidate (i : nat) :
  1 <= i <= 9999 ->
  files crowded !! candidate_of crowded_dst i = Some "old".
Proof.
  intros Hi. rewrite crowded_candidate. unfold crowded, crowded_files.
  cbn [files].
  rewrite lookup_insert_ne by (unfold crowded_src, candidate; simpl; discriminate).
  rewrite lookup_insert_ne by (unfold crowded_dst, candidate; simpl; discriminate).
  apply elem_of_list_to_map_1'.
  - intros y Hy. apply list_elem_of_In, in_map_iff in Hy as (j & Heq & _).
    congruence.
  - apply list_elem_of_In, in_map_iff. exists i. split; [reflexivity|].
    apply in_seq. lia.
Qed.

Lemma crowded_lookup_src : files crowded !! crowded_src = Some "new bytes".
Proof. unfold crowded, crowded_files. cbn [files]. apply lookup_insert_eq. Qed.

Lemma crowded_lookup_dst : files crowded !! crowded_dst = Some "old".
Proof.
  unfold crowded, crowded_files. cbn [files].
  rewrite lookup_insert_ne by discriminate. apply lookup_insert_eq.
Qed.

Lemma crowded_busy (md5 : string -> string) (p : string) :
  files crowded !! p = Some "old" -> busy md5 crowded crowded_src p = true.
Proof.
  intros Hp. unfold busy, _exists, _files_identical.
  rewrite Hp, crowded_lookup_src. reflexivity.
Qed.

Lemma safe_dest_crowded (md5 : string -> string) :
  _safe_dest md5 crowded crowded_src crowded_dst = (crowded_dst, ok).
Proof.
  apply safe_dest_exhausted.
  - apply crowded_busy, crowded_lookup_dst.
  - intros j Hj. apply crowded_busy, crowded_lookup_candidate. exact Hj.
Qed.

(** C8 (as amended): with no file at [D] the copy uses [D]; with a file
    at [D] identical to the source (same size, same digest) nothing is
    written, and the entry is skipped when its record can be logged;
    otherwise, among the candidates
    numbered 1 to 9999 built from the stem without its trailing [_N], the
    first that is absent or identical to the source is chosen, a skip
    when identical and the path of the copy otherwise. *)
Theorem safe_dest_collision_policy (md5 : string -> string) (w : World)
    (src dst : string) :
  (_exists w dst = false -> _safe_dest md5 w src dst = (dst, ok)) /\
  (_exists w dst = true -> _files_identical md5 w src dst = true ->
   _safe_dest md5 w src dst = (dst, skip)) /\
  (busy md5 w src dst = true ->
   forall i,
     1 <= i <= 9999 ->
     (forall j, 1 <= j < i -> busy md5 w src (candidate_of dst j) = true) ->
     busy md5 w src (candidate_of dst i) = false ->
     _safe_dest md5 w src dst
     = (candidate_of dst i,
        if _exists w (candidate_of dst i) then skip else renamed)) /\
  (forall c,
     source c = src -> destination c = dst ->
     _exists w src = true ->
     (snd (_safe_dest md5 w src dst) = skip ->
      files (snd (_exec_copy md5 c w)) = files w /\
      (copies_only (faults w) ->
       _exec_copy md5 c w
       = (Ok (set_status skipped c), logged (set_status skipped c) w))) /\
     (forall actual st data,
        files w !! src = Some data ->
        _safe_dest md5 w src dst = (actual, st) -> st <> skip ->
        faults w = [] ->
        exists c', exists w',
          _exec_copy md5 c w = (Ok c', w') /\ status c' = done /\
          destination c' = (match st with renamed => actual | _ => dst end) /\
          files w' = <[actual := data]> (files w))).
Proof.
  split; [apply safe_dest_absent|].
  split; [apply safe_dest_identical|].
  split; [intros Hd i; apply safe_dest_first_free; exact Hd|].
  intros c <- <- Hs. split.
  - intros Hskip. split.
    + apply exec_copy_skip_files; assumption.
    + apply exec_copy_skip; assumption.
  - intros actual st data Hdata Hsd Hst Hf.
    pose proof (exec_copy_lands md5 w c actual st data Hdata Hsd Hst Hf) as H.
    simpl in H. eexists. eexists. split; [exact H|].
    destruct st; try congruence; simpl; auto.
Qed.

Lemma safe_dest_collision_policy_witness :
  busy plain_digest one_collision "/SIN/a/FL.pdf" "/OUT/V/FL.pdf" = true /\
  _safe_dest plain_digest one_collision "/SIN/a/FL.pdf" "/OUT/V/FL.pdf"
  = ("/OUT/V/FL_1.pdf", renamed).
Proof.
  assert (Hb : busy plain_digest one_collision "/SIN/a/FL.pdf" "/OUT/V/FL.pdf"
               = true) by (vm_compute; reflexivity).
  split; [exact Hb|].
  pose proof (proj1 (proj2 (proj2
    (safe_dest_collision_policy plain_digest one_collision
       "/SIN/a/FL.pdf" "/OUT/V/FL.pdf"))) Hb 1) as H.
  rewrite H.
  - vm_compute. reflexivity.
  - split; [lia|]. apply Nat.leb_le. vm_compute. reflexivity.
  - intros j Hj. lia.
  - vm_compute. reflexivity.
Defined.

(** A skip whose record cannot be written: the error is caught, the
    entry is marked [failed], and no file is written. *)
Example skip_with_full_log :
  snd (_safe_dest plain_digest full_log (source locked_copy)
                  (destination locked_copy)) = skip /\
  exists w',
    _exec_copy plain_digest locked_copy full_log
    = (Ok (set_status failed locked_copy), w') /\
    files w' = files full_log /\ jsonl w' = [set_status failed locked_copy].
Proof.
  split; [vm_compute; reflexivity|].
  eexists. split; [vm_compute; reflexivity|]. split; reflexivity.
Qed.

(** C8 (as stated) fails: in the crowded folder the path chosen for the
    copy is [D] itself, where a file exists that is not identical to the
    source; it is no candidate that is absent or identical. *)
Lemma safe_dest_chooses_busy_path :
  _safe_dest plain_digest crowded crowded_src crowded_dst = (crowded_dst, ok)
  /\ _exists crowded crowded_dst = true
  /\ _files_identical plain_digest crowded crowded_src crowded_dst = false
  /\ forall i, crowded_dst <> candidate_of crowded_dst i.
Proof.
  split; [apply safe_dest_crowded|].
  split; [unfold _exists; rewrite crowded_lookup_dst; reflexivity|].
  split.
  - unfold _files_identical.
    rewrite crowded_lookup_src, crowded_lookup_dst. reflexivity.
  - intros i. rewrite crowded_candidate.
    unfold crowded_dst, candidate. simpl. discriminate.
Qed.

(** C10: there is a state of the file system, with [D] and every
    candidate [stem_1] ... [stem_9999] present and different from the
    source, in which [_safe_dest] answers [D] with status [ok]; the
    executor then overwrites the file at [D] with the bytes of the
    source. *)
Theorem safe_dest_exhausted_overwrites (md5 : string -> string) :
  files crowded !! crowded_src = Some "new bytes" /\
  files crowded !! crowded_dst = Some "old" /\
  (forall i, 1 <= i <= 9999 ->
             files crowded !! candidate_of crowded_dst i = Some "old") /\
  _safe_dest md5 crowded crowded_src crowded_dst = (crowded_dst, ok) /\
  exists w',
    _exec_copy md5 crowded_copy crowded
    = (Ok (set_status done crowded_copy), w') /\
    files w' !! crowded_dst = Some "new bytes".
Proof.
  split; [apply crowded_lookup_src|].
  split; [apply crowded_lookup_dst|].
  split; [apply crowded_lookup_candidate|].
  split; [apply safe_dest_crowded|].
  eexists. split.
  - apply (exec_copy_lands md5 crowded crowded_copy crowded_dst ok "new bytes").
    + apply crowded_lookup_src.
    + apply safe_dest_crowded.
    + discriminate.
    + reflexivity.
  - cbn [files logged with_files]. apply lookup_insert_eq.
Qed.

Lemma safe_dest_exhausted_overwrites_witness :
  files crowded !! candidate_of crowded_dst 9999 = Some "old".
Proof.
  apply (proj1 (proj2 (proj2 (safe_dest_exhausted_overwrites plain_digest)))).
  split; [|lia]. apply Nat.leb_le. vm_compute. reflexivity.
Defined.

(** ** C9: retries and isolation of failures *)


Lemma last_message_cons (initial : string) (e : OSError) (es : list OSError) :
  last_message (errmsg e) es = last_message initial (e :: es).
Proof.
  unfold last_message. destruct es as [|e' es]; [reflexivity|].
  change (last (e :: e' :: es)) with (last (e' :: es)).
  destruct (last (e' :: es)) eqn:Hl; [reflexivity|].
  apply last_None in Hl. discriminate.
Qed.

(** One turn of the retry loop. *)
Lemma retry_copy_step c src actual a attempts initial w :
  retry_copy c src actual (a :: attempts) initial w
  = match (perform shutil_copy2 src actual ;
           perform _log_safe (set_status done c) ;
           xret (set_status done c)) w with
    | (Ok c', w1) => (Ok c', w1)
    | (Raise e, w1) =>
        if is_sharing_violation e
        then retry_copy c src actual attempts (errmsg e)
                        (slept_more [retry_delay a] w1)
        else (Raise e, w1)
    end.
Proof.
  cbn [retry_copy]. unfold xtry.
  destruct ((perform shutil_copy2 src actual ;
             perform _log_safe (set_status done c) ;
             xret (set_status done c)) w) as [[c'|e] w1]; [reflexivity|].
  destruct (is_sharing_violation e); reflexivity.
Qed.

Lemma copy2_fault src dst w e lft rest :
  faults w = copy_fate (Some (e, lft)) :: rest ->
  shutil_copy2 src dst w
  = (Raise e, with_files (leave dst (files w) lft) (with_faults rest w)).
Proof. intros H. unfold shutil_copy2. rewrite H. reflexivity. Qed.


(** What failed copies leave is at their destination. *)
Lemma leave_other (dst p : string) (lefts : list (option string)) :
  forall fl, p <> dst -> fold_left (leave dst) lefts fl !! p = fl !! p.
Proof.
  induction lefts as [|[b|] lefts IH]; intros fl Hp; cbn [fold_left leave];
    [reflexivity| |apply IH; exact Hp].
  rewrite IH by exact Hp. apply lookup_insert_ne. congruence.
Qed.


(** A turn of the loop whose copy fails. *)
Lemma retry_copy_fault c src actual a attempts initial w e lft rest :
  faults w = copy_fate (Some (e, lft)) :: rest ->
  retry_copy c src actual (a :: attempts) initial w
  = if is_sharing_violation e
    then retry_copy c src actual attempts (errmsg e)
           (slept_more [retry_delay a]
              (with_files (leave actual (files w) lft) (with_faults rest w)))
    else (Raise e,
          with_files (leave actual (files w) lft) (with_faults rest w)).
Proof.
  intros H. rewrite retry_copy_step. unfold xbind at 1.
  rewrite (copy2_fault _ _ w e lft rest H). reflexivity.
Qed.

(** As long as the copy meets sharing violations the loop sleeps the
    delay of the attempt and goes on with the next one. *)
Lemma retry_copy_sharing (rs : list (OSError * option string)) :
  forall pre post rest w c src actual initial,
    length pre = length rs -> Forall sharing (map fst rs) ->
    faults w = copy_failures rs ++ rest ->
    retry_copy c src actual (pre ++ post) initial w
    = retry_copy c src actual post (last_message initial (map fst rs))
                 (with_faults rest
                    (slept_more (map retry_delay pre)
                       (left_over actual (map snd rs) w))).
Proof.
  induction rs as [|[e lft] rs IH];
    intros pre post rest w c src actual initial Hlen Hall Hf.
  - destruct pre; [|discriminate]. simpl in *.
    destruct w as [fl un fa sl js co]. simpl in *. subst fa.
    unfold with_faults, slept_more, left_over, with_files. simpl.
    rewrite app_nil_r. reflexivity.
  - destruct pre as [|a pre]; [discriminate|]. simpl in Hlen.
    inversion Hall as [|? ? He Hes]; subst.
    change ((a :: pre) ++ post) with (a :: (pre ++ post)).
    rewrite (retry_copy_fault _ _ _ _ _ _ w e lft (copy_failures rs ++ rest))
      by exact Hf.
    unfold sharing in He. cbn [fst] in He. rewrite He.
    rewrite (IH pre post rest _ c src actual (errmsg e));
      [|lia|exact Hes|reflexivity].
    change (map fst ((e, lft) :: rs)) with (e :: map fst rs).
    rewrite last_message_cons with (initial := initial).
    destruct w as [fl un fa sl js co].
    unfold with_faults, slept_more, left_over, with_files.
    cbn. rewrite <- app_assoc. reflexivity.
Qed.

Lemma seq_split (n k : nat) :
  k <= n -> seq 0 n = seq 0 k ++ seq k (n - k).
Proof.
  intros H. replace n with (k + (n - k)) at 1 by lia. apply seq_app.
Qed.

Lemma backoff_take (k : nat) :
  k <= _RETRY_ATTEMPTS -> map retry_delay (seq 0 k) = take k backoff.
Proof.
  intros H. unfold backoff. rewrite (seq_split _RETRY_ATTEMPTS k H).
  rewrite map_app, take_app_length'; [reflexivity|].
  rewrite length_map, length_seq. reflexivity.
Qed.

Section Retry.

Variable md5 : string -> string.

(** The entry of [_exec_copy] into its retry loop. *)
Lemma exec_copy_enters_loop w c actual st :
  copies_only (faults w) ->
  _exists w (source c) = true ->
  _safe_dest md5 w (source c) (destination c) = (actual, st) ->
  st <> skip ->
  let c1 := renamed_to actual st c in
  _exec_copy md5 c w
  = xtry (retry_copy c1 (source c) actual (seq 0 _RETRY_ATTEMPTS) "None")
         (fail_handler c1 (source c)) w.
Proof.
  intros Hf Hs Hsd Hst c1. unfold _exec_copy.
  rewrite (exec_copy_pre_chosen md5 w c actual st Hf Hs Hsd).
  destruct st; try congruence; reflexivity.
Qed.




(** A success after fewer than five sharing violations. *)
Lemma exec_copy_succeeds_late w c actual st rs rest data :
  files w !! source c = Some data -> source c <> actual ->
  _safe_dest md5 w (source c) (destination c) = (actual, st) ->
  st <> skip ->
  length rs < _RETRY_ATTEMPTS -> Forall sharing (map fst rs) ->
  faults w = copy_failures rs ++ copy_fate None :: rest ->
  copies_only rest ->
  let c' := set_status done (renamed_to actual st c) in
  _exec_copy md5 c w
  = (Ok c',
     logged c' (with_files (<[actual := data]>
                              (fold_left (leave actual) (map snd rs)
                                         (files w)))
                  (with_faults rest
                     (slept_more (take (length rs) backoff) w)))).
Proof.
  intros Hdata Hne Hsd Hst Hlen Hall Hf Hrest c'.
  assert (Hs : _exists w (source c) = true).
  { unfold _exists. rewrite Hdata. apply bool_decide_eq_true. eauto. }
  assert (Hco : copies_only (faults w)).
  { rewrite Hf. apply copies_only_app. split;
      [apply copies_only_failures|exact Hrest]. }
  rewrite (exec_copy_enters_loop w c actual st Hco Hs Hsd Hst). cbn zeta.
  unfold xtry at 1.
  rewrite (seq_split _RETRY_ATTEMPTS (length rs)) by lia.
  rewrite (retry_copy_sharing rs _ _ (copy_fate None :: rest) w);
    [|rewrite length_seq; lia|exact Hall|exact Hf].
  rewrite backoff_take by lia.
  destruct (seq (length rs) (_RETRY_ATTEMPTS - length rs)) as [|a post] eqn:Hq.
  { apply (f_equal (@length nat)) in Hq. rewrite length_seq in Hq.
    simpl in Hq. lia. }
  rewrite retry_copy_step. unfold xbind at 1.
  unfold shutil_copy2 at 1.
  cbn [faults with_faults next_copy files slept_more left_over with_files].
  rewrite (leave_other _ _ _ _ Hne), Hdata.
  unfold xbind. rewrite log_safe_ok by exact Hrest.
  destruct w as [fl un fa sl js co]. reflexivity.
Qed.




End Retry.




(** ** C7: rename and dedup of one group *)

Lemma mem_true (v : string) (s : list string) : mem v s = true <-> In v s.
Proof.
  unfold mem. rewrite existsb_exists. split.
  - intros (x & Hx & Heq). apply String.eqb_eq in Heq. subst. exact Hx.
  - intros H. exists v. split; [exact H|apply String.eqb_refl].
Qed.

Lemma mem_false (v : string) (s : list string) : mem v s = false <-> ~ In v s.
Proof.
  rewrite <- mem_true. destruct (mem v s); split; intros; congruence.
Qed.

Lemma group_heads_cons hg d :
  group_heads (hg :: d)
  = match head (snd hg) with Some i => i :: group_heads d | None => group_heads d end.
Proof. reflexivity. Qed.

Lemma group_rests_cons hg d :
  group_rests (hg :: d) = list_to_set (tail (snd hg)) ∪ group_rests d.
Proof. reflexivity. Qed.

Lemma by_hash_append_known h i d :
  In h (map fst d) ->
  (forall hg, In hg d -> snd hg <> []) ->
  map fst (by_hash_append h i d) = map fst d /\
  group_heads (by_hash_append h i d) = group_heads d /\
  group_rests (by_hash_append h i d) = {[ i ]} ∪ group_rests d /\
  rest_count (by_hash_append h i d) = S (rest_count d) /\
  (forall hg, In hg (by_hash_append h i d) -> snd hg <> []).
Proof.
  induction d as [|[h' g] d IH]; intros Hin Hne; [destruct Hin|].
  cbn [by_hash_append]. destruct (String.eqb h' h) eqn:Heq.
  - assert (Hg : g <> []) by (apply (Hne (h', g)); left; reflexivity).
    destruct g as [|j g]; [congruence|].
    rewrite !group_heads_cons, !group_rests_cons. cbn [fst snd map head tail app].
    split; [reflexivity|]. split; [reflexivity|]. split; [|split].
    + rewrite list_to_set_app_L. set_solver.
    + unfold rest_count. cbn [map snd tail sum_list_with sum_list].
      rewrite length_app. simpl. lia.
    + intros hg [<-|H]; [discriminate|]. apply Hne. right. exact H.
  - apply String.eqb_neq in Heq. cbn [map fst] in Hin.
    destruct Hin as [Hin|Hin]; [congruence|].
    destruct (IH Hin) as (Hk & Hh & Hr & Hc & Hn).
    { intros hg H. apply Hne. right. exact H. }
    rewrite !group_heads_cons, !group_rests_cons. cbn [map fst snd].
    rewrite Hk, Hh, Hr.
    split; [reflexivity|]. split; [reflexivity|]. split; [|split].
    + set_solver.
    + unfold rest_count in *. cbn [map sum_list_with sum_list].
      rewrite Hc. lia.
    + intros hg [<-|H]; [apply (Hne (h', g)); left; reflexivity|].
      apply Hn. exact H.
Qed.

Lemma by_hash_append_new h i d :
  ~ In h (map fst d) -> by_hash_append h i d = d ++ [(h, [i])].
Proof.
  induction d as [|[h' g] d IH]; simpl; intros Hnin; [reflexivity|].
  destruct (String.eqb h' h) eqn:Heq.
  - apply String.eqb_eq in Heq. tauto.
  - rewrite IH by tauto. reflexivity.
Qed.

Lemma group_heads_app d1 d2 :
  group_heads (d1 ++ d2) = group_heads d1 ++ group_heads d2.
Proof. unfold group_heads. apply omap_app. Qed.

Lemma group_rests_app d1 d2 :
  group_rests (d1 ++ d2) = group_rests d1 ∪ group_rests d2.
Proof.
  unfold group_rests. rewrite map_app. apply leibniz_equiv.
  apply union_list_app.
Qed.

Lemma class_firsts_subset {A : Type} (hash : A -> string) seen indices i :
  In i (class_firsts hash seen indices) -> In i indices.
Proof.
  revert seen. induction indices as [|j rest IH]; intros seen; simpl; [tauto|].
  destruct (mem (hash j) seen).
  - intros H. right. eapply IH. exact H.
  - intros [<-|H]; [left; reflexivity|]. right. eapply IH. exact H.
Qed.

Lemma rest_count_app d1 d2 :
  rest_count (d1 ++ d2) = rest_count d1 + rest_count d2.
Proof.
  unfold rest_count. rewrite map_app. induction (map _ d1) as [|x l IH];
    simpl; [reflexivity|]. rewrite IH. lia.
Qed.

(** The dictionary built by grouping: its heads are the class firsts and
    its tails are the other indices. *)
Lemma group_by_hash_fold (hash : nat -> string) (indices : list nat) :
  forall d,
    NoDup indices ->
    (forall hg, In hg d -> snd hg <> []) ->
    let d' := fold_left (fun d ih => by_hash_append (snd ih) (fst ih) d)
                        (map (fun i => (i, hash i)) indices) d in
    group_heads d' = group_heads d ++ class_firsts hash (map fst d) indices /\
    group_rests d'
    = group_rests d
      ∪ (list_to_set indices
           ∖ list_to_set (class_firsts hash (map fst d) indices)) /\
    rest_count d' + length (class_firsts hash (map fst d) indices)
    = rest_count d + length indices /\
    (forall hg, In hg d' -> snd hg <> []).
Proof.
  induction indices as [|i rest IH]; intros d Hnd Hne; simpl.
  - rewrite app_nil_r. repeat split; [set_solver|exact Hne].
  - inversion Hnd as [|? ? Hi Hrest]; subst.
    assert (Hfresh : forall seen, i ∉ class_firsts hash seen rest).
    { intros seen Hin. apply list_elem_of_In, class_firsts_subset in Hin.
      apply Hi. apply list_elem_of_In. exact Hin. }
    destruct (mem (hash i) (map fst d)) eqn:Hm.
    + apply mem_true in Hm.
      destruct (by_hash_append_known (hash i) i d Hm Hne)
        as (Hk & Hh & Hr & Hc & Hn).
      destruct (IH (by_hash_append (hash i) i d) Hrest Hn)
        as (H1 & H2 & H3 & H4).
      rewrite H1, H2, Hk, Hh, Hr. rewrite Hk, Hc in H3.
      split; [reflexivity|]. split; [specialize (Hfresh (map fst d)); set_solver|].
      split; [lia|exact H4].
    + apply mem_false in Hm. rewrite (by_hash_append_new _ _ _ Hm).
      destruct (IH (d ++ [(hash i, [i])]) Hrest) as (H1 & H2 & H3 & H4).
      { intros hg Hin. apply in_app_or in Hin as [Hin|[<-|[]]];
          [apply Hne; exact Hin|simpl; discriminate]. }
      rewrite H1, H2, group_heads_app, group_rests_app.
      rewrite map_app, rest_count_app in H3. rewrite map_app.
      simpl. rewrite <- app_assoc. simpl in H3.
      change (rest_count [(hash i, [i])]) with 0 in H3.
      split; [reflexivity|]. split; [|split; [lia|exact H4]].
      specialize (Hfresh (map fst d ++ [hash i])).
      unfold group_rests at 2. simpl.
      assert (Hni : i ∉ rest) by exact Hi.
      set_solver.
Qed.

Lemma hash_sources_map md5 w cs indices :
  (forall i, In i indices -> i < length cs) ->
  hash_sources md5 w cs indices
  = Some (map (fun i => (i, hash_at md5 w cs i)) indices).
Proof.
  induction indices as [|i rest IH]; intros Hr; simpl; [reflexivity|].
  assert (Hi : i < length cs) by (apply Hr; left; reflexivity).
  apply lookup_lt_is_Some_2 in Hi as [c Hc].
  rewrite Hc, IH by (intros j Hj; apply Hr; right; exact Hj).
  unfold hash_at. rewrite Hc. reflexivity.
Qed.


Lemma rename_keeper_changes keeper name st c :
  rs_changes st !! keeper = Some c ->
  rs_changes (rename_keeper keeper name st)
  = <[keeper := set_destination
                  (Path.join (Path.parent (destination c)) name) c]>
      (rs_changes st)
  /\ rs_stats (rename_keeper keeper name st)
     = mkStats (S (renamed_count (rs_stats st))) (deduped_count (rs_stats st)).
Proof. intros H. unfold rename_keeper. rewrite H. split; reflexivity. Qed.

(** The numbering loop: each class first is renamed with the next
    number, the other entries of the classes go to the remove set. *)
Lemma number_groups_spec (base_name : string) (d : list (string * list nat)) :
  forall counter remove st,
    (forall hg, In hg d -> snd hg <> []) ->
    NoDup (group_heads d) ->
    (forall i, In i (group_heads d) -> i < length (rs_changes st)) ->
    exists remove' st',
      number_groups base_name counter d (remove, st) = (remove', st') /\
      remove' = remove ∪ group_rests d /\
      (forall k i c,
         group_heads d !! k = Some i -> rs_changes st !! i = Some c ->
         rs_changes st' !! i
         = Some (set_destination
                   (Path.join (Path.parent (destination c))
                      (base_name +:+ "_" +:+ str_nat (counter + S k)
                                 +:+ ".pdf")) c)) /\
      (forall i, ~ In i (group_heads d) ->
                 rs_changes st' !! i = rs_changes st !! i) /\
      length (rs_changes st') = length (rs_changes st) /\
      deduped_count (rs_stats st')
      = deduped_count (rs_stats st) + rest_count d /\
      renamed_count (rs_stats st') = renamed_count (rs_stats st) + length d.
Proof.
  induction d as [|[h g] d IH]; intros counter remove st Hne Hnd Hrange.
  - exists remove, st. split; [reflexivity|].
    split; [unfold group_rests; simpl; set_solver|].
    split; [intros k i c Hk; destruct k; discriminate|].
    unfold rest_count. simpl. repeat split; auto; lia.
  - assert (Hg : g <> []) by (apply (Hne (h, g)); left; reflexivity).
    destruct g as [|j g]; [congruence|].
    rewrite group_heads_cons in Hnd, Hrange. cbn [snd head] in Hnd, Hrange.
    inversion Hnd as [|? ? Hj Hnd']; subst.
    assert (Hjr : j < length (rs_changes st)) by (apply Hrange; left; reflexivity).
    destruct (lookup_lt_is_Some_2 _ _ Hjr) as [cj Hcj].
    cbn [number_groups drop_rest snd head tail].
    set (st1 := mkRenameState (rs_changes st)
                  (mkStats (renamed_count (rs_stats st))
                           (deduped_count (rs_stats st) + length g))
                  (rs_original_names st)).
    set (name := base_name +:+ "_" +:+ str_nat (S counter) +:+ ".pdf").
    destruct (rename_keeper_changes j name st1 cj Hcj) as [Hch Hst].
    destruct (IH (S counter) (remove ∪ list_to_set g)
                 (rename_keeper j name st1))
      as (remove' & st' & Hrun & Hrem & Hkeep & Hother & Hlen & Hded & Hren).
    { intros hg H. apply Hne. right. exact H. }
    { exact Hnd'. }
    { intros i Hi. rewrite Hch, length_insert. apply Hrange. right. exact Hi. }
    exists remove', st'. split; [exact Hrun|].
    rewrite Hch in Hkeep, Hother, Hlen. rewrite Hst in Hded, Hren.
    rewrite group_heads_cons, group_rests_cons. cbn [snd head tail].
    split; [rewrite Hrem; set_solver|].
    split; [|split; [|split; [|split]]].
    + intros k i c Hk Hc. destruct k as [|k].
      * simpl in Hk. injection Hk as <-.
        rewrite Hother by (rewrite <- list_elem_of_In; exact Hj).
        rewrite list_lookup_insert_eq by exact Hjr.
        rewrite Hcj in Hc. injection Hc as <-.
        subst name. rewrite Nat.add_1_r. reflexivity.
      * simpl in Hk.
        assert (Hij : j <> i).
        { intros ->. apply Hj. apply list_elem_of_lookup. eauto. }
        rewrite (Hkeep k i c Hk).
        -- replace (S counter + S k) with (counter + S (S k)) by lia.
           reflexivity.
        -- rewrite list_lookup_insert_ne by exact Hij. exact Hc.
    + intros i Hi.
      rewrite Hother by (intros H; apply Hi; right; exact H).
      apply list_lookup_insert_ne. intros ->. apply Hi. left. reflexivity.
    + rewrite Hlen, length_insert. reflexivity.
    + rewrite Hded. unfold rest_count. simpl. lia.
    + rewrite Hren. simpl. lia.
Qed.

(** The class firsts: the indices with no earlier index of the same
    hash, in the order of the group. *)
Lemma class_firsts_iff {A : Type} (hash : A -> string) indices :
  forall seen i,
    In i (class_firsts hash seen indices) <->
    exists pre post,
      indices = pre ++ i :: post /\ ~ In (hash i) seen /\
      forall j, In j pre -> hash j <> hash i.
Proof.
  induction indices as [|a rest IH]; intros seen i; simpl.
  - split; [tauto|]. intros (pre & post & H & _). destruct pre; discriminate.
  - destruct (mem (hash a) seen) eqn:Hm.
    + apply mem_true in Hm. rewrite IH. split.
      * intros (pre & post & -> & Hs & Hp). exists (a :: pre), post.
        split; [reflexivity|]. split; [exact Hs|].
        intros j [<-|Hj]; [congruence|]. apply Hp. exact Hj.
      * intros (pre & post & Heq & Hs & Hp). destruct pre as [|b pre].
        -- injection Heq as <- <-. tauto.
        -- injection Heq as <- ->. exists pre, post.
           split; [reflexivity|]. split; [exact Hs|].
           intros j Hj. apply Hp. right. exact Hj.
    + apply mem_false in Hm. split.
      * intros [<-|Hin].
        -- exists [], rest. split; [reflexivity|]. split; [exact Hm|].
           intros j [].
        -- apply IH in Hin as (pre & post & -> & Hs & Hp).
           exists (a :: pre), post. split; [reflexivity|].
           split; [intros H; apply Hs, in_or_app; left; exact H|].
           intros j [<-|Hj]; [|apply Hp; exact Hj].
           intros Heq. apply Hs, in_or_app. right. left. exact Heq.
      * intros (pre & post & Heq & Hs & Hp). destruct pre as [|b pre].
        -- injection Heq as <- <-. left. reflexivity.
        -- injection Heq as <- ->. right. apply IH. exists pre, post.
           split; [reflexivity|]. split.
           ++ intros H. apply in_app_or in H as [H|[H|[]]]; [tauto|].
              apply (Hp a); [left; reflexivity|exact H].
           ++ intros j Hj. apply Hp. right. exact Hj.
Qed.

Lemma class_firsts_distinct {A : Type} (hash : A -> string) indices :
  forall seen,
    NoDup (map hash (class_firsts hash seen indices)) /\
    (forall k, In k (class_firsts hash seen indices) -> ~ In (hash k) seen).
Proof.
  induction indices as [|a rest IH]; intros seen; simpl.
  - split; [constructor|tauto].
  - destruct (mem (hash a) seen) eqn:Hm; [apply IH|].
    apply mem_false in Hm.
    destruct (IH (seen ++ [hash a])) as [Hnd Hfresh]. split.
    + simpl. constructor; [|exact Hnd].
      rewrite list_elem_of_In, in_map_iff. intros (k & Heq & Hk).
      apply (Hfresh k Hk), in_or_app. right. left. symmetry. exact Heq.
    + intros k [<-|Hk]; [exact Hm|].
      intros H. apply (Hfresh k Hk), in_or_app. left. exact H.
Qed.

Lemma class_firsts_cover {A : Type} (hash : A -> string) indices :
  forall seen i,
    In i indices ->
    In (hash i) seen \/
    exists k, In k (class_firsts hash seen indices) /\ hash k = hash i.
Proof.
  induction indices as [|a rest IH]; intros seen i; simpl; [tauto|].
  destruct (mem (hash a) seen) eqn:Hm.
  - apply mem_true in Hm. intros [<-|Hi]; [left; exact Hm|]. apply IH, Hi.
  - intros [<-|Hi].
    + right. exists a. split; [left|]; reflexivity.
    + destruct (IH (seen ++ [hash a]) i Hi) as [H|(k & Hk & Heq)].
      * apply in_app_or in H as [H|[H|[]]]; [left; exact H|].
        right. exists a. split; [left; reflexivity|exact H].
      * right. exists k. split; [right; exact Hk|exact Heq].
Qed.


Lemma rename_dedup_group_nonempty md5 w st indices base_name :
  indices <> [] ->
  _rename_dedup_group md5 w st indices base_name
  = match hash_sources md5 w (rs_changes st) indices with
    | None => None
    | Some hashes =>
        match group_by_hash hashes with
        | [(_, group)] =>
            let '(remove, st1) := drop_rest group (∅, st) in
            match head group with
            | Some keeper =>
                Some (remove, rename_keeper keeper (base_name +:+ ".pdf") st1)
            | None => Some (remove, st1)
            end
        | by_hash => Some (number_groups base_name 0 by_hash (∅, st))
        end
    end.
Proof.
  intros H. destruct indices as [|i rest]; [congruence|].
  unfold _rename_dedup_group.
  destruct (hash_sources md5 w (rs_changes st) (i :: rest)) as [hs|];
    [|reflexivity].
  destruct (group_by_hash hs) as [|[h g] [|hg d]]; reflexivity.
Qed.

(** Names and joins. *)
Lemma chars_app (s1 s2 : string) : chars (s1 +:+ s2) = chars s1 ++ chars s2.
Proof. induction s1 as [|a s1 IH]; simpl; [reflexivity|]. now rewrite IH. Qed.

Lemma take_until_app_sep (l r : list ascii) (a : ascii) :
  existsb Path.is_sep l = false -> Path.is_sep a = true ->
  Path.take_until Path.is_sep (l ++ a :: r) = l.
Proof.
  intros Hl Ha. induction l as [|x l IH]; simpl in *.
  - rewrite Ha. reflexivity.
  - apply orb_false_iff in Hl as [Hx Hl]. rewrite Hx, IH by exact Hl.
    reflexivity.
Qed.

Lemma take_until_none (l : list ascii) :
  existsb Path.is_sep l = false -> Path.take_until Path.is_sep l = l.
Proof.
  intros Hl. induction l as [|x l IH]; simpl in *; [reflexivity|].
  apply orb_false_iff in Hl as [Hx Hl]. rewrite Hx, IH by exact Hl.
  reflexivity.
Qed.

Lemma existsb_rev {A : Type} (f : A -> bool) (l : list A) :
  existsb f (rev l) = existsb f l.
Proof.
  induction l as [|x l IH]; simpl; [reflexivity|].
  rewrite existsb_app, IH. simpl. rewrite orb_false_r, orb_comm. reflexivity.
Qed.

Lemma name_of_plain (n : string) : plain_name n -> Path.name n = n.
Proof.
  intros Hn. unfold Path.name. rewrite take_until_none.
  - rewrite rev_involutive. apply str_of_chars.
  - rewrite existsb_rev. exact Hn.
Qed.

Lemma name_after_sep (d n : string) :
  plain_name n -> Path.name (d +:+ "/" +:+ n) = n.
Proof.
  intros Hn. unfold Path.name. rewrite !chars_app, rev_app_distr.
  change (chars "/") with ["/"%char]. rewrite rev_app_distr. simpl.
  rewrite <- app_assoc. simpl.
  rewrite take_until_app_sep; [|rewrite existsb_rev; exact Hn|reflexivity].
  rewrite rev_involutive. apply str_of_chars.
Qed.

(** The last component of [d / n] is [n]. *)
Lemma name_join (d n : string) : plain_name n -> Path.name (Path.join d n) = n.
Proof.
  intros Hn. unfold Path.join.
  destruct (String.eqb d "."); [apply name_of_plain, Hn|].
  destruct (String.eqb d "/").
  - apply (name_after_sep "" n Hn).
  - apply name_after_sep, Hn.
Qed.

Lemma plain_app (s1 s2 : string) :
  plain_name s1 -> plain_name s2 -> plain_name (s1 +:+ s2).
Proof.
  unfold plain_name. intros H1 H2. rewrite chars_app, existsb_app, H1, H2.
  reflexivity.
Qed.

Lemma plain_uint (d : Decimal.uint) : plain_name (NilEmpty.string_of_uint d).
Proof. unfold plain_name. induction d; simpl; auto. Qed.

Lemma plain_str_nat (k : nat) : plain_name (str_nat k).
Proof.
  unfold str_nat, NilZero.string_of_uint.
  destruct (Nat.to_uint k); try apply plain_uint. reflexivity.
Qed.



(** The entries of a ledger with their indices. *)
Lemma indexed_fst {A : Type} (cs : list A) :
  forall k, map fst (imap (fun i c => (k + i, c)) cs) = seq k (length cs).
Proof.
  induction cs as [|c cs IH]; intros k; [reflexivity|].
  rewrite imap_cons. cbn [map fst length seq]. rewrite Nat.add_0_r. f_equal.
  rewrite <- (IH (S k)). f_equal. apply imap_ext. intros i x _. cbn.
  f_equal. lia.
Qed.

Lemma indexed_In {A : Type} (cs : list A) (i : nat) (c : A) :
  In (i, c) (imap (fun i c => (i, c)) cs) <-> cs !! i = Some c.
Proof.
  rewrite <- list_elem_of_In, elem_of_lookup_imap. split.
  - intros (i' & y & [= -> ->] & H). exact H.
  - intros H. exists i, c. auto.
Qed.

Lemma map_fst_filter {A B : Type} (p : A -> bool) (l : list (A * B)) :
  map fst (List.filter (fun ic => p (fst ic)) l) = List.filter p (map fst l).
Proof.
  induction l as [|[a b] l IH]; [reflexivity|]. cbn.
  destruct (p a); cbn; rewrite IH; reflexivity.
Qed.

Lemma NoDup_filter_seq (p : nat -> bool) (k n : nat) :
  NoDup (List.filter p (seq k n)).
Proof.
  apply NoDup_ListNoDup, List.NoDup_filter, seq_NoDup.
Qed.

(** Removing the indices of [remove] drops one entry for each of them. *)
Lemma remove_indices_length (remove : gset nat) (cs : list Change) :
  (forall i, i ∈ remove -> i < length cs) ->
  length (remove_indices remove cs) + size remove = length cs.
Proof.
  intros Hr. unfold remove_indices. rewrite length_map.
  set (P := imap (fun i c => (i, c)) cs).
  assert (HP : map fst P = seq 0 (length cs)) by apply (indexed_fst cs 0).
  pose proof (List.filter_length
                (fun ic : nat * Change => bool_decide (fst ic ∈ remove)) P)
    as Hlen.
  cbv beta in Hlen.
  assert (Hdrop :
    length (List.filter
              (fun ic : nat * Change => bool_decide (fst ic ∈ remove)) P)
    = size remove).
  { pose proof (map_fst_filter (fun i => bool_decide (i ∈ remove)) P) as Hm.
    cbv beta in Hm. apply (f_equal (@length nat)) in Hm.
    rewrite length_map in Hm. rewrite Hm, HP.
    rewrite <- (size_list_to_set (C := gset nat)) by apply NoDup_filter_seq.
    f_equal. apply set_eq. intros i.
    rewrite elem_of_list_to_set, list_elem_of_In, filter_In, in_seq.
    rewrite bool_decide_eq_true. split; [tauto|].
    intros Hi. split; [|exact Hi]. specialize (Hr i Hi). lia. }
  assert (HlenP : length P = length cs).
  { rewrite <- (length_map fst), HP, length_seq. reflexivity. }
  lia.
Qed.

Lemma remove_indices_In (remove : gset nat) (cs : list Change) (c : Change) :
  In c (remove_indices remove cs) <->
  exists i, (i ∉ remove) /\ cs !! i = Some c.
Proof.
  unfold remove_indices. rewrite in_map_iff. split.
  - intros ([i c'] & <- & Hin). apply filter_In in Hin as [Hin Hk].
    apply indexed_In in Hin. cbn in Hk. apply negb_true_iff in Hk.
    apply bool_decide_eq_false in Hk. exists i. auto.
  - intros (i & Hi & Hc). exists (i, c). split; [reflexivity|].
    apply filter_In. split; [apply indexed_In, Hc|]. cbn.
    apply negb_true_iff, bool_decide_eq_false. exact Hi.
Qed.








(** The scenario of the specification: two different contracts and a
    copy of the first one give [cc_1.pdf] and [cc_2.pdf], one drop. *)
Example rename_dedup_three_contracts :
  match _rename_dedup_group plain_digest dedup_world dedup_state
                            [0; 1; 2] "cc" with
  | Some (remove, st') =>
      (elements remove, map destination (rs_changes st'))
  | None => ([], [])
  end
  = ([2], ["/OUT/P/V/cc_1.pdf"; "/OUT/P/V/cc_2.pdf";
           "/OUT/P/V/ctr cadru copy.pdf"]).
Proof. vm_compute. reflexivity. Qed.

(** ** C4, C5: parent and keeper election *)

(** [max(xs, key=key)] is the first element whose key is maximal. *)
Lemma fold_max_spec {A : Type} (key : A -> nat) (l : list A) :
  forall pre best mid,
    (forall y, In y pre -> key y < key best) ->
    (forall y, In y mid -> key y <= key best) ->
    exists pre' post',
      let m := fold_left (fun best y => if key best <? key y then y else best)
                         l best in
      pre ++ best :: mid ++ l = pre' ++ m :: post' /\
      (forall y, In y pre' -> key y < key m) /\
      (forall y, In y post' -> key y <= key m).
Proof.
  induction l as [|y l IH]; intros pre best mid Hpre Hmid; simpl.
  - exists pre, mid. rewrite app_nil_r. auto.
  - destruct (key best <? key y) eqn:Hlt.
    + apply Nat.ltb_lt in Hlt.
      destruct (IH (pre ++ best :: mid) y []) as (pre' & post' & Heq & H1 & H2).
      * intros z Hz. apply in_app_or in Hz as [Hz|[<-|Hz]].
        -- specialize (Hpre z Hz). lia.
        -- exact Hlt.
        -- specialize (Hmid z Hz). lia.
      * intros z [].
      * exists pre', post'. simpl in *. rewrite <- Heq, <- app_assoc.
        simpl. auto.
    + apply Nat.ltb_ge in Hlt.
      destruct (IH pre best (mid ++ [y])) as (pre' & post' & Heq & H1 & H2).
      * exact Hpre.
      * intros z Hz. apply in_app_or in Hz as [Hz|[<-|[]]]; auto.
      * exists pre', post'. simpl in *. rewrite <- Heq, <- app_assoc.
        simpl. auto.
Qed.

Lemma py_max_by_spec {A : Type} (key : A -> nat) (xs : list A) (m : A) :
  py_max_by key xs = Some m ->
  exists pre post,
    xs = pre ++ m :: post /\
    (forall y, In y pre -> key y < key m) /\
    (forall y, In y post -> key y <= key m).
Proof.
  destruct xs as [|x xs]; [discriminate|]. simpl. intros [= <-].
  destruct (fold_max_spec key xs [] x []) as (pre' & post' & Heq & H1 & H2);
    [intros y []|intros y []|].
  exists pre', post'. simpl in Heq. auto.
Qed.

Lemma py_max_by_some {A : Type} (key : A -> nat) (xs : list A) :
  xs <> [] -> exists m, py_max_by key xs = Some m.
Proof. destruct xs; [congruence|]. intros _. eexists. reflexivity. Qed.

Lemma py_max_by_max {A : Type} (key : A -> nat) (xs : list A) (m : A) :
  py_max_by key xs = Some m ->
  In m xs /\ forall y, In y xs -> key y <= key m.
Proof.
  intros H. apply py_max_by_spec in H as (pre & post & -> & H1 & H2). split.
  - apply in_or_app. right. left. reflexivity.
  - intros y Hy. apply in_app_or in Hy as [Hy|[<-|Hy]].
    + specialize (H1 y Hy). lia.
    + lia.
    + apply H2, Hy.
Qed.

Lemma count_pos (v : string) (pool : list string) :
  In v pool <-> 0 < count v pool.
Proof.
  unfold count. induction pool as [|x pool IH]; simpl; [split; [tauto|lia]|].
  destruct (String.eqb v x) eqn:Heq; simpl.
  - apply String.eqb_eq in Heq. split; [lia|]. intros _. left. congruence.
  - apply String.eqb_neq in Heq. rewrite <- IH. split; [|tauto].
    intros [H|H]; [congruence|exact H].
Qed.

(** The mode of a pool: an element of the pool that no other element
    outnumbers. *)
Lemma mode_of_spec (set_iter : list string -> list string) (pool : list string) :
  iterates_elements set_iter -> pool <> [] ->
  exists m,
    mode_of set_iter pool = Some m /\ In m pool /\
    forall v, count v pool <= count m pool.
Proof.
  intros Hset Hne. unfold mode_of.
  assert (Hne' : set_iter pool <> []).
  { destruct pool as [|x pool]; [congruence|].
    assert (Hx : In x (set_iter (x :: pool))) by (apply Hset; left; reflexivity).
    intros Heq. rewrite Heq in Hx. destruct Hx. }
  destruct (py_max_by_some (fun v => count v pool) _ Hne') as [m Hm].
  exists m. split; [exact Hm|].
  apply py_max_by_max in Hm as [Hin Hmax].
  apply (proj1 (Hset pool m)) in Hin.
  split; [exact Hin|]. intros v.
  destruct (count v pool) eqn:Hc; [lia|]. rewrite <- Hc. apply Hmax.
  apply Hset, count_pos. lia.
Qed.

(** A pattern without group leaves the captures as they are: a result
    is always a result of the continuation. *)
Lemma star_loop_groupless greedy step k res :
  (forall i c k', step i c k' = Some res -> exists j, k' j c = Some res) ->
  forall fuel i c,
    Re.star_loop greedy step k fuel i c = Some res ->
    exists j, k j c = Some res.
Proof.
  intros Hstep. induction fuel as [|fuel IH]; intros i c H; simpl in H.
  - eauto.
  - unfold Re.orelse in H. destruct greedy.
    + match type of H with
      | context [step i c ?kk] => destruct (step i c kk) eqn:Hm
      end.
      * injection H as <-. apply Hstep in Hm as [j Hm].
        destruct (i <? j); [|discriminate]. apply IH in Hm. exact Hm.
      * eauto.
    + destruct (k i c) eqn:Hk.
      * injection H as <-. eauto.
      * apply Hstep in H as [j H].
        destruct (i <? j); [|discriminate]. apply IH in H. exact H.
Qed.

Lemma run_groupless (r : Re.re) :
  groupless r = true ->
  forall t i c k res,
    Re.run t r i c k = Some res -> exists j, k j c = Some res.
Proof.
  induction r as [|p|r1 IH1 r2 IH2|r1 IH1 r2 IH2|g r IH|n r IH| | | |p|p];
    simpl; intros Hg t i c k res H.
  - eauto.
  - destruct (t !! i) as [a|]; [|discriminate].
    destruct (p a); [eauto|discriminate].
  - apply andb_true_iff in Hg as [Hg1 Hg2].
    apply (IH1 Hg1) in H as [j H]. apply (IH2 Hg2) in H. exact H.
  - apply andb_true_iff in Hg as [Hg1 Hg2]. unfold Re.orelse in H.
    destruct (Re.run t r1 i c k) eqn:H1.
    + injection H as <-. apply (IH1 Hg1) in H1. exact H1.
    + apply (IH2 Hg2) in H. exact H.
  - change (Re.star_loop g (Re.run t r) k (S (length t - i)) i c = Some res)
      in H.
    eapply star_loop_groupless; [|exact H].
    intros i' c' k' Hs. eapply IH; eauto.
  - discriminate.
  - destruct (i =? 0); [eauto|discriminate].
  - destruct (Re.at_end t i); [eauto|discriminate].
  - destruct (Re.word_boundary t i); [eauto|discriminate].
  - destruct i as [|i']; [eauto|].
    destruct (t !! i') as [a|]; [|eauto].
    destruct (p a); [discriminate|eauto].
  - destruct (t !! i) as [a|]; [|eauto].
    destruct (p a); [discriminate|eauto].
Qed.

(** A pattern with one group of [n] characters between parts without
    group captures exactly [n] characters of the text. *)
Lemma framed_group_length (pre : list Re.re) (n : nat) (p : ascii -> bool)
    (post : Re.re) (t : list ascii) :
  0 < n ->
  Forall (fun r => groupless r = true) pre -> groupless post = true ->
  forall i j c,
    Re.run t (seq_chain pre (Re.Seq (Re.Grp 1 (Re.rep n (Re.Chr p))) post))
           i [] Re.ret = Some (j, c) ->
    exists s, c = [(1, (s, s + n))] /\ s + n <= length t.
Proof.
  intros Hpos Hpre Hpost. induction Hpre as [|a pre Ha _ IH]; intros i j c H.
  - cbn [seq_chain] in H. rewrite run_seq, run_grp, run_rep_chr in H.
    destruct (n <=? length (drop i t)) eqn:Hn; [|discriminate].
    destruct (forallb p (take n (drop i t))); [|discriminate].
    cbn [andb] in H. apply (run_groupless post Hpost) in H as [j' H].
    unfold Re.ret in H. injection H as <- <-.
    apply Nat.leb_le in Hn. rewrite length_drop in Hn.
    exists i. split; [reflexivity|lia].
  - cbn [seq_chain] in H. rewrite run_seq in H.
    apply (run_groupless a Ha) in H as [i' H]. apply IH in H. exact H.
Qed.

Lemma slice_length (t : list ascii) (s n : nat) :
  s + n <= length t -> String.length (Re.slice t s (s + n)) = n.
Proof.
  intros H. unfold Re.slice.
  rewrite length_str_of, length_take, length_drop. lia.
Qed.

Lemma FL_PATTERN_frame :
  FL_PATTERN
  = seq_chain [Re.Bol; Re.lit_i "FL"; Re.star Re.space; Re.chr "-";
               Re.star Re.space; Re.plus_lazy Re.any; Re.star Re.space;
               Re.chr "-"; Re.star Re.space]
      (Re.Seq (Re.Grp 1 (Re.rep 17 (Re.Chr upper_digit_i)))
              (Re.seqs [Re.star Re.any; Re.chr "."; Re.lit_i "pdf"; Re.Eol])).
Proof. reflexivity. Qed.

Lemma SERIEC_PATTERN_frame :
  SERIEC_PATTERN
  = seq_chain [Re.Bol; Re.lit_i "seriec_"]
      (Re.Seq (Re.Grp 1 (Re.rep 17 (Re.Chr upper_digit_i))) (Re.chr "_")).
Proof. reflexivity. Qed.

Lemma framed_match_length (r : Re.re) pre p post (fn v : string) :
  r = seq_chain pre (Re.Seq (Re.Grp 1 (Re.rep 17 (Re.Chr p))) post) ->
  forallb groupless pre = true -> groupless post = true ->
  match_group1 r fn = Some v -> String.length v = 17.
Proof.
  intros -> Hpre Hpost. unfold match_group1, Re.match_start, Re.match_at.
  destruct (Re.run _ _ 0 [] Re.ret) as [[j c]|] eqn:H; [|discriminate].
  apply framed_group_length in H as (s & -> & Hs);
    [|lia|apply Forall_forall|exact Hpost].
  - unfold Re.group. simpl. intros [= <-]. apply slice_length. exact Hs.
  - intros x Hx. rewrite forallb_forall in Hpre. apply Hpre. 
    apply list_elem_of_In. exact Hx.
Qed.

Lemma fl_of_length fn v : fl_of fn = Some v -> String.length v = 17.
Proof.
  apply (framed_match_length _ _ _ _ _ _ FL_PATTERN_frame); reflexivity.
Qed.

Lemma seriec_of_length fn v : seriec_of fn = Some v -> String.length v = 17.
Proof.
  unfold seriec_of. destruct (fl_of fn); [discriminate|].
  apply (framed_match_length _ _ _ _ _ _ SERIEC_PATTERN_frame); reflexivity.
Qed.

Lemma prefix_of_length fn v : prefix_of fn = Some v -> String.length v = 17.
Proof.
  unfold prefix_of. destruct (fl_of fn); [discriminate|].
  destruct (match_group1 SERIEC_PATTERN fn); [discriminate|].
  destruct (match_group1 PREFIX_PATTERN fn) as [u|]; [|discriminate].
  destruct (is_valid_vin u) eqn:Hv; [|discriminate].
  intros [= <-]. apply is_valid_vin_true in Hv. tauto.
Qed.

(** The pools hold what the PDF files directly in the folder give. *)
Lemma pools_of_fold (items : list DirEntry) :
  forall p,
    fold_left pool_step items p
    = mkPools (fl_vins p ++ omap fl_of (pdf_names items))
              (seriec_vins p ++ omap seriec_of (pdf_names items))
              (other_vins p ++ omap prefix_of (pdf_names items)).
Proof.
  induction items as [|e items IH]; intros p; simpl.
  - unfold pdf_names. simpl. rewrite !app_nil_r. destruct p. reflexivity.
  - rewrite IH. unfold pool_step, pdf_names. simpl.
    destruct (is_file e); simpl; [|reflexivity].
    destruct (is_pdf (entry_name e)); simpl; [|reflexivity].
    unfold seriec_of, prefix_of, fl_of.
    destruct (match_group1 FL_PATTERN (entry_name e)) as [v|]; simpl.
    { rewrite <- app_assoc. reflexivity. }
    destruct (match_group1 SERIEC_PATTERN (entry_name e)) as [v|]; simpl.
    { rewrite <- app_assoc. reflexivity. }
    destruct (match_group1 PREFIX_PATTERN (entry_name e)) as [v|]; simpl;
      [|reflexivity].
    destruct (is_valid_vin v); simpl; [|reflexivity].
    rewrite <- app_assoc. reflexivity.
Qed.

Lemma pools_of_spec (items : list DirEntry) :
  pools_of items
  = mkPools (omap fl_of (pdf_names items))
            (omap seriec_of (pdf_names items))
            (omap prefix_of (pdf_names items)).
Proof. unfold pools_of. rewrite pools_of_fold. reflexivity. Qed.

Lemma pool_elements_length (items : list DirEntry) (v : string) :
  In v (first_pool (pools_of items)) -> String.length v = 17.
Proof.
  rewrite pools_of_spec. unfold first_pool. simpl.
  assert (H1 : forall (f : string -> option string) (l : list string),
    (forall fn u, f fn = Some u -> String.length u = 17) ->
    In v (omap f l) -> String.length v = 17).
  { intros f l Hf Hin. apply list_elem_of_In, list_elem_of_omap in Hin
      as (fn & _ & Hfn). eapply Hf. exact Hfn. }
  destruct (omap fl_of (pdf_names items)) eqn:Hfl.
  - destruct (omap seriec_of (pdf_names items)) eqn:Hse.
    + apply H1. apply prefix_of_length.
    + rewrite <- Hse. apply H1. apply seriec_of_length.
  - rewrite <- Hfl. apply H1. apply fl_of_length.
Qed.

Lemma sorted_head (names : list string) (p : string) :
  head (sorted names) = Some p ->
  In p names /\ forall n, In n names -> String.le p n.
Proof.
  unfold sorted. intros H.
  pose proof (StronglySorted_merge_sort String.le names) as Hs.
  pose proof (merge_sort_Permutation String.le names) as Hp.
  destruct (merge_sort String.le names) as [|x l]; [discriminate|].
  simpl in H. injection H as ->. split.
  - apply list_elem_of_In. rewrite <- Hp. left.
  - intros n Hn. apply list_elem_of_In in Hn. rewrite <- Hp in Hn.
    apply StronglySorted_inv in Hs as [_ Hall].
    apply elem_of_cons in Hn as [->|Hn]; [reflexivity|].
    rewrite Forall_forall in Hall. apply Hall. exact Hn.
Qed.

Lemma sorted_head_some (names : list string) :
  names <> [] -> exists p, head (sorted names) = Some p.
Proof.
  intros Hne. unfold sorted.
  pose proof (merge_sort_Permutation String.le names) as Hp.
  destruct (merge_sort String.le names) as [|x l]; [|eauto].
  apply Permutation_nil_l in Hp. congruence.
Qed.

Lemma insertion_order_iterates : iterates_elements insertion_order.
Proof.
  intros l v. unfold insertion_order. split.
  - apply class_firsts_subset.
  - intros Hin.
    destruct (class_firsts_cover (fun v : string => v) l [] v Hin)
      as [[]|(k & Hk & ->)].
    exact Hk.
Qed.

Lemma get_parent_vin_first_pool set_iter items :
  get_parent_vin set_iter (Some items)
  = match first_pool (pools_of items) with
    | [] => None
    | pool => mode_of set_iter pool
    end.
Proof.
  unfold get_parent_vin, first_pool.
  destruct (fl_vins (pools_of items)); [|reflexivity].
  destruct (seriec_vins (pools_of items)); [|reflexivity].
  destruct (other_vins (pools_of items)); reflexivity.
Qed.

(** C5 (as amended): in a multi-VIN container the pools are filled from
    the names of the PDF files directly in the folder; the parent VIN is
    a most frequent element of the first non-empty pool, in the order FL,
    seriec, VIN prefix, and with three empty pools it is the
    lexicographically first name among the VIN-named subdirectories. *)
Theorem multi_car_parent_election (set_iter : list string -> list string)
    (listing : option (list DirEntry)) (vin_subdirs : list string) :
  iterates_elements set_iter -> vin_subdirs <> [] ->
  let names := pdf_names (default [] listing) in
  let pool :=
    first_pool (mkPools (omap fl_of names) (omap seriec_of names)
                        (omap prefix_of names)) in
  exists parent,
    multi_car_parent set_iter listing vin_subdirs = Some parent /\
    (pool <> [] ->
     In parent pool /\ forall v, count v pool <= count parent pool) /\
    (pool = [] ->
     In parent vin_subdirs /\
     forall n, In n vin_subdirs -> String.le parent n).
Proof.
  intros Hset Hne names pool.
  destruct (sorted_head_some vin_subdirs Hne) as [first Hfirst].
  pose proof (sorted_head vin_subdirs first Hfirst) as Hlex.
  destruct listing as [items|].
  - unfold multi_car_parent. rewrite get_parent_vin_first_pool.
    assert (Hpool : first_pool (pools_of items) = pool).
    { rewrite pools_of_spec. reflexivity. }
    pose proof (pool_elements_length items) as Hlen. rewrite Hpool in *.
    destruct pool as [|x pool'] eqn:Hp.
    + exists first. split; [exact Hfirst|]. split; [congruence|auto].
    + rewrite <- Hp in *.
      destruct (mode_of_spec set_iter pool Hset) as (m & Hm & Hin & Hmax).
      { rewrite Hp. discriminate. }
      rewrite Hm.
      assert (Hnz : String.eqb m "" = false).
      { apply String.eqb_neq. intros ->. specialize (Hlen "" Hin).
        discriminate. }
      rewrite Hnz. exists m. split; [reflexivity|].
      split; [auto|]. rewrite Hp. discriminate.
  - exists first. split; [exact Hfirst|]. split; [|auto].
    intros H. exfalso. apply H. reflexivity.
Qed.

Lemma multi_car_parent_election_witness :
  iterates_elements insertion_order /\
  exists parent,
    multi_car_parent insertion_order
      (Some [ mkEntry "FL - FORD KUGA - FORD222222222222B.pdf" RegularFile;
              mkEntry "seriec_FORD111111111111A_doc.pdf" RegularFile;
              mkEntry "FORD111111111111A" Directory ])
      ["FORD111111111111A"] = Some parent /\
    parent = "FORD222222222222B".
Proof.
  split; [exact insertion_order_iterates|].
  assert (Hne : ["FORD111111111111A"] <> []) by discriminate.
  destruct (multi_car_parent_election insertion_order
              (Some [ mkEntry "FL - FORD KUGA - FORD222222222222B.pdf" RegularFile;
                      mkEntry "seriec_FORD111111111111A_doc.pdf" RegularFile;
                      mkEntry "FORD111111111111A" Directory ])
              ["FORD111111111111A"] insertion_order_iterates Hne)
    as (parent & Hp & Hpool & _).
  exists parent. split; [exact Hp|].
  assert (Hin : In parent ["FORD222222222222B"]).
  { apply Hpool. vm_compute. discriminate. }
  destruct Hin as [<-|[]]. reflexivity.
Defined.

(** C5 (as stated) fails: a loose text file that matches the seriec
    pattern fills pool P2 as the claim words it, but the code looks at
    PDF files only and falls back to the first VIN-named subdirectory. *)
Lemma multi_car_parent_ignores_non_pdf :
  first_pool (spec_pools loose_text_listing) = ["AAAAA2345678901AB"] /\
  multi_car_parent insertion_order (Some loose_text_listing)
                   ["ZZZZZ2345678901AB"]
  = Some "ZZZZZ2345678901AB".
Proof. split; vm_compute; reflexivity. Qed.

(** Insertion-ordered dictionaries. *)
Lemma dict_get_set {V : Type} (k k' : string) (x : V) (d : list (string * V)) :
  dict_get k' (dict_set k x d)
  = if String.eqb k k' then Some x else dict_get k' d.
Proof.
  induction d as [|[k0 v0] d IH]; simpl.
  - rewrite String.eqb_sym. destruct (String.eqb k' k); reflexivity.
  - destruct (String.eqb k0 k) eqn:H0; simpl.
    + apply String.eqb_eq in H0. subst k0.
      destruct (String.eqb k k') eqn:Hk; reflexivity.
    + destruct (String.eqb k0 k') eqn:H1.
      * apply String.eqb_eq in H1. subst k0. rewrite String.eqb_sym, H0.
        reflexivity.
      * exact IH.
Qed.

Lemma dict_set_keys {V : Type} (k : string) (x : V) (d : list (string * V)) :
  map fst (dict_set k x d)
  = if mem k (map fst d) then map fst d else map fst d ++ [k].
Proof.
  induction d as [|[k0 v0] d IH]; simpl; [reflexivity|].
  rewrite (String.eqb_sym k k0).
  destruct (String.eqb k0 k) eqn:H0; simpl; [reflexivity|].
  rewrite IH. unfold mem. destruct (existsb (String.eqb k) (map fst d));
    reflexivity.
Qed.

Lemma count_incr_keys (d : list (string * nat)) (x : string) :
  map fst (count_incr d x)
  = if mem x (map fst d) then map fst d else map fst d ++ [x].
Proof. unfold count_incr. apply dict_set_keys. Qed.

Lemma count_incr_get (d : list (string * nat)) (x v : string) :
  default 0 (dict_get v (count_incr d x))
  = default 0 (dict_get v d) + (if String.eqb v x then 1 else 0).
Proof.
  unfold count_incr. rewrite dict_get_set, String.eqb_sym.
  destruct (String.eqb v x) eqn:Hv; simpl; [|lia].
  apply String.eqb_eq in Hv. subst v. lia.
Qed.

(** The counting dictionary: its keys are the distinct VINs in the order
    in which they are first counted, its values their numbers of
    occurrences. *)
Lemma vin_counts_fold (l : list string) :
  forall d,
    let d' := fold_left count_incr l d in
    map fst d' = map fst d ++ class_firsts (fun v => v) (map fst d) l /\
    forall v, default 0 (dict_get v d') = default 0 (dict_get v d) + count v l.
Proof.
  induction l as [|x l IH]; intros d; simpl.
  - rewrite app_nil_r. split; [reflexivity|]. intros v. unfold count.
    simpl. lia.
  - destruct (IH (count_incr d x)) as [Hk Hc]. cbn zeta in Hk, Hc.
    rewrite count_incr_keys in Hk. split.
    + rewrite Hk. destruct (mem x (map fst d)); [reflexivity|].
      rewrite <- app_assoc. reflexivity.
    + intros v. rewrite Hc, count_incr_get. unfold count. simpl.
      destruct (String.eqb v x); simpl; lia.
Qed.

Lemma fold_left_concat {A B : Type} (f : A -> B -> A) (ls : list (list B)) :
  forall a,
    fold_left (fun acc l => fold_left f l acc) ls a
    = fold_left f (concat ls) a.
Proof.
  induction ls as [|l ls IH]; intros a; simpl; [reflexivity|].
  rewrite IH, fold_left_app. reflexivity.
Qed.

Lemma vin_counts_of_spec (ffv : list (string * list string)) :
  let all := concat (map snd ffv) in
  map fst (vin_counts_of ffv) = class_firsts (fun v => v) [] all /\
  forall v, default 0 (dict_get v (vin_counts_of ffv)) = count v all.
Proof.
  unfold vin_counts_of. rewrite fold_left_concat.
  destruct (vin_counts_fold (concat (map snd ffv)) []) as [Hk Hc].
  split; [exact Hk|]. intros v. rewrite Hc. reflexivity.
Qed.

Lemma class_firsts_app {A : Type} (key : A -> string) (l1 l2 : list A) :
  forall seen,
    class_firsts key seen (l1 ++ l2)
    = class_firsts key seen l1
      ++ class_firsts key (seen ++ map key (class_firsts key seen l1)) l2.
Proof.
  induction l1 as [|x l1 IH]; intros seen; simpl.
  - rewrite app_nil_r. reflexivity.
  - destruct (mem (key x) seen); [apply IH|].
    simpl. rewrite IH, <- app_assoc. reflexivity.
Qed.

Lemma split_at_unique (k : string) (a a' b b' : list string) :
  NoDup (a ++ k :: b) -> a ++ k :: b = a' ++ k :: b' -> a = a'.
Proof.
  revert a'. induction a as [|x a IH]; intros a' Hnd Heq.
  - destruct a' as [|y a']; [reflexivity|]. simpl in *.
    inversion Heq as [[Hy Hb]]. subst y b.
    inversion Hnd as [|? ? Hk _]; subst.
    exfalso. apply Hk. apply list_elem_of_In, in_or_app.
    right. left. reflexivity.
  - destruct a' as [|y a']; simpl in *.
    + inversion Heq as [[Hx Hb]]. subst x.
      inversion Hnd as [|? ? Hk _]; subst.
      exfalso. apply Hk. apply list_elem_of_In, in_or_app.
      right. left. reflexivity.
    + inversion Heq as [[Hx Hb]]. subst y. inversion Hnd; subst.
      f_equal. apply IH; assumption.
Qed.

(** C4 (as amended): in a flat folder where the parent-VIN rule does not
    apply and some VIN occurs in the file names, the keeper is a VIN with
    the maximal number of occurrences; among the VINs with that number it
    is the one counted first, when the VIN sets of the files are
    enumerated in the order of the folder listing. *)
Theorem flat_keeper_most_counted (set_iter : list string -> list string)
    (listing : option (list DirEntry)) (s : FlatScan)
    (election : list string) :
  parent_rule_fails set_iter listing s election ->
  counted_vins s <> [] ->
  exists k pre post,
    elect_keeper set_iter listing s election = Some k /\
    counted_vins s = pre ++ k :: post /\ ~ In k pre /\
    (forall v, In v pre -> count v (counted_vins s) < count k (counted_vins s))
    /\ (forall v, count v (counted_vins s) <= count k (counted_vins s)).
Proof.
  intros Hrule Hne. set (all := counted_vins s) in *.
  destruct (vin_counts_of_spec (file_fn_vins s)) as [Hkeys Hcnt].
  fold (counted_vins s) in Hkeys, Hcnt. fold all in Hkeys, Hcnt.
  set (vc := vin_counts_of (file_fn_vins s)) in *.
  assert (Hvc : vc <> []).
  { intros Hnil. rewrite Hnil in Hkeys. simpl in Hkeys.
    destruct all as [|x all']; [congruence|]. simpl in Hkeys. discriminate. }
  destruct (py_max_by_some (fun v => default 0 (dict_get v vc)) (map fst vc))
    as [k Hk].
  { destruct vc; [congruence|discriminate]. }
  assert (Hkeeper : elect_keeper set_iter listing s election = Some k).
  { unfold elect_keeper. fold vc. unfold parent_rule_fails in Hrule.
    assert (Hby : (if negb (is_empty vc) then max_count_vin vc
                   else if negb (is_empty election)
                        then head (set_iter election) else None) = Some k).
    { destruct vc; [congruence|]. exact Hk. }
    destruct (get_parent_vin set_iter listing) as [p|].
    - rewrite Hrule. exact Hby.
    - exact Hby. }
  pose proof (py_max_by_spec _ _ _ Hk) as (pre_k & post_k & Hsplit & Hlt & Hle).
  assert (Hlt' : forall y, In y pre_k -> count y all < count k all).
  { intros y Hy. rewrite <- !Hcnt. apply Hlt, Hy. }
  assert (Hle' : forall y, In y post_k -> count y all <= count k all).
  { intros y Hy. rewrite <- !Hcnt. apply Hle, Hy. }
  assert (Hkin : In k (class_firsts (fun v : string => v) [] all)).
  { rewrite <- Hkeys, Hsplit. apply in_or_app. right. left. reflexivity. }
  apply class_firsts_iff in Hkin as (pre & post & Hall & _ & Hpre).
  assert (Hkpre : ~ In k pre).
  { intros H. apply (Hpre k H). reflexivity. }
  exists k, pre, post. split; [exact Hkeeper|]. split; [exact Hall|].
  split; [exact Hkpre|].
  destruct (class_firsts_distinct (fun v : string => v) all []) as [Hnd _].
  rewrite map_id in Hnd.
  assert (Hkeys' : map fst vc
    = class_firsts (fun v : string => v) [] pre
      ++ k :: class_firsts (fun v : string => v)
                ([] ++ map (fun v : string => v)
                         (class_firsts (fun v : string => v) [] pre) ++ [k])
                post).
  { rewrite Hkeys, Hall, class_firsts_app. f_equal. simpl.
    assert (Hm : mem k (map (fun v : string => v)
                          (class_firsts (fun v : string => v) [] pre)) = false).
    { apply mem_false. rewrite map_id. intros H.
      apply class_firsts_subset in H. tauto. }
    rewrite Hm. reflexivity. }
  assert (Hpk : class_firsts (fun v : string => v) [] pre = pre_k).
  { eapply split_at_unique; [|rewrite <- Hkeys'; exact Hsplit].
    rewrite <- Hkeys', Hkeys. exact Hnd. }
  split.
  - intros v Hv. apply Hlt'. rewrite <- Hpk.
    destruct (class_firsts_cover (fun v : string => v) pre [] v Hv)
      as [[]|(k' & Hk' & ->)]. exact Hk'.
  - intros v. destruct (count v all) eqn:Hc; [lia|]. rewrite <- Hc.
    assert (Hv : In v all) by (apply count_pos; lia).
    destruct (class_firsts_cover (fun v : string => v) all [] v Hv)
      as [[]|(k' & Hk' & ->)].
    rewrite <- Hkeys, Hsplit in Hk'.
    apply in_app_or in Hk' as [H|[<-|H]].
    + specialize (Hlt' _ H). lia.
    + lia.
    + apply Hle', H.
Qed.

Lemma flat_keeper_most_counted_witness :
  counted_vins (flat_scan insertion_order false (fun _ => []) two_vin_listing)
  <> [] /\
  exists k,
    elect_keeper insertion_order (Some two_vin_listing)
      (flat_scan insertion_order false (fun _ => []) two_vin_listing)
      (all_vins_for_election
         (flat_scan insertion_order false (fun _ => []) two_vin_listing))
    = Some k.
Proof.
  assert (Hne : counted_vins
                  (flat_scan insertion_order false (fun _ => []) two_vin_listing)
                <> []) by (vm_compute; discriminate).
  split; [exact Hne|].
  assert (Hrule : parent_rule_fails insertion_order (Some two_vin_listing)
            (flat_scan insertion_order false (fun _ => []) two_vin_listing)
            (all_vins_for_election
               (flat_scan insertion_order false (fun _ => []) two_vin_listing)))
    by (vm_compute; exact I).
  destruct (flat_keeper_most_counted insertion_order (Some two_vin_listing)
              _ _ Hrule Hne) as (k & _ & _ & Hk & _).
  exists k. exact Hk.
Defined.

(** C4 (as stated) fails: two VINs occur once each, the parent-VIN rule
    does not apply, and the keeper is the VIN of the file listed first,
    which is not the lexicographically smallest. *)
Lemma flat_keeper_tie_not_lexicographic :
  get_parent_vin insertion_order (Some two_vin_listing) = None /\
  vin_counts_of
    (file_fn_vins
       (flat_scan insertion_order false (fun _ => []) two_vin_listing))
  = [("BBBBB2345678901AB", 1); ("AAAAA2345678901AB", 1)] /\
  flat_keeper insertion_order (Some two_vin_listing) "2 cars - company"
              false (fun _ => [])
  = Some "BBBBB2345678901AB" /\
  String.ltb "AAAAA2345678901AB" "BBBBB2345678901AB" = true.
Proof. repeat split; vm_compute; reflexivity. Qed.

(** ** C6: the cross-copy cap and the gap-fill pass *)

Lemma Ledger_add_grows (l : Ledger) act src dst rsn pf v :
  warnings (Ledger_add l act src dst rsn pf v) = warnings l /\
  (changes (Ledger_add l act src dst rsn pf v) = changes l \/
   changes (Ledger_add l act src dst rsn pf v)
   = changes l ++ [mkChange act src dst rsn pf v planned]).
Proof.
  unfold Ledger_add. destruct act; simpl; auto.
  destruct (_planned_dests l !! dst) as [s|]; simpl; auto.
  destruct (String.eqb s src); simpl; auto.
Qed.

Lemma cross_copy_vin_adds cache vp c (vs : list string) :
  size (content_vins cache (source c)) <= MAX_CROSS_COPY_VINS ->
  (forall v, In v vs -> v ∈ content_vins cache (source c)) ->
  forall st,
    let st' := fold_left (cross_copy_vin vp c) vs st in
    warnings (cs_ledger st') = warnings (cs_ledger st) /\
    exists added,
      changes (cs_ledger st') = changes (cs_ledger st) ++ added /\
      Forall (cross_copy_of cache c) added.
Proof.
  intros Hsize. induction vs as [|v vs IH]; intros Hin st; simpl.
  - split; [reflexivity|]. exists []. rewrite app_nil_r. auto.
  - destruct (IH (fun u Hu => Hin u (or_intror Hu))
                (cross_copy_vin vp c st v)) as (Hw & added & Hch & Hall).
    cbn zeta in Hw, Hch. rewrite Hw, Hch. unfold cross_copy_vin.
    destruct (bool_decide ((source c, v) ∈ cs_planned st)).
    { split; [reflexivity|]. exists added. auto. }
    destruct (vp !! v) as [out_part|].
    2:{ split; [reflexivity|]. exists added. auto. }
    cbn [cs_ledger].
    destruct (Ledger_add_grows (cs_ledger st) copy_file (source c)
                (Path.join (Path.join out_part v) (Path.name (source c)))
                "PDF content VIN cross-copy" (parent_folder c) v)
      as [Hw' [Hsame|Hnew]].
    + rewrite Hw', Hsame. split; [reflexivity|]. exists added. auto.
    + rewrite Hw', Hnew. split; [reflexivity|].
      eexists. rewrite <- app_assoc. split; [reflexivity|].
      constructor; [|exact Hall].
      unfold cross_copy_of. simpl. repeat split; auto.
      apply Hin. left. reflexivity.
Qed.

Lemma sorted_elements_In (s : gset string) (v : string) :
  In v (sorted (elements s)) -> v ∈ s.
Proof.
  unfold sorted. intros H. apply list_elem_of_In in H.
  rewrite merge_sort_Permutation in H. apply elem_of_elements. exact H.
Qed.

(** One entry of the ledger in the cross-copy pass. *)
Lemma cross_copy_step_spec cache vp st c :
  let st' := cross_copy_step cache vp st c in
  (exists extra,
     warnings (cs_ledger st') = warnings (cs_ledger st) ++ extra /\
     (is_copy c = true -> is_pdf (source c) = true ->
      MAX_CROSS_COPY_VINS < size (content_vins cache (source c)) ->
      In (too_many_warning (source c) (size (content_vins cache (source c))))
         extra)) /\
  exists added,
    changes (cs_ledger st') = changes (cs_ledger st) ++ added /\
    Forall (cross_copy_of cache c) added.
Proof.
  unfold cross_copy_step. fold (content_vins cache (source c)).
  destruct (is_copy c); simpl.
  2:{ split; [exists []|exists []]; rewrite app_nil_r; split; auto.
      discriminate. }
  destruct (is_pdf (source c)); simpl.
  2:{ split; [exists []|exists []]; rewrite app_nil_r; split; auto.
      discriminate. }
  destruct (bool_decide (content_vins cache (source c) = ∅)) eqn:Hempty.
  { apply bool_decide_eq_true in Hempty.
    split; [exists []|exists []]; rewrite app_nil_r; split; auto.
    intros _ _ H. rewrite Hempty, size_empty in H. lia. }
  destruct (MAX_CROSS_COPY_VINS <? size (content_vins cache (source c)))
    eqn:Hbig.
  - simpl. split.
    + eexists. split; [reflexivity|]. intros _ _ _. left. reflexivity.
    + exists []. rewrite app_nil_r. auto.
  - apply Nat.ltb_ge in Hbig.
    destruct (cross_copy_vin_adds cache vp c
                (sorted (elements (content_vins cache (source c)))) Hbig
                (sorted_elements_In _)
                (mkCrossState (cs_ledger st) (cs_planned st)
                   (mkCrossStats (cross_copied (cs_stats st))
                      (skipped_too_many (cs_stats st))
                      (S (pdfs_checked (cs_stats st))))))
      as (Hw & added & Hch & Hall).
    cbn zeta in Hw, Hch. cbn [cs_ledger] in Hw, Hch. split.
    + exists []. rewrite app_nil_r. split; [exact Hw|]. intros _ _ H. lia.
    + exists added. auto.
Qed.

Lemma cross_copy_fold_spec cache vp (cs : list Change) :
  forall st,
    let st' := fold_left (cross_copy_step cache vp) cs st in
    (forall c, In c cs -> is_copy c = true -> is_pdf (source c) = true ->
       MAX_CROSS_COPY_VINS < size (content_vins cache (source c)) ->
       In (too_many_warning (source c) (size (content_vins cache (source c))))
          (warnings (cs_ledger st'))) /\
    (forall w, In w (warnings (cs_ledger st)) ->
               In w (warnings (cs_ledger st'))) /\
    exists added,
      changes (cs_ledger st') = changes (cs_ledger st) ++ added /\
      Forall (fun c' => exists c, In c cs /\ cross_copy_of cache c c') added.
Proof.
  induction cs as [|c cs IH]; intros st; simpl.
  - split; [tauto|]. split; [auto|]. exists []. rewrite app_nil_r. auto.
  - destruct (IH (cross_copy_step cache vp st c)) as (Hwarn & Hmono & added & Hch & Hall).
    destruct (cross_copy_step_spec cache vp st c)
      as ((extra & Hw1 & Hbig) & added1 & Hch1 & Hall1).
    cbn zeta in *. split; [|split].
    + intros c0 [<-|Hin] Hc Hp Hs.
      * apply Hmono. rewrite Hw1. apply in_or_app. right. auto.
      * apply Hwarn; auto.
    + intros w Hw. apply Hmono. rewrite Hw1. apply in_or_app. left. exact Hw.
    + exists (added1 ++ added). rewrite Hch, Hch1, <- app_assoc.
      split; [reflexivity|]. apply Forall_app. split.
      * eapply Forall_impl; [exact Hall1|]. intros c' Hc'. exists c.
        split; [left; reflexivity|exact Hc'].
      * eapply Forall_impl; [exact Hall|]. intros c' (c0 & Hin & Hc').
        exists c0. split; [right; exact Hin|exact Hc'].
Qed.

(** C6: the cross-copy pass adds copies only for PDFs whose content-VIN
    set has at most 100 elements, and records a warning for every
    planned PDF with more; the gap-fill pass has no such cap: there is a
    plan in which a PDF naming 109 VINs gets no cross-copy and a warning,
    and is then copied by gap-fill to a VIN that lacks its category. *)
Theorem cross_copy_cap_not_for_gap_fill :
  (forall _pdf_cache ledger output_root,
     let ledger' := fst (plan_pdf_cross_copies _pdf_cache ledger output_root) in
     (exists added,
        changes ledger' = changes ledger ++ added /\
        forall c', In c' added ->
          exists c, In c (changes ledger) /\ source c' = source c /\
                    action c' = copy_file /\
                    reason c' = "PDF content VIN cross-copy" /\
                    size (content_vins _pdf_cache (source c')) <= 100) /\
     (forall c, In c (changes ledger) ->
        is_copy c = true -> is_pdf (source c) = true ->
        100 < size (content_vins _pdf_cache (source c)) ->
        In (too_many_warning (source c)
              (size (content_vins _pdf_cache (source c))))
           (warnings ledger'))) /\
  (planning master_ledger /\
   size (content_vins master_cache master_pdf) = 109 /\
   let crossed := fst (plan_pdf_cross_copies master_cache master_ledger "/OUT") in
   let filled :=
     fst (plan_contract_gap_fill master_cache master_cats crossed "/OUT") in
   changes crossed = changes master_ledger /\
   warnings crossed
   = ["PDF 'Contract Cadru Leasing Operational.pdf' has 109 VINs in content, skipping cross-copy (limit=100)"] /\
   changes filled = changes master_ledger ++ [master_gap_fill]).
Proof.
  split.
  - intros cache ledger root ledger'. subst ledger'.
    unfold plan_pdf_cross_copies. cbn [fst].
    destruct (cross_copy_fold_spec cache
                (cross_vin_partition root (changes ledger)) (changes ledger)
                (mkCrossState ledger (planned_pairs (changes ledger))
                              (mkCrossStats 0 0 0)))
      as (Hwarn & _ & added & Hch & Hall).
    cbn zeta in *. cbn [cs_ledger] in *. split.
    + exists added. split; [exact Hch|]. intros c' Hc'.
      rewrite Forall_forall in Hall.
      destruct (Hall c' (proj2 (list_elem_of_In _ _) Hc'))
        as (c & Hin & Ha & Hr & Hs & _ & Hsize).
      exists c. rewrite Hs. auto.
    + exact Hwarn.
  - split; [apply planning_add, planning_add, planning_add, planning_init|].
    split; [vm_compute; reflexivity|].
    cbn zeta. split; [vm_compute; reflexivity|].
    split; vm_compute; reflexivity.
Qed.

Lemma cross_copy_cap_not_for_gap_fill_witness :
  100 < size (content_vins master_cache master_pdf) /\
  In (too_many_warning master_pdf (size (content_vins master_cache master_pdf)))
     (warnings (fst (plan_pdf_cross_copies master_cache master_ledger "/OUT"))).
Proof.
  assert (Hsize : 100 < size (content_vins master_cache master_pdf))
    by (apply Nat.ltb_lt; vm_compute; reflexivity).
  split; [exact Hsize|].
  apply (proj2 (proj1 cross_copy_cap_not_for_gap_fill master_cache
                  master_ledger "/OUT")
           (mkChange copy_file master_pdf
              "/OUT/P/GAPA1234567890123/Contract Cadru Leasing Operational.pdf"
              "Copy from VIN folder" master_vin_a master_vin_a planned)).
  - vm_compute. left. reflexivity.
  - reflexivity.
  - vm_compute. reflexivity.
  - exact Hsize.
Defined.

(** ** C1: content category of a scanned PDF *)

(** A category earlier in [_CONTENT_PRIORITY] wins wherever it matches. *)
Lemma first_in_priority_facturi (text : string) :
  any_match (patterns_of "Facturi") text = true ->
  first_in_priority _CONTENT_PRIORITY text = Some "Facturi".
Proof.
  intros H. unfold _CONTENT_PRIORITY. cbn [first_in_priority].
  rewrite H. reflexivity.
Qed.

(** C1, the code at the text of the repository's own test: the scan
    answers [Facturi], by the fixed priority list, where the category
    with the earliest match, at offset 0, is [Contract Cadru]. *)
Theorem scan_pdf_fixed_priority_not_first_position :
  _scan_pdf_for_category ∅ None true (Some dominance_text)
                         "/OUT/P/V/scan_001.pdf"
  = Some "Facturi" /\
  earliest_offset (patterns_of "Contract Cadru") dominance_text = Some 0 /\
  earliest_offset (patterns_of "Facturi") dominance_text = Some 45 /\
  spec_first_position dominance_text = Some "Contract Cadru".
Proof. repeat split; vm_compute; reflexivity. Qed.

(** ** The matcher and the spans of a pattern *)

Lemma star_loop_sound (R : nat -> nat -> Prop) greedy step k res :
  (forall i c k', step i c k' = Some res ->
                  exists j c', R i j /\ k' j c' = Some res) ->
  forall fuel i c,
    Re.star_loop greedy step k fuel i c = Some res ->
    exists j c', iter R i j /\ k j c' = Some res.
Proof.
  intros Hstep. induction fuel as [|fuel IH]; intros i c H; simpl in H.
  - exists i, c. split; [constructor|exact H].
  - assert (Hmore : forall kk,
      kk = (fun j c' => if i <? j then
                          Re.star_loop greedy step k fuel j c' else None) ->
      step i c kk = Some res -> exists j c', iter R i j /\ k j c' = Some res).
    { intros kk -> Hm. apply Hstep in Hm as (m & c1 & HR & Hm).
      destruct (i <? m) eqn:Hlt; [|discriminate].
      apply Nat.ltb_lt in Hlt. apply IH in Hm as (j & c2 & Hit & Hk).
      exists j, c2. split; [econstructor; eauto|exact Hk]. }
    unfold Re.orelse in H. destruct greedy.
    + match type of H with
      | context [step i c ?kk] => destruct (step i c kk) eqn:Hm
      end.
      * injection H as <-. eapply Hmore; [reflexivity|exact Hm].
      * exists i, c. split; [constructor|exact H].
    + destruct (k i c) eqn:Hk.
      * injection H as <-. exists i, c. split; [constructor|exact Hk].
      * eapply Hmore; [reflexivity|exact H].
Qed.

(** A result of the matcher goes through the continuation at the end
    of a span of the pattern. *)
Lemma run_sound (t : list ascii) (r : Re.re) :
  forall i c k res,
    Re.run t r i c k = Some res ->
    exists j c', span t r i j /\ k j c' = Some res.
Proof.
  induction r as [|p|r1 IH1 r2 IH2|r1 IH1 r2 IH2|g r IH|n r IH| | | |p|p];
    intros i c k res H; cbn [Re.run] in H; cbn [span].
  - eauto.
  - destruct (t !! i) as [a|] eqn:Ha; [|discriminate].
    destruct (p a) eqn:Hp; [|discriminate]. eauto 8.
  - apply IH1 in H as (m & c1 & H1 & H). apply IH2 in H as (j & c2 & H2 & H).
    eauto 8.
  - unfold Re.orelse in H. destruct (Re.run t r1 i c k) eqn:H1.
    + injection H as <-. apply IH1 in H1 as (j & c' & Hs & Hk). eauto 8.
    + apply IH2 in H as (j & c' & Hs & Hk). eauto 8.
  - eapply star_loop_sound; [|exact H]. intros i' c' k' Hs. eapply IH, Hs.
  - apply IH in H as (j & c' & Hs & Hk). eauto.
  - destruct (i =? 0) eqn:Hi; [|discriminate]. apply Nat.eqb_eq in Hi. eauto 8.
  - destruct (Re.at_end t i) eqn:He; [|discriminate]. eauto 8.
  - destruct (Re.word_boundary t i) eqn:Hw; [|discriminate]. eauto 8.
  - exists i, c. split; [|destruct i as [|i']; [exact H|]].
    + split; [reflexivity|]. destruct i as [|i']; [exact I|].
      intros a Ha. rewrite Ha in H. destruct (p a); [discriminate|reflexivity].
    + destruct (t !! i') as [a|]; [|exact H].
      destruct (p a); [discriminate|exact H].
  - exists i, c. split.
    + split; [reflexivity|]. intros a Ha. rewrite Ha in H.
      destruct (p a); [discriminate|reflexivity].
    + destruct (t !! i) as [a|]; [|exact H].
      destruct (p a); [discriminate|exact H].
Qed.

(** A span lies inside the text. *)
Lemma iter_bound (R : nat -> nat -> Prop) (n i j : nat) :
  (forall i j, R i j -> i <= j /\ (i < j -> j <= n)) ->
  iter R i j -> i <= j /\ (i < j -> j <= n).
Proof.
  intros HR. induction 1 as [i|i m j Hr Hlt _ IH]; [lia|].
  apply HR in Hr. lia.
Qed.

Lemma span_bound (t : list ascii) (r : Re.re) :
  forall i j, span t r i j -> i <= j /\ (i < j -> j <= length t).
Proof.
  induction r as [|p|r1 IH1 r2 IH2|r1 IH1 r2 IH2|g r IH|n r IH| | | |p|p];
    intros i j; cbn [span]; try (intros [-> _]; lia).
  - intros ->. lia.
  - intros (-> & a & Ha & _). apply lookup_lt_Some in Ha. lia.
  - intros (m & H1 & H2). apply IH1 in H1. apply IH2 in H2. lia.
  - intros [H|H]; [apply IH1 in H|apply IH2 in H]; lia.
  - apply iter_bound. exact IH.
  - apply IH.
Qed.

Lemma iter_le (R : nat -> nat -> Prop) (i j : nat) : iter R i j -> i <= j.
Proof. induction 1; lia. Qed.

Lemma star_loop_complete (R : nat -> nat -> Prop) greedy step k :
  (forall i m c k', R i m -> (forall c', k' m c' <> None) ->
                    step i c k' <> None) ->
  forall i j, iter R i j ->
  (forall c', k j c' <> None) ->
  forall fuel c, j - i <= fuel ->
    Re.star_loop greedy step k fuel i c <> None.
Proof.
  intros Hstep i j Hit Hk.
  induction Hit as [i|i m j Hr Hlt Hit IH]; intros fuel c Hfuel.
  - destruct fuel as [|fuel]; simpl; [apply Hk|].
    unfold Re.orelse. destruct greedy.
    + match goal with |- context [step i c ?kk] => destruct (step i c kk) end;
        [discriminate|apply Hk].
    + destruct (k i c) eqn:Hki; [discriminate|]. exfalso. eapply Hk, Hki.
  - pose proof (iter_le R m j Hit) as Hle.
    destruct fuel as [|fuel]; [lia|]. simpl.
    assert (Hmore :
      step i c (fun j0 c' => if i <? j0 then
                  Re.star_loop greedy step k fuel j0 c' else None) <> None).
    { apply (Hstep i m); [exact Hr|]. intros c'.
      rewrite (proj2 (Nat.ltb_lt _ _) Hlt). apply IH; [exact Hk|lia]. }
    unfold Re.orelse. destruct greedy.
    + match goal with |- context [step i c ?kk] =>
        destruct (step i c kk); [discriminate|congruence] end.
    + destruct (k i c); [discriminate|exact Hmore].
Qed.

(** The matcher finds a result whenever the pattern has a span from
    which the continuation succeeds. *)
Lemma run_complete (t : list ascii) (r : Re.re) :
  forall i j c k,
    span t r i j -> (forall c', k j c' <> None) -> Re.run t r i c k <> None.
Proof.
  induction r as [|p|r1 IH1 r2 IH2|r1 IH1 r2 IH2|g r IH|n r IH| | | |p|p];
    intros i j c k; cbn [span Re.run].
  - intros -> Hk. apply Hk.
  - intros (-> & a & -> & ->) Hk. apply Hk.
  - intros (m & H1 & H2) Hk. eapply IH1; [exact H1|].
    intros c'. eapply IH2; [exact H2|exact Hk].
  - intros [H|H] Hk; unfold Re.orelse.
    + destruct (Re.run t r1 i c k) eqn:H1; [discriminate|].
      exfalso. eapply IH1; eauto.
    + destruct (Re.run t r1 i c k) eqn:H1; [discriminate|].
      eapply IH2; eauto.
  - intros Hit Hk.
    eapply (star_loop_complete (span t r)); [|exact Hit|exact Hk|].
    + intros i' m c' k' Hs Hk'. eapply IH; eauto.
    + pose proof (iter_bound (span t r) (length t) i j (span_bound t r) Hit).
      lia.
  - intros H Hk. eapply IH; [exact H|]. intros c'. apply Hk.
  - intros [-> ->] Hk. simpl. apply Hk.
  - intros [-> ->] Hk. apply Hk.
  - intros [-> ->] Hk. apply Hk.
  - intros [-> H] Hk. destruct i as [|i']; [apply Hk|].
    destruct (t !! i') as [a|]; [|apply Hk].
    rewrite (H a eq_refl). apply Hk.
  - intros [-> H] Hk. destruct (t !! i) as [a|]; [|apply Hk].
    rewrite (H a eq_refl). apply Hk.
Qed.

(** An attempt at an offset succeeds exactly when the pattern has a
    span that starts there, and it ends where one of them ends. *)
Lemma match_at_span (r : Re.re) (t : list ascii) (i : nat) :
  (forall j c, Re.match_at r t i = Some (j, c) -> span t r i j) /\
  (forall j, span t r i j -> Re.match_at r t i <> None).
Proof.
  unfold Re.match_at. split.
  - intros j c H. apply run_sound in H as (j' & c' & Hs & Hk).
    unfold Re.ret in Hk. congruence.
  - intros j H. eapply run_complete; [exact H|]. intros c'. discriminate.
Qed.

Lemma star_loop_sound_groupless (R : nat -> nat -> Prop) greedy step k res :
  (forall i c k', step i c k' = Some res ->
                  exists j, R i j /\ k' j c = Some res) ->
  forall fuel i c,
    Re.star_loop greedy step k fuel i c = Some res ->
    exists j, iter R i j /\ k j c = Some res.
Proof.
  intros Hstep. induction fuel as [|fuel IH]; intros i c H; simpl in H.
  - exists i. split; [constructor|exact H].
  - assert (Hmore : forall kk,
      kk = (fun j c' => if i <? j then
                          Re.star_loop greedy step k fuel j c' else None) ->
      step i c kk = Some res -> exists j, iter R i j /\ k j c = Some res).
    { intros kk -> Hm. apply Hstep in Hm as (m & HR & Hm).
      destruct (i <? m) eqn:Hlt; [|discriminate].
      apply Nat.ltb_lt in Hlt. apply IH in Hm as (j & Hit & Hk).
      exists j. split; [econstructor; eauto|exact Hk]. }
    unfold Re.orelse in H. destruct greedy.
    + match type of H with
      | context [step i c ?kk] => destruct (step i c kk) eqn:Hm
      end.
      * injection H as <-. eapply Hmore; [reflexivity|exact Hm].
      * exists i. split; [constructor|exact H].
    + destruct (k i c) eqn:Hk.
      * injection H as <-. exists i. split; [constructor|exact Hk].
      * eapply Hmore; [reflexivity|exact H].
Qed.

(** For a pattern without group, the continuation gets the captures
    as they were. *)
Lemma run_sound_groupless (t : list ascii) (r : Re.re) :
  groupless r = true ->
  forall i c k res,
    Re.run t r i c k = Some res ->
    exists j, span t r i j /\ k j c = Some res.
Proof.
  induction r as [|p|r1 IH1 r2 IH2|r1 IH1 r2 IH2|g r IH|n r IH| | | |p|p];
    intros Hg i c k res H; cbn [Re.run] in H; cbn [span groupless] in *.
  - eauto.
  - destruct (t !! i) as [a|] eqn:Ha; [|discriminate].
    destruct (p a) eqn:Hp; [|discriminate]. eauto 8.
  - apply andb_true_iff in Hg as [Hg1 Hg2].
    apply (IH1 Hg1) in H as (m & H1 & H).
    apply (IH2 Hg2) in H as (j & H2 & H). eauto 8.
  - apply andb_true_iff in Hg as [Hg1 Hg2].
    unfold Re.orelse in H. destruct (Re.run t r1 i c k) eqn:H1.
    + injection H as <-. apply (IH1 Hg1) in H1 as (j & Hs & Hk). eauto 8.
    + apply (IH2 Hg2) in H as (j & Hs & Hk). eauto 8.
  - eapply star_loop_sound_groupless; [|exact H].
    intros i' c' k' Hs. eapply IH; [exact Hg|exact Hs].
  - discriminate.
  - destruct (i =? 0) eqn:Hi; [|discriminate]. apply Nat.eqb_eq in Hi. eauto 8.
  - destruct (Re.at_end t i) eqn:He; [|discriminate]. eauto 8.
  - destruct (Re.word_boundary t i) eqn:Hw; [|discriminate]. eauto 8.
  - exists i. split; [|destruct i as [|i']; [exact H|]].
    + split; [reflexivity|]. destruct i as [|i']; [exact I|].
      intros a Ha. rewrite Ha in H. destruct (p a); [discriminate|reflexivity].
    + destruct (t !! i') as [a|]; [|exact H].
      destruct (p a); [discriminate|exact H].
  - exists i. split.
    + split; [reflexivity|]. intros a Ha. rewrite Ha in H.
      destruct (p a); [discriminate|reflexivity].
    + destruct (t !! i) as [a|]; [|exact H].
      destruct (p a); [discriminate|exact H].
Qed.

(** ** VIN extraction finds every delimited VIN *)

Lemma match_at_VIN_intro (t : list ascii) (i : nat) :
  i + 17 <= length t ->
  forallb upper_digit (take 17 (drop i t)) = true ->
  match i with
  | 0 => True
  | S i' => forall a, t !! i' = Some a -> upper_digit a = false
  end ->
  (forall a, t !! (i + 17) = Some a -> upper_digit a = false) ->
  Re.match_at VIN_PATTERN t i = Some (i + 17, [(1, (i, i + 17))]).
Proof.
  intros Hlen Hall Hbef Haft. unfold Re.match_at, VIN_PATTERN.
  assert (Hbody :
    Re.run t (Re.Seq (Re.Grp 1 (Re.rep 17 (Re.Chr upper_digit)))
                     (Re.NotAhead upper_digit)) i [] Re.ret
    = Some (i + 17, [(1, (i, i + 17))])).
  { rewrite run_seq, run_grp, run_rep_chr, Hall.
    rewrite (proj2 (Nat.leb_le _ _)) by (rewrite length_drop; lia).
    cbn [andb Re.run].
    destruct (t !! (i + 17)) as [a|] eqn:Ha; [|reflexivity].
    rewrite (Haft a eq_refl). reflexivity. }
  rewrite run_seq. cbn [Re.run]. destruct i as [|i']; [exact Hbody|].
  destruct (t !! i') as [b|] eqn:Hb; [|exact Hbody].
  rewrite (Hbef b eq_refl). exact Hbody.
Qed.

Lemma forallb_take_lookup {A : Type} (p : A -> bool) (l : list A) (n i : nat)
    (a : A) :
  forallb p (take n l) = true -> i < n -> l !! i = Some a -> p a = true.
Proof.
  intros Hall Hi Ha. rewrite forallb_forall in Hall. apply Hall.
  apply list_elem_of_In. apply (list_elem_of_lookup_2 _ i).
  rewrite lookup_take_lt by exact Hi. exact Ha.
Qed.

(** The scan of [findall] reaches every offset where the pattern
    matches between characters outside [[A-Z0-9]]. *)
Lemma findall_VIN_reaches (t : list ascii) (p : nat) :
  Re.match_at VIN_PATTERN t p = Some (p + 17, [(1, (p, p + 17))]) ->
  forall fuel i,
    i <= p -> p - i < fuel ->
    In (Re.slice t p (p + 17)) (Re.findall_from VIN_PATTERN t i fuel).
Proof.
  intros Hp. pose proof (match_at_VIN _ _ _ _ Hp) as (_ & _ & Hlen & _ & Hbef & _).
  induction fuel as [|fuel IH]; intros i Hi Hfuel; [lia|].
  cbn [Re.findall_from].
  rewrite (proj2 (Nat.ltb_ge _ _)) by lia.
  destruct (Re.match_at VIN_PATTERN t i) as [[j c]|] eqn:Hm.
  - pose proof (match_at_VIN _ _ _ _ Hm) as (-> & -> & Hl & Hall & _).
    unfold Re.group. cbn [find fst Nat.eqb].
    destruct (decide (i = p)) as [->|Hne]; [left; reflexivity|].
    right. rewrite (proj2 (Nat.ltb_lt _ _)) by lia.
    assert (Hgap : i + 17 <= p).
    { destruct (le_lt_dec (i + 17) p) as [|Hlt]; [assumption|exfalso].
      destruct (t !! (p - 1)) as [a|] eqn:Ha.
      - assert (Hu : upper_digit a = false) by (apply Hbef; [lia|reflexivity]).
        assert (Hu' : upper_digit a = true).
        { apply (forallb_take_lookup _ (drop i t) 17 (p - 1 - i));
            [exact Hall|lia|].
          rewrite lookup_drop. replace (i + (p - 1 - i)) with (p - 1) by lia.
          exact Ha. }
        congruence.
      - apply lookup_ge_None_1 in Ha. lia. }
    apply IH; lia.
  - destruct (decide (i = p)) as [->|Hne]; [congruence|].
    apply IH; lia.
Qed.

Lemma last_app_lookup {A : Type} (l1 l2 : list A) (a : A) :
  length l1 <> 0 -> (l1 ++ l2) !! (length l1 - 1) = Some a ->
  last l1 = Some a.
Proof.
  intros Hne H. rewrite lookup_app_l in H by lia.
  rewrite last_lookup. replace (pred (length l1)) with (length l1 - 1) by lia.
  exact H.
Qed.

(** X1: a valid VIN that stands in a text between characters outside
    [[A-Z0-9]] (or at an end of the text) is among the VINs that
    [extract_all_vins] returns. *)
Theorem extract_all_vins_finds_delimited (pre v post : string) :
  is_valid_vin v = true ->
  forallb upper_digit (chars v) = true ->
  (forall a, last (chars pre) = Some a -> upper_digit a = false) ->
  (forall a, head (chars post) = Some a -> upper_digit a = false) ->
  In v (extract_all_vins (pre +:+ v +:+ post)).
Proof.
  intros Hvalid Hall Hbef Haft. unfold extract_all_vins.
  apply filter_In. split; [|exact Hvalid].
  apply is_valid_vin_true in Hvalid as (Hlen & _ & _).
  rewrite <- length_chars in Hlen.
  unfold Re.findall. rewrite !chars_app.
  set (t := chars pre ++ chars v ++ chars post).
  set (p := length (chars pre)).
  assert (Hdrop : take 17 (drop p t) = chars v).
  { unfold t, p. rewrite drop_app_length, take_app_length'; auto. }
  assert (Hm : Re.match_at VIN_PATTERN t p
               = Some (p + 17, [(1, (p, p + 17))])).
  { apply match_at_VIN_intro.
    - unfold t, p. rewrite !length_app. lia.
    - rewrite Hdrop. exact Hall.
    - destruct p as [|p'] eqn:Hp; [exact I|]. intros a Ha. apply Hbef.
      apply (last_app_lookup _ (chars v ++ chars post)); [fold p; lia|].
      fold p t. rewrite Hp. simpl. rewrite Nat.sub_0_r. exact Ha.
    - intros a Ha. apply Haft. unfold t, p in Ha.
      rewrite lookup_app_r in Ha by lia.
      rewrite lookup_app_r in Ha by lia.
      replace (length (chars pre) + 17 - length (chars pre) - length (chars v))
        with 0 in Ha by lia.
      rewrite <- head_lookup in Ha. exact Ha. }
  assert (Hs : Re.slice t p (p + 17) = v).
  { unfold Re.slice. replace (p + 17 - p) with 17 by lia.
    rewrite Hdrop. apply str_of_chars. }
  rewrite <- Hs at 1.
  apply findall_VIN_reaches; [exact Hm|lia|].
  rewrite <- !length_chars, !chars_app. fold t.
  unfold t, p. rewrite !length_app. lia.
Qed.

Lemma extract_all_vins_finds_delimited_witness :
  is_valid_vin "WVWZZZ1JZXW000001" = true /\
  In "WVWZZZ1JZXW000001"
     (extract_all_vins ("FL - Popescu - " +:+ "WVWZZZ1JZXW000001" +:+ ".pdf")).
Proof.
  split; [reflexivity|].
  apply (extract_all_vins_finds_delimited "FL - Popescu - "
           "WVWZZZ1JZXW000001" ".pdf").
  - reflexivity.
  - reflexivity.
  - intros a [= <-]. reflexivity.
  - intros a [= <-]. reflexivity.
Defined.

(** ** VIN-named folders *)

Lemma match_VIN_NAME (t : list ascii) :
  Re.match_at VIN_NAME_PATTERN t 0
  = if (17 <=? length t) && forallb upper_digit (take 17 t)
       && Re.at_end t 17
    then Some (17, []) else None.
Proof.
  unfold Re.match_at, VIN_NAME_PATTERN. cbn [Re.seqs].
  cbn [Re.run Nat.eqb]. rewrite run_rep_chr.
  rewrite drop_0. cbn [Re.run Nat.add].
  destruct ((17 <=? length t) && forallb upper_digit (take 17 t));
    [|reflexivity].
  cbn [andb]. destruct (Re.at_end t 17); reflexivity.
Qed.

(** X2: [is_vin] accepts a name exactly when, the white space around it
    left out, it has 17 characters, all in [[A-Z0-9]], with a letter and
    a digit among them. *)
Theorem is_vin_spec (name : string) :
  is_vin name = true <->
  (String.length (strip name) = 17 /\
   forallb upper_digit (chars (strip name)) = true /\
   existsb isalpha (chars (strip name)) = true /\
   existsb isdigit (chars (strip name)) = true).
Proof.
  unfold is_vin, Re.match_start. rewrite match_VIN_NAME.
  set (s := strip name). split.
  - destruct ((17 <=? length (chars s))
              && forallb upper_digit (take 17 (chars s))
              && Re.at_end (chars s) 17) eqn:Hm; [|discriminate].
    intros Hv. apply is_valid_vin_true in Hv as (Hlen & Ha & Hd).
    apply andb_true_iff in Hm as [Hm _].
    apply andb_true_iff in Hm as [_ Hall].
    rewrite take_ge in Hall by (rewrite length_chars; lia). auto.
  - intros (Hlen & Hall & Ha & Hd).
    rewrite take_ge by (rewrite length_chars; lia).
    rewrite Hall. unfold Re.at_end. rewrite length_chars, Hlen. cbn.
    unfold is_valid_vin. rewrite Hlen, Ha, Hd. reflexivity.
Qed.

Lemma lstrip_chars_split (l : list ascii) :
  exists l1, l = l1 ++ lstrip_chars l /\ forallb is_space l1 = true.
Proof.
  induction l as [|a l (l1 & IH & Hsp)]; simpl.
  - exists []. auto.
  - destruct (is_space a) eqn:Ha.
    + exists (a :: l1). simpl. rewrite Ha, Hsp. split; [congruence|reflexivity].
    + exists []. auto.
Qed.

Lemma forallb_rev {A : Type} (p : A -> bool) (l : list A) :
  forallb p (rev l) = forallb p l.
Proof.
  apply eq_true_iff_eq. rewrite !forallb_forall.
  split; intros H x Hx; apply H; [apply in_rev in Hx|apply in_rev]; auto.
Qed.

(** [strip] removes white space at both ends, and nothing else. *)
Lemma strip_split (name : string) :
  exists l1 l2,
    chars name = l1 ++ chars (strip name) ++ l2 /\
    forallb is_space l1 = true /\ forallb is_space l2 = true.
Proof.
  destruct (lstrip_chars_split (chars name)) as (l1 & H1 & Hs1).
  destruct (lstrip_chars_split (rev (lstrip_chars (chars name))))
    as (r1 & H2 & Hs2).
  exists l1, (rev r1). unfold strip. rewrite chars_str_of. split; [|split].
  - rewrite <- rev_app_distr, <- H2, rev_involutive. exact H1.
  - exact Hs1.
  - rewrite forallb_rev. exact Hs2.
Qed.

Lemma space_not_upper_digit (a : ascii) :
  is_space a = true -> upper_digit a = false.
Proof.
  destruct a as [[] [] [] [] [] [] [] []]; vm_compute; congruence.
Qed.

Lemma match_at_VIN_first (t : list ascii) (i : nat) (res : Re.result) :
  Re.match_at VIN_PATTERN t i = Some res ->
  exists a, t !! i = Some a /\ upper_digit a = true.
Proof.
  destruct res as [j c]. intros H.
  apply match_at_VIN in H as (_ & _ & Hlen & Hall & _).
  destruct (lookup_lt_is_Some_2 t i) as [a Ha]; [lia|].
  exists a. split; [exact Ha|].
  apply (forallb_take_lookup _ (drop i t) 17 0); [exact Hall|lia|].
  rewrite lookup_drop, Nat.add_0_r. exact Ha.
Qed.

Lemma findall_from_none (r : Re.re) (t : list ascii) (fuel : nat) :
  forall i,
    (forall i', i <= i' -> Re.match_at r t i' = None) ->
    Re.findall_from r t i fuel = [].
Proof.
  induction fuel as [|fuel IH]; intros i H; [reflexivity|].
  cbn [Re.findall_from]. destruct (length t <? i); [reflexivity|].
  rewrite (H i) by lia. apply IH. intros i' Hi'. apply H. lia.
Qed.

Lemma findall_from_skip (r : Re.re) (t : list ascii) (p : nat) :
  p <= length t ->
  forall n i fuel,
    i + n = p ->
    (forall i', i <= i' < p -> Re.match_at r t i' = None) ->
    Re.findall_from r t i (n + fuel) = Re.findall_from r t p fuel.
Proof.
  intros Hp. induction n as [|n IH]; intros i fuel Hi H.
  - replace i with p by lia. reflexivity.
  - cbn [Nat.add Re.findall_from].
    rewrite (proj2 (Nat.ltb_ge _ _)) by lia.
    rewrite (H i) by lia. apply IH; [lia|]. intros i' Hi'. apply H. lia.
Qed.

(** X3: the name of a VIN-named folder yields that VIN and no other:
    when [is_vin] accepts a name, [extract_all_vins] returns exactly the
    name without the white space around it. *)
Theorem is_vin_extracts_itself (name : string) :
  is_vin name = true -> extract_all_vins name = [strip name].
Proof.
  intros Hvin. apply is_vin_spec in Hvin as (Hlen & Hall & Ha & Hd).
  destruct (strip_split name) as (l1 & l2 & Hsplit & Hs1 & Hs2).
  set (v := strip name) in *.
  rewrite <- length_chars in Hlen.
  assert (Hvalid : is_valid_vin v = true).
  { unfold is_valid_vin. rewrite <- length_chars, Hlen, Ha, Hd. reflexivity. }
  unfold extract_all_vins, Re.findall.
  rewrite <- length_chars, Hsplit.
  set (t := l1 ++ chars v ++ l2). set (p := length l1).
  assert (Hlt : length t = p + 17 + length l2)
    by (unfold t, p; rewrite !length_app; lia).
  assert (Hspace : forall i a,
    i < p \/ p + 17 <= i -> t !! i = Some a -> is_space a = true).
  { intros i a Hi Hlk. unfold t, p in *. destruct Hi as [Hi|Hi].
    - rewrite lookup_app_l in Hlk by exact Hi.
      rewrite forallb_forall in Hs1. apply Hs1, list_elem_of_In.
      eapply list_elem_of_lookup_2, Hlk.
    - rewrite lookup_app_r in Hlk by lia.
      rewrite lookup_app_r in Hlk by lia.
      rewrite forallb_forall in Hs2. apply Hs2, list_elem_of_In.
      eapply list_elem_of_lookup_2, Hlk. }
  assert (Hnone : forall i, i < p \/ p + 17 <= i ->
                            Re.match_at VIN_PATTERN t i = None).
  { intros i Hi. destruct (Re.match_at VIN_PATTERN t i) eqn:Hm; [|reflexivity].
    apply match_at_VIN_first in Hm as (a & Hlk & Hu).
    apply (Hspace i a Hi) in Hlk. apply space_not_upper_digit in Hlk.
    congruence. }
  assert (Hdrop : take 17 (drop p t) = chars v).
  { unfold t, p. rewrite drop_app_length, take_app_length'; auto. }
  assert (Hm : Re.match_at VIN_PATTERN t p
               = Some (p + 17, [(1, (p, p + 17))])).
  { apply match_at_VIN_intro.
    - lia.
    - rewrite Hdrop. exact Hall.
    - destruct p as [|p'] eqn:Hp; [exact I|]. intros a Hlk.
      apply space_not_upper_digit, (Hspace p' a); [lia|exact Hlk].
    - intros a Hlk.
      apply space_not_upper_digit, (Hspace (p + 17) a); [lia|exact Hlk]. }
  replace (S (length t)) with (p + S (length t - p)) by lia.
  rewrite (findall_from_skip _ t p) with (i := 0); [|lia|lia|].
  - cbn [Re.findall_from]. rewrite (proj2 (Nat.ltb_ge _ _)) by lia.
    rewrite Hm. unfold Re.group. cbn [find fst Nat.eqb].
    rewrite (proj2 (Nat.ltb_lt _ _)) by lia.
    rewrite findall_from_none by (intros i' Hi'; apply Hnone; lia).
    unfold Re.slice. replace (p + 17 - p) with 17 by lia.
    rewrite Hdrop, str_of_chars. cbn [List.filter]. rewrite Hvalid.
    reflexivity.
  - intros i' Hi'. apply Hnone. lia.
Qed.

Lemma is_vin_extracts_itself_witness :
  is_vin " WVWZZZ1JZXW000001 " = true /\
  extract_all_vins " WVWZZZ1JZXW000001 " = ["WVWZZZ1JZXW000001"].
Proof.
  assert (H : is_vin " WVWZZZ1JZXW000001 " = true) by reflexivity.
  split; [exact H|].
  exact (is_vin_extracts_itself " WVWZZZ1JZXW000001 " H).
Defined.

(** ** Partition names *)

Lemma iter_consumes (R : nat -> nat -> Prop) (Q : nat -> Prop) (i j : nat) :
  (forall i j, R i j -> forall x, i <= x < j -> Q x) ->
  iter R i j -> forall x, i <= x < j -> Q x.
Proof.
  intros HR. induction 1 as [i|i m j Hr Hlt Hit IH]; intros x Hx; [lia|].
  destruct (le_lt_dec m x); [apply IH; lia|]. eapply HR; [exact Hr|lia].
Qed.

Lemma span_consumes (q : ascii -> bool) (t : list ascii) (r : Re.re) :
  consumes_only q r ->
  forall i j, span t r i j ->
  forall x, i <= x < j -> exists a, t !! x = Some a /\ q a = true.
Proof.
  induction r as [|p|r1 IH1 r2 IH2|r1 IH1 r2 IH2|g r IH|n r IH| | | |p|p];
    cbn [consumes_only span]; intros Hq i j Hs x Hx.
  - lia.
  - destruct Hs as (-> & a & Ha & Hp). assert (x = i) as -> by lia. eauto.
  - destruct Hq as [Hq1 Hq2]. destruct Hs as (m & H1 & H2).
    destruct (le_lt_dec m x).
    + eapply IH2; [exact Hq2|exact H2|lia].
    + eapply IH1; [exact Hq1|exact H1|lia].
  - destruct Hq as [Hq1 Hq2]. destruct Hs as [H|H]; eauto.
  - apply (iter_consumes (span t r)
             (fun x => exists a, t !! x = Some a /\ q a = true) i j);
      [|exact Hs|exact Hx].
    intros i' j' Hr. apply IH; assumption.
  - eapply IH; eauto.
  - destruct Hs as [Hs _]. lia.
  - destruct Hs as [Hs _]. lia.
  - destruct Hs as [Hs _]. lia.
  - destruct Hs as [Hs _]. lia.
  - destruct Hs as [Hs _]. lia.
Qed.

(** A run of characters of one class is a span of its repetition. *)
Lemma iter_chr (t : list ascii) (p : ascii -> bool) (n : nat) :
  forall i,
    (forall x, i <= x < i + n -> exists a, t !! x = Some a /\ p a = true) ->
    iter (span t (Re.Chr p)) i (i + n).
Proof.
  induction n as [|n IH]; intros i H.
  - rewrite Nat.add_0_r. constructor.
  - apply (iter_step _ i (S i)).
    + cbn [span]. split; [reflexivity|]. apply H. lia.
    + lia.
    + replace (i + S n) with (S i + n) by lia. apply IH.
      intros x Hx. apply H. lia.
Qed.

Lemma uint_digits (d : Decimal.uint) :
  forallb is_digit (chars (NilEmpty.string_of_uint d)) = true.
Proof. induction d; simpl; auto. Qed.

(** The decimal rendering of a counter: digits, at least one. *)
Lemma str_nat_digits (k : nat) :
  forallb is_digit (chars (str_nat k)) = true /\ chars (str_nat k) <> [].
Proof.
  unfold str_nat, NilZero.string_of_uint.
  destruct (Nat.to_uint k) eqn:Hd; try (split; [apply uint_digits|discriminate]).
  split; [reflexivity|discriminate].
Qed.

Lemma lstrip_chars_idem (l : list ascii) :
  lstrip_chars (lstrip_chars l) = lstrip_chars l.
Proof.
  induction l as [|a l IH]; simpl; [reflexivity|].
  destruct (is_space a) eqn:Ha; [exact IH|]. simpl. rewrite Ha. reflexivity.
Qed.

Lemma lstrip_chars_head (l : list ascii) (a : ascii) :
  head (lstrip_chars l) = Some a -> is_space a = false.
Proof.
  induction l as [|b l IH]; simpl; [discriminate|].
  destruct (is_space b) eqn:Hb; [exact IH|]. simpl. congruence.
Qed.

Lemma last_rev {A : Type} (l : list A) : last (rev l) = head l.
Proof. rewrite rev_alt. apply (last_reverse l). Qed.

(** [rstrip] removes white space at the right end, and nothing else. *)
Lemma rstrip_split (s : string) :
  exists ws,
    chars s = chars (rstrip s) ++ ws /\ forallb is_space ws = true /\
    forall a, last (chars (rstrip s)) = Some a -> is_space a = false.
Proof.
  destruct (lstrip_chars_split (rev (chars s))) as (r1 & H & Hs).
  exists (rev r1). unfold rstrip. rewrite chars_str_of. split; [|split].
  - rewrite <- rev_app_distr, <- H, rev_involutive. reflexivity.
  - rewrite forallb_rev. exact Hs.
  - intros a. rewrite last_rev. apply lstrip_chars_head.
Qed.

Lemma rstrip_idem (s : string) : rstrip (rstrip s) = rstrip s.
Proof.
  unfold rstrip. rewrite chars_str_of, rev_involutive, lstrip_chars_idem.
  reflexivity.
Qed.

Lemma re_delete_from_keep (r : Re.re) (t : list ascii) (p : nat) :
  p <= length t ->
  forall n i fuel,
    i + n = p ->
    (forall i', i <= i' < p -> Re.match_at r t i' = None) ->
    re_delete_from r t i (n + fuel)
    = take n (drop i t) ++ re_delete_from r t p fuel.
Proof.
  intros Hp. induction n as [|n IH]; intros i fuel Hi H.
  - replace i with p by lia. reflexivity.
  - cbn [Nat.add re_delete_from]. rewrite (H i) by lia.
    destruct (lookup_lt_is_Some_2 t i) as [a Ha]; [lia|].
    rewrite Ha, (drop_S _ _ _ Ha). cbn [take app]. f_equal.
    apply IH; [lia|]. intros i' Hi'. apply H. lia.
Qed.

Lemma re_delete_from_end (r : Re.re) (t : list ascii) (fuel : nat) :
  re_delete_from r t (length t) fuel = [].
Proof.
  destruct fuel as [|fuel]; [reflexivity|]. cbn [re_delete_from].
  rewrite (lookup_ge_None_2 t (length t)) by lia.
  destruct (Re.match_at r t (length t)) as [[j c]|] eqn:Hm; [|reflexivity].
  apply match_at_span in Hm. apply span_bound in Hm.
  rewrite (proj2 (Nat.ltb_ge _ _)) by lia. reflexivity.
Qed.

(** Deleting the matches of a pattern whose leftmost match starts at
    offset [p] and runs to the end of the text leaves the first [p]
    characters. *)
Lemma re_delete_suffix (r : Re.re) (s : string) (p : nat) :
  p < String.length s ->
  (forall i, i < p -> Re.match_at r (chars s) i = None) ->
  (exists c, Re.match_at r (chars s) p = Some (String.length s, c)) ->
  re_delete r s = str_of (take p (chars s)).
Proof.
  intros Hp Hnone [c Hm]. unfold re_delete. rewrite <- length_chars in *.
  set (t := chars s) in *.
  replace (S (length t)) with (p + S (length t - p)) by lia.
  rewrite (re_delete_from_keep r t p) with (i := 0); [|lia|lia|].
  - rewrite drop_0. cbn [re_delete_from]. rewrite Hm.
    rewrite (proj2 (Nat.ltb_lt _ _)) by lia.
    rewrite re_delete_from_end, app_nil_r. reflexivity.
  - intros i' Hi'. apply Hnone. lia.
Qed.

Lemma part_char_consumed :
  consumes_only part_char
    (Re.seqs [Re.star Re.space; Re.lit_i "Part"; Re.star Re.space;
              Re.plus Re.digit; Re.star Re.space]).
Proof.
  assert (Hsp : forall a, is_space a = true -> part_char a = true)
    by (intros a Ha; unfold part_char; rewrite Ha; reflexivity).
  assert (Hdg : forall a, is_digit a = true -> part_char a = true)
    by (intros a Ha; unfold part_char; rewrite Ha, orb_true_r; reflexivity).
  assert (Hlt : forall c, In (to_lower c) (chars "part") ->
            forall a, (code (to_lower a) =? code (to_lower c)) = true ->
                      part_char a = true).
  { intros c Hc a Ha. unfold part_char.
    apply orb_true_iff. right. apply existsb_exists. exists (to_lower c).
    split; [exact Hc|exact Ha]. }
  unfold Re.seqs, Re.lit_i, Re.seq_of, Re.chr_i, Re.star, Re.plus, Re.space,
    Re.digit.
  cbn [consumes_only].
  repeat split; try exact Hsp; try exact Hdg;
    apply Hlt; vm_compute; tauto.
Qed.

Section PartSuffix.

Variables (pre ds : list ascii).
Hypothesis ds_digits : forallb is_digit ds = true.
Hypothesis ds_nonempty : ds <> [].

Let t : list ascii := pre ++ chars " - Part " ++ ds.
Let L : nat := length pre.

Lemma part_text_length : length t = L + 8 + length ds.
Proof. unfold t, L. rewrite !length_app. simpl. lia. Qed.

Lemma part_text_lookup (k : nat) :
  t !! (L + k) = (chars " - Part " ++ ds) !! k.
Proof.
  unfold t, L. rewrite lookup_app_r by lia. f_equal. lia.
Qed.

Lemma part_text_digit (x : nat) :
  L + 8 <= x < length t -> exists a, t !! x = Some a /\ is_digit a = true.
Proof.
  intros Hx. rewrite part_text_length in Hx.
  replace x with (L + (8 + (x - L - 8))) by lia.
  rewrite part_text_lookup, lookup_app_r by (simpl; lia).
  replace (8 + (x - L - 8) - length (chars " - Part ")) with (x - L - 8)
    by (simpl; lia).
  destruct (lookup_lt_is_Some_2 ds (x - L - 8)) as [a Ha]; [lia|].
  exists a. split; [exact Ha|].
  rewrite forallb_forall in ds_digits. apply ds_digits, list_elem_of_In.
  eapply list_elem_of_lookup_2, Ha.
Qed.

Lemma part_text_tail (x : nat) :
  L + 1 < x < length t -> exists a, t !! x = Some a /\ part_char a = true.
Proof.
  intros Hx. destruct (le_lt_dec (L + 8) x) as [Hge|Hlt].
  - destruct (part_text_digit x) as (a & Ha & Hd); [lia|].
    exists a. split; [exact Ha|]. unfold part_char.
    rewrite Hd, orb_true_r. reflexivity.
  - replace x with (L + (x - L)) by lia. rewrite part_text_lookup.
    assert (Hk : x - L = 2 \/ x - L = 3 \/ x - L = 4 \/ x - L = 5
                 \/ x - L = 6 \/ x - L = 7) by lia.
    destruct Hk as [-> | [-> | [-> | [-> | [-> | -> ]]]]]; eexists;
      (split; [reflexivity|vm_compute; reflexivity]).
Qed.

Lemma part_text_end (j : nat) : Re.at_end t j = true -> j = length t.
Proof.
  unfold Re.at_end. intros H. apply orb_true_iff in H as [H|H].
  - apply Nat.eqb_eq in H. exact H.
  - apply andb_true_iff in H as [Hj H]. apply Nat.eqb_eq in Hj. exfalso.
    assert (Hds : 0 < length ds) by (destruct ds; [congruence|simpl; lia]).
    destruct (part_text_digit j) as (a & Ha & Hd).
    { rewrite part_text_length in *. lia. }
    rewrite Ha in H. revert H Hd. clear.
    destruct a as [[] [] [] [] [] [] [] []]; vm_compute; congruence.
Qed.

(** A match of [_PART_SUFFIX] in a text that ends in [ - Part N] runs to
    the end of the text, and starts in the white space before the dash. *)
Lemma part_suffix_span (i j : nat) :
  span t _PART_SUFFIX i j ->
  j = length t /\ i <= L + 1 /\
  forall x, i <= x < L + 1 -> exists a, t !! x = Some a /\ is_space a = true.
Proof.
  unfold _PART_SUFFIX, Re.seqs, Re.star, Re.plus, Re.chr. cbn [span].
  intros (m1 & H1 & m2 & (-> & d & Hd & Hdash) & m3 & H3 & m4 & H4 & m5 & H5
          & m6 & (m6' & Hd1 & Hd2) & m7 & H7 & -> & Hend).
  apply part_text_end in Hend. subst m7.
  assert (Hrest : forall x, S m1 <= x < length t ->
                    exists a, t !! x = Some a /\ part_char a = true).
  { apply (span_consumes part_char t
             (Re.seqs [Re.star Re.space; Re.lit_i "Part"; Re.star Re.space;
                       Re.plus Re.digit; Re.star Re.space]));
      [apply part_char_consumed|].
    unfold Re.seqs, Re.star, Re.plus. cbn [span]. eauto 12. }
  assert (Hd' : part_char d = false).
  { apply Nat.eqb_eq in Hdash. revert Hdash. clear.
    destruct d as [[] [] [] [] [] [] [] []]; vm_compute; congruence. }
  assert (Hm1 : m1 = L + 1).
  { pose proof part_text_length as Hlen.
    destruct (lt_eq_lt_dec m1 (L + 1)) as [[Hlt|Heq]|Hgt]; [|exact Heq|].
    - exfalso. destruct (Hrest (L + 1)) as (a & Ha & Hp); [lia|].
      rewrite part_text_lookup in Ha. injection Ha as <-.
      vm_compute in Hp. discriminate.
    - exfalso. apply lookup_lt_Some in Hd as Hlt.
      destruct (part_text_tail m1) as (a & Ha & Hp); [lia|]. congruence. }
  subst m1. split; [reflexivity|]. split; [apply (iter_le _ _ _ H1)|].
  apply (span_consumes is_space t (Re.Star true Re.space)); [|exact H1].
  cbn. auto.
Qed.

Lemma part_suffix_span_intro (i : nat) :
  i <= L + 1 ->
  (forall x, i <= x < L + 1 ->
             exists a, t !! x = Some a /\ is_space a = true) ->
  span t _PART_SUFFIX i (length t).
Proof.
  intros Hi Hsp. pose proof part_text_length as Hlen.
  assert (Hds : 0 < length ds) by (destruct ds; [congruence|simpl; lia]).
  unfold _PART_SUFFIX, Re.seqs, Re.star, Re.plus, Re.lit_i, Re.seq_of,
    Re.chr, Re.chr_i.
  cbn [span].
  exists (L + 1). split.
  { replace (L + 1) with (i + (L + 1 - i)) by lia. apply iter_chr.
    intros x Hx. apply Hsp. lia. }
  exists (S (L + 1)). split.
  { split; [reflexivity|]. rewrite part_text_lookup. eexists.
    split; reflexivity. }
  exists (L + 3). split.
  { replace (L + 3) with (S (L + 1) + 1) by lia. apply iter_chr.
    intros x Hx. replace x with (L + 2) by lia. rewrite part_text_lookup.
    eexists. split; reflexivity. }
  exists (L + 7). split.
  { exists (S (L + 3)). split.
    { split; [reflexivity|]. rewrite part_text_lookup. eexists.
      split; reflexivity. }
    exists (S (S (L + 3))). split.
    { split; [reflexivity|].
      replace (S (L + 3)) with (L + 4) by lia. rewrite part_text_lookup.
      eexists. split; reflexivity. }
    exists (S (S (S (L + 3)))). split.
    { split; [reflexivity|].
      replace (S (S (L + 3))) with (L + 5) by lia. rewrite part_text_lookup.
      eexists. split; reflexivity. }
    split; [lia|].
    replace (S (S (S (L + 3)))) with (L + 6) by lia. rewrite part_text_lookup.
    eexists. split; reflexivity. }
  exists (L + 8). split.
  { replace (L + 8) with (L + 7 + 1) by lia. apply iter_chr.
    intros x Hx. replace x with (L + 7) by lia. rewrite part_text_lookup.
    eexists. split; reflexivity. }
  exists (length t). split.
  { exists (S (L + 8)). split.
    { split; [reflexivity|]. apply part_text_digit. lia. }
    replace (length t) with (S (L + 8) + (length ds - 1)) by lia.
    apply iter_chr. intros x Hx. apply part_text_digit. lia. }
  exists (length t). split; [constructor|]. split; [reflexivity|].
  unfold Re.at_end. rewrite Nat.eqb_refl. reflexivity.
Qed.

End PartSuffix.

(** X4: the parts of one partition are merged into one output folder:
    for every name [B] and number [N], the partition name [B - Part N]
    is merged into [B] without the white space at its right end. *)
Theorem merge_partition_name_part (base : string) (n : nat) :
  merge_partition_name (base +:+ " - Part " +:+ str_nat n) = rstrip base.
Proof.
  destruct (str_nat_digits n) as [Hdig Hne].
  destruct (rstrip_split base) as (ws & Hbase & Hws & Hlast).
  set (s := base +:+ " - Part " +:+ str_nat n).
  assert (Ht : chars s = chars base ++ chars " - Part " ++ chars (str_nat n))
    by (unfold s; rewrite !chars_app; reflexivity).
  set (p := length (chars (rstrip base))).
  assert (HL : length (chars base) = p + length ws)
    by (rewrite Hbase at 1; rewrite length_app; reflexivity).
  assert (Hlen : length (chars s) = p + length ws + 8 + length (chars (str_nat n))).
  { rewrite Ht, part_text_length, HL. reflexivity. }
  assert (Hspaces : forall x, p <= x < length (chars base) + 1 ->
            exists a, chars s !! x = Some a /\ is_space a = true).
  { intros x Hx. rewrite Ht.
    destruct (le_lt_dec (length (chars base)) x) as [Hge|Hlt].
    - replace x with (length (chars base) + 0) by lia.
      rewrite part_text_lookup. eexists. split; reflexivity.
    - rewrite lookup_app_l by lia. rewrite Hbase.
      rewrite lookup_app_r by (fold p; lia). fold p.
      destruct (lookup_lt_is_Some_2 ws (x - p)) as [a Ha]; [lia|].
      exists a. split; [exact Ha|].
      rewrite forallb_forall in Hws. apply Hws, list_elem_of_In.
      eapply list_elem_of_lookup_2, Ha. }
  unfold merge_partition_name.
  rewrite (re_delete_suffix _PART_SUFFIX s p).
  - replace (take p (chars s)) with (chars (rstrip base)).
    + rewrite str_of_chars. apply rstrip_idem.
    + rewrite Ht, Hbase, <- app_assoc.
      unfold p. rewrite take_app_length. reflexivity.
  - rewrite <- length_chars, Hlen. lia.
  - intros i Hi.
    destruct (Re.match_at _PART_SUFFIX (chars s) i) as [[j c]|] eqn:Hm;
      [exfalso|reflexivity].
    apply match_at_span in Hm. rewrite Ht in Hm.
    apply part_suffix_span in Hm as (_ & _ & Hsp); [|exact Hdig|exact Hne].
    destruct (Hsp (p - 1)) as (a & Ha & Hspace); [lia|].
    rewrite lookup_app_l in Ha by lia. rewrite Hbase in Ha.
    rewrite lookup_app_l in Ha by (fold p; lia).
    rewrite (Hlast a) in Hspace; [discriminate|].
    rewrite last_lookup. fold p. replace (pred p) with (p - 1) by lia.
    exact Ha.
  - assert (Hspan : span (chars s) _PART_SUFFIX p (length (chars s))).
    { rewrite Ht. apply part_suffix_span_intro;
        [exact Hdig|exact Hne|lia|]. rewrite <- Ht. exact Hspaces. }
    destruct (Re.match_at _PART_SUFFIX (chars s) p) as [[j c]|] eqn:Hm.
    + exists c. apply match_at_span in Hm. rewrite Ht in Hm.
      apply part_suffix_span in Hm as (-> & _); [|exact Hdig|exact Hne].
      rewrite <- Ht, length_chars. reflexivity.
    + exfalso. revert Hm. eapply match_at_span, Hspan.
Qed.

Lemma part_suffix_needs_dash (t : list ascii) (i j : nat) :
  span t _PART_SUFFIX i j ->
  exists m a, t !! m = Some a /\ code a = 45.
Proof.
  unfold _PART_SUFFIX, Re.seqs, Re.star, Re.chr. cbn [span].
  intros (m1 & _ & m2 & (_ & d & Hd & Hdash) & _).
  apply Nat.eqb_eq in Hdash. exists m1, d. split; [exact Hd|exact Hdash].
Qed.

(** X5: a partition name without dash has no [ - Part N] suffix to
    lose: it keeps everything but the white space at its right end. *)
Theorem merge_partition_name_no_dash (name : string) :
  (forall a, In a (chars name) -> code a <> 45) ->
  merge_partition_name name = rstrip name.
Proof.
  intros Hno. unfold merge_partition_name. f_equal.
  unfold re_delete. rewrite <- length_chars.
  replace (S (length (chars name))) with (length (chars name) + 1) by lia.
  rewrite (re_delete_from_keep _ _ (length (chars name))) with (i := 0);
    [|lia|lia|].
  - rewrite re_delete_from_end, app_nil_r, drop_0, take_ge by lia.
    apply str_of_chars.
  - intros i _.
    destruct (Re.match_at _PART_SUFFIX (chars name) i) as [[j c]|] eqn:Hm;
      [exfalso|reflexivity].
    apply match_at_span, part_suffix_needs_dash in Hm as (m & a & Ha & Hc).
    apply (Hno a); [|exact Hc].
    apply list_elem_of_In. eapply list_elem_of_lookup_2, Ha.
Qed.

Lemma merge_partition_name_no_dash_witness :
  merge_partition_name "SINDICALIZARE ALPHA FINAL " = "SINDICALIZARE ALPHA FINAL".
Proof.
  rewrite (merge_partition_name_no_dash "SINDICALIZARE ALPHA FINAL ").
  - reflexivity.
  - intros a Ha Hc. revert Ha. simpl.
    intuition (subst a; vm_compute in Hc; discriminate).
Defined.

(** ** Numbered candidates of the collision policy *)

Section NumberedStem.

Variables (b ds : list ascii).
Hypothesis b_nonempty : b <> [].
Hypothesis b_line : forallb not_newline b = true.
Hypothesis ds_digits : forallb is_digit ds = true.
Hypothesis ds_nonempty : ds <> [].

Let t : list ascii := b ++ "_"%char :: ds.

Lemma stem_text_digit (x : nat) :
  length b < x < length t -> exists a, t !! x = Some a /\ is_digit a = true.
Proof.
  unfold t. rewrite length_app. simpl. intros Hx.
  rewrite lookup_app_r by lia.
  replace (x - length b) with (S (x - length b - 1)) by lia. simpl.
  destruct (lookup_lt_is_Some_2 ds (x - length b - 1)) as [a Ha]; [lia|].
  exists a. split; [exact Ha|].
  rewrite forallb_forall in ds_digits. apply ds_digits, list_elem_of_In.
  eapply list_elem_of_lookup_2, Ha.
Qed.

Lemma stem_text_underscore : t !! length b = Some "_"%char.
Proof. unfold t. rewrite lookup_app_r, Nat.sub_diag by lia. reflexivity. Qed.

Lemma stem_text_length : length t = length b + 1 + length ds.
Proof. unfold t. rewrite length_app. simpl. lia. Qed.

Lemma stem_text_end (j : nat) : Re.at_end t j = true -> j = length t.
Proof.
  unfold Re.at_end. intros H. apply orb_true_iff in H as [H|H].
  - apply Nat.eqb_eq in H. exact H.
  - apply andb_true_iff in H as [Hj H]. apply Nat.eqb_eq in Hj. exfalso.
    assert (Hds : 0 < length ds) by (destruct ds; [congruence|simpl; lia]).
    destruct (stem_text_digit j) as (a & Ha & Hd).
    { rewrite stem_text_length in *. lia. }
    rewrite Ha in H. revert H Hd. clear.
    destruct a as [[] [] [] [] [] [] [] []]; vm_compute; congruence.
Qed.

(** The only way to read [b_N] as a stem, an underscore and digits up
    to the end is the one that stops the stem before the last
    underscore. *)
Lemma numbered_stem_split (q j : nat) :
  (exists a, t !! q = Some a /\ (code a =? code "_"%char) = true) ->
  span t (Re.plus Re.digit) (S q) j -> Re.at_end t j = true ->
  q = length b.
Proof.
  intros (a & Ha & Hu) Hd Hend. apply stem_text_end in Hend. subst j.
  assert (Hdig : forall x, S q <= x < length t ->
                   exists d, t !! x = Some d /\ is_digit d = true).
  { apply (span_consumes is_digit t (Re.plus Re.digit)); [|exact Hd].
    cbn. auto. }
  pose proof stem_text_length as Hlen.
  destruct (lt_eq_lt_dec q (length b)) as [[Hlt|Heq]|Hgt]; [|exact Heq|].
  - exfalso. destruct (Hdig (length b)) as (d & Hd' & Hdd); [lia|].
    rewrite stem_text_underscore in Hd'. injection Hd' as <-.
    vm_compute in Hdd. discriminate.
  - exfalso. apply lookup_lt_Some in Ha as Hq.
    destruct (stem_text_digit q) as (d & Hd' & Hdd); [lia|].
    rewrite Ha in Hd'. injection Hd' as <-. apply Nat.eqb_eq in Hu.
    revert Hu Hdd. clear.
    destruct a as [[] [] [] [] [] [] [] []]; vm_compute; congruence.
Qed.

Lemma numbered_stem_span :
  span t NUMBERED_STEM 0 (length t).
Proof.
  pose proof stem_text_length as Hlen.
  assert (Hb : 0 < length b) by (destruct b; [congruence|simpl; lia]).
  assert (Hds : 0 < length ds) by (destruct ds; [congruence|simpl; lia]).
  assert (Hline : forall x, x < length b ->
                    exists a, t !! x = Some a /\ not_newline a = true).
  { intros x Hx. unfold t. rewrite lookup_app_l by lia.
    destruct (lookup_lt_is_Some_2 b x) as [a Ha]; [lia|].
    exists a. split; [exact Ha|].
    rewrite forallb_forall in b_line. apply b_line, list_elem_of_In.
    eapply list_elem_of_lookup_2, Ha. }
  unfold NUMBERED_STEM, Re.seqs, Re.plus_lazy, Re.plus, Re.chr, Re.any,
    Re.digit.
  cbn [span].
  exists 0. split; [auto|].
  exists (length b). split.
  { exists 1. split; [split; [reflexivity|apply Hline; lia]|].
    replace (length b) with (1 + (length b - 1)) by lia.
    apply iter_chr. intros x Hx. apply Hline. lia. }
  exists (S (length b)). split.
  { split; [reflexivity|]. rewrite stem_text_underscore. eexists.
    split; reflexivity. }
  exists (length t). split.
  { exists (S (S (length b))). split.
    { split; [reflexivity|]. apply stem_text_digit. lia. }
    replace (length t) with (S (S (length b)) + (length ds - 1)) by lia.
    apply iter_chr. intros x Hx. apply stem_text_digit. lia. }
  split; [reflexivity|]. unfold Re.at_end. rewrite Nat.eqb_refl. reflexivity.
Qed.

Lemma numbered_stem_group1 :
  match_group1 NUMBERED_STEM (str_of t) = Some (str_of b).
Proof.
  unfold match_group1, Re.match_start. rewrite chars_str_of.
  destruct (Re.match_at NUMBERED_STEM t 0) as [[j c]|] eqn:Hm.
  - unfold Re.match_at, NUMBERED_STEM, Re.seqs in Hm.
    cbn [Re.run Nat.eqb] in Hm.
    apply (run_sound_groupless t (Re.plus_lazy Re.any) eq_refl) in Hm
      as (q & _ & Hm).
    unfold Re.chr in Hm. cbn [Re.run] in Hm.
    destruct (t !! q) as [a|] eqn:Ha; [|discriminate].
    destruct (code a =? code "_"%char) eqn:Hu; [|discriminate].
    apply (run_sound_groupless t (Re.plus Re.digit) eq_refl) in Hm
      as (j' & Hd & Hm).
    destruct (Re.at_end t j') eqn:Hend; [|discriminate].
    unfold Re.ret in Hm. injection Hm as <- <-.
    assert (Hq : q = length b) by (eapply numbered_stem_split; eauto).
    subst q. unfold Re.group. cbn [find fst Nat.eqb].
    unfold Re.slice. rewrite Nat.sub_0_r, drop_0. unfold t.
    rewrite take_app_length. reflexivity.
  - exfalso. revert Hm. eapply match_at_span, numbered_stem_span.
Qed.

End NumberedStem.

(** X6: numbers do not pile up in the candidates of the collision
    policy: a stem that already ends in [_N] gives back the stem before
    that suffix, so that the candidates for [doc_3.pdf] are those for
    [doc.pdf]. *)
Theorem base_stem_strips_number (stem : string) (n : nat) :
  stem <> "" -> forallb not_newline (chars stem) = true ->
  base_stem_of (stem +:+ "_" +:+ str_nat n) = stem.
Proof.
  intros Hne Hline. destruct (str_nat_digits n) as [Hdig Hds].
  unfold base_stem_of.
  replace (stem +:+ "_" +:+ str_nat n)
    with (str_of (chars stem ++ "_"%char :: chars (str_nat n))).
  - rewrite numbered_stem_group1; auto.
    + apply str_of_chars.
    + intros H. apply Hne. rewrite <- (str_of_chars stem), H. reflexivity.
  - rewrite <- (str_of_chars (stem +:+ "_" +:+ str_nat n)), !chars_app.
    reflexivity.
Qed.

Lemma base_stem_strips_number_witness :
  base_stem_of ("Contract Cadru_2" +:+ "_" +:+ str_nat 3) = "Contract Cadru_2".
Proof.
  apply (base_stem_strips_number "Contract Cadru_2" 3).
  - discriminate.
  - reflexivity.
Defined.

Lemma safe_dest_loop_sound md5 w src parent base sfx range p st :
  safe_dest_loop md5 w src parent base sfx range = Some (p, st) ->
  exists i,
    In i range /\ p = candidate parent base sfx i /\
    ((st = renamed /\ _exists w p = false)
     \/ (st = skip /\ _exists w p = true
         /\ _files_identical md5 w src p = true)).
Proof.
  induction range as [|i range IH]; simpl; [discriminate|].
  destruct (_exists w (candidate parent base sfx i)) eqn:He; simpl.
  - destruct (_files_identical md5 w src (candidate parent base sfx i)) eqn:Hi.
    + intros [= <- <-]. exists i. auto 8.
    + intros H. apply IH in H as (j & Hj & H). exists j. auto.
  - intros [= <- <-]. exists i. auto 8.
Qed.

(** The path that comes with status [ok] is the destination asked for. *)
Lemma safe_dest_ok_path (md5 : string -> string) (w : World)
    (src dst p : string) :
  _safe_dest md5 w src dst = (p, ok) -> p = dst.
Proof.
  unfold _safe_dest.
  destruct (_exists w dst); cbn [negb]; [|congruence].
  destruct (_files_identical md5 w src dst); [congruence|].
  destruct (safe_dest_loop md5 w src (Path.parent dst)
              (base_stem_of (Path.stem dst)) (Path.suffix dst) (seq 1 9999))
    as [[p' st']|] eqn:Hloop; [|congruence].
  intros [= -> ->].
  apply safe_dest_loop_sound in Hloop as (i & _ & _ & [[H _]|[H _]]);
    discriminate.
Qed.

(** X7: what the answer of [_safe_dest] guarantees, whatever the files:
    a [renamed] path is one of the 9999 numbered candidates and no file
    is there; a [skip] path holds a file identical to the source; an
    [ok] path is the destination asked for. *)
Theorem safe_dest_sound (md5 : string -> string) (w : World)
    (src dst p : string) (st : DestStatus) :
  _safe_dest md5 w src dst = (p, st) ->
  match st with
  | ok => p = dst
  | skip => _exists w p = true /\ _files_identical md5 w src p = true
  | renamed =>
      _exists w p = false /\
      exists i, 1 <= i <= 9999 /\ p = candidate_of dst i
  end.
Proof.
  unfold _safe_dest.
  destruct (_exists w dst) eqn:He; cbn [negb]; [|intros [= <- <-]; reflexivity].
  destruct (_files_identical md5 w src dst) eqn:Hi;
    [intros [= <- <-]; auto|].
  destruct (safe_dest_loop md5 w src (Path.parent dst)
              (base_stem_of (Path.stem dst)) (Path.suffix dst) (seq 1 9999))
    as [[p' st']|] eqn:Hloop; [|intros [= <- <-]; reflexivity].
  intros [= -> ->].
  apply safe_dest_loop_sound in Hloop as (i & Hin & -> & Hcase).
  apply in_seq in Hin.
  assert (Hi' : 1 <= i <= 9999).
  { split; [lia|]. apply Nat.lt_succ_r.
    replace (S 9999) with (1 + 9999) by reflexivity. lia. }
  destruct Hcase as [[-> Hex]|(-> & Hex & Hid)].
  - split; [exact Hex|]. exists i. split; [exact Hi'|reflexivity].
  - auto.
Qed.

Lemma safe_dest_sound_witness :
  _safe_dest plain_digest one_collision "/SIN/a/FL.pdf" "/OUT/V/FL.pdf"
  = ("/OUT/V/FL_1.pdf", renamed) /\
  _exists one_collision "/OUT/V/FL_1.pdf" = false.
Proof.
  assert (H : _safe_dest plain_digest one_collision "/SIN/a/FL.pdf"
                "/OUT/V/FL.pdf" = ("/OUT/V/FL_1.pdf", renamed))
    by (vm_compute; reflexivity).
  split; [exact H|].
  exact (proj1 (safe_dest_sound plain_digest one_collision _ _ _ _ H)).
Defined.
(** ** What a real run does to the files *)

Lemma written_at_same (p : string) (w w' : World) :
  files w' = files w -> unreadable w' = unreadable w -> written_at p w w'.
Proof.
  intros Hf Hu. unfold written_at. rewrite Hf. auto.
Qed.

Lemma written_at_trans (p : string) (w1 w2 w3 : World) :
  written_at p w1 w2 -> written_at p w2 w3 -> written_at p w1 w3.
Proof.
  intros (Hu1 & Hq1 & Hp1) (Hu2 & Hq2 & Hp2). split; [congruence|]. split.
  - intros q Hq. rewrite Hq2, Hq1 by exact Hq. reflexivity.
  - auto.
Qed.

(** What is written at [p] removes no file, and changes the bytes at
    [p] only. *)
Lemma written_at_keeps (p : string) (w w' : World) :
  written_at p w w' ->
  (forall q, is_Some (files w !! q) -> is_Some (files w' !! q)) /\
  (forall q, files w' !! q <> files w !! q -> q = p).
Proof.
  intros (_ & Hq & Hp). split.
  - intros q Hs. destruct (decide (q = p)) as [->|Hne]; [auto|].
    rewrite Hq by exact Hne. exact Hs.
  - intros q Hne. destruct (decide (q = p)) as [->|Hd]; [reflexivity|].
    exfalso. apply Hne, Hq, Hd.
Qed.

Lemma io_call_written (p : string) (effect : World -> World) (w : World) :
  (forall v, files (effect v) = files v) ->
  (forall v, unreadable (effect v) = unreadable v) ->
  written_at p w (snd (io_call effect w)).
Proof.
  intros Hf Hu. destruct (io_call_files effect w Hf Hu) as [H1 H2].
  apply written_at_same; assumption.
Qed.

Lemma log_safe_written (p : string) (c : Change) (w : World) :
  written_at p w (snd (_log_safe c w)).
Proof. apply io_call_written; reflexivity. Qed.

Lemma fail_handler_written (p : string) (c : Change) (src : string)
    (e : OSError) (w : World) :
  written_at p w (snd (fail_handler c src e w)) /\
  forall c', fst (fail_handler c src e w) = Ok c' -> c' = set_status failed c.
Proof.
  unfold fail_handler, xbind.
  pose proof (log_safe_files (set_status failed c) w) as [Hl Hl'].
  destruct (_log_safe (set_status failed c) w) as [[[]|e1] w1];
    cbn [fst snd] in *.
  - pose proof (tqdm_write_files
                  (error_line (set_status failed c) src (errmsg e)) w1)
      as [Ht Ht'].
    destruct (tqdm_write (error_line (set_status failed c) src (errmsg e)) w1)
      as [[[]|e2] w2]; unfold xret; cbn [fst snd] in *.
    + split; [apply written_at_same; congruence|]. intros c' [= <-].
      reflexivity.
    + split; [apply written_at_same; congruence|]. discriminate.
  - split; [apply written_at_same; assumption|]. discriminate.
Qed.

Lemma copy2_written (src dst : string) (w : World) :
  written_at dst w (snd (shutil_copy2 src dst w)).
Proof.
  unfold shutil_copy2, written_at.
  destruct (next_copy (faults w)) as [[[e [bytes|]]|] rest]; cbn.
  - split; [reflexivity|]. split.
    + intros q Hq. apply lookup_insert_ne. congruence.
    + intros _. rewrite lookup_insert_eq. eauto.
  - auto.
  - destruct (files w !! src) as [data|]; cbn; [|auto].
    split; [reflexivity|]. split.
    + intros q Hq. apply lookup_insert_ne. congruence.
    + intros _. rewrite lookup_insert_eq. eauto.
Qed.

(** The retry loop writes at the path of the copy only, and what it
    returns is the entry marked [done] or [failed]. *)
Lemma retry_copy_effect (attempts : list nat) :
  forall c src actual initial w,
    written_at actual w
               (snd (retry_copy c src actual attempts initial w)) /\
    forall c', fst (retry_copy c src actual attempts initial w) = Ok c' ->
               c' = set_status done c \/ c' = set_status failed c.
Proof.
  induction attempts as [|a attempts IH]; intros c src actual initial w.
  - cbn [retry_copy]. unfold xbind.
    pose proof (log_safe_files (set_status failed c) w) as [Hl Hl'].
    destruct (_log_safe (set_status failed c) w) as [[[]|e1] w1];
      cbn [fst snd] in *.
    + pose proof (tqdm_write_files
                    (error_line (set_status failed c) src initial) w1)
        as [Ht Ht'].
      destruct (tqdm_write (error_line (set_status failed c) src initial) w1)
        as [[[]|e2] w2]; unfold xret; cbn [fst snd] in *.
      * split; [apply written_at_same; congruence|]. intros c' [= <-]. auto.
      * split; [apply written_at_same; congruence|]. discriminate.
    + split; [apply written_at_same; assumption|]. discriminate.
  - rewrite retry_copy_step.
    assert (Hturn :
      written_at actual w
        (snd ((perform shutil_copy2 src actual ;
               perform _log_safe (set_status done c) ;
               xret (set_status done c)) w)) /\
      forall c',
        fst ((perform shutil_copy2 src actual ;
              perform _log_safe (set_status done c) ;
              xret (set_status done c)) w) = Ok c' ->
        c' = set_status done c).
    { unfold xbind. pose proof (copy2_written src actual w) as Hc.
      destruct (shutil_copy2 src actual w) as [[[]|e] w1]; cbn [fst snd] in *.
      - pose proof (log_safe_written actual (set_status done c) w1) as Hl.
        destruct (_log_safe (set_status done c) w1) as [[[]|e1] w2];
          unfold xret; cbn [fst snd] in *.
        + split; [eapply written_at_trans; eassumption|].
          intros c' [= <-]. reflexivity.
        + split; [eapply written_at_trans; eassumption|]. discriminate.
      - split; [exact Hc|]. discriminate. }
    destruct Hturn as [Hw Hok].
    destruct ((perform shutil_copy2 src actual ;
               perform _log_safe (set_status done c) ;
               xret (set_status done c)) w) as [[c1|e] w1];
      cbn [fst snd] in *.
    + split; [exact Hw|]. intros c' [= <-]. left. apply Hok. reflexivity.
    + destruct (is_sharing_violation e).
      * destruct (IH c src actual (errmsg e) (slept_more [retry_delay a] w1))
          as [Hw' Hok'].
        split; [|exact Hok'].
        eapply written_at_trans; [exact Hw|].
        eapply written_at_trans; [|exact Hw'].
        apply written_at_same; reflexivity.
      * split; [exact Hw|]. discriminate.
Qed.

Section Effects.

Variable md5 : string -> string.

(** [_exec_copy] up to its loop writes no file; the entry that goes
    into the loop is the entry, with the path of the copy for
    destination. *)
Lemma exec_copy_pre_effect (c : Change) (w : World) r w' :
  exec_copy_pre md5 c w = (r, w') ->
  files w' = files w /\ unreadable w' = unreadable w /\
  (forall c', r = Ok (inl c') -> c' = set_status skipped c) /\
  (forall c1 actual, r = Ok (inr (c1, actual)) ->
                     same_entry c c1 /\ destination c1 = actual).
Proof.
  assert (Hskip : forall v,
    files v = files w -> unreadable v = unreadable w ->
    (perform _log_safe (set_status skipped c) ;
     xret (inl (set_status skipped c) : Change + Change * string)) v
    = (r, w') ->
    files w' = files w /\ unreadable w' = unreadable w /\
    (forall c', r = Ok (inl c') -> c' = set_status skipped c) /\
    (forall c1 actual, r = Ok (inr (c1, actual)) ->
                       same_entry c c1 /\ destination c1 = actual)).
  { intros v Hf Hu. unfold xbind.
    pose proof (log_safe_files (set_status skipped c) v) as [Hl Hl'].
    destruct (_log_safe (set_status skipped c) v) as [[[]|e] v1];
      unfold xret; cbn [fst snd] in *; intros [= <- <-].
    - split; [congruence|]. split; [congruence|]. split.
      + intros c' [= <-]. reflexivity.
      + intros c1 actual H. discriminate.
    - split; [congruence|]. split; [congruence|].
      split; intros; discriminate. }
  unfold exec_copy_pre.
  destruct (negb (_exists w (source c))); [apply Hskip; reflexivity|].
  unfold xbind at 1.
  pose proof (os_makedirs_files (Path.parent (destination c)) w) as [Hm Hm'].
  destruct (os_makedirs (Path.parent (destination c)) w) as [[[]|e] w1];
    cbn [fst snd] in *.
  - destruct (_safe_dest md5 w1 (source c) (destination c)) as [actual st]
      eqn:Hsd.
    destruct st.
    + intros [= <- <-]. split; [exact Hm|]. split; [exact Hm'|].
      split; [intros; discriminate|].
      intros c1 actual' [= <- <-]. split; [unfold same_entry; auto 6|].
      symmetry. eapply safe_dest_ok_path. exact Hsd.
    + apply Hskip; assumption.
    + intros [= <- <-]. split; [exact Hm|]. split; [exact Hm'|].
      split; [intros; discriminate|].
      intros c1 actual' [= <- <-]. split; [|reflexivity].
      unfold same_entry. cbn. auto 6.
  - intros [= <- <-]. split; [exact Hm|]. split; [exact Hm'|].
    split; intros; discriminate.
Qed.

(** One copy, however it ends: no file goes; and when it returns, the
    entry keeps its identity and a path whose bytes have changed is the
    destination of the entry, which is marked [done] or [failed]. *)
Lemma exec_copy_effect (c : Change) (w : World) r w' :
  action c = copy_file ->
  _exec_copy md5 c w = (r, w') ->
  (forall p, is_Some (files w !! p) -> is_Some (files w' !! p)) /\
  forall c', r = Ok c' ->
    same_entry c c' /\
    forall p, files w' !! p <> files w !! p ->
              attempted c' /\ destination c' = p.
Proof.
  intros Ha. unfold _exec_copy.
  destruct (exec_copy_pre md5 c w) as [r0 w1] eqn:Hpre.
  destruct (exec_copy_pre_effect c w r0 w1 Hpre) as (Hf & Hu & Hl & Hr).
  destruct r0 as [[c1|[c1 actual]]|e]; cbn [fst snd] in *.
  - intros [= <- <-]. rewrite Hf. split; [auto|]. intros c' [= <-].
    rewrite (Hl c1 eq_refl). split; [unfold same_entry; cbn; auto 6|].
    intros p Hp. congruence.
  - destruct (Hr c1 actual eq_refl) as [Hsame Hdst]. unfold xtry.
    destruct (retry_copy_effect (seq 0 _RETRY_ATTEMPTS) c1 (source c) actual
                "None" w1) as [Hw Hok].
    destruct (retry_copy c1 (source c) actual (seq 0 _RETRY_ATTEMPTS) "None"
                w1) as [[c2|e] w2]; cbn [fst snd] in *.
    + intros [= <- <-].
      assert (Hw0 : written_at actual w w2).
      { eapply written_at_trans; [|exact Hw].
        apply written_at_same; congruence. }
      destruct (written_at_keeps _ _ _ Hw0) as [Hkeep Honly].
      split; [exact Hkeep|]. intros c' [= <-].
      destruct Hsame as (Ha1 & Hs1 & Hr1 & Hp1 & Hv1).
      destruct (Hok c2 eq_refl) as [->| ->]; cbn.
      * split; [unfold same_entry; cbn; auto 6|]. intros p Hp.
        split; [|rewrite Hdst; symmetry; apply Honly, Hp].
        unfold attempted. cbn. split; [congruence|auto].
      * split; [unfold same_entry; cbn; auto 6|]. intros p Hp.
        split; [|rewrite Hdst; symmetry; apply Honly, Hp].
        unfold attempted. cbn. split; [congruence|auto].
    + destruct (fail_handler_written actual c1 (source c) e w2) as [Hh Hhok].
      destruct (fail_handler c1 (source c) e w2) as [r1 w3];
        cbn [fst snd] in *.
      intros [= <- <-].
      assert (Hw0 : written_at actual w w3).
      { eapply written_at_trans; [|exact Hh].
        eapply written_at_trans; [|exact Hw].
        apply written_at_same; congruence. }
      destruct (written_at_keeps _ _ _ Hw0) as [Hkeep Honly].
      split; [exact Hkeep|]. intros c' Hc'.
      rewrite (Hhok c' Hc').
      destruct Hsame as (Ha1 & Hs1 & Hr1 & Hp1 & Hv1).
      split; [unfold same_entry; cbn; auto 6|]. intros p Hp.
      split; [|cbn; rewrite Hdst; symmetry; apply Honly, Hp].
      unfold attempted. cbn. split; [congruence|auto].
  - destruct (fail_handler_written "" c (source c) e w1) as [Hh Hhok].
    pose proof (fail_handler_files c (source c) e w1) as Hfl.
    destruct (fail_handler c (source c) e w1) as [r1 w3];
      cbn [fst snd] in *.
    intros [= <- <-].
    rewrite Hfl, Hf. split; [auto|]. intros c' Hc'. rewrite (Hhok c' Hc').
    split; [unfold same_entry; cbn; auto 6|]. intros p Hp. congruence.
Qed.

Lemma exec_one_effect (c : Change) (w : World) r w' :
  exec_one md5 c w = (r, w') ->
  (forall p, is_Some (files w !! p) -> is_Some (files w' !! p)) /\
  forall c', r = Ok c' ->
    same_entry c c' /\
    forall p, files w' !! p <> files w !! p ->
              attempted c' /\ destination c' = p.
Proof.
  unfold exec_one. destruct (action c) eqn:Ha.
  - apply exec_copy_effect. exact Ha.
  - unfold xbind.
    pose proof (os_makedirs_files (destination c) w) as [Hm _].
    destruct (os_makedirs (destination c) w) as [[[]|e] w1];
      cbn [fst snd] in *.
    + pose proof (log_safe_files (set_status done c) w1) as [Hl _].
      destruct (_log_safe (set_status done c) w1) as [[[]|e] w2];
        unfold xret; cbn [fst snd] in *; intros [= <- <-].
      * rewrite Hl, Hm. split; [auto|]. intros c' [= <-].
        split; [unfold same_entry; cbn; auto 6|]. intros p Hp. congruence.
      * rewrite Hl, Hm. split; [auto|]. discriminate.
    + intros [= <- <-]. rewrite Hm. split; [auto|]. discriminate.
  - unfold xret. intros [= <- <-]. split; [auto|]. intros c' [= <-].
    split; [unfold same_entry; auto 6|]. intros p Hp. congruence.
Qed.

Lemma exec_all_effect (cs : list Change) :
  forall w r w',
    exec_all md5 cs w = (r, w') ->
    (forall p, is_Some (files w !! p) -> is_Some (files w' !! p)) /\
    forall cs', r = Ok cs' ->
      Forall2 same_entry cs cs' /\
      forall p, files w' !! p <> files w !! p ->
                exists c', In c' cs' /\ attempted c' /\ destination c' = p.
Proof.
  induction cs as [|c cs IH]; intros w r w'.
  - cbn. unfold xret. intros [= <- <-]. split; [auto|].
    intros cs' [= <-]. split; [constructor|]. intros p Hp. congruence.
  - cbn [exec_all]. unfold xbind at 1.
    destruct (exec_one md5 c w) as [r1 w1] eqn:H1.
    destruct (exec_one_effect c w r1 w1 H1) as [Hk1 Hok1].
    destruct r1 as [c1|e]; [|intros [= <- <-]; split; [exact Hk1|discriminate]].
    destruct (Hok1 c1 eq_refl) as [Hsame Hchg1].
    unfold xbind.
    destruct (exec_all md5 cs w1) as [r2 w2] eqn:H2.
    destruct (IH w1 r2 w2 H2) as [Hk2 Hok2].
    destruct r2 as [cs1|e]; unfold xret; intros [= <- <-];
      [|split; [auto|discriminate]].
    destruct (Hok2 cs1 eq_refl) as [Hall Hchg2].
    split; [auto|]. intros cs' [= <-]. split; [constructor; assumption|].
    intros p Hp.
    destruct (decide (files w2 !! p = files w1 !! p)) as [Heq|Hne].
    + rewrite Heq in Hp. destruct (Hchg1 p Hp) as [Hat Hd].
      exists c1. split; [left; reflexivity|auto].
    + destruct (Hchg2 p Hne) as (c2 & Hin & Hc2). exists c2.
      split; [right; exact Hin|exact Hc2].
Qed.



End Effects.

(** X8: a real run only adds files or replaces their bytes, however it
    ends: every file that was there is still there; and when the run
    returns, a path whose bytes have changed is the destination of a
    copy marked [done] or [failed], and the entries of the ledger keep
    their action, source, reason, folder and VIN. *)
Theorem executor_writes_only_copies (md5 : string -> string) (l : Ledger)
    (w : World) :
  (forall p, is_Some (files w !! p) ->
             is_Some (files (snd (Ledger_execute md5 l false w)) !! p)) /\
  forall l', fst (Ledger_execute md5 l false w) = Ok l' ->
    Forall2 same_entry (changes l) (changes l') /\
    forall p,
      files (snd (Ledger_execute md5 l false w)) !! p <> files w !! p ->
      exists c', In c' (changes l') /\ attempted c' /\ destination c' = p.
Proof.
  unfold Ledger_execute, xbind.
  destruct (exec_all md5 (changes l) w) as [r w'] eqn:H.
  destruct (exec_all_effect md5 (changes l) w r w' H) as [Hk Hok].
  destruct r as [cs'|e]; unfold xret; cbn [fst snd];
    [|split; [exact Hk|discriminate]].
  split; [exact Hk|]. intros l' [= <-]. cbn [changes]. apply Hok. reflexivity.
Qed.

(** A copy that fails after it has created its destination: the entry
    is marked [failed] and an empty file is at its destination. *)
Example failed_copy_leaves_bytes :
  exists w',
    _exec_copy plain_digest locked_copy
      (with_faults [copy_fate (Some (disk_full, Some ""))] locked_world)
    = (Ok (set_status failed locked_copy), w') /\
    files w' !! "/OUT/P/V/FL.pdf" = Some "".
Proof. eexists. split; vm_compute; reflexivity. Qed.



(** ** Short names are recognised back *)

Lemma take_until_dot_pdf (r : list ascii) :
  Path.take_until (fun a => code a =? 46)
    ("f"%char :: "d"%char :: "p"%char :: "."%char :: r)
  = ["f"%char; "d"%char; "p"%char].
Proof. reflexivity. Qed.

Lemma stem_pdf (n : string) :
  plain_name n -> n <> "" -> Path.stem (n +:+ ".pdf") = n.
Proof.
  intros Hn Hne. unfold Path.stem.
  rewrite name_of_plain by (apply plain_app; [exact Hn|reflexivity]).
  rewrite chars_app. unfold Path.suffix_at.
  rewrite rev_app_distr.
  change (rev (chars ".pdf")) with ["f"%char; "d"%char; "p"%char; "."%char].
  cbn [app]. rewrite take_until_dot_pdf, length_app.
  change (length (chars ".pdf")) with 4.
  change (length ["f"%char; "d"%char; "p"%char]) with 3.
  assert (Hl : 0 < length (chars n)).
  { destruct n; [congruence|simpl; lia]. }
  replace (length (chars n) + 4 - 4) with (length (chars n)) by lia.
  rewrite (proj2 (Nat.ltb_lt 3 _)) by lia.
  rewrite (proj2 (Nat.ltb_lt 0 _)) by lia.
  rewrite (proj2 (Nat.ltb_lt _ (length (chars n) + 4 - 1))) by lia.
  cbn [andb]. rewrite take_app_length. apply str_of_chars.
Qed.

Lemma lower_app (s1 s2 : string) : lower (s1 +:+ s2) = lower s1 +:+ lower s2.
Proof.
  unfold lower. rewrite chars_app, map_app.
  rewrite <- (str_of_chars (str_of _ +:+ str_of _)), chars_app, !chars_str_of.
  reflexivity.
Qed.

Lemma to_lower_digit (a : ascii) : is_digit a = true -> to_lower a = a.
Proof.
  destruct a as [[] [] [] [] [] [] [] []]; vm_compute; congruence.
Qed.

Lemma lower_digits (s : string) :
  forallb is_digit (chars s) = true -> lower s = s.
Proof.
  intros H. unfold lower. rewrite <- (str_of_chars s) at 2. f_equal.
  induction (chars s) as [|a l IH]; [reflexivity|].
  simpl in H. apply andb_true_iff in H as [Ha Hl].
  simpl. rewrite (to_lower_digit a Ha), IH by exact Hl. reflexivity.
Qed.

(** The trailing [_N] of a stem is what [re.sub(r'_\d+$', '', stem)]
    removes. *)
Lemma number_suffix_delete (lb : string) (k : nat) :
  re_delete NUMBER_SUFFIX (lb +:+ "_" +:+ str_nat k) = lb.
Proof.
  destruct (str_nat_digits k) as [Hdig Hds].
  set (s := lb +:+ "_" +:+ str_nat k).
  assert (Ht : chars s = chars lb ++ "_"%char :: chars (str_nat k))
    by (unfold s; rewrite !chars_app; reflexivity).
  assert (Hlen : length (chars s)
                 = length (chars lb) + 1 + length (chars (str_nat k)))
    by (rewrite Ht, length_app; simpl; lia).
  assert (Hpos : 0 < length (chars (str_nat k)))
    by (destruct (chars (str_nat k)); [congruence|simpl; lia]).
  assert (Hsplit : forall i j, span (chars s) NUMBER_SUFFIX i j ->
                     i = length (chars lb) /\ j = length (chars s)).
  { intros i j. unfold NUMBER_SUFFIX, Re.seqs, Re.chr. cbn [span].
    intros (m & (-> & Hu) & m2 & Hd & -> & Hend). rewrite Ht in *.
    split.
    - eapply numbered_stem_split; eauto.
    - eapply stem_text_end; eauto. }
  rewrite (re_delete_suffix NUMBER_SUFFIX s (length (chars lb))).
  - rewrite Ht, take_app_length. apply str_of_chars.
  - rewrite <- length_chars. lia.
  - intros i Hi.
    destruct (Re.match_at NUMBER_SUFFIX (chars s) i) as [[j c]|] eqn:Hm;
      [exfalso|reflexivity].
    apply match_at_span, Hsplit in Hm. lia.
  - assert (Hspan : span (chars s) NUMBER_SUFFIX (length (chars lb))
                         (length (chars s))).
    { unfold NUMBER_SUFFIX, Re.seqs, Re.chr, Re.plus, Re.digit. cbn [span].
      exists (S (length (chars lb))). split.
      { split; [reflexivity|]. rewrite Ht, stem_text_underscore.
        eexists. split; reflexivity. }
      exists (length (chars s)). split.
      { exists (S (S (length (chars lb)))). split.
        { split; [reflexivity|]. rewrite Ht.
          apply stem_text_digit; [exact Hdig|]. rewrite <- Ht. lia. }
        replace (length (chars s))
          with (S (S (length (chars lb)))
                + (length (chars (str_nat k)) - 1)) by lia.
        apply iter_chr. intros x Hx. rewrite Ht.
        apply stem_text_digit; [exact Hdig|]. rewrite <- Ht. lia. }
      split; [reflexivity|]. unfold Re.at_end. rewrite Nat.eqb_refl.
      reflexivity. }
    destruct (Re.match_at NUMBER_SUFFIX (chars s) (length (chars lb)))
      as [[j c]|] eqn:Hm.
    + exists c. apply match_at_span, Hsplit in Hm as [_ ->].
      rewrite length_chars. reflexivity.
    + exfalso. revert Hm. eapply match_at_span, Hspan.
Qed.

Lemma pdf_not_ignored (s : string) : mem (s +:+ ".pdf") _IGNORE_FILES = false.
Proof.
  apply mem_false. intros Hin.
  assert (Hrev : forall n, s +:+ ".pdf" = n ->
            take 1 (rev (chars n)) = ["f"%char]).
  { intros n <-. rewrite chars_app, rev_app_distr. reflexivity. }
  simpl in Hin. destruct Hin as [H|[H|[]]]; symmetry in H;
    apply Hrev in H; vm_compute in H; discriminate.
Qed.

(** A numbered short name is read back as its category. *)
Lemma categorize_numbered (base cat : string) (k : nat) :
  plain_name base -> base <> "" ->
  dict_get (lower base) _SHORT_NAME_TO_CAT = Some cat ->
  categorize_file (base +:+ "_" +:+ str_nat k +:+ ".pdf") = Some cat.
Proof.
  intros Hplain Hne Hd. destruct (str_nat_digits k) as [Hdig _].
  replace (base +:+ "_" +:+ str_nat k +:+ ".pdf")
    with ((base +:+ "_" +:+ str_nat k) +:+ ".pdf").
  2:{ rewrite <- (str_of_chars (_ +:+ ".pdf")), !chars_app, <- !app_assoc.
      rewrite <- !chars_app. apply str_of_chars. }
  unfold categorize_file. rewrite pdf_not_ignored.
  rewrite stem_pdf.
  - rewrite !lower_app, (lower_digits (str_nat k) Hdig).
    change (lower "_") with "_". rewrite number_suffix_delete, Hd.
    reflexivity.
  - apply plain_app; [exact Hplain|].
    apply plain_app; [reflexivity|apply plain_str_nat].
  - intros H. apply (f_equal chars) in H. rewrite chars_app in H.
    apply Hne. rewrite <- (str_of_chars base).
    destruct (chars base); [reflexivity|discriminate].
Qed.

(** X10: the short names that the rename passes give are recognised
    back: when [_short_name_for_category] gives category [cat] the name
    [B.pdf], [categorize_file] puts [B.pdf] in [cat], and also every
    numbered name [B_N.pdf]. *)
Theorem short_names_round_trip (cat fn name : string) :
  _short_name_for_category cat fn = Some name ->
  categorize_file name = Some cat /\
  forall k,
    categorize_file (Path.stem name +:+ "_" +:+ str_nat k +:+ ".pdf")
    = Some cat.
Proof.
  unfold _short_name_for_category.
  destruct (String.eqb cat "TALON / CIV") eqn:Hcat.
  - apply String.eqb_eq in Hcat. subst cat.
    destruct (_detect_talon_civ fn) as [[] []]; cbn [andb];
      intros [= <-]; (split; [vm_compute; reflexivity|]); intros k;
      apply categorize_numbered; (reflexivity || discriminate).
  - unfold _CAT_SHORT_NAMES. cbn [dict_get].
    repeat match goal with
    | |- context [String.eqb ?c cat] =>
        let H := fresh "H" in
        destruct (String.eqb c cat) eqn:H;
        [apply String.eqb_eq in H; subst cat;
         try discriminate;
         cbn [String.eqb Ascii.eqb Bool.eqb];
         intros [= <-]; (split; [vm_compute; reflexivity|]); intros k;
         apply categorize_numbered; (reflexivity || discriminate)|]
    end.
    discriminate.
Qed.

Lemma short_names_round_trip_witness :
  _short_name_for_category "TALON / CIV" "Talon si CIV auto.pdf"
  = Some "TALON+CIV.pdf" /\
  categorize_file "TALON+CIV_2.pdf" = Some "TALON / CIV".
Proof.
  assert (H : _short_name_for_category "TALON / CIV" "Talon si CIV auto.pdf"
              = Some "TALON+CIV.pdf") by (vm_compute; reflexivity).
  split; [exact H|].
  exact (proj2 (short_names_round_trip _ _ _ H) 2).
Defined.

(** ** The persistent caches *)

Lemma list_to_set_sorted_elements (s : gset string) :
  list_to_set (sorted (elements s)) = s.
Proof.
  apply set_eq. intros x. unfold sorted.
  rewrite elem_of_list_to_set, merge_sort_Permutation.
  apply elem_of_elements.
Qed.

(** X11: the OCR cache gives back what was stored for a file as long as
    the size and the modification time of the file are as they were
    when it was stored, and misses as soon as one of them differs;
    storing for one path leaves the answers for the others as they
    were. *)
Theorem ocr_cache_round_trip (st : Stat) (cache : gmap string CacheEntry)
    (p : string) (vins cats : gset string)
    (reclass_cat : option (option string)) :
  let cache' := _ocr_cache_store st cache p (Some vins) (Some cats)
                                 reclass_cat in
  _ocr_cache_lookup st cache' p = (true, vins, cats) /\
  (forall st',
     _file_fingerprint st' p <> _file_fingerprint st p ->
     _ocr_cache_lookup st' cache' p = (false, ∅, ∅)) /\
  (forall st' q,
     q <> p -> _ocr_cache_lookup st' cache' q = _ocr_cache_lookup st' cache q).
Proof.
  unfold _ocr_cache_store, _ocr_cache_lookup.
  destruct (_file_fingerprint st p) as [size mtime] eqn:Hfp.
  cbn zeta. split; [|split].
  - rewrite lookup_insert_eq. cbn. rewrite !Z.eqb_refl. cbn.
    rewrite !list_to_set_sorted_elements. reflexivity.
  - intros st' Hne. rewrite lookup_insert_eq. cbn.
    destruct (_file_fingerprint st' p) as [size' mtime'].
    destruct (Z.eqb_spec size' size) as [->|Hs]; [|reflexivity].
    destruct (Z.eqb_spec mtime' mtime) as [->|Hm]; [|reflexivity].
    congruence.
  - intros st' q Hq. rewrite lookup_insert_ne by congruence. reflexivity.
Qed.

(** ** Keys of the rename map *)

Lemma chars_after_app (sep rest : list ascii) :
  chars_after sep (sep ++ rest) = Some rest.
Proof.
  induction sep as [|a sep IH]; simpl; [reflexivity|].
  rewrite Ascii.eqb_refl. exact IH.
Qed.

Lemma chars_after_sound (sep l rest : list ascii) :
  chars_after sep l = Some rest -> l = sep ++ rest.
Proof.
  revert l. induction sep as [|a sep IH]; intros l; simpl.
  - intros [= ->]. reflexivity.
  - destruct l as [|b l]; [discriminate|].
    destruct (Ascii.eqb a b) eqn:Hab; [|discriminate].
    apply Ascii.eqb_eq in Hab. subst b. intros H. apply IH in H. congruence.
Qed.

Lemma split_once_sound (sep l h t : list ascii) :
  split_once sep l = Some (h, t) -> l = h ++ sep ++ t.
Proof.
  revert h. induction l as [|a l IH]; intros h; simpl.
  - destruct (chars_after sep []) as [rest|] eqn:Hc; [|discriminate].
    intros [= <- <-]. apply chars_after_sound in Hc. exact Hc.
  - destruct (chars_after sep (a :: l)) as [rest|] eqn:Hc.
    + intros [= <- <-]. apply chars_after_sound in Hc. exact Hc.
    + destruct (split_once sep l) as [[h' t']|]; [|discriminate].
      intros [= <- <-]. simpl. f_equal. apply IH. reflexivity.
Qed.

Lemma split_once_bars (v rest : list ascii) :
  forallb (fun a => negb (Ascii.eqb a "|")) v = true ->
  split_once (chars "||") (v ++ chars "||" ++ rest) = Some (v, rest).
Proof.
  change (chars "||") with ["|"%char; "|"%char].
  induction v as [|a v IH]; intros Hv.
  - cbn [app]. destruct rest; cbn; reflexivity.
  - simpl in Hv. apply andb_true_iff in Hv as [Ha Hv].
    apply negb_true_iff in Ha. rewrite Ascii.eqb_sym in Ha.
    cbn [app]. cbn [split_once]. cbn [app] in IH. rewrite (IH Hv).
    cbn [chars_after]. rewrite Ha. reflexivity.
Qed.

Lemma decode_encode (k : string * string) :
  no_bar (fst k) -> decode_key (encode_key k) = Some k.
Proof.
  intros Hk. unfold decode_key, encode_key. rewrite !chars_app.
  rewrite (split_once_bars _ _ Hk), !str_of_chars. destruct k; reflexivity.
Qed.

Lemma encode_decode (key : string) (k : string * string) :
  decode_key key = Some k -> key = encode_key k.
Proof.
  unfold decode_key, encode_key.
  destruct (split_once (chars "||") (chars key)) as [[h t]|] eqn:Hs;
    [|discriminate].
  intros [= <-]. apply split_once_sound in Hs. cbn [fst snd].
  rewrite <- (str_of_chars key), Hs.
  rewrite <- (str_of_chars (_ +:+ _)), !chars_app, !chars_str_of.
  reflexivity.
Qed.

(** What [load_rename_map] reads for a pair is what the file holds at
    the key of the pair. *)
Lemma load_rename_map_lookup (raw : gmap string string) (k : string * string) :
  no_bar (fst k) ->
  load_rename_map (Some raw) !! k = raw !! encode_key k.
Proof.
  intros Hk. unfold load_rename_map.
  apply (map_fold_weak_ind
    (fun (res : gmap (string * string) string) (m : gmap string string) =>
       res !! k = m !! encode_key k)).
  - rewrite !lookup_empty. reflexivity.
  - intros key orig m res Hnone IH.
    destruct (decode_key key) as [q|] eqn:Hd.
    + apply encode_decode in Hd as Hkey.
      destruct (decide (q = k)) as [->|Hne].
      * rewrite Hkey, !lookup_insert_eq. reflexivity.
      * rewrite !lookup_insert_ne; [exact IH| |exact Hne].
        intros Heq. apply Hne.
        rewrite Heq, (decode_encode k Hk) in Hd. congruence.
    + rewrite lookup_insert_ne; [exact IH|].
      intros Heq. rewrite Heq, (decode_encode k Hk) in Hd. discriminate.
Qed.

Lemma save_fold_lookup (names : list ((string * string) * string)) :
  forall (m : gmap string string) (k : string * string),
    NoDup (map fst names) ->
    (forall k', In k' (map fst names) -> no_bar (fst k')) ->
    no_bar (fst k) ->
    fold_left (fun m kv => <[encode_key (fst kv) := snd kv]> m) names m
      !! encode_key k
    = match list_find (fun kv => fst kv = k) names with
      | Some (_, kv) => Some (snd kv)
      | None => m !! encode_key k
      end.
Proof.
  induction names as [|[k0 v0] names IH]; intros m k Hnd Hbars Hk;
    [reflexivity|].
  cbn [fold_left fst snd map] in *. inversion Hnd as [|? ? Hk0 Hnd']; subst.
  rewrite IH; [|exact Hnd'|intros k' Hk'; apply Hbars; right; exact Hk'|exact Hk].
  cbn [list_find]. destruct (decide (fst (k0, v0) = k)) as [Heq|Hne].
  - cbn [fst] in Heq. subst k0. cbn.
    destruct (list_find (fun kv => fst kv = k) names) as [[i kv]|] eqn:Hf.
    + exfalso. apply list_find_Some in Hf as (Hl & Hfst & _).
      apply Hk0. apply list_elem_of_In, in_map_iff. exists kv.
      split; [exact Hfst|]. apply list_elem_of_In.
      eapply list_elem_of_lookup_2, Hl.
    + apply lookup_insert_eq.
  - cbn [fst] in Hne.
    destruct (list_find (fun kv => fst kv = k) names) as [[i kv]|] eqn:Hf;
      cbn; [reflexivity|].
    apply lookup_insert_ne. intros Heq. apply Hne.
    assert (H0 : no_bar (fst k0)) by (apply Hbars; left; reflexivity).
    pose proof (decode_encode k0 H0) as Hd. rewrite Heq in Hd.
    rewrite (decode_encode k Hk) in Hd. congruence.
Qed.

Lemma nodup_keys_unique {K V : Type} (l : list (K * V)) (k : K) (v1 v2 : V) :
  NoDup (map fst l) -> In (k, v1) l -> In (k, v2) l -> v1 = v2.
Proof.
  induction l as [|[k0 v0] l IH]; intros Hnd H1 H2; [destruct H1|].
  cbn [map fst] in Hnd. inversion Hnd as [|? ? Hk0 Hnd']; subst.
  assert (Hfresh : forall v, ~ In (k0, v) l).
  { intros v Hv. apply Hk0. apply list_elem_of_In, in_map_iff.
    exists (k0, v). auto. }
  destruct H1 as [H1|H1], H2 as [H2|H2].
  - congruence.
  - injection H1 as -> ->. exfalso. eapply Hfresh, H2.
  - injection H2 as -> ->. exfalso. eapply Hfresh, H1.
  - apply IH; assumption.
Qed.

(** X12: the rename map is read back as it was saved, and saving never
    forgets: when no VIN holds the character [|], a pair saved is read
    back with the name saved for it, and a pair that the file held and
    that is not saved again is read back with the name it had. *)
Theorem rename_map_round_trip (file : option (gmap string string))
    (names : list ((string * string) * string)) (k : string * string) :
  NoDup (map fst names) ->
  (forall k', In k' (map fst names) -> no_bar (fst k')) ->
  no_bar (fst k) ->
  let saved := load_rename_map (save_rename_map file names true) in
  (forall orig, In (k, orig) names -> saved !! k = Some orig) /\
  (~ In k (map fst names) -> saved !! k = load_rename_map file !! k).
Proof.
  intros Hnd Hbars Hk saved. unfold saved, save_rename_map.
  rewrite (load_rename_map_lookup _ k Hk).
  rewrite (save_fold_lookup names _ k Hnd Hbars Hk). split.
  - intros orig Hin.
    destruct (list_find (fun kv => fst kv = k) names) as [[i kv]|] eqn:Hf.
    + apply list_find_Some in Hf as (Hl & Hfst & _). f_equal.
      apply list_elem_of_lookup_2 in Hl. apply list_elem_of_In in Hl.
      destruct kv as [k1 v1]. cbn in Hfst. subst k1. cbn.
      apply (nodup_keys_unique names k v1 orig Hnd); assumption.
    + exfalso. apply list_find_None in Hf. rewrite Forall_forall in Hf.
      apply (Hf (k, orig)); [|reflexivity]. apply list_elem_of_In. exact Hin.
  - intros Hnin.
    destruct (list_find (fun kv => fst kv = k) names) as [[i kv]|] eqn:Hf.
    + exfalso. apply list_find_Some in Hf as (Hl & Hfst & _). apply Hnin.
      apply in_map_iff. exists kv. split; [exact Hfst|].
      apply list_elem_of_In. eapply list_elem_of_lookup_2, Hl.
    + destruct file as [raw|]; cbn [default].
      * symmetry. apply load_rename_map_lookup, Hk.
      * rewrite lookup_empty. reflexivity.
Qed.

Lemma rename_map_round_trip_witness :
  no_bar "WVWZZZ1JZXW000001" /\
  load_rename_map
    (save_rename_map None
       [(("WVWZZZ1JZXW000001", "cc.pdf"), "Contract Cadru 2020.pdf")] true)
    !! ("WVWZZZ1JZXW000001", "cc.pdf")
  = Some "Contract Cadru 2020.pdf".
Proof.
  assert (Hk : no_bar "WVWZZZ1JZXW000001") by reflexivity.
  split; [exact Hk|].
  assert (Hnd : NoDup (map fst
            [(("WVWZZZ1JZXW000001", "cc.pdf"), "Contract Cadru 2020.pdf")]))
    by apply NoDup_singleton.
  assert (Hbars : forall k',
            In k' (map fst
              [(("WVWZZZ1JZXW000001", "cc.pdf"), "Contract Cadru 2020.pdf")])
            -> no_bar (fst k'))
    by (intros k' [<-|[]]; reflexivity).
  apply (proj1 (rename_map_round_trip None _
                  ("WVWZZZ1JZXW000001", "cc.pdf") Hnd Hbars Hk)).
  left. reflexivity.
Defined.

(** ** The gap-fill pass *)

Lemma critical_size : size _CRITICAL_CATEGORIES = 4.
Proof. reflexivity. Qed.

(** The entries of [pdf_info]: PDFs, with the VINs of their content. *)
Lemma pdf_info_step_spec cache cats info c :
  Forall (fun e => is_pdf (fst e) = true
                   /\ snd (snd e) = content_vins cache (fst e)) info ->
  Forall (fun e => is_pdf (fst e) = true
                   /\ snd (snd e) = content_vins cache (fst e))
         (pdf_info_step cache cats info c).
Proof.
  intros H. unfold pdf_info_step.
  destruct (is_copy c); cbn [negb]; [|exact H].
  destruct (dict_get (source c) info); [exact H|].
  destruct (is_pdf (source c)) eqn:Hpdf; cbn [negb]; [|exact H].
  destruct (bool_decide (default ∅ (cache !! source c) = ∅)); [exact H|].
  match goal with |- context [bool_decide (?x = ∅)] =>
    destruct (bool_decide (x = ∅)) end; [exact H|].
  apply Forall_app. split; [exact H|].
  constructor; [|constructor]. cbn. auto.
Qed.

Lemma pdf_info_spec cache cats (cs : list Change) :
  forall info,
    Forall (fun e => is_pdf (fst e) = true
                     /\ snd (snd e) = content_vins cache (fst e)) info ->
    Forall (fun e => is_pdf (fst e) = true
                     /\ snd (snd e) = content_vins cache (fst e))
           (fold_left (pdf_info_step cache cats) cs info).
Proof.
  induction cs as [|c cs IH]; intros info H; [exact H|].
  apply IH, pdf_info_step_spec, H.
Qed.

(** One VIN: every copy added fills at least one missing category. *)
Lemma gap_fill_vin_spec cache v out_part
    (info : list (string * (gset string * gset string))) :
  Forall (fun e => is_pdf (fst e) = true
                   /\ snd (snd e) = content_vins cache (fst e)) info ->
  forall missing st,
    let st' := gap_fill_vin v out_part info missing st in
    gs_filled st' <= gs_filled st + size missing /\
    warnings (gs_ledger st') = warnings (gs_ledger st) /\
    exists added,
      changes (gs_ledger st') = changes (gs_ledger st) ++ added /\
      length added + gs_filled st <= gs_filled st' /\
      Forall (gap_fill_of cache) added.
Proof.
  induction 1 as [|[src [cats cv]] info [Hpdf Hcv] _ IH]; intros missing st.
  - cbn. split; [lia|]. split; [reflexivity|]. exists [].
    rewrite app_nil_r. split; [reflexivity|]. split; [simpl; lia|constructor].
  - cbn [fst snd] in Hpdf, Hcv. cbn [gap_fill_vin].
    destruct (bool_decide (cats ∩ missing = ∅)) eqn:Hm; [apply IH|].
    destruct (bool_decide (v ∈ cv)) eqn:Hv; cbn [negb]; [|apply IH].
    destruct (bool_decide ((src, v) ∈ gs_planned st)); [apply IH|].
    apply bool_decide_eq_false in Hm. apply bool_decide_eq_true in Hv.
    set (dest := Path.join (Path.join out_part v) (Path.name src)).
    set (rsn := "Gap-fill: "
                +:+ default "" (head (sorted (elements (cats ∩ missing))))
                +:+ " from PDF content").
    set (l1 := Ledger_add (gs_ledger st) copy_file src dest rsn "" v).
    set (st1 := mkGapState l1 ({[ (src, v) ]} ∪ gs_planned st)
                           (S (gs_filled st))).
    assert (Hsize : size (missing ∖ (cats ∩ missing)) < size missing).
    { assert (Hsub : cats ∩ missing ⊆ missing) by set_solver.
      pose proof (size_difference missing (cats ∩ missing) Hsub) as Hd.
      assert (Hpos : size (cats ∩ missing) <> 0).
      { intros H0. apply size_empty_iff in H0. apply Hm.
        apply leibniz_equiv. exact H0. }
      assert (Hle : size (cats ∩ missing) <= size missing)
        by (apply subseteq_size; exact Hsub).
      lia. }
    destruct (Ledger_add_grows (gs_ledger st) copy_file src dest rsn "" v)
      as [Hw Hch]. fold l1 in Hw, Hch.
    assert (Hadd : exists one,
      changes l1 = changes (gs_ledger st) ++ one /\ length one <= 1 /\
      Forall (gap_fill_of cache) one).
    { destruct Hch as [Hch|Hch].
      - exists []. rewrite app_nil_r. split; [exact Hch|].
        split; [simpl; lia|constructor].
      - eexists. split; [exact Hch|]. split; [simpl; lia|].
        constructor; [|constructor]. unfold gap_fill_of. cbn.
        rewrite <- Hcv. auto. }
    destruct Hadd as (one & Hone & Hlen1 & Hall1).
    destruct (bool_decide (missing ∖ (cats ∩ missing) = ∅)).
    + cbn. fold l1. split; [lia|]. split; [exact Hw|].
      exists one. split; [exact Hone|]. split; [simpl; lia|exact Hall1].
    + destruct (IH (missing ∖ (cats ∩ missing)) st1)
        as (Hf & Hw' & added & Hch' & Hlen & Hall).
      cbn [gs_filled gs_ledger st1] in Hf, Hw', Hch', Hlen.
      split; [fold st1; lia|]. split; [fold st1; congruence|].
      exists (one ++ added). fold st1. rewrite Hch', Hone, <- app_assoc.
      split; [reflexivity|]. split; [rewrite length_app; lia|].
      apply Forall_app. auto.
Qed.

Lemma vins_needing_size (g : GapIndex) :
  Forall (fun vm => size (snd vm) <= 4) (vins_needing_of g).
Proof.
  unfold vins_needing_of.
  induction (gi_vin_partition g) as [|vp l IH]; [constructor|].
  cbn [omap list_omap].
  match goal with |- context [bool_decide (?x = ∅)] =>
    destruct (bool_decide (x = ∅)) end; [exact IH|].
  constructor; [|exact IH]. cbn [snd].
  rewrite <- critical_size. apply subseteq_size. set_solver.
Qed.

(** X13: the gap-fill pass adds no more than one copy for each
    critical category that a VIN lacks, so at most four copies for each
    VIN with gaps; every copy it adds is a copy of a PDF whose text
    names the VIN it goes to; it drops no entry and records no
    warning. *)
Theorem gap_fill_bounded (cache cats : gmap string (gset string))
    (ledger : Ledger) (output_root : string) :
  let result := plan_contract_gap_fill cache cats ledger output_root in
  gap_filled (snd result) <= 4 * vins_with_gaps (snd result) /\
  warnings (fst result) = warnings ledger /\
  exists added,
    changes (fst result) = changes ledger ++ added /\
    length added <= gap_filled (snd result) /\
    Forall (gap_fill_of cache) added.
Proof.
  unfold plan_contract_gap_fill.
  set (g := fold_left (gap_index_step cats output_root) (changes ledger)
                      (mkGapIndex ∅ [] ∅)).
  set (info := fold_left (pdf_info_step cache cats) (changes ledger) []).
  assert (Hinfo : Forall (fun e => is_pdf (fst e) = true
                            /\ snd (snd e) = content_vins cache (fst e)) info)
    by (apply pdf_info_spec; constructor).
  pose proof (vins_needing_size g) as Hsz.
  assert (Hfold : forall (vs : list (string * gset string)) st,
    Forall (fun vm => size (snd vm) <= 4) vs ->
    let st' :=
      fold_left
        (fun st vm =>
           match dict_get (fst vm) (gi_vin_partition g) with
           | None => st
           | Some out_part => gap_fill_vin (fst vm) out_part info (snd vm) st
           end) vs st in
    gs_filled st' <= gs_filled st + 4 * length vs /\
    warnings (gs_ledger st') = warnings (gs_ledger st) /\
    exists added,
      changes (gs_ledger st') = changes (gs_ledger st) ++ added /\
      length added + gs_filled st <= gs_filled st' /\
      Forall (gap_fill_of cache) added).
  { induction vs as [|vm vs IH]; intros st Hall.
    - cbn. split; [lia|]. split; [reflexivity|]. exists [].
      rewrite app_nil_r. split; [reflexivity|]. split; [simpl; lia|constructor].
    - inversion Hall as [|? ? Hvm Hvs]; subst. cbn [fold_left length].
      set (st1 := match dict_get (fst vm) (gi_vin_partition g) with
                  | None => st
                  | Some out_part =>
                      gap_fill_vin (fst vm) out_part info (snd vm) st
                  end).
      assert (H1 : gs_filled st1 <= gs_filled st + 4 /\
        warnings (gs_ledger st1) = warnings (gs_ledger st) /\
        exists added,
          changes (gs_ledger st1) = changes (gs_ledger st) ++ added /\
          length added + gs_filled st <= gs_filled st1 /\
          Forall (gap_fill_of cache) added).
      { unfold st1. destruct (dict_get (fst vm) (gi_vin_partition g)).
        - destruct (gap_fill_vin_spec cache (fst vm) s info Hinfo (snd vm) st)
            as (Hf & Hrest). split; [lia|exact Hrest].
        - split; [lia|]. split; [reflexivity|]. exists [].
          rewrite app_nil_r. split; [reflexivity|]. split; [simpl; lia|constructor]. }
      destruct H1 as (Hf1 & Hw1 & a1 & Hc1 & Hl1 & Ha1).
      destruct (IH st1 Hvs) as (Hf2 & Hw2 & a2 & Hc2 & Hl2 & Ha2).
      split; [lia|]. split; [congruence|].
      exists (a1 ++ a2). rewrite Hc2, Hc1, <- app_assoc.
      split; [reflexivity|]. split; [rewrite length_app; lia|].
      apply Forall_app. auto. }
  destruct (vins_needing_of g) as [|vm vs] eqn:Hvn.
  - cbn. split; [lia|]. split; [reflexivity|]. exists [].
    rewrite app_nil_r. split; [reflexivity|]. split; [simpl; lia|constructor].
  - destruct (Hfold (vm :: vs) (mkGapState ledger (gi_already_planned g) 0) Hsz)
      as (Hf & Hw & added & Hc & Hl & Ha).
    cbn [fst snd gap_filled vins_with_gaps gs_filled gs_ledger] in *.
    split; [lia|]. split; [exact Hw|]. exists added.
    split; [exact Hc|]. split; [lia|exact Ha].
Qed.

(** ** The rename pass over the whole ledger *)

Lemma renamed_from_refl (c : Change) : renamed_from c c.
Proof. destruct c. reflexivity. Qed.

Lemma renamed_from_set (d : string) (c : Change) :
  renamed_from c (set_destination d c).
Proof. destruct c. reflexivity. Qed.

Lemma renamed_from_trans (c1 c2 c3 : Change) :
  renamed_from c1 c2 -> renamed_from c2 c3 -> renamed_from c1 c3.
Proof.
  unfold renamed_from, set_destination. destruct c1, c2, c3. simpl.
  intros H1 H2. congruence.
Qed.

Lemma renames_within_refl (I : list nat) (st : RenameState) :
  renames_within I st ∅ st.
Proof.
  unfold renames_within. split; [set_solver|]. split; [reflexivity|].
  split; [reflexivity|]. split.
  - intros i c Hc. exists c. split; [exact Hc|apply renamed_from_refl].
  - rewrite size_empty. lia.
Qed.

Lemma renames_within_mono (I I' : list nat) st rm st' :
  (forall i, In i I -> In i I') ->
  renames_within I st rm st' -> renames_within I' st rm st'.
Proof.
  intros Hsub (H1 & H2 & H3 & H4 & H5). unfold renames_within.
  split; [intros i Hi; apply Hsub, H1, Hi|]. split; [exact H2|].
  split; [intros i Hi; apply H3; intros H; apply Hi, Hsub, H|].
  split; [exact H4|exact H5].
Qed.

(** Two steps over disjoint indices make one step. *)
Lemma renames_within_seq (I1 I2 : list nat) st rm1 st1 rm2 st2 :
  renames_within I1 st rm1 st1 -> renames_within I2 st1 rm2 st2 ->
  (forall i, In i I1 -> ~ In i I2) ->
  renames_within (I1 ++ I2) st (rm1 ∪ rm2) st2.
Proof.
  intros (A1 & A2 & A3 & A4 & A5) (B1 & B2 & B3 & B4 & B5) Hdis.
  unfold renames_within. split; [|split; [|split; [|split]]].
  - intros i Hi. apply in_or_app. apply elem_of_union in Hi as [Hi|Hi]; auto.
  - congruence.
  - intros i Hi. rewrite B3, A3; [reflexivity| |];
      intros H; apply Hi, in_or_app; auto.
  - intros i c Hc. destruct (A4 i c Hc) as (c1 & Hc1 & Hr1).
    destruct (B4 i c1 Hc1) as (c2 & Hc2 & Hr2).
    exists c2. split; [exact Hc2|]. eapply renamed_from_trans; eauto.
  - rewrite B5, A5, size_union; [lia|].
    intros i Hi1 Hi2. apply (Hdis i); auto.
Qed.

Lemma size_list_difference (l k : list nat) :
  NoDup l -> NoDup k -> (forall i, In i k -> In i l) ->
  size (list_to_set l ∖ list_to_set k : gset nat) = length l - length k.
Proof.
  intros Hl Hk Hsub.
  rewrite size_difference.
  - rewrite !size_list_to_set by assumption. reflexivity.
  - intros i Hi. apply elem_of_list_to_set in Hi.
    apply elem_of_list_to_set, list_elem_of_In, Hsub, list_elem_of_In, Hi.
Qed.

(** One group: [_rename_dedup_group] returns, and what it does stays
    within the indices of the group. *)
Lemma rename_dedup_group_within md5 w st indices base_name :
  NoDup indices ->
  (forall i, In i indices -> i < length (rs_changes st)) ->
  exists rm st',
    _rename_dedup_group md5 w st indices base_name = Some (rm, st') /\
    renames_within indices st rm st'.
Proof.
  intros Hnd Hrange.
  destruct (decide (indices = [])) as [->|Hne].
  { exists ∅, st. split; [reflexivity|apply renames_within_refl]. }
  set (hash := hash_at md5 w (rs_changes st)).
  set (keepers := class_firsts hash [] indices).
  destruct (class_firsts_distinct hash indices []) as [Hdist _].
  fold keepers in Hdist.
  assert (Hndk : NoDup keepers) by (eapply NoDup_fmap_1; exact Hdist).
  assert (Hsubk : forall i, In i keepers -> In i indices)
    by (intros i Hi; eapply class_firsts_subset; exact Hi).
  destruct (group_by_hash_fold hash indices [] Hnd) as (Hh & Hr & Hc & Hn).
  { intros hg []. }
  cbn zeta in Hh, Hr, Hc, Hn. simpl in Hh, Hr, Hc. fold keepers in Hh, Hr, Hc.
  rewrite (rename_dedup_group_nonempty md5 w st indices base_name Hne).
  rewrite (hash_sources_map md5 w (rs_changes st) indices Hrange).
  fold hash. unfold group_by_hash.
  set (d := fold_left _ _ []) in *.
  assert (Hrests : group_rests d = list_to_set indices ∖ list_to_set keepers).
  { rewrite Hr. unfold group_rests at 1. simpl. set_solver. }
  assert (Hsize : size (group_rests d) = rest_count d).
  { rewrite Hrests, size_list_difference by assumption.
    assert (length keepers <= length indices).
    { rewrite <- (size_list_to_set (C := gset nat) keepers) by exact Hndk.
      rewrite <- (size_list_to_set (C := gset nat) indices) by exact Hnd.
      apply subseteq_size. intros i Hi. apply elem_of_list_to_set in Hi.
      apply elem_of_list_to_set, list_elem_of_In, Hsubk, list_elem_of_In, Hi. }
    lia. }
  assert (Hrm_in : forall i, i ∈ group_rests d -> In i indices).
  { intros i Hi. rewrite Hrests in Hi. apply elem_of_difference in Hi as [Hi _].
    apply elem_of_list_to_set in Hi. apply list_elem_of_In. exact Hi. }
  assert (Hrk : forall i, In i keepers -> i < length (rs_changes st))
    by (intros i Hi; apply Hrange, Hsubk, Hi).
  destruct d as [|[h g] [|hg2 d2]] eqn:Hd.
  - exfalso. simpl in Hh. destruct indices; [congruence|].
    unfold keepers in Hh. simpl in Hh. discriminate.
  - assert (Hg : g <> []) by (apply (Hn (h, g)); left; reflexivity).
    destruct g as [|j g]; [congruence|].
    unfold group_heads in Hh. simpl in Hh.
    assert (Hj : j < length (rs_changes st))
      by (apply Hrk; rewrite <- Hh; left; reflexivity).
    destruct (lookup_lt_is_Some_2 _ _ Hj) as [cj Hcj].
    cbn [drop_rest head tail snd].
    set (st1 := mkRenameState _ _ _).
    destruct (rename_keeper_changes j (base_name +:+ ".pdf") st1 cj Hcj)
      as [Hch Hst].
    eexists. eexists. split; [reflexivity|].
    unfold renames_within. rewrite Hch, Hst. unfold st1.
    cbn [rs_changes rs_stats deduped_count renamed_count].
    assert (Hg_rests : (∅ ∪ list_to_set g : gset nat) = group_rests [(h, j :: g)]).
    { unfold group_rests. simpl. set_solver. }
    rewrite Hg_rests. split; [exact Hrm_in|].
    split; [apply length_insert|]. split; [|split].
    + intros i Hi. apply list_lookup_insert_ne. intros <-. apply Hi, Hsubk.
      rewrite <- Hh. left. reflexivity.
    + intros i c Hci. destruct (decide (i = j)) as [->|Hij].
      * rewrite list_lookup_insert_eq by exact Hj. eexists.
        split; [reflexivity|]. rewrite Hcj in Hci. injection Hci as <-.
        apply renamed_from_set.
      * rewrite list_lookup_insert_ne by congruence. exists c.
        split; [exact Hci|apply renamed_from_refl].
    + rewrite Hsize. unfold rest_count. simpl. lia.
  - destruct (number_groups_spec base_name d 0 ∅ st)
      as (remove' & st' & Hrun & Hrem' & Hkeep & Hother & Hlen & Hded & _).
    { rewrite Hd. exact Hn. }
    { rewrite Hd, Hh. exact Hndk. }
    { intros i Hi. apply Hrk. rewrite Hd, Hh in Hi. exact Hi. }
    rewrite Hd in Hrun, Hrem', Hkeep, Hother, Hded.
    exists remove', st'. split; [rewrite Hrun; reflexivity|].
    rewrite Hh in Hkeep, Hother.
    assert (Hrem'' : remove' = group_rests ((h, g) :: hg2 :: d2))
      by (rewrite Hrem'; set_solver).
    unfold renames_within. rewrite Hrem''.
    split; [exact Hrm_in|]. split; [exact Hlen|]. split; [|split].
    + intros i Hi. apply Hother. intros H. apply Hi, Hsubk, H.
    + intros i c Hci. destruct (In_dec Nat.eq_dec i keepers) as [Hin|Hnin].
      * apply list_elem_of_In, list_elem_of_lookup in Hin as [k Hk].
        rewrite (Hkeep k i c Hk Hci). eexists. split; [reflexivity|].
        apply renamed_from_set.
      * rewrite (Hother i Hnin). exists c.
        split; [exact Hci|apply renamed_from_refl].
    + rewrite Hded, Hsize. reflexivity.
Qed.

(** Grouping partitions the indices. *)
Lemma by_hash_append_concat h i d :
  concat (map snd (by_hash_append h i d)) ≡ₚ i :: concat (map snd d).
Proof.
  induction d as [|[h' g] d IH]; cbn [by_hash_append].
  - simpl. reflexivity.
  - destruct (String.eqb h' h); cbn [map snd concat].
    + rewrite <- app_assoc. symmetry. apply Permutation_middle.
    + rewrite IH. symmetry. apply Permutation_middle.
Qed.

Lemma group_by_hash_concat (l : list (nat * string)) :
  concat (map snd (group_by_hash l)) ≡ₚ map fst l.
Proof.
  unfold group_by_hash.
  assert (H : forall d,
    concat (map snd (fold_left
      (fun d ih => by_hash_append (snd ih) (fst ih) d) l d))
    ≡ₚ concat (map snd d) ++ map fst l).
  { induction l as [|[i h] l IH]; intros d; cbn [fold_left map fst snd].
    - rewrite app_nil_r. reflexivity.
    - rewrite IH, by_hash_append_concat. apply Permutation_middle. }
  rewrite H. reflexivity.
Qed.

Lemma Permutation_In_iff {A : Type} (l l' : list A) (x : A) :
  l ≡ₚ l' -> (In x l <-> In x l').
Proof.
  intros H. rewrite <- !list_elem_of_In. rewrite H. reflexivity.
Qed.

Lemma NoDup_app_parts {A : Type} (l1 l2 : list A) :
  NoDup (l1 ++ l2) ->
  NoDup l1 /\ NoDup l2 /\ forall x, In x l1 -> ~ In x l2.
Proof.
  intros H. apply NoDup_app in H as (H1 & H2 & H3).
  split; [exact H1|]. split; [exact H3|].
  intros x Hx1 Hx2. apply (H2 x); apply list_elem_of_In; assumption.
Qed.

Section RenamePassFacts.

Variable md5 : string -> string.
Variable w : World.

Lemma rename_subgroups_within (groups : list (string * list nat)) :
  forall acc,
    NoDup (concat (map snd groups)) ->
    (forall i, In i (concat (map snd groups)) ->
               i < length (rs_changes (snd acc))) ->
    exists rm st',
      rename_subgroups md5 w groups acc = Some (fst acc ∪ rm, st') /\
      renames_within (concat (map snd groups)) (snd acc) rm st'.
Proof.
  induction groups as [|[base I] groups IH]; intros [rm0 st] Hnd Hrange.
  - exists ∅, st. cbn. rewrite union_empty_r_L.
    split; [reflexivity|apply renames_within_refl].
  - cbn [map snd concat fst] in *.
    apply NoDup_app_parts in Hnd as (HndI & Hndr & Hdis).
    destruct (rename_dedup_group_within md5 w st I base HndI)
      as (rm1 & st1 & Hrun1 & Hw1).
    { intros i Hi. apply Hrange, in_or_app. auto. }
    destruct (IH (rm0 ∪ rm1, st1) Hndr) as (rm2 & st2 & Hrun2 & Hw2).
    { intros i Hi. cbn [snd]. destruct Hw1 as (_ & Hlen & _). rewrite Hlen.
      apply Hrange, in_or_app. auto. }
    exists (rm1 ∪ rm2), st2. cbn [rename_subgroups snd fst] in *.
    rewrite Hrun1, Hrun2. split; [f_equal; f_equal; set_solver|].
    eapply renames_within_seq; eauto.
Qed.

Lemma talon_civ_bases_map (cs : list Change) (indices : list nat) :
  (forall i, In i indices -> i < length cs) ->
  exists bases, talon_civ_bases cs indices = Some bases
                /\ map fst bases = indices.
Proof.
  induction indices as [|i rest IH]; intros Hr; [exists []; auto|].
  destruct IH as (bases & Hb & Hm); [intros j Hj; apply Hr; right; exact Hj|].
  destruct (lookup_lt_is_Some_2 cs i) as [c Hc]; [apply Hr; left; reflexivity|].
  eexists. cbn [talon_civ_bases]. rewrite Hc, Hb. split; [reflexivity|].
  cbn. rewrite Hm. reflexivity.
Qed.

Lemma rename_talon_civ_group_within st indices :
  NoDup indices ->
  (forall i, In i indices -> i < length (rs_changes st)) ->
  exists rm st',
    _rename_talon_civ_group md5 w st indices = Some (rm, st') /\
    renames_within indices st rm st'.
Proof.
  intros Hnd Hrange. unfold _rename_talon_civ_group.
  destruct indices as [|i0 rest] eqn:Hind.
  { exists ∅, st. split; [reflexivity|apply renames_within_refl]. }
  rewrite <- Hind in *. clear Hind.
  destruct (talon_civ_bases_map (rs_changes st) indices Hrange)
    as (bases & -> & Hm).
  pose proof (group_by_hash_concat bases) as Hperm. rewrite Hm in Hperm.
  destruct (rename_subgroups_within (group_by_hash bases) (∅, st))
    as (rm & st' & Hrun & Hw).
  { rewrite Hperm. exact Hnd. }
  { intros i Hi. apply Hrange. apply (Permutation_In_iff _ _ i Hperm), Hi. }
  exists rm, st'. cbn [fst snd] in *. rewrite Hrun.
  split; [f_equal; f_equal; set_solver|].
  eapply renames_within_mono; [|exact Hw].
  intros i Hi. apply (Permutation_In_iff _ _ i Hperm), Hi.
Qed.

Lemma dict_get_In {V : Type} (k : string) (v : V) (d : list (string * V)) :
  dict_get k d = Some v -> In (k, v) d.
Proof.
  induction d as [|[k' v'] d IH]; simpl; [discriminate|].
  destruct (String.eqb k' k) eqn:Hk.
  - apply String.eqb_eq in Hk. intros [= ->]. left. congruence.
  - intros H. right. apply IH, H.
Qed.

Lemma group_in_concat (k : string) (I : list nat)
    (d : list (string * list nat)) :
  In (k, I) d -> forall i, In i I -> In i (concat (map snd d)).
Proof.
  intros Hin i Hi. apply in_concat. exists I. split; [|exact Hi].
  apply in_map_iff. exists (k, I). auto.
Qed.

Lemma group_nodup (k : string) (I : list nat) (d : list (string * list nat)) :
  NoDup (concat (map snd d)) -> In (k, I) d -> NoDup I.
Proof.
  induction d as [|[k' I'] d IH]; intros Hnd Hin; [destruct Hin|].
  cbn [map snd concat] in Hnd. apply NoDup_app_parts in Hnd as (H1 & H2 & _).
  destruct Hin as [[= -> ->]|Hin]; [exact H1|apply IH; assumption].
Qed.

Lemma groups_disjoint (d : list (string * list nat)) k1 k2 I1 I2 :
  NoDup (concat (map snd d)) ->
  dict_get k1 d = Some I1 -> dict_get k2 d = Some I2 -> k1 <> k2 ->
  forall i, In i I1 -> ~ In i I2.
Proof.
  induction d as [|[k I] d IH]; intros Hnd H1 H2 Hne i Hi1 Hi2;
    [discriminate|].
  cbn [map snd concat] in Hnd. apply NoDup_app_parts in Hnd as (_ & Hnd' & Hdis).
  cbn [dict_get] in H1, H2.
  destruct (String.eqb k k1) eqn:E1, (String.eqb k k2) eqn:E2.
  - apply String.eqb_eq in E1, E2. congruence.
  - injection H1 as <-. apply dict_get_In in H2.
    apply (Hdis i Hi1). eapply group_in_concat; eauto.
  - injection H2 as <-. apply dict_get_In in H1.
    apply (Hdis i Hi2). eapply group_in_concat; eauto.
  - eapply IH; eauto.
Qed.

Lemma rename_categories_within (by_cat : list (string * list nat))
    (table : list (string * option string)) :
  forall acc,
    NoDup (map fst table) ->
    NoDup (concat (map snd by_cat)) ->
    (forall i, In i (concat (map snd by_cat)) ->
               i < length (rs_changes (snd acc))) ->
    exists rm st',
      rename_categories md5 w by_cat table acc = Some (fst acc ∪ rm, st') /\
      renames_within
        (concat (omap (fun cs => dict_get (fst cs) by_cat) table))
        (snd acc) rm st'.
Proof.
  induction table as [|[cat short] table IH]; intros [rm0 st] Hkeys Hnd Hrange.
  - exists ∅, st. cbn. rewrite union_empty_r_L.
    split; [reflexivity|apply renames_within_refl].
  - cbn [map fst] in Hkeys. inversion Hkeys as [|? ? Hcat Hkeys']; subst.
    cbn [rename_categories omap list_omap fst snd].
    destruct (dict_get cat by_cat) as [I|] eqn:Hget.
    2:{ apply (IH (rm0, st)); assumption. }
    pose proof (dict_get_In _ _ _ Hget) as HinI.
    assert (HndI : NoDup I) by (eapply group_nodup; eauto).
    assert (HrI : forall i, In i I -> i < length (rs_changes st)).
    { intros i Hi. apply Hrange. eapply group_in_concat; eauto. }
    assert (Hstep : exists rm1 st1,
      (if String.eqb cat "TALON / CIV"
       then _rename_talon_civ_group md5 w st I
       else _rename_dedup_group md5 w st I (default "None" short))
      = Some (rm1, st1) /\ renames_within I st rm1 st1).
    { destruct (String.eqb cat "TALON / CIV").
      - apply rename_talon_civ_group_within; assumption.
      - apply rename_dedup_group_within; assumption. }
    destruct Hstep as (rm1 & st1 & -> & Hw1).
    destruct (IH (rm0 ∪ rm1, st1) Hkeys' Hnd) as (rm2 & st2 & Hrun2 & Hw2).
    { intros i Hi. cbn [snd]. destruct Hw1 as (_ & Hlen & _). rewrite Hlen.
      apply Hrange, Hi. }
    exists (rm1 ∪ rm2), st2. cbn [fst snd concat] in *. rewrite Hrun2.
    split; [f_equal; f_equal; set_solver|].
    eapply renames_within_seq; eauto.
    intros i Hi1 Hi2. apply in_concat in Hi2 as (I2 & HI2 & Hi2).
    apply list_elem_of_In, list_elem_of_omap in HI2 as ([cat2 s2] & Hc2 & Hg2).
    cbn [fst] in Hg2.
    assert (Hne : cat <> cat2).
    { intros ->. apply Hcat. apply list_elem_of_In, in_map_iff.
      exists (cat2, s2). split; [reflexivity|apply list_elem_of_In, Hc2]. }
    exact (groups_disjoint by_cat cat cat2 I I2 Hnd Hget Hg2 Hne i Hi1 Hi2).
Qed.

Lemma categories_of_spec (cs : list Change) (indices : list nat) :
  NoDup indices -> (forall i, In i indices -> i < length cs) ->
  exists cats,
    categories_of cs indices = Some cats /\
    NoDup (map fst cats) /\ forall i, In i (map fst cats) -> In i indices.
Proof.
  induction indices as [|i rest IH]; intros Hnd Hr.
  - exists []. split; [reflexivity|]. split; [constructor|auto].
  - inversion Hnd as [|? ? Hi Hnd']; subst.
    destruct (IH Hnd') as (cats & Hc & Hndc & Hsub);
      [intros j Hj; apply Hr; right; exact Hj|].
    destruct (lookup_lt_is_Some_2 cs i) as [c Hci];
      [apply Hr; left; reflexivity|].
    cbn [categories_of]. rewrite Hci, Hc.
    destruct (categorize_file (Path.name (destination c))) as [cat|].
    + eexists. split; [reflexivity|]. cbn [map fst]. split.
      * constructor; [|exact Hndc]. intros H. apply Hi, list_elem_of_In, Hsub.
        apply list_elem_of_In, H.
      * intros j [<-|Hj]; [left; reflexivity|right; apply Hsub, Hj].
    + exists cats. split; [reflexivity|]. split; [exact Hndc|].
      intros j Hj. right. apply Hsub, Hj.
Qed.

Lemma cat_short_names_keys : NoDup (map fst _CAT_SHORT_NAMES).
Proof.
  unfold _CAT_SHORT_NAMES. cbn [map fst].
  repeat (constructor; [rewrite list_elem_of_In; cbn [In];
                        intuition discriminate|]).
  constructor.
Qed.

Lemma rename_vins_within (by_vin : list (string * list nat)) :
  forall acc,
    NoDup (concat (map snd by_vin)) ->
    (forall i, In i (concat (map snd by_vin)) ->
               i < length (rs_changes (snd acc))) ->
    exists rm st',
      rename_vins md5 w by_vin acc = Some (fst acc ∪ rm, st') /\
      renames_within (concat (map snd by_vin)) (snd acc) rm st'.
Proof.
  induction by_vin as [|[v I] by_vin IH]; intros [rm0 st] Hnd Hrange.
  - exists ∅, st. cbn. rewrite union_empty_r_L.
    split; [reflexivity|apply renames_within_refl].
  - cbn [map snd concat fst] in *.
    apply NoDup_app_parts in Hnd as (HndI & Hndr & Hdis).
    destruct (categories_of_spec (rs_changes st) I HndI)
      as (cats & Hcats & Hndc & Hsub).
    { intros i Hi. apply Hrange, in_or_app. auto. }
    pose proof (group_by_hash_concat cats) as Hperm.
    destruct (rename_categories_within (group_by_hash cats) _CAT_SHORT_NAMES
                (rm0, st) cat_short_names_keys)
      as (rm1 & st1 & Hrun1 & Hw1).
    { rewrite Hperm. exact Hndc. }
    { intros i Hi. cbn [snd]. apply Hrange, in_or_app. left. apply Hsub.
      apply (Permutation_In_iff _ _ i Hperm), Hi. }
    cbn [fst snd] in Hrun1, Hw1.
    assert (Hw1' : renames_within I st rm1 st1).
    { eapply renames_within_mono; [|exact Hw1].
      intros i Hi. apply in_concat in Hi as (I2 & HI2 & Hi).
      apply list_elem_of_In, list_elem_of_omap in HI2 as ([c2 s2] & _ & Hg2).
      apply dict_get_In in Hg2. apply Hsub.
      apply (Permutation_In_iff _ _ i Hperm).
      eapply group_in_concat; eauto. }
    destruct (IH (rm0 ∪ rm1, st1) Hndr) as (rm2 & st2 & Hrun2 & Hw2).
    { intros i Hi. cbn [snd]. destruct Hw1' as (_ & Hlen & _). rewrite Hlen.
      apply Hrange, in_or_app. auto. }
    exists (rm1 ∪ rm2), st2. cbn [rename_vins snd fst] in *.
    rewrite Hcats, Hrun1, Hrun2. split; [f_equal; f_equal; set_solver|].
    eapply renames_within_seq; eauto.
Qed.

End RenamePassFacts.

(** The indices that the rename pass works on: distinct indices of
    copies. *)
Lemma copy_indices_spec (cs : list Change) :
  let I := concat (map snd (copy_indices_by_vin cs)) in
  NoDup I /\
  forall i, In i I -> exists c, cs !! i = Some c /\ is_copy c = true.
Proof.
  unfold copy_indices_by_vin.
  set (F := fun ic : nat * Change =>
              if is_copy (snd ic) then Some (fst ic, vin (snd ic)) else None).
  set (P := imap (fun i c => (i, c)) cs).
  pose proof (group_by_hash_concat (omap F P)) as Hperm.
  assert (HP : map fst P = seq 0 (length cs)) by apply (indexed_fst cs 0).
  assert (Hgen : forall Q : list (nat * Change),
    NoDup (map fst Q) ->
    NoDup (map fst (omap F Q)) /\
    forall i, In i (map fst (omap F Q)) ->
              exists c, In (i, c) Q /\ is_copy c = true).
  { induction Q as [|[i c] Q IH]; intros Hnd.
    - split; [constructor|intros i []].
    - cbn [map fst] in Hnd. inversion Hnd as [|? ? Hi Hnd']; subst.
      destruct (IH Hnd') as [IH1 IH2].
      assert (Hcons : omap F ((i, c) :: Q)
                      = if is_copy c then (i, vin c) :: omap F Q
                        else omap F Q).
      { unfold F. cbn. destruct (is_copy c); reflexivity. }
      rewrite Hcons. destruct (is_copy c) eqn:Hc.
      + cbn [map fst]. split.
        * constructor; [|exact IH1]. intros H.
          apply list_elem_of_In, IH2 in H as (c' & Hin & _). apply Hi.
          apply list_elem_of_In, in_map_iff. exists (i, c'). auto.
        * intros j Hj. destruct Hj as [Hj | Hj];
            [subst j; exists c; split; [left; reflexivity|exact Hc]|].
          destruct (IH2 j Hj) as (c' & Hin & Hc'). exists c'.
          split; [right; exact Hin|exact Hc'].
      + split; [exact IH1|]. intros j Hj.
        destruct (IH2 j Hj) as (c' & Hin & Hc'). exists c'.
        split; [right; exact Hin|exact Hc']. }
  destruct (Hgen P) as [H1 H2]; [rewrite HP; apply NoDup_ListNoDup, seq_NoDup|].
  cbn zeta. split; [rewrite Hperm; exact H1|].
  intros i Hi. apply (Permutation_In_iff _ _ i Hperm), H2 in Hi
    as (c & Hin & Hc).
  exists c. split; [apply indexed_In, Hin|exact Hc].
Qed.

(** The index as the rename pass rebuilds it: each destination with
    the source of the last copy planned for it. *)
Lemma rebuild_planned_dests_lookup (cs : list Change) (d : string) :
  rebuild_planned_dests cs !! d = last (sources_to d cs).
Proof.
  unfold rebuild_planned_dests.
  induction cs as [|c cs IH] using rev_ind; [reflexivity|].
  rewrite fold_left_app, sources_to_snoc. cbn [fold_left].
  destruct (is_copy c) eqn:Hc; cbn [andb].
  - destruct (String.eqb (destination c) d) eqn:Hd.
    + apply String.eqb_eq in Hd. subst d. rewrite lookup_insert_eq.
      rewrite last_snoc. reflexivity.
    + apply String.eqb_neq in Hd. rewrite lookup_insert_ne by exact Hd.
      rewrite app_nil_r. exact IH.
  - rewrite app_nil_r. exact IH.
Qed.

(** X14: the rename pass over the whole ledger returns, and it
    conserves the plan: the ledger loses exactly as many entries as the
    pass counts as deduped; every entry that is left is an entry of the
    plan with, at most, another destination; the entries that are not
    copies are all left; warnings and PDF scans are as they were; and
    when entries were dropped the index again maps each destination to
    the source of the last copy planned for it. *)
Theorem plan_category_renames_conserves (md5 : string -> string) (w : World)
    (ledger : Ledger) :
  exists l' stats names,
    plan_category_renames md5 w ledger = Some (l', stats, names) /\
    length (changes l') + deduped_count stats = length (changes ledger) /\
    Forall (fun c' => exists c, In c (changes ledger) /\ renamed_from c c')
           (changes l') /\
    (forall c, In c (changes ledger) -> is_copy c = false ->
               In c (changes l')) /\
    warnings l' = warnings ledger /\ pdf_scans l' = pdf_scans ledger /\
    (deduped_count stats <> 0 ->
     forall d, _planned_dests l' !! d = last (sources_to d (changes l'))).
Proof.
  unfold plan_category_renames.
  set (cs0 := changes ledger).
  set (st0 := mkRenameState cs0 (mkStats 0 0) ∅).
  destruct (copy_indices_spec cs0) as [Hnd Hcopies]. cbn zeta in Hnd, Hcopies.
  destruct (rename_vins_within md5 w (copy_indices_by_vin cs0) (∅, st0) Hnd)
    as (rm & st & Hrun & Hin & Hlen & Hout & Hren & Hded).
  { intros i Hi. destruct (Hcopies i Hi) as (c & Hc & _).
    apply lookup_lt_Some in Hc. exact Hc. }
  cbn [fst snd rs_changes rs_stats deduped_count st0] in *.
  rewrite Hrun, union_empty_l_L.
  assert (Hrm_lt : forall i, i ∈ rm -> i < length (rs_changes st)).
  { intros i Hi. rewrite Hlen. destruct (Hcopies i (Hin i Hi)) as (c & Hc & _).
    apply lookup_lt_Some in Hc. exact Hc. }
  assert (Hsurv : forall i c', rs_changes st !! i = Some c' ->
            exists c, In c cs0 /\ renamed_from c c').
  { intros i c' Hc'. destruct (lookup_lt_is_Some_2 cs0 i) as [c Hc].
    { rewrite <- Hlen. apply lookup_lt_Some in Hc'. exact Hc'. }
    destruct (Hren i c Hc) as (c2 & Hc2 & Hr). exists c.
    split; [apply list_elem_of_In; eapply list_elem_of_lookup_2, Hc|].
    congruence. }
  assert (Hkept : forall c, In c cs0 -> is_copy c = false ->
            exists i, (i ∉ rm) /\ rs_changes st !! i = Some c).
  { intros c Hc Hnc. apply list_elem_of_In, list_elem_of_lookup in Hc as [i Hi].
    assert (Hni : ~ In i (concat (map snd (copy_indices_by_vin cs0)))).
    { intros H. destruct (Hcopies i H) as (c' & Hc' & Hcp). congruence. }
    exists i. split; [intros H; apply Hni, Hin, H|].
    rewrite (Hout i Hni). exact Hi. }
  eexists. exists (rs_stats st), (rs_original_names st).
  split; [reflexivity|].
  destruct (bool_decide (rm = ∅)) eqn:Hempty.
  - apply bool_decide_eq_true in Hempty. subst rm.
    rewrite size_empty in Hded. cbn [changes warnings pdf_scans].
    split; [lia|]. split; [|split; [|split; [reflexivity|split; [reflexivity|]]]].
    + apply Forall_forall. intros c' Hc'.
      apply list_elem_of_lookup in Hc' as [i Hi]. eapply Hsurv, Hi.
    + intros c Hc Hnc. destruct (Hkept c Hc Hnc) as (i & _ & Hi).
      apply list_elem_of_In. eapply list_elem_of_lookup_2, Hi.
    + intros H. lia.
  - cbn [changes warnings pdf_scans _planned_dests].
    pose proof (remove_indices_length rm (rs_changes st) Hrm_lt) as Hrl.
    split; [lia|]. split; [|split; [|split; [reflexivity|split; [reflexivity|]]]].
    + apply Forall_forall. intros c' Hc'.
      apply list_elem_of_In, remove_indices_In in Hc' as (i & _ & Hi).
      eapply Hsurv, Hi.
    + intros c Hc Hnc. apply remove_indices_In. apply Hkept; assumption.
    + intros _ d. apply rebuild_planned_dests_lookup.
Qed.

(** ** Planning: no file of a planned folder is left out *)

Lemma appends_to_refl (l : Ledger) : appends_to l l.
Proof. exists []. rewrite app_nil_r. reflexivity. Qed.

Lemma appends_to_trans (l1 l2 l3 : Ledger) :
  appends_to l1 l2 -> appends_to l2 l3 -> appends_to l1 l3.
Proof.
  intros [e1 H1] [e2 H2]. exists (e1 ++ e2).
  rewrite H2, H1, <- app_assoc. reflexivity.
Qed.

Lemma grows_refl (l : Ledger) : grows l l.
Proof. split; [auto|apply appends_to_refl]. Qed.

Lemma grows_trans (l1 l2 l3 : Ledger) :
  grows l1 l2 -> grows l2 l3 -> grows l1 l3.
Proof.
  intros [Hi1 Ha1] [Hi2 Ha2]. split; [auto|].
  eapply appends_to_trans; eassumption.
Qed.

Lemma grows_add (l : Ledger) act src dst rsn pf v :
  grows l (Ledger_add l act src dst rsn pf v).
Proof.
  split; [apply index_invariant_add|].
  unfold Ledger_add, appends_to. destruct act.
  - destruct (_planned_dests l !! dst) as [s|].
    + destruct (String.eqb s src).
      * exists []. rewrite app_nil_r. reflexivity.
      * eexists. reflexivity.
    + eexists. reflexivity.
  - eexists. reflexivity.
  - eexists. reflexivity.
Qed.

Lemma grows_warn (l : Ledger) (msg : string) : grows l (Ledger_warn l msg).
Proof.
  split; [intros H; exact H|]. exists []. simpl. rewrite app_nil_r. reflexivity.
Qed.

Lemma grows_log (l : Ledger) (p : string) (vs : list string) :
  grows l (Ledger_log_pdf_scan l p vs).
Proof.
  split; [intros H; exact H|]. exists []. simpl. rewrite app_nil_r. reflexivity.
Qed.

Lemma grows_fold {A : Type} (f : Ledger -> A -> Ledger) (xs : list A) :
  (forall l a, grows l (f l a)) ->
  forall l, grows l (fold_left f xs l).
Proof.
  intros Hf. induction xs as [|x xs IH]; intros l; [apply grows_refl|].
  cbn [fold_left]. eapply grows_trans; [apply Hf|apply IH].
Qed.

Lemma copy_planned_appends (l l' : Ledger) (src rel : string) :
  appends_to l l' -> copy_planned l src rel -> copy_planned l' src rel.
Proof.
  intros [ext He] (c & d & Hin & H). exists c, d.
  split; [rewrite He; apply in_or_app; left; exact Hin|exact H].
Qed.

Lemma last_sources_to_In (d s : string) (cs : list Change) :
  last (sources_to d cs) = Some s ->
  exists c, In c cs /\ is_copy c = true /\ source c = s /\ destination c = d.
Proof.
  intros H. apply last_Some_elem_of, list_elem_of_In in H.
  unfold sources_to in H. apply in_map_iff in H as (c & Hs & Hc).
  apply filter_In in Hc as [Hin Hc]. apply andb_true_iff in Hc as [Hc Hd].
  apply String.eqb_eq in Hd. exists c. auto.
Qed.

(** Once a copy was added it is planned, also when the ledger dropped
    it as planned before. *)
Lemma add_copy_planned (l : Ledger) (src d rel rsn pf v : string) :
  index_invariant l ->
  copy_planned (Ledger_add l copy_file src (Path.join d rel) rsn pf v)
               src rel.
Proof.
  intros Hinv.
  destruct (decide (_planned_dests l !! Path.join d rel = Some src))
    as [Hsame|Hdiff].
  - rewrite (proj1 (Ledger_add_copy l src _ rsn pf v) Hsame).
    rewrite (proj1 (Hinv _)) in Hsame.
    destruct (last_sources_to_In _ _ _ Hsame) as (c & Hin & Hc & Hs & Hd).
    exists c, d. auto.
  - destruct (proj2 (Ledger_add_copy l src _ rsn pf v) Hdiff) as (Hch & _).
    eexists. exists d. rewrite Hch.
    split; [apply in_or_app; right; left; reflexivity|]. auto.
Qed.

(** In a loop of planning steps, what one item's step plans is planned
    at the end. *)
Lemma fold_covers {A : Type} (f : Ledger -> A -> Ledger) (xs : list A)
    (a : A) (src rel : string) :
  (forall l x, grows l (f l x)) ->
  In a xs ->
  (forall l, index_invariant l -> copy_planned (f l a) src rel) ->
  forall l, index_invariant l -> copy_planned (fold_left f xs l) src rel.
Proof.
  intros Hf Hin Ha. induction xs as [|x xs IH]; intros l Hinv; [destruct Hin|].
  cbn [fold_left]. destruct Hin as [->|Hin].
  - eapply copy_planned_appends; [apply (grows_fold f xs Hf)|].
    apply Ha, Hinv.
  - apply IH; [exact Hin|]. apply (Hf l x), Hinv.
Qed.

Lemma sorted_entries_In (items : list DirEntry) (a : DirEntry) :
  In a (sorted_entries items) <-> In a items.
Proof.
  unfold sorted_entries. rewrite <- !list_elem_of_In.
  rewrite (merge_sort_Permutation name_le items). reflexivity.
Qed.

Section PlanningFacts.

Variable set_iter : list string -> list string.
Variable iterdir : string -> option (list DirEntry).
Variable rglob_sorted : string -> option (list DirEntry).
Variable extract_vins_from_pdf : string -> list string.

Lemma copy_dir_files_grows (src_dir dst_dir : string) (l : Ledger)
    (pf v rsn : string) :
  grows l (_copy_dir_files rglob_sorted src_dir dst_dir l pf v rsn).
Proof.
  unfold _copy_dir_files. destruct (rglob_sorted src_dir) as [items|].
  - apply grows_fold. intros l' item.
    destruct (is_file item); [apply grows_add|apply grows_refl].
  - apply grows_warn.
Qed.

(** [_copy_dir_files] plans every regular file that the walk lists. *)
Lemma copy_dir_files_covers (src_dir dst_dir : string) (l : Ledger)
    (pf v rsn : string) (sub : list DirEntry) (f : DirEntry) :
  rglob_sorted src_dir = Some sub -> In f sub -> is_file f = true ->
  index_invariant l ->
  copy_planned (_copy_dir_files rglob_sorted src_dir dst_dir l pf v rsn)
               (Path.join src_dir (entry_name f)) (entry_name f).
Proof.
  intros Hsub Hin Hf Hinv. unfold _copy_dir_files. rewrite Hsub.
  apply (fold_covers _ sub f); [| exact Hin | | exact Hinv].
  - intros l' item.
    destruct (is_file item); [apply grows_add|apply grows_refl].
  - intros l' Hinv'. rewrite Hf. apply add_copy_planned, Hinv'.
Qed.

Lemma is_dir_not_file (item : DirEntry) :
  is_dir item = true -> is_file item = false.
Proof. unfold is_dir, is_file. destruct (kind item); congruence. Qed.

Lemma is_file_not_dir (item : DirEntry) :
  is_file item = true -> is_dir item = false.
Proof. unfold is_dir, is_file. destruct (kind item); congruence. Qed.

Lemma vin_folder_step_grows folder out vin target l item :
  grows l (vin_folder_step rglob_sorted folder out vin target l item).
Proof.
  unfold vin_folder_step. destruct (is_dir item).
  - destruct (is_vin (entry_name item)); apply copy_dir_files_grows.
  - destruct (is_file item); [apply grows_add|apply grows_refl].
Qed.

Lemma plan_vin_folder_direct (folder out_partition : string)
    (items : list DirEntry) (ledger : Ledger) :
  index_invariant ledger ->
  iterdir folder = Some items ->
  let l' := plan_vin_folder iterdir rglob_sorted folder out_partition ledger in
  index_invariant l' /\ appends_to ledger l' /\
  (forall item, In item items -> is_file item = true ->
     copy_planned l' (Path.join folder (entry_name item)) (entry_name item)).
Proof.
  intros Hinv Hls l'. subst l'. unfold plan_vin_folder. rewrite Hls.
  set (vin := Path.name folder). set (target := Path.join out_partition vin).
  pose proof (grows_fold
                (vin_folder_step rglob_sorted folder out_partition vin target)
                (sorted_entries items)
                (vin_folder_step_grows folder out_partition vin target)
                ledger) as [Hi Ha].
  split; [apply Hi, Hinv|]. split; [exact Ha|].
  intros item Hin Hf.
  apply (fold_covers _ _ item);
    [apply vin_folder_step_grows|apply sorted_entries_In, Hin| |exact Hinv].
  intros l Hl. unfold vin_folder_step.
  rewrite (is_file_not_dir item Hf), Hf. apply add_copy_planned, Hl.
Qed.

(** X15: [plan_vin_folder] leaves no file of a readable VIN folder out.
    When the ledger's index is in step with its entries and the folder
    can be listed, the ledger afterwards is the ledger before with
    entries appended, its index still in step; every regular file of
    the folder has a copy planned under its own name; and so has every
    regular file below a subdirectory whose walk succeeds, under its
    path relative to the subdirectory. *)
Theorem plan_vin_folder_covers (folder out_partition : string)
    (items : list DirEntry) (ledger : Ledger) :
  index_invariant ledger ->
  iterdir folder = Some items ->
  let l' := plan_vin_folder iterdir rglob_sorted folder out_partition ledger in
  index_invariant l' /\ appends_to ledger l' /\
  (forall item, In item items -> is_file item = true ->
     copy_planned l' (Path.join folder (entry_name item)) (entry_name item)) /\
  (forall item sub f,
     In item items -> is_dir item = true ->
     rglob_sorted (Path.join folder (entry_name item)) = Some sub ->
     In f sub -> is_file f = true ->
     copy_planned l' (Path.join (Path.join folder (entry_name item))
                                (entry_name f))
                  (entry_name f)).
Proof.
  intros Hinv Hls l'.
  destruct (plan_vin_folder_direct folder out_partition items ledger Hinv Hls)
    as (Hi & Ha & Hdirect).
  fold l' in Hi, Ha, Hdirect.
  split; [exact Hi|]. split; [exact Ha|]. split; [exact Hdirect|].
  intros item sub f Hin Hd Hsub Hfin Hf.
  subst l'. unfold plan_vin_folder. rewrite Hls.
  apply (fold_covers _ _ item);
    [apply vin_folder_step_grows|apply sorted_entries_In, Hin| |exact Hinv].
  intros l Hl. unfold vin_folder_step. rewrite Hd.
  destruct (is_vin (entry_name item));
    apply (copy_dir_files_covers _ _ _ _ _ _ sub f); assumption.
Qed.

Lemma multi_car_step_grows folder name parent_vin target names l item :
  grows l (multi_car_step rglob_sorted folder name parent_vin target names
                          l item).
Proof.
  unfold multi_car_step. destruct (is_dir item).
  - destruct (mem (entry_name item) names);
      [apply grows_refl|apply copy_dir_files_grows].
  - destruct (is_file item); [apply grows_add|apply grows_refl].
Qed.

(** X16: [plan_multi_car] leaves no file of a readable container out.
    With at least one VIN subdirectory the function returns; the ledger
    afterwards is the ledger before with entries appended, its index
    still in step; every regular file of the container has a copy
    planned under its own name; and so has every regular file below a
    VIN subdirectory or below any other subdirectory of the container
    whose walk succeeds, under its path relative to that subdirectory. *)
Theorem plan_multi_car_covers (folder out_partition : string)
    (vin_subdirs : list string) (items : list DirEntry) (ledger : Ledger) :
  vin_subdirs <> [] ->
  index_invariant ledger ->
  iterdir folder = Some items ->
  exists l',
    plan_multi_car set_iter iterdir rglob_sorted folder vin_subdirs
                   out_partition ledger = Some l' /\
    index_invariant l' /\ appends_to ledger l' /\
    (forall item, In item items -> is_file item = true ->
       copy_planned l' (Path.join folder (entry_name item))
                    (entry_name item)) /\
    (forall d sub f,
       In d vin_subdirs \/
       (exists item, In item items /\ is_dir item = true /\
                     entry_name item = d) ->
       rglob_sorted (Path.join folder d) = Some sub ->
       In f sub -> is_file f = true ->
       copy_planned l' (Path.join (Path.join folder d) (entry_name f))
                    (entry_name f)).
Proof.
  intros Hne Hinv Hls. unfold plan_multi_car.
  assert (Hpar : exists p,
            multi_car_parent set_iter (iterdir folder) vin_subdirs = Some p).
  { unfold multi_car_parent.
    destruct (get_parent_vin set_iter (iterdir folder)) as [p|];
      [destruct (String.eqb p "")|]; eauto using sorted_head_some. }
  destruct Hpar as [parent_vin ->]. rewrite Hls.
  set (name := Path.name folder).
  set (target := Path.join out_partition parent_vin).
  set (first := fun (l : Ledger) (vd : string) =>
         _copy_dir_files rglob_sorted (Path.join folder vd)
                         (Path.join out_partition vd) l name vd
                         "Copy sub-VIN to output").
  set (l1 := fold_left first vin_subdirs ledger).
  assert (Hfirst : forall l vd, grows l (first l vd))
    by (intros l vd; apply copy_dir_files_grows).
  pose proof (grows_fold first vin_subdirs Hfirst ledger) as [Hi1 Ha1].
  fold l1 in Hi1, Ha1. specialize (Hi1 Hinv).
  pose proof (grows_fold
                (multi_car_step rglob_sorted folder name parent_vin target
                                vin_subdirs)
                (sorted_entries items)
                (multi_car_step_grows folder name parent_vin target
                                      vin_subdirs)
                l1) as [Hi2 Ha2].
  eexists. split; [reflexivity|].
  split; [apply Hi2, Hi1|].
  split; [eapply appends_to_trans; eassumption|]. split.
  - intros item Hin Hf.
    apply (fold_covers _ _ item);
      [apply multi_car_step_grows|apply sorted_entries_In, Hin| |exact Hi1].
    intros l Hl. unfold multi_car_step.
    rewrite (is_file_not_dir item Hf), Hf. apply add_copy_planned, Hl.
  - intros d sub f Hd Hsub Hfin Hf.
    assert (Hvd : In d vin_subdirs -> copy_planned l1
              (Path.join (Path.join folder d) (entry_name f)) (entry_name f)).
    { intros Hin. apply (fold_covers first vin_subdirs d);
        [exact Hfirst|exact Hin| |exact Hinv].
      intros l Hl. apply (copy_dir_files_covers _ _ _ _ _ _ sub f);
        assumption. }
    destruct (mem d vin_subdirs) eqn:Hm.
    + apply (copy_planned_appends l1); [exact Ha2|].
      apply Hvd, mem_true, Hm.
    + destruct Hd as [Hd|(item & Hin & Hdir & <-)];
        [apply mem_true in Hd; congruence|].
      apply (fold_covers _ _ item);
        [apply multi_car_step_grows|apply sorted_entries_In, Hin| |exact Hi1].
      intros l Hl. unfold multi_car_step. rewrite Hdir, Hm.
      apply (copy_dir_files_covers _ _ _ _ _ _ sub f); assumption.
Qed.

Lemma is_empty_true {A : Type} (l : list A) : is_empty l = true <-> l = [].
Proof. destruct l; simpl; split; congruence. Qed.

Lemma is_empty_false {A : Type} (l : list A) : is_empty l = false <-> l <> [].
Proof. destruct l; simpl; split; congruence. Qed.

Lemma dict_set_not_nil {V : Type} (k : string) (v : V)
    (d : list (string * V)) : dict_set k v d <> [].
Proof.
  destruct d as [|[k' v'] d]; simpl; [discriminate|].
  destruct (String.eqb k' k); discriminate.
Qed.

(** The first loop of [plan_flat]: a VIN of a file name is also a VIN
    for the election, and a regular file leaves an entry in
    [file_fn_vins]. *)
Lemma flat_scan_election (scan_pdf : bool) (pdf_vins : string -> list string)
    (items : list DirEntry) :
  let s := flat_scan set_iter scan_pdf pdf_vins items in
  all_fn_vins s <> [] -> all_vins_for_election s <> [].
Proof.
  unfold flat_scan.
  assert (H : forall s0,
            (all_fn_vins s0 <> [] -> all_vins_for_election s0 <> []) ->
            let s := fold_left (flat_scan_step set_iter scan_pdf pdf_vins)
                               items s0 in
            all_fn_vins s <> [] -> all_vins_for_election s <> []).
  { induction items as [|x items IH]; intros s0 H0; [exact H0|].
    cbn [fold_left]. apply IH. unfold flat_scan_step.
    destruct (is_file x); [|exact H0]. cbn [negb all_fn_vins
      all_vins_for_election].
    destruct (set_iter (extract_all_vins (entry_name x))) as [|v vs].
    - rewrite !app_nil_r. intros Hne. specialize (H0 Hne).
      destruct (scan_pdf && is_pdf (entry_name x)); [|exact H0].
      destruct (all_vins_for_election s0); [congruence|discriminate].
    - intros _. intros Heq. apply app_eq_nil in Heq as [_ Heq].
      discriminate. }
  apply H. simpl. congruence.
Qed.

Lemma flat_scan_files (scan_pdf : bool) (pdf_vins : string -> list string)
    (items : list DirEntry) (item : DirEntry) :
  In item items -> is_file item = true ->
  file_fn_vins (flat_scan set_iter scan_pdf pdf_vins items) <> [].
Proof.
  unfold flat_scan. generalize (mkFlatScan [] [] []).
  assert (Hkeep : forall xs s0, file_fn_vins s0 <> [] ->
            file_fn_vins (fold_left (flat_scan_step set_iter scan_pdf pdf_vins)
                                    xs s0) <> []).
  { induction xs as [|x xs IH]; intros s0 H0; [exact H0|].
    cbn [fold_left]. apply IH. unfold flat_scan_step.
    destruct (is_file x); [|exact H0]. apply dict_set_not_nil. }
  induction items as [|x items IH]; intros s0 Hin Hf; [destruct Hin|].
  cbn [fold_left]. destruct Hin as [->|Hin].
  - apply Hkeep. unfold flat_scan_step. rewrite Hf. apply dict_set_not_nil.
  - apply IH; assumption.
Qed.

Lemma flat_log_step_grows scan_pdf folder l item :
  grows l (flat_log_step extract_vins_from_pdf scan_pdf folder l item).
Proof.
  unfold flat_log_step.
  destruct (is_file item && (scan_pdf && is_pdf (entry_name item)));
    [|apply grows_refl].
  destruct (is_empty _); [apply grows_refl|apply grows_log].
Qed.

Lemma no_vin_step_grows folder name target l item :
  grows l (no_vin_step rglob_sorted folder name target l item).
Proof.
  unfold no_vin_step. destruct (is_dir item); [apply copy_dir_files_grows|].
  destruct (is_file item); [apply grows_add|apply grows_refl].
Qed.

Lemma keeper_step_grows folder out name keeper target copied_out l item :
  grows l (keeper_step rglob_sorted folder out name keeper target copied_out
                       l item).
Proof.
  unfold keeper_step. destruct (is_dir item).
  - destruct (is_vin (entry_name item)); apply copy_dir_files_grows.
  - destruct (is_file item); [|apply grows_refl].
    destruct (mem (entry_name item) copied_out);
      [apply grows_refl|apply grows_add].
Qed.

(** The loop over the files that name other VINs: every file it records
    in [copied_out] has a copy planned. *)
Lemma filename_vin_fold folder out name keeper ffv (items : list DirEntry) :
  forall acc,
    index_invariant (fst acc) ->
    (forall fn, In fn (snd acc) ->
       copy_planned (fst acc) (Path.join folder fn) fn) ->
    let acc' :=
      fold_left (filename_vin_step folder out name keeper ffv) items acc in
    index_invariant (fst acc') /\ appends_to (fst acc) (fst acc') /\
    (forall fn, In fn (snd acc') ->
       copy_planned (fst acc') (Path.join folder fn) fn).
Proof.
  induction items as [|x items IH]; intros acc Hinv Hout.
  - cbn. split; [exact Hinv|]. split; [apply appends_to_refl|exact Hout].
  - cbn [fold_left].
    assert (Hstep :
      let a := filename_vin_step folder out name keeper ffv acc x in
      index_invariant (fst a) /\ appends_to (fst acc) (fst a) /\
      (forall fn, In fn (snd a) ->
         copy_planned (fst a) (Path.join folder fn) fn)).
    { unfold filename_vin_step.
      set (fn := entry_name x).
      set (fvins := default [] (dict_get fn ffv)).
      set (add_for := fun (l : Ledger) (v : string) =>
             Ledger_add l copy_file (Path.join folder fn)
                        (Path.join (Path.join out v) fn)
                        "Filename VIN match" name v).
      assert (Hadd : forall l v, grows l (add_for l v))
        by (intros l v; apply grows_add).
      assert (Hsame : index_invariant (fst acc) /\
                appends_to (fst acc) (fst acc) /\
                (forall fn0, In fn0 (snd acc) ->
                   copy_planned (fst acc) (Path.join folder fn0) fn0))
        by (split; [exact Hinv|split; [apply appends_to_refl|exact Hout]]).
      destruct (negb (is_file x)); [exact Hsame|].
      destruct (is_empty fvins || set_eqb fvins [keeper]); [exact Hsame|].
      destruct (negb (mem keeper fvins)).
      - destruct (sorted fvins) as [|primary rest]; [exact Hsame|].
        cbn [fst snd].
        pose proof (Hadd (fst acc) primary) as [Hi1 Ha1].
        pose proof (grows_fold add_for (sorted (set_remove primary fvins))
                               Hadd (add_for (fst acc) primary)) as [Hi2 Ha2].
        split; [apply Hi2, Hi1, Hinv|].
        split; [eapply appends_to_trans; eassumption|].
        intros fn0 Hin. apply in_app_or in Hin as [Hin|[<-|[]]].
        + apply (copy_planned_appends (fst acc));
            [eapply appends_to_trans; [exact Ha1|exact Ha2]|apply Hout, Hin].
        + eapply copy_planned_appends; [exact Ha2|].
          apply add_copy_planned, Hinv.
      - cbn [fst snd].
        pose proof (grows_fold add_for (sorted (set_remove keeper fvins))
                               Hadd (fst acc)) as [Hi2 Ha2].
        split; [apply Hi2, Hinv|]. split; [exact Ha2|].
        intros fn0 Hin. eapply copy_planned_appends; [exact Ha2|].
        apply Hout, Hin. }
    cbn zeta in Hstep. destruct Hstep as (Hi & Ha & Ho).
    destruct (IH _ Hi Ho) as (Hi' & Ha' & Ho').
    split; [exact Hi'|]. split; [eapply appends_to_trans; eassumption|].
    exact Ho'.
Qed.

(** An election among at least one VIN elects a keeper. *)
Lemma elect_keeper_some listing (s : FlatScan) (election : list string) :
  iterates_elements set_iter -> election <> [] ->
  exists k, elect_keeper set_iter listing s election = Some k.
Proof.
  intros Hset Hne. unfold elect_keeper.
  assert (Hby : exists k,
    (if negb (is_empty (vin_counts_of (file_fn_vins s)))
     then max_count_vin (vin_counts_of (file_fn_vins s))
     else if negb (is_empty election) then head (set_iter election)
          else None) = Some k).
  { destruct (vin_counts_of (file_fn_vins s)) as [|kv d] eqn:Hvc.
    - cbn [is_empty negb]. destruct election as [|v vs]; [congruence|].
      cbn [is_empty negb].
      destruct (set_iter (v :: vs)) as [|x xs] eqn:Hs; [|eauto].
      assert (Hin : In v (set_iter (v :: vs)))
        by (apply Hset; left; reflexivity).
      rewrite Hs in Hin. destruct Hin.
    - cbn [is_empty negb]. unfold max_count_vin.
      apply py_max_by_some. discriminate. }
  destruct (get_parent_vin set_iter listing) as [p|]; [|exact Hby].
  destruct (negb (String.eqb p "") && mem p _); [eauto|exact Hby].
Qed.

(** [plan_flat] from the election on. *)
Lemma plan_flat_keeper_covers (folder out : string) (items : list DirEntry)
    (s : FlatScan) (election : list string) (l0 : Ledger) :
  iterates_elements set_iter -> election <> [] -> index_invariant l0 ->
  let l' := plan_flat_keeper set_iter iterdir rglob_sorted folder out items
                             s election l0 in
  index_invariant l' /\ appends_to l0 l' /\
  (forall item, In item items -> is_file item = true ->
     copy_planned l' (Path.join folder (entry_name item))
                  (entry_name item)) /\
  (forall item sub f,
     In item items -> is_dir item = true ->
     rglob_sorted (Path.join folder (entry_name item)) = Some sub ->
     In f sub -> is_file f = true ->
     copy_planned l' (Path.join (Path.join folder (entry_name item))
                                (entry_name f))
                  (entry_name f)).
Proof.
  intros Hset Hne Hinv. unfold plan_flat_keeper.
  destruct (elect_keeper_some (iterdir folder) s election Hset Hne)
    as [keeper ->].
  set (name := Path.name folder). set (target := Path.join out keeper).
  set (acc :=
    if negb (is_empty (set_remove keeper (all_fn_vins s))) then
      fold_left (filename_vin_step folder out name keeper (file_fn_vins s))
                items (l0, [])
    else (l0, [])).
  assert (Hacc : index_invariant (fst acc) /\ appends_to l0 (fst acc) /\
            (forall fn, In fn (snd acc) ->
               copy_planned (fst acc) (Path.join folder fn) fn)).
  { unfold acc. destruct (negb (is_empty _)).
    - apply (filename_vin_fold folder out name keeper (file_fn_vins s) items
                               (l0, [])); [exact Hinv|intros fn []].
    - split; [exact Hinv|]. split; [apply appends_to_refl|intros fn []]. }
  destruct acc as [l1 copied_out]. cbn [fst snd] in Hacc.
  destruct Hacc as (Hi1 & Ha1 & Hout). cbn zeta.
  pose proof (grows_fold
                (keeper_step rglob_sorted folder out name keeper target
                             copied_out)
                (sorted_entries items)
                (keeper_step_grows folder out name keeper target copied_out)
                l1) as [Hi2 Ha2].
  split; [apply Hi2, Hi1|].
  split; [eapply appends_to_trans; eassumption|]. split.
  - intros item Hin Hf. destruct (mem (entry_name item) copied_out) eqn:Hm.
    + eapply copy_planned_appends; [exact Ha2|]. apply Hout, mem_true, Hm.
    + apply (fold_covers _ _ item);
        [apply keeper_step_grows|apply sorted_entries_In, Hin| |exact Hi1].
      intros l Hl. unfold keeper_step.
      rewrite (is_file_not_dir item Hf), Hf, Hm. apply add_copy_planned, Hl.
  - intros item sub f Hin Hd Hsub Hfin Hf.
    apply (fold_covers _ _ item);
      [apply keeper_step_grows|apply sorted_entries_In, Hin| |exact Hi1].
    intros l Hl. unfold keeper_step. rewrite Hd.
    destruct (is_vin (entry_name item));
      apply (copy_dir_files_covers _ _ _ _ _ _ sub f); assumption.
Qed.

(** X17: [plan_flat] leaves no regular file of a readable flat folder
    out.  When sets iterate over their elements, the index is in step
    with the entries and the folder can be listed, the ledger afterwards
    is the ledger before with entries appended, its index still in step,
    and every regular file of the folder has a copy planned under its
    own name.  When the folder holds at least one regular file, every
    regular file below a subdirectory whose walk succeeds has a copy
    planned too, under its path relative to the subdirectory. *)
Theorem plan_flat_covers (folder out_partition : string) (scan_pdf : bool)
    (items : list DirEntry) (ledger : Ledger) :
  iterates_elements set_iter ->
  index_invariant ledger ->
  iterdir folder = Some items ->
  let l' := plan_flat set_iter iterdir rglob_sorted extract_vins_from_pdf
                      folder out_partition ledger scan_pdf in
  index_invariant l' /\ appends_to ledger l' /\
  (forall item, In item items -> is_file item = true ->
     copy_planned l' (Path.join folder (entry_name item))
                  (entry_name item)) /\
  ((exists item, In item items /\ is_file item = true) ->
   forall item sub f,
     In item items -> is_dir item = true ->
     rglob_sorted (Path.join folder (entry_name item)) = Some sub ->
     In f sub -> is_file f = true ->
     copy_planned l' (Path.join (Path.join folder (entry_name item))
                                (entry_name f))
                  (entry_name f)).
Proof.
  intros Hset Hinv Hls. unfold plan_flat. rewrite Hls.
  set (name := Path.name folder).
  set (s := flat_scan set_iter scan_pdf
              (fun fn => extract_vins_from_pdf (Path.join folder fn)) items).
  set (l0 := fold_left (flat_log_step extract_vins_from_pdf scan_pdf folder)
                       items ledger).
  pose proof (grows_fold (flat_log_step extract_vins_from_pdf scan_pdf folder)
                         items (flat_log_step_grows scan_pdf folder) ledger)
    as [Hi0 Ha0].
  fold l0 in Hi0, Ha0. specialize (Hi0 Hinv).
  assert (Hkeeper : forall election, election <> [] ->
    let l' := plan_flat_keeper set_iter iterdir rglob_sorted folder
                               out_partition items s election l0 in
    index_invariant l' /\ appends_to ledger l' /\
    (forall item, In item items -> is_file item = true ->
       copy_planned l' (Path.join folder (entry_name item))
                    (entry_name item)) /\
    ((exists item, In item items /\ is_file item = true) ->
     forall item sub f,
       In item items -> is_dir item = true ->
       rglob_sorted (Path.join folder (entry_name item)) = Some sub ->
       In f sub -> is_file f = true ->
       copy_planned l' (Path.join (Path.join folder (entry_name item))
                                  (entry_name f))
                    (entry_name f))).
  { intros election Hne.
    destruct (plan_flat_keeper_covers folder out_partition items s election
                                      l0 Hset Hne Hi0) as (H1 & H2 & H3 & H4).
    cbn zeta. split; [exact H1|].
    split; [eapply appends_to_trans; eassumption|].
    split; [exact H3|]. intros _. exact H4. }
  destruct (is_empty (all_fn_vins s) && is_empty (all_vins_for_election s))
    eqn:Hboth.
  - destruct (set_iter (extract_all_vins name)) as [|fv fvs] eqn:Hfv.
    + cbn [is_empty negb].
      destruct (file_fn_vins s) as [|e ffv] eqn:Hffv.
      * cbn [is_empty negb]. cbn zeta.
        assert (Hnofile : forall item, In item items ->
                  is_file item = true -> False).
        { intros item Hin Hf.
          apply (flat_scan_files scan_pdf
                   (fun fn => extract_vins_from_pdf (Path.join folder fn))
                   items item Hin Hf).
          exact Hffv. }
        split; [exact Hi0|]. split; [exact Ha0|]. split.
        -- intros item Hin Hf. destruct (Hnofile item Hin Hf).
        -- intros (item & Hin & Hf). destruct (Hnofile item Hin Hf).
      * cbn [is_empty negb]. cbn zeta.
        set (target := Path.join (Path.join out_partition "_NO_VIN") name).
        pose proof (grows_fold (no_vin_step rglob_sorted folder name target)
                               (sorted_entries items)
                               (no_vin_step_grows folder name target) l0)
          as [Hi2 Ha2].
        split; [apply Hi2, Hi0|].
        split; [eapply appends_to_trans; eassumption|]. split.
        -- intros item Hin Hf.
           apply (copy_planned_appends
                    (fold_left (no_vin_step rglob_sorted folder name target)
                               (sorted_entries items) l0));
             [exists []; simpl; rewrite app_nil_r; reflexivity|].
           apply (fold_covers _ _ item);
             [apply no_vin_step_grows|apply sorted_entries_In, Hin|
              |exact Hi0].
           intros l Hl. unfold no_vin_step.
           rewrite (is_file_not_dir item Hf), Hf. apply add_copy_planned, Hl.
        -- intros _ item sub f Hin Hd Hsub Hfin Hf.
           apply (copy_planned_appends
                    (fold_left (no_vin_step rglob_sorted folder name target)
                               (sorted_entries items) l0));
             [exists []; simpl; rewrite app_nil_r; reflexivity|].
           apply (fold_covers _ _ item);
             [apply no_vin_step_grows|apply sorted_entries_In, Hin|
              |exact Hi0].
           intros l Hl. unfold no_vin_step. rewrite Hd.
           apply (copy_dir_files_covers _ _ _ _ _ _ sub f); assumption.
    + cbn [is_empty negb]. apply Hkeeper.
      intros Heq. apply app_eq_nil in Heq as [_ Heq]. discriminate.
  - apply Hkeeper. apply andb_false_iff in Hboth as [Hb|Hb].
    + apply is_empty_false in Hb.
      apply (flat_scan_election scan_pdf
               (fun fn => extract_vins_from_pdf (Path.join folder fn))
               items), Hb.
    + apply is_empty_false, Hb.
Qed.

Lemma plan_multi_car_direct (folder out_partition : string)
    (vin_subdirs : list string) (items : list DirEntry) (ledger : Ledger) :
  vin_subdirs <> [] ->
  index_invariant ledger ->
  iterdir folder = Some items ->
  exists l',
    plan_multi_car set_iter iterdir rglob_sorted folder vin_subdirs
                   out_partition ledger = Some l' /\
    index_invariant l' /\ appends_to ledger l' /\
    (forall item, In item items -> is_file item = true ->
       copy_planned l' (Path.join folder (entry_name item))
                    (entry_name item)).
Proof.
  intros Hne Hinv Hls. unfold plan_multi_car.
  assert (Hpar : exists p,
            multi_car_parent set_iter (iterdir folder) vin_subdirs = Some p).
  { unfold multi_car_parent.
    destruct (get_parent_vin set_iter (iterdir folder)) as [p|];
      [destruct (String.eqb p "")|]; eauto using sorted_head_some. }
  destruct Hpar as [parent_vin ->]. rewrite Hls.
  set (name := Path.name folder).
  set (target := Path.join out_partition parent_vin).
  set (first := fun (l : Ledger) (vd : string) =>
         _copy_dir_files rglob_sorted (Path.join folder vd)
                         (Path.join out_partition vd) l name vd
                         "Copy sub-VIN to output").
  assert (Hfirst : forall l vd, grows l (first l vd))
    by (intros l vd; apply copy_dir_files_grows).
  pose proof (grows_fold first vin_subdirs Hfirst ledger) as [Hi1 Ha1].
  specialize (Hi1 Hinv).
  pose proof (grows_fold
                (multi_car_step rglob_sorted folder name parent_vin target
                                vin_subdirs)
                (sorted_entries items)
                (multi_car_step_grows folder name parent_vin target
                                      vin_subdirs)
                (fold_left first vin_subdirs ledger)) as [Hi2 Ha2].
  eexists. split; [reflexivity|].
  split; [apply Hi2, Hi1|].
  split; [eapply appends_to_trans; [exact Ha1|exact Ha2]|].
  intros item Hin Hf.
  apply (fold_covers _ _ item);
    [apply multi_car_step_grows|apply sorted_entries_In, Hin| |exact Hi1].
  intros l Hl. unfold multi_car_step.
  rewrite (is_file_not_dir item Hf), Hf. apply add_copy_planned, Hl.
Qed.

Lemma plan_flat_direct (folder out_partition : string) (scan_pdf : bool)
    (items : list DirEntry) (ledger : Ledger) :
  iterates_elements set_iter ->
  index_invariant ledger ->
  iterdir folder = Some items ->
  let l' := plan_flat set_iter iterdir rglob_sorted extract_vins_from_pdf
                      folder out_partition ledger scan_pdf in
  index_invariant l' /\ appends_to ledger l' /\
  (forall item, In item items -> is_file item = true ->
     copy_planned l' (Path.join folder (entry_name item))
                  (entry_name item)).
Proof.
  intros Hset Hinv Hls. unfold plan_flat. rewrite Hls.
  set (name := Path.name folder).
  set (s := flat_scan set_iter scan_pdf
              (fun fn => extract_vins_from_pdf (Path.join folder fn)) items).
  set (l0 := fold_left (flat_log_step extract_vins_from_pdf scan_pdf folder)
                       items ledger).
  pose proof (grows_fold (flat_log_step extract_vins_from_pdf scan_pdf folder)
                         items (flat_log_step_grows scan_pdf folder) ledger)
    as [Hi0 Ha0].
  fold l0 in Hi0, Ha0. specialize (Hi0 Hinv).
  assert (Hkeeper : forall election, election <> [] ->
    let l' := plan_flat_keeper set_iter iterdir rglob_sorted folder
                               out_partition items s election l0 in
    index_invariant l' /\ appends_to ledger l' /\
    (forall item, In item items -> is_file item = true ->
       copy_planned l' (Path.join folder (entry_name item))
                    (entry_name item))).
  { intros election Hne.
    destruct (plan_flat_keeper_covers folder out_partition items s election
                                      l0 Hset Hne Hi0) as (H1 & H2 & H3 & _).
    cbn zeta. split; [exact H1|].
    split; [eapply appends_to_trans; [exact Ha0|exact H2]|exact H3]. }
  destruct (is_empty (all_fn_vins s) && is_empty (all_vins_for_election s))
    eqn:Hboth.
  - destruct (set_iter (extract_all_vins name)) as [|fv fvs] eqn:Hfv.
    + cbn [is_empty negb].
      destruct (file_fn_vins s) as [|e ffv] eqn:Hffv.
      * cbn [is_empty negb]. cbn zeta.
        split; [exact Hi0|]. split; [exact Ha0|].
        intros item Hin Hf. exfalso.
        apply (flat_scan_files scan_pdf
                 (fun fn => extract_vins_from_pdf (Path.join folder fn))
                 items item Hin Hf).
        exact Hffv.
      * cbn [is_empty negb]. cbn zeta.
        set (target := Path.join (Path.join out_partition "_NO_VIN") name).
        pose proof (grows_fold (no_vin_step rglob_sorted folder name target)
                               (sorted_entries items)
                               (no_vin_step_grows folder name target) l0)
          as [Hi2 Ha2].
        split; [apply Hi2, Hi0|].
        split; [eapply appends_to_trans; [exact Ha0|exact Ha2]|].
        intros item Hin Hf.
        apply (copy_planned_appends
                 (fold_left (no_vin_step rglob_sorted folder name target)
                            (sorted_entries items) l0));
          [exists []; simpl; rewrite app_nil_r; reflexivity|].
        apply (fold_covers _ _ item);
          [apply no_vin_step_grows|apply sorted_entries_In, Hin|
           |exact Hi0].
        intros l Hl. unfold no_vin_step.
        rewrite (is_file_not_dir item Hf), Hf. apply add_copy_planned, Hl.
    + cbn [is_empty negb]. apply Hkeeper.
      intros Heq. apply app_eq_nil in Heq as [_ Heq]. discriminate.
  - apply Hkeeper. apply andb_false_iff in Hboth as [Hb|Hb].
    + apply is_empty_false in Hb.
      apply (flat_scan_election scan_pdf
               (fun fn => extract_vins_from_pdf (Path.join folder fn))
               items), Hb.
    + apply is_empty_false, Hb.
Qed.

(** X18: a flat folder that holds no regular file of its own and has no
    VIN in its name gets no copy planned, whatever its subdirectories
    hold: [plan_flat] only adds the warning that the folder is empty. *)
Theorem plan_flat_without_files (folder out_partition : string)
    (scan_pdf : bool) (items : list DirEntry) (ledger : Ledger) :
  iterdir folder = Some items ->
  (forall item, In item items -> is_file item = false) ->
  set_iter (extract_all_vins (Path.name folder)) = [] ->
  plan_flat set_iter iterdir rglob_sorted extract_vins_from_pdf
            folder out_partition ledger scan_pdf
  = Ledger_warn ledger
      ("No VINs in '" +:+ Path.name folder +:+ "' (empty folder)").
Proof.
  intros Hls Hnf Hname. unfold plan_flat. rewrite Hls, Hname.
  assert (Hscan : forall s0,
    fold_left (flat_scan_step set_iter scan_pdf
                 (fun fn => extract_vins_from_pdf (Path.join folder fn)))
              items s0 = s0).
  { revert Hnf. clear. induction items as [|x items IH]; intros Hnf s0;
      [reflexivity|].
    cbn [fold_left]. unfold flat_scan_step at 2.
    rewrite (Hnf x (or_introl eq_refl)). cbn [negb].
    apply IH. intros item Hin. apply Hnf. right. exact Hin. }
  assert (Hlog : forall l0,
    fold_left (flat_log_step extract_vins_from_pdf scan_pdf folder) items l0
    = l0).
  { revert Hnf. clear. induction items as [|x items IH]; intros Hnf l0;
      [reflexivity|].
    cbn [fold_left]. unfold flat_log_step at 2.
    rewrite (Hnf x (or_introl eq_refl)). cbn [andb].
    apply IH. intros item Hin. apply Hnf. right. exact Hin. }
  unfold flat_scan. rewrite Hscan, Hlog. reflexivity.
Qed.

Lemma existsb_false_In {A : Type} (p : A -> bool) (l : list A) (a : A) :
  existsb p l = false -> In a l -> p a = false.
Proof.
  intros H Hin. destruct (p a) eqn:Hp; [|reflexivity].
  assert (existsb p l = true) by (apply existsb_exists; eauto). congruence.
Qed.

(** One round of the main loop of [scan_and_plan]. *)
Lemma scan_step_covers (output_root : string) (scan_pdf : bool)
    (l : Ledger) (stats : PlanStats) (cdir pname : string) :
  iterates_elements set_iter -> index_invariant l ->
  exists l' stats',
    scan_step set_iter iterdir rglob_sorted extract_vins_from_pdf output_root
              scan_pdf (Some (l, stats)) (cdir, pname) = Some (l', stats') /\
    index_invariant l' /\ appends_to l l' /\
    stats_total stats' <= S (stats_total stats) /\
    forall items item,
      iterdir cdir = Some items -> In item items -> is_file item = true ->
      copy_planned l' (Path.join cdir (entry_name item)) (entry_name item).
Proof.
  intros Hset Hinv. unfold scan_step.
  set (out := Path.join output_root (merge_partition_name pname)).
  destruct (is_vin (Path.name cdir)).
  - eexists. eexists. split; [reflexivity|].
    destruct (iterdir cdir) as [items|] eqn:Hls.
    + destruct (plan_vin_folder_direct cdir out items l Hinv Hls)
        as (Hi & Ha & Hd).
      split; [exact Hi|]. split; [exact Ha|].
      split; [unfold stats_total; simpl; lia|].
      intros items' item [= <-]. apply Hd.
    + unfold plan_vin_folder. rewrite Hls.
      split; [exact Hinv|].
      split; [exists []; simpl; rewrite app_nil_r; reflexivity|].
      split; [unfold stats_total; simpl; lia|]. intros items item [=].
  - destruct (iterdir cdir) as [subs|] eqn:Hls.
    + set (vin_subdirs :=
        map entry_name
            (List.filter (fun sub => is_dir sub && is_vin (entry_name sub))
                         subs)).
      destruct (is_empty vin_subdirs && negb (existsb is_file subs)
                && negb (existsb (fun sub => is_dir sub
                                   && negb (is_vin (entry_name sub))) subs))
        eqn:Hnone.
      * exists l, stats. split; [reflexivity|]. split; [exact Hinv|].
        split; [apply appends_to_refl|]. split; [lia|].
        intros items item [= <-] Hin Hf.
        apply andb_true_iff in Hnone as [Hnone _].
        apply andb_true_iff in Hnone as [_ Hnone].
        apply negb_true_iff in Hnone.
        rewrite (existsb_false_In is_file subs item Hnone Hin) in Hf.
        discriminate.
      * destruct (is_empty vin_subdirs) eqn:Hvs; cbn [negb].
        -- eexists. eexists. split; [reflexivity|].
           destruct (plan_flat_direct cdir out scan_pdf subs l Hset Hinv Hls)
             as (Hi & Ha & Hd).
           split; [exact Hi|]. split; [exact Ha|].
           split; [unfold stats_total; simpl; lia|].
           intros items' item [= <-]. apply Hd.
        -- apply is_empty_false in Hvs.
           destruct (plan_multi_car_direct cdir out vin_subdirs subs l
                                           Hvs Hinv Hls)
             as (l' & -> & Hi & Ha & Hd).
           eexists. eexists. split; [reflexivity|].
           split; [exact Hi|]. split; [exact Ha|].
           split; [unfold stats_total; simpl; lia|].
           intros items' item [= <-]. apply Hd.
    + eexists. eexists. split; [reflexivity|]. split; [exact Hinv|].
      split; [exists []; simpl; rewrite app_nil_r; reflexivity|].
      split; [unfold stats_total; simpl; lia|]. intros items item [=].
Qed.

Lemma scan_fold_covers (output_root : string) (scan_pdf : bool)
    (entries : list (string * string)) :
  iterates_elements set_iter ->
  forall l stats,
    index_invariant l ->
    exists l' stats',
      fold_left (scan_step set_iter iterdir rglob_sorted extract_vins_from_pdf
                           output_root scan_pdf)
                entries (Some (l, stats)) = Some (l', stats') /\
      index_invariant l' /\ appends_to l l' /\
      stats_total stats' <= stats_total stats + length entries /\
      forall cdir pname items item,
        In (cdir, pname) entries ->
        iterdir cdir = Some items -> In item items -> is_file item = true ->
        copy_planned l' (Path.join cdir (entry_name item)) (entry_name item).
Proof.
  intros Hset. induction entries as [|[cdir pname] entries IH];
    intros l stats Hinv.
  - exists l, stats. split; [reflexivity|]. split; [exact Hinv|].
    split; [apply appends_to_refl|]. split; [simpl; lia|].
    intros ? ? ? ? [].
  - cbn [fold_left].
    destruct (scan_step_covers output_root scan_pdf l stats cdir pname
                               Hset Hinv)
      as (l1 & st1 & -> & Hi1 & Ha1 & Hs1 & Hc1).
    destruct (IH l1 st1 Hi1) as (l2 & st2 & Hrun & Hi2 & Ha2 & Hs2 & Hc2).
    exists l2, st2. split; [exact Hrun|]. split; [exact Hi2|].
    split; [eapply appends_to_trans; [exact Ha1|exact Ha2]|].
    split; [cbn [length]; lia|].
    intros cdir' pname' items item [Heq|Hin] Hls Hitem Hf.
    + injection Heq as <- <-.
      eapply copy_planned_appends; [exact Ha2|]. eapply Hc1; eassumption.
    + eapply Hc2; eassumption.
Qed.

(** X19: [scan_and_plan] leaves no regular file of a container folder
    out.  When sets iterate over their elements, the index is in step
    with the entries and the root can be listed, the function returns;
    the ledger afterwards is the ledger before with entries appended,
    its index still in step; the four counters together count at most
    one per container folder; and for every selected partition that can
    be listed, every directory in it that can be listed, and every
    regular file in that directory, a copy of the file is planned under
    its own name. *)
Theorem scan_and_plan_covers (root output_root : string) (scan_pdf : bool)
    (range_start range_end : nat) (listing : list DirEntry)
    (ledger : Ledger) :
  iterates_elements set_iter ->
  index_invariant ledger ->
  iterdir root = Some listing ->
  exists l' stats,
    scan_and_plan set_iter iterdir rglob_sorted extract_vins_from_pdf
                  root output_root ledger scan_pdf range_start range_end
    = Some (l', stats) /\
    index_invariant l' /\ appends_to ledger l' /\
    stats_total stats
    <= length (flat_map (partition_folders iterdir root)
                        (_get_partition_dirs listing range_start range_end)) /\
    forall part cdirs cdir items item,
      In part (_get_partition_dirs listing range_start range_end) ->
      iterdir (Path.join root (entry_name part)) = Some cdirs ->
      In cdir cdirs -> is_dir cdir = true ->
      iterdir (Path.join (Path.join root (entry_name part))
                         (entry_name cdir)) = Some items ->
      In item items -> is_file item = true ->
      copy_planned l'
        (Path.join (Path.join (Path.join root (entry_name part))
                              (entry_name cdir))
                   (entry_name item))
        (entry_name item).
Proof.
  intros Hset Hinv Hroot. unfold scan_and_plan. rewrite Hroot.
  set (all_folders :=
    flat_map (partition_folders iterdir root)
             (_get_partition_dirs listing range_start range_end)).
  destruct (scan_fold_covers output_root scan_pdf all_folders Hset ledger
                             (mkPlanStats 0 0 0 0) Hinv)
    as (l' & stats & Hrun & Hi & Ha & Hs & Hc).
  exists l', stats. split; [exact Hrun|]. split; [exact Hi|].
  split; [exact Ha|]. split; [exact Hs|].
  intros part cdirs cdir items item Hpart Hcdirs Hcdir Hdir Hitems Hitem Hf.
  apply (Hc _ (entry_name part) items item); [|exact Hitems|exact Hitem|exact Hf].
  unfold all_folders. apply in_flat_map. exists part. split; [exact Hpart|].
  unfold partition_folders. rewrite Hcdirs. apply in_map_iff.
  exists cdir. split; [reflexivity|]. apply filter_In.
  split; [apply sorted_entries_In, Hcdir|exact Hdir].
Qed.

End PlanningFacts.

Lemma index_invariant_init : index_invariant Ledger_init.
Proof. intros d. simpl. split; [apply lookup_empty|exact I]. Qed.

Lemma plan_vin_folder_covers_witness :
  index_invariant Ledger_init /\
  copy_planned
    (plan_vin_folder example_tree example_walk
       "/SIN/Sindicalizare 1 - Part 1/WVWZZZ1JZXW000001" "/OUT/Sindicalizare 1"
       Ledger_init)
    "/SIN/Sindicalizare 1 - Part 1/WVWZZZ1JZXW000001/acte/2020/cc.pdf"
    "2020/cc.pdf".
Proof.
  split; [exact index_invariant_init|].
  destruct (plan_vin_folder_covers example_tree example_walk
              "/SIN/Sindicalizare 1 - Part 1/WVWZZZ1JZXW000001"
              "/OUT/Sindicalizare 1"
              [mkEntry "talon.pdf" RegularFile; mkEntry "acte" Directory]
              Ledger_init index_invariant_init eq_refl)
    as (_ & _ & _ & Hnested).
  apply (Hnested (mkEntry "acte" Directory)
                 [mkEntry "2020" Directory; mkEntry "2020/cc.pdf" RegularFile]
                 (mkEntry "2020/cc.pdf" RegularFile));
    [right; left; reflexivity|reflexivity|reflexivity
     |right; left; reflexivity|reflexivity].
Defined.

Lemma plan_multi_car_covers_witness :
  ["WVWZZZ1JZXW000003"] <> [] /\
  exists l',
    plan_multi_car insertion_order example_tree example_walk
      "/SIN/Sindicalizare 1 - Part 1/FLEET" ["WVWZZZ1JZXW000003"]
      "/OUT/Sindicalizare 1" Ledger_init = Some l' /\
    copy_planned l' "/SIN/Sindicalizare 1 - Part 1/FLEET/contract.pdf"
                 "contract.pdf".
Proof.
  assert (Hne : ["WVWZZZ1JZXW000003"] <> []) by discriminate.
  split; [exact Hne|].
  destruct (plan_multi_car_covers insertion_order example_tree example_walk
              "/SIN/Sindicalizare 1 - Part 1/FLEET" "/OUT/Sindicalizare 1"
              ["WVWZZZ1JZXW000003"]
              [mkEntry "WVWZZZ1JZXW000003" Directory;
               mkEntry "contract.pdf" RegularFile]
              Ledger_init Hne index_invariant_init eq_refl)
    as (l' & Hrun & _ & _ & Hdirect & _).
  exists l'. split; [exact Hrun|].
  apply (Hdirect (mkEntry "contract.pdf" RegularFile));
    [right; left; reflexivity|reflexivity].
Defined.

Lemma plan_flat_covers_witness :
  iterates_elements insertion_order /\
  copy_planned
    (plan_flat insertion_order example_tree example_walk no_pdf_vins
       "/SIN/Sindicalizare 1 - Part 1/CLIENT" "/OUT/Sindicalizare 1"
       Ledger_init false)
    "/SIN/Sindicalizare 1 - Part 1/CLIENT/factura WVWZZZ1JZXW000002.pdf"
    "factura WVWZZZ1JZXW000002.pdf".
Proof.
  split; [exact insertion_order_iterates|].
  destruct (plan_flat_covers insertion_order example_tree example_walk
              no_pdf_vins
              "/SIN/Sindicalizare 1 - Part 1/CLIENT" "/OUT/Sindicalizare 1"
              false
              [mkEntry "factura WVWZZZ1JZXW000002.pdf" RegularFile;
               mkEntry "acte" Directory]
              Ledger_init insertion_order_iterates index_invariant_init
              eq_refl)
    as (_ & _ & Hdirect & _).
  apply (Hdirect (mkEntry "factura WVWZZZ1JZXW000002.pdf" RegularFile));
    [left; reflexivity|reflexivity].
Defined.

Lemma plan_flat_without_files_witness :
  example_walk "/SIN/Sindicalizare 1 - Part 1/ARCHIVE/acte"
  = Some [mkEntry "vechi.pdf" RegularFile] /\
  changes (plan_flat insertion_order example_tree example_walk no_pdf_vins
             "/SIN/Sindicalizare 1 - Part 1/ARCHIVE" "/OUT/Sindicalizare 1"
             Ledger_init false) = [].
Proof.
  split; [reflexivity|].
  rewrite (plan_flat_without_files insertion_order example_tree example_walk
             no_pdf_vins
             "/SIN/Sindicalizare 1 - Part 1/ARCHIVE" "/OUT/Sindicalizare 1"
             false [mkEntry "acte" Directory] Ledger_init eq_refl).
  - reflexivity.
  - intros item [<-|[]]. reflexivity.
  - vm_compute. reflexivity.
Defined.

Lemma scan_and_plan_covers_witness :
  iterates_elements insertion_order /\
  exists l' stats,
    scan_and_plan insertion_order example_tree example_walk no_pdf_vins
                  "/SIN" "/OUT" Ledger_init false 0 0 = Some (l', stats) /\
    copy_planned l' "/SIN/Sindicalizare 1 - Part 1/FLEET/contract.pdf"
                 "contract.pdf".
Proof.
  split; [exact insertion_order_iterates|].
  destruct (scan_and_plan_covers insertion_order example_tree example_walk
              no_pdf_vins "/SIN" "/OUT" false 0 0
              [mkEntry "Sindicalizare 1 - Part 1" Directory]
              Ledger_init insertion_order_iterates index_invariant_init
              eq_refl)
    as (l' & stats & Hrun & _ & _ & _ & Hcov).
  exists l', stats. split; [exact Hrun|].
  apply (Hcov (mkEntry "Sindicalizare 1 - Part 1" Directory)
              [mkEntry "WVWZZZ1JZXW000001" Directory;
               mkEntry "FLEET" Directory;
               mkEntry "CLIENT" Directory;
               mkEntry "ARCHIVE" Directory]
              (mkEntry "FLEET" Directory)
              [mkEntry "WVWZZZ1JZXW000003" Directory;
               mkEntry "contract.pdf" RegularFile]
              (mkEntry "contract.pdf" RegularFile));
    [vm_compute; left; reflexivity|reflexivity|right; left; reflexivity
     |reflexivity|reflexivity|right; left; reflexivity|reflexivity].
Defined.

(** ** The parent VIN and [extract_vin_from_filename] *)

Lemma extract_vin_from_filename_pools (fn : string) :
  extract_vin_from_filename fn
  = match fl_of fn with
    | Some v => Some v
    | None =>
        match seriec_of fn with
        | Some v => Some v
        | None => prefix_of fn
        end
    end.
Proof.
  unfold extract_vin_from_filename, seriec_of, prefix_of, fl_of.
  destruct (match_group1 FL_PATTERN fn); [reflexivity|].
  destruct (match_group1 SERIEC_PATTERN fn); reflexivity.
Qed.

Lemma omap_nil_None {A B : Type} (f : A -> option B) (l : list A) (a : A) :
  omap f l = [] -> In a l -> f a = None.
Proof.
  intros Hnil Hin. destruct (f a) as [b|] eqn:Hf; [|reflexivity].
  assert (Hb : b ∈ omap f l).
  { apply list_elem_of_omap. exists a. split; [apply list_elem_of_In, Hin|].
    exact Hf. }
  rewrite Hnil in Hb. apply elem_of_nil in Hb. destruct Hb.
Qed.

Lemma pdf_names_In (items : list DirEntry) (fn : string) :
  In fn (pdf_names items) <->
  exists item, In item items /\ is_file item = true /\
               is_pdf (entry_name item) = true /\ entry_name item = fn.
Proof.
  unfold pdf_names. rewrite in_map_iff. split.
  - intros (item & <- & Hin). apply filter_In in Hin as [Hin Hb].
    apply andb_true_iff in Hb as [Hf Hp]. exists item. auto.
  - intros (item & Hin & Hf & Hp & <-). exists item.
    split; [reflexivity|]. apply filter_In. split; [exact Hin|].
    rewrite Hf, Hp. reflexivity.
Qed.

(** X20: [get_parent_vin] and [extract_vin_from_filename] read the same
    VINs.  When sets iterate over their elements, the parent VIN of a
    folder is a VIN that [extract_vin_from_filename] reads off the name
    of one of the folder's PDF files, and the folder has no parent VIN
    exactly when [extract_vin_from_filename] reads no VIN off any of
    these names. *)
Theorem get_parent_vin_reads_file_names
    (set_iter : list string -> list string) (items : list DirEntry) :
  iterates_elements set_iter ->
  match get_parent_vin set_iter (Some items) with
  | Some v =>
      exists item,
        In item items /\ is_file item = true /\
        is_pdf (entry_name item) = true /\
        extract_vin_from_filename (entry_name item) = Some v
  | None =>
      forall item,
        In item items -> is_file item = true ->
        is_pdf (entry_name item) = true ->
        extract_vin_from_filename (entry_name item) = None
  end.
Proof.
  intros Hset. rewrite get_parent_vin_first_pool, pools_of_spec.
  unfold first_pool. cbn [fl_vins seriec_vins other_vins].
  set (names := pdf_names items).
  assert (Hsome : forall (f : string -> option string) pool,
    pool = omap f names -> pool <> [] ->
    (forall fn v, f fn = Some v -> extract_vin_from_filename fn = Some v) ->
    match mode_of set_iter pool with
    | Some v =>
        exists item,
          In item items /\ is_file item = true /\
          is_pdf (entry_name item) = true /\
          extract_vin_from_filename (entry_name item) = Some v
    | None =>
        forall item,
          In item items -> is_file item = true ->
          is_pdf (entry_name item) = true ->
          extract_vin_from_filename (entry_name item) = None
    end).
  { intros f pool Hpool Hne Hf.
    destruct (mode_of_spec set_iter pool Hset Hne) as (m & -> & Hin & _).
    rewrite Hpool in Hin.
    apply list_elem_of_In, list_elem_of_omap in Hin as (fn & Hfn & Hm).
    apply list_elem_of_In, pdf_names_In in Hfn
      as (item & Hitem & Hfile & Hpdf & <-).
    exists item. auto. }
  destruct (omap fl_of names) as [|v1 p1] eqn:Hfl.
  - destruct (omap seriec_of names) as [|v2 p2] eqn:Hse.
    + destruct (omap prefix_of names) as [|v3 p3] eqn:Hpr.
      * intros item Hin Hfile Hpdf.
        assert (Hn : In (entry_name item) names)
          by (apply pdf_names_In; exists item; auto).
        rewrite extract_vin_from_filename_pools.
        rewrite (omap_nil_None fl_of names _ Hfl Hn).
        rewrite (omap_nil_None seriec_of names _ Hse Hn).
        apply (omap_nil_None prefix_of names _ Hpr Hn).
      * apply (Hsome prefix_of); [symmetry; exact Hpr|discriminate|].
        intros fn v Hv. rewrite extract_vin_from_filename_pools.
        assert (Hnone : fl_of fn = None /\
                        match_group1 SERIEC_PATTERN fn = None).
        { unfold prefix_of in Hv. destruct (fl_of fn); [discriminate|].
          destruct (match_group1 SERIEC_PATTERN fn); [discriminate|].
          split; reflexivity. }
        destruct Hnone as [E1 E2]. unfold seriec_of. rewrite E1, E2.
        exact Hv.
    + apply (Hsome seriec_of); [symmetry; exact Hse|discriminate|].
      intros fn v Hv. rewrite extract_vin_from_filename_pools.
      unfold seriec_of in Hv |- *. destruct (fl_of fn); [discriminate|].
      rewrite Hv. reflexivity.
  - apply (Hsome fl_of); [symmetry; exact Hfl|discriminate|].
    intros fn v Hv. rewrite extract_vin_from_filename_pools, Hv. reflexivity.
Qed.

Lemma get_parent_vin_reads_file_names_witness :
  iterates_elements insertion_order /\
  exists item,
    In item [mkEntry "seriec_FORD111111111111A_doc.pdf" RegularFile;
             mkEntry "note.txt" RegularFile] /\
    extract_vin_from_filename (entry_name item) = Some "FORD111111111111A".
Proof.
  split; [exact insertion_order_iterates|].
  pose proof (get_parent_vin_reads_file_names insertion_order
                [mkEntry "seriec_FORD111111111111A_doc.pdf" RegularFile;
                 mkEntry "note.txt" RegularFile]
                insertion_order_iterates) as H.
  vm_compute get_parent_vin in H.
  destruct H as (item & Hin & _ & _ & Hv). exists item. auto.
Defined.

(** ** Partition ranges *)

Lemma slice_compose {A : Type} (l : list A) (i j k : nat) :
  i <= j -> j <= k ->
  drop i (take j l) ++ drop j (take k l) = drop i (take k l).
Proof.
  intros Hij Hjk.
  assert (Htake : take j l = take j (take k l))
    by (rewrite take_take; f_equal; lia).
  rewrite Htake. set (t := take k l).
  rewrite <- (take_drop j t) at 3. rewrite drop_app, length_take.
  f_equal. destruct (decide (j <= length t)) as [Hle|Hgt].
  - replace (i - j `min` length t) with 0 by lia. reflexivity.
  - rewrite !drop_ge by lia. rewrite drop_nil. reflexivity.
Qed.

(** X21: consecutive ranges split the partitions without loss and
    without overlap.  For [1 <= a <= b + 1], the partitions of the range
    from [a] to [b] followed by those of the range from [b + 1] to [c]
    are the partitions of the range from [a] to [c]; [c] is at least [b],
    or 0 for a range that runs to the last partition. *)
Theorem partition_ranges_compose (listing : list DirEntry) (a b c : nat) :
  1 <= a -> a <= S b -> 1 <= b -> c = 0 \/ b <= c ->
  _get_partition_dirs listing a b ++ _get_partition_dirs listing (S b) c
  = _get_partition_dirs listing a c.
Proof.
  intros Ha Hab Hb Hc. unfold _get_partition_dirs.
  set (all_parts := List.filter _ (sorted_entries listing)).
  destruct a as [|a]; [lia|]. destruct b as [|b]; [lia|].
  cbn [Nat.eqb]. replace (S a - 1) with a by lia.
  replace (S (S b) - 1) with (S b) by lia.
  destruct c as [|c].
  - cbn [Nat.eqb]. rewrite (firstn_all all_parts).
    destruct (decide (S b <= length all_parts)) as [Hle|Hgt].
    + rewrite <- (firstn_all all_parts) at 2 3.
      apply slice_compose; lia.
    + rewrite (take_ge all_parts (S b)) by lia.
      rewrite (drop_ge all_parts (S b)) by lia. apply app_nil_r.
  - destruct Hc as [Hc|Hc]; [discriminate|]. cbn [Nat.eqb].
    apply slice_compose; lia.
Qed.

Lemma partition_ranges_compose_witness :
  _get_partition_dirs
    [mkEntry "Sindicalizare 2" Directory; mkEntry "Sindicalizare 1" Directory;
     mkEntry "notes.txt" RegularFile; mkEntry "SINICALIZARE 3" Directory]
    1 0
  = [mkEntry "SINICALIZARE 3" Directory; mkEntry "Sindicalizare 1" Directory;
     mkEntry "Sindicalizare 2" Directory].
Proof.
  rewrite <- (partition_ranges_compose
                [mkEntry "Sindicalizare 2" Directory;
                 mkEntry "Sindicalizare 1" Directory;
                 mkEntry "notes.txt" RegularFile;
                 mkEntry "SINICALIZARE 3" Directory]
                1 2 0);
    [vm_compute; reflexivity|lia|lia|lia|left; reflexivity].
Defined.

(** ** Placing a rescued file: nothing is overwritten *)

Lemma to_uint_not_nil (n : nat) : Nat.to_uint n <> Decimal.Nil.
Proof.
  rewrite <- (Unsigned.of_to n), Unsigned.to_of.
  apply DecimalFacts.unorm_nonnil.
Qed.

Lemma str_nat_inj (i j : nat) : str_nat i = str_nat j -> i = j.
Proof.
  unfold str_nat. intros H. apply (f_equal NilZero.uint_of_string) in H.
  rewrite !NilZero.usu in H by apply to_uint_not_nil.
  injection H as H. apply Unsigned.to_uint_inj, H.
Qed.

Lemma chars_inj (a b : string) : chars a = chars b -> a = b.
Proof. intros H. rewrite <- (str_of_chars a), <- (str_of_chars b), H. reflexivity. Qed.

Lemma append_inj_l (a b c : string) : a +:+ b = a +:+ c -> b = c.
Proof.
  intros H. apply (f_equal chars) in H. rewrite !chars_app in H.
  apply app_inv_head in H. apply chars_inj, H.
Qed.

Lemma append_inj_r (a b c : string) : a +:+ c = b +:+ c -> a = b.
Proof.
  intros H. apply (f_equal chars) in H. rewrite !chars_app in H.
  apply app_inv_tail in H. apply chars_inj, H.
Qed.

Lemma join_inj (d a b : string) : Path.join d a = Path.join d b -> a = b.
Proof.
  unfold Path.join. destruct (String.eqb d "."); [auto|].
  destruct (String.eqb d "/"); intros H.
  - apply append_inj_l in H. exact H.
  - apply append_inj_l, append_inj_l in H. exact H.
Qed.

(** The numbered names of one file are all different. *)
Lemma candidate_inj (parent stem suffix : string) (i j : nat) :
  candidate parent stem suffix i = candidate parent stem suffix j -> i = j.
Proof.
  unfold candidate. intros H.
  apply join_inj, append_inj_l, append_inj_l, append_inj_r in H.
  apply str_nat_inj, H.
Qed.

(** Among more numbered names than there are files, one is free. *)
Lemma free_candidate (w : World) (parent stem suffix : string) :
  exists i,
    1 <= i < 1 + S (size (files w)) /\
    _exists w (candidate parent stem suffix i) = false.
Proof.
  set (n := size (files w)).
  set (cand := candidate parent stem suffix).
  destruct (forallb (fun i => _exists w (cand i)) (seq 1 (S n))) eqn:Hall.
  - exfalso. rewrite forallb_forall in Hall.
    set (L := map cand (seq 1 (S n))).
    assert (Hnd : NoDup L).
    { apply NoDup_fmap_2; [|apply NoDup_ListNoDup, seq_NoDup].
      intros i j. apply candidate_inj. }
    assert (Hsub : (list_to_set L : gset string) ⊆ dom (files w)).
    { intros p Hp. apply elem_of_list_to_set, list_elem_of_In in Hp.
      apply in_map_iff in Hp as (i & <- & Hi). specialize (Hall i Hi).
      unfold _exists in Hall. apply bool_decide_eq_true in Hall.
      apply elem_of_dom, Hall. }
    apply subseteq_size in Hsub.
    rewrite size_list_to_set in Hsub by exact Hnd.
    rewrite size_dom in Hsub. unfold L in Hsub.
    rewrite length_map, length_seq in Hsub. fold n in Hsub. lia.
  - assert (Hex : existsb (fun i => negb (_exists w (cand i))) (seq 1 (S n))
                  = true).
    { clear -Hall. induction (seq 1 (S n)) as [|x l IH]; [discriminate|].
      cbn in Hall |- *. destruct (_exists w (cand x)); cbn in *; auto. }
    apply existsb_exists in Hex as (i & Hi & Hf). apply in_seq in Hi.
    exists i. split; [lia|]. apply negb_true_iff, Hf.
Qed.

(** The loop ends at the first free counter when there is one within
    its rounds. *)
Lemma first_free_spec (w : World) (parent stem suffix : string) (fuel : nat) :
  forall counter,
    (exists i, counter <= i < counter + fuel /\
               _exists w (candidate parent stem suffix i) = false) ->
    exists k,
      first_free w parent stem suffix counter fuel = Some k /\
      counter <= k /\
      _exists w (candidate parent stem suffix k) = false /\
      forall i, counter <= i < k ->
                _exists w (candidate parent stem suffix i) = true.
Proof.
  induction fuel as [|fuel IH]; intros counter (i & Hi & Hfree); [lia|].
  cbn [first_free].
  destruct (_exists w (candidate parent stem suffix counter)) eqn:Hc.
  - destruct (IH (S counter)) as (k & Hk & Hle & Hkf & Hbelow).
    { exists i. split; [|exact Hfree].
      destruct (decide (i = counter)) as [->|Hne]; [congruence|lia]. }
    exists k. split; [exact Hk|]. split; [lia|]. split; [exact Hkf|].
    intros j Hj. destruct (decide (j = counter)) as [->|Hne]; [exact Hc|].
    apply Hbelow. lia.
  - exists counter. split; [reflexivity|]. split; [lia|].
    split; [exact Hc|]. intros j Hj. lia.
Qed.

Lemma os_unlink_files (p : string) (w : World) :
  let '(out, w') := os_unlink p w in
  match out with
  | Ok _ => files w' = delete p (files w)
  | Raise _ => files w' = files w
  end.
Proof.
  unfold os_unlink. destruct (next_io (faults w)) as [[e|] rest]; cbn;
    [reflexivity|]. destruct (files w !! p); reflexivity.
Qed.

Lemma os_rename_files (src dst : string) (w : World) :
  let '(out, w') := os_rename src dst w in
  match out with
  | Ok _ =>
      exists data,
        files w !! src = Some data /\
        files w' = <[dst := data]> (delete src (files w))
  | Raise _ => files w' = files w
  end.
Proof.
  unfold os_rename. destruct (next_io (faults w)) as [[e|] rest]; cbn;
    [reflexivity|]. destruct (files w !! src) as [data|]; cbn; eauto.
Qed.

Lemma copy2_files (src dst : string) (w : World) :
  let '(out, w') := shutil_copy2 src dst w in
  match out with
  | Ok _ =>
      exists data,
        files w !! src = Some data /\ files w' = <[dst := data]> (files w)
  | Raise _ => exists lft, files w' = leave dst (files w) lft
  end.
Proof.
  unfold shutil_copy2.
  destruct (next_copy (faults w)) as [[[e lft]|] rest]; cbn.
  - exists lft. reflexivity.
  - destruct (files w !! src) as [data|]; cbn; [eauto|].
    exists None. reflexivity.
Qed.

(** A move to a free path: the file is moved; or the move raises, with
    every file where it was and nothing new but at the path. *)
Lemma shutil_move_files (src dst : string) (w : World) :
  files w !! dst = None ->
  let '(out, w') := shutil_move src dst w in
  match out with
  | Ok _ =>
      exists data,
        files w !! src = Some data /\
        files w' = <[dst := data]> (delete src (files w))
  | Raise _ =>
      (forall p data, files w !! p = Some data ->
                      files w' !! p = Some data) /\
      (forall p, p <> dst -> files w' !! p = files w !! p)
  end.
Proof.
  intros Hd. unfold shutil_move, xtry.
  pose proof (os_rename_files src dst w) as Hr.
  destruct (os_rename src dst w) as [[[]|e] w1]; [exact Hr|].
  unfold xbind. pose proof (copy2_files src dst w1) as Hc.
  destruct (shutil_copy2 src dst w1) as [[[]|e1] w2].
  - destruct Hc as (data & Hsrc & Hfl). rewrite Hr in Hsrc, Hfl.
    assert (Hne : src <> dst) by congruence.
    pose proof (os_unlink_files src w2) as Hu.
    destruct (os_unlink src w2) as [[[]|e2] w3].
    + exists data. split; [exact Hsrc|].
      rewrite Hu, Hfl. apply delete_insert_ne. exact Hne.
    + rewrite Hu, Hfl. split.
      * intros p pd Hp. rewrite lookup_insert_ne by congruence. exact Hp.
      * intros p Hp. apply lookup_insert_ne. congruence.
  - destruct Hc as (lft & Hfl). rewrite Hr in Hfl. rewrite Hfl.
    destruct lft as [bytes|]; cbn [leave]; [|auto]. split.
    + intros p pd Hp. rewrite lookup_insert_ne by congruence. exact Hp.
    + intros p Hp. apply lookup_insert_ne. congruence.
Qed.

Section PlaceFacts.

Variable md5 : string -> string.

(** The function once the folder is made. *)
Lemma place_at (src dst : string) (w : World) :
  let '(out, w') :=
    (if _exists w dst then
       if _files_identical md5 w src dst then
         (perform xtry (os_unlink src) (fun _ => xret tt) ;
          xret (Some dst)) w
       else
         match first_free w (Path.parent dst) (Path.stem dst)
                          (Path.suffix dst) 1 (S (size (files w))) with
         | None => (Ok None, w)
         | Some counter =>
             (perform shutil_move src
                (candidate (Path.parent dst) (Path.stem dst)
                           (Path.suffix dst) counter) ;
              xret (Some (candidate (Path.parent dst) (Path.stem dst)
                                    (Path.suffix dst) counter))) w
         end
     else (perform shutil_move src dst ; xret (Some dst)) w) in
  (forall p data, p <> src -> files w !! p = Some data ->
                  files w' !! p = Some data) /\
  match out with
  | Ok (Some dst) =>
      (_files_identical md5 w src dst = true /\
       (files w' = files w \/ files w' = delete src (files w))) \/
      (files w !! dst = None /\
       exists data,
         files w !! src = Some data /\
         files w' = <[dst := data]> (delete src (files w)))
  | Ok None => False
  | Raise _ =>
      (forall p data, files w !! p = Some data ->
                      files w' !! p = Some data) /\
      exists d, forall p, p <> d -> files w' !! p = files w !! p
  end.
Proof.
  assert (Hmove : forall d, files w !! d = None ->
    let '(out, w') :=
      (perform shutil_move src d ; xret (Some d)) w in
    (forall p data, p <> src -> files w !! p = Some data ->
                    files w' !! p = Some data) /\
    match out with
    | Ok (Some dst) =>
        (_files_identical md5 w src dst = true /\
         (files w' = files w \/ files w' = delete src (files w))) \/
        (files w !! dst = None /\
         exists data,
           files w !! src = Some data /\
           files w' = <[dst := data]> (delete src (files w)))
    | Ok None => False
    | Raise _ =>
        (forall p data, files w !! p = Some data ->
                        files w' !! p = Some data) /\
        exists d, forall p, p <> d -> files w' !! p = files w !! p
    end).
  { intros d Hd. unfold xbind. pose proof (shutil_move_files src d w Hd) as Hm.
    destruct (shutil_move src d w) as [[[]|e] w']; unfold xret.
    - destruct Hm as (data & Hsrc & Hfiles). split.
      + intros p pd Hp Hpd. rewrite Hfiles.
        rewrite lookup_insert_ne by (intros <-; congruence).
        rewrite lookup_delete_ne by congruence. exact Hpd.
      + right. split; [exact Hd|]. exists data. auto.
    - destruct Hm as [Hkeep Hother]. split; [intros p pd _; apply Hkeep|].
      split; [exact Hkeep|]. exists d. exact Hother. }
  assert (Hfree : forall d, _exists w d = false -> files w !! d = None).
  { intros d Hd. unfold _exists in Hd. apply bool_decide_eq_false in Hd.
    destruct (files w !! d) eqn:E; [|reflexivity].
    exfalso. apply Hd. eauto. }
  destruct (_exists w dst) eqn:Hex.
  - destruct (_files_identical md5 w src dst) eqn:Hid.
    + unfold xbind, xtry. pose proof (os_unlink_files src w) as Hu.
      destruct (os_unlink src w) as [[[]|e] w']; unfold xret.
      * split.
        -- intros p pd Hp Hpd. rewrite Hu, lookup_delete_ne by congruence.
           exact Hpd.
        -- left. split; [exact Hid|right; exact Hu].
      * split.
        -- intros p pd Hp Hpd. rewrite Hu. exact Hpd.
        -- left. split; [exact Hid|left; exact Hu].
    + destruct (first_free_spec w (Path.parent dst) (Path.stem dst)
                  (Path.suffix dst) (S (size (files w))) 1
                  (free_candidate w _ _ _))
        as (k & -> & _ & Hk & _).
      apply (Hmove _ (Hfree _ Hk)).
  - apply (Hmove dst (Hfree _ Hex)).
Qed.

End PlaceFacts.

(** X22: [_place_file_with_short_name] overwrites nothing.  Whatever
    the file system holds and whatever the operating system refuses,
    the search for a free numbered name ends, and every file other than
    the source is afterwards where it was, with its bytes.  When the
    function returns a path, either the file there was identical to the
    source, and the source has been removed or left, or nothing was at
    that path and it now holds the bytes of the source, which is gone
    from its place.  When the function raises, every file, the source
    too, is where it was with its bytes, and at most one path where
    nothing was has got bytes. *)
Theorem place_file_overwrites_nothing (md5 : string -> string)
    (src target_dir cat : string) (w : World) :
  let '(out, w') := _place_file_with_short_name md5 src target_dir cat w in
  (forall p data, p <> src -> files w !! p = Some data ->
                  files w' !! p = Some data) /\
  match out with
  | Ok (Some dst) =>
      (_files_identical md5 w src dst = true /\
       (files w' = files w \/ files w' = delete src (files w))) \/
      (files w !! dst = None /\
       exists data,
         files w !! src = Some data /\
         files w' = <[dst := data]> (delete src (files w)))
  | Ok None => False
  | Raise _ =>
      (forall p data, files w !! p = Some data ->
                      files w' !! p = Some data) /\
      exists d, forall p, p <> d -> files w' !! p = files w !! p
  end.
Proof.
  unfold _place_file_with_short_name.
  set (dst := match _short_name_for_category cat (Path.name src) with
              | Some short_fn =>
                  if String.eqb short_fn ""
                  then Path.join target_dir (Path.name src)
                  else Path.join target_dir short_fn
              | None => Path.join target_dir (Path.name src)
              end).
  unfold xbind at 1.
  pose proof (os_makedirs_files (Path.parent dst) w) as [Hf Hu].
  destruct (os_makedirs (Path.parent dst) w) as [[[]|e] w1];
    cbn [snd] in Hf, Hu.
  - pose proof (place_at md5 src dst w1) as H.
    cbv zeta.
    match type of H with
    | (let '(_, _) := ?r in _) => destruct r as [out w']
    end.
    rewrite Hf in H. destruct H as [H1 H2]. split; [exact H1|].
    destruct out as [[d|]|e]; [|exact H2|exact H2].
    rewrite (files_identical_ext md5 w1 w src d Hf Hu) in H2. exact H2.
  - rewrite Hf. split; [auto|]. split; [auto|]. exists "". auto.
Qed.

(** A file that is placed where it already is has its own path for
    destination, is identical to what is there, and is removed. *)
Example place_file_in_place_removes_it :
  _place_file_with_short_name length_digest "/OUT/P/V/rca.pdf" "/OUT/P/V"
                              "RCA" in_place
  = (Ok (Some "/OUT/P/V/rca.pdf"), mkWorld ∅ ∅ [] [] [] []).
Proof. vm_compute. reflexivity. Qed.

(** ** Renaming on disk: no content is lost *)

Lemma paths_append_concat (h f : string) (d : list (string * list string)) :
  concat (map snd (paths_append h f d)) ≡ₚ f :: concat (map snd d).
Proof.
  induction d as [|[h' g] d IH]; cbn [paths_append].
  - simpl. reflexivity.
  - destruct (String.eqb h' h); cbn [map snd concat].
    + rewrite <- app_assoc. symmetry. apply Permutation_middle.
    + rewrite IH. symmetry. apply Permutation_middle.
Qed.

Lemma paths_append_keys (H : string -> string) (f : string)
    (d : list (string * list string)) :
  (forall h g, In (h, g) d -> forall x, In x g -> H x = h) ->
  forall h g, In (h, g) (paths_append (H f) f d) ->
              forall x, In x g -> H x = h.
Proof.
  induction d as [|[h' g'] d IH]; intros Hd h g Hin x Hx;
    cbn [paths_append] in Hin.
  - destruct Hin as [[= <- <-]|[]]. destruct Hx as [<-|[]]. reflexivity.
  - destruct (String.eqb h' (H f)) eqn:E.
    + apply String.eqb_eq in E. destruct Hin as [[= <- <-]|Hin].
      * apply in_app_or in Hx as [Hx|[<-|[]]]; [|symmetry; exact E].
        apply (Hd h' g'); [left; reflexivity|exact Hx].
      * apply (Hd h g); [right; exact Hin|exact Hx].
    + destruct Hin as [[= <- <-]|Hin].
      * apply (Hd h' g'); [left; reflexivity|exact Hx].
      * apply (IH (fun h0 g0 H0 => Hd h0 g0 (or_intror H0)) h g Hin x Hx).
Qed.

Lemma is_hex_digit (a : ascii) : is_digit a = true -> is_hex a = true.
Proof. unfold is_hex. intros ->. reflexivity. Qed.

Lemma length_digest_hex : hex_digests length_digest.
Proof.
  intros d. unfold length_digest.
  destruct (str_nat_digits (String.length d)) as [H _].
  rewrite forallb_forall in H |- *. intros a Ha. apply is_hex_digit, H, Ha.
Qed.

Lemma hex_not_mark (md5 : string -> string) (d rest : string) :
  hex_digests md5 -> md5 d <> "_" +:+ rest.
Proof.
  intros Hhex Heq. specialize (Hhex d). rewrite Heq in Hhex.
  cbn in Hhex. discriminate.
Qed.

Section RescanFacts.

Variable md5 : string -> string.
Hypothesis Hhex : hex_digests md5.
Variable canon : string -> string.

(** The groups hold the paths of the list, each once, under the hash
    of its file. *)
Lemma group_paths_spec (w : World) (fs : list string) :
  concat (map snd (group_paths md5 canon w fs)) ≡ₚ fs /\
  forall h g, In (h, g) (group_paths md5 canon w fs) ->
              forall x, In x g -> rescan_hash md5 canon w x = h.
Proof.
  unfold group_paths.
  assert (H : forall d,
    (forall h g, In (h, g) d ->
                 forall x, In x g -> rescan_hash md5 canon w x = h) ->
    let d' := fold_left
                (fun d f => paths_append (rescan_hash md5 canon w f) f d)
                fs d in
    concat (map snd d') ≡ₚ concat (map snd d) ++ fs /\
    forall h g, In (h, g) d' ->
                forall x, In x g -> rescan_hash md5 canon w x = h).
  { induction fs as [|f fs IH]; intros d Hd; cbn [fold_left].
    - rewrite app_nil_r. split; [reflexivity|exact Hd].
    - destruct (IH (paths_append (rescan_hash md5 canon w f) f d))
        as [Hp Hk].
      { apply (paths_append_keys (rescan_hash md5 canon w)), Hd. }
      split; [|exact Hk]. cbn zeta in Hp. rewrite Hp, paths_append_concat.
      apply Permutation_middle. }
  destruct (H []) as [Hp Hk]; [intros h g []|]. split; [exact Hp|exact Hk].
Qed.

(** Two different paths with one hash name readable files with one
    digest. *)
Lemma rescan_hash_eq (w : World) (f k : string) :
  f <> k -> rescan_hash md5 canon w f = rescan_hash md5 canon w k ->
  exists df dk,
    files w !! canon f = Some df /\ files w !! canon k = Some dk /\
    md5 df = md5 dk.
Proof.
  intros Hne. unfold rescan_hash.
  assert (Hmark : forall a b : string, "__err_" +:+ a = "__err_" +:+ b -> a = b)
    by (intros a b; apply append_inj_l).
  destruct (files w !! canon f) as [df|], (files w !! canon k) as [dk|];
    repeat destruct (bool_decide _);
    intros H;
    try (apply Hmark in H; congruence);
    try (exfalso; apply (hex_not_mark md5 _ _ Hhex H));
    try (exfalso; symmetry in H; apply (hex_not_mark md5 _ _ Hhex H)).
  exists df, dk. auto.
Qed.

Lemma files_identical_md5 (w : World) (a b : string) :
  a <> b -> files_identical_of md5 canon w a b = true ->
  exists da db,
    files w !! canon a = Some da /\ files w !! canon b = Some db /\
    md5 da = md5 db.
Proof.
  intros Hne. unfold files_identical_of, file_hash_of.
  assert (Hmark : forall x y : string,
            "__error_" +:+ x = "__error_" +:+ y -> x = y)
    by (intros x y; apply append_inj_l).
  destruct (files w !! canon a) as [da|], (files w !! canon b) as [db|];
    try discriminate.
  destruct (negb _); [discriminate|].
  repeat destruct (bool_decide _); intros H; apply String.eqb_eq in H;
    try (apply Hmark in H; congruence);
    try (exfalso; apply (hex_not_mark md5 _ _ Hhex H));
    try (exfalso; symmetry in H; apply (hex_not_mark md5 _ _ Hhex H)).
  exists da, db. auto.
Qed.

Lemma untouched_weaken (P Q : string -> Prop) (w0 w : World) :
  (forall p, Q p -> P p) -> untouched P w0 w -> untouched Q w0 w.
Proof. intros HQ H p d Hp. apply H, HQ, Hp. Qed.

(** Removing a file whose digest another file holds keeps the
    contents. *)
Lemma delete_keeps (P : string -> Prop) (w0 w w' : World) (f k : string)
    (df dk : string) :
  content_kept md5 w0 w -> untouched P w0 w ->
  files w' = delete f (files w) ->
  k <> f -> files w !! k = Some dk -> files w !! f = Some df ->
  md5 dk = md5 df ->
  content_kept md5 w0 w' /\ untouched (fun p => P p /\ p <> f) w0 w' /\
  S (size (files w')) = size (files w).
Proof.
  intros Hck Hun Hfiles Hne Hk Hf Hmd. split; [|split].
  - intros p d Hp. destruct (Hck p d Hp) as (p' & d' & Hp' & Hd').
    destruct (decide (p' = f)) as [->|Hpf].
    + exists k, dk. rewrite Hfiles, lookup_delete_ne by congruence.
      split; [exact Hk|]. congruence.
    + exists p', d'. rewrite Hfiles, lookup_delete_ne by congruence. auto.
  - intros p d [Hp Hpf] H0. rewrite Hfiles, lookup_delete_ne by congruence.
    exact (Hun p d Hp H0).
  - rewrite Hfiles, map_size_delete, Hf. cbn.
    assert (size (files w) <> 0).
    { intros Hz. apply map_size_empty_iff in Hz. rewrite Hz in Hf.
      rewrite lookup_empty in Hf. discriminate. }
    lia.
Qed.

Lemma same_files_keeps (P Q : string -> Prop) (w0 w w' : World) :
  content_kept md5 w0 w -> untouched P w0 w -> files w' = files w ->
  (forall p, Q p -> P p) ->
  content_kept md5 w0 w' /\ untouched Q w0 w'.
Proof.
  intros Hck Hun Hfiles HQ. split.
  - intros p d Hp. rewrite Hfiles. exact (Hck p d Hp).
  - intros p d Hp H0. rewrite Hfiles. exact (Hun p d (HQ p Hp) H0).
Qed.

(** Renaming a file to a free path keeps the contents. *)
Lemma rename_keeps (P : string -> Prop) (w0 w : World) (k q : string) :
  content_kept md5 w0 w -> untouched P w0 w -> files w !! q = None ->
  let '(out, w') := os_rename k q w in
  content_kept md5 w0 w' /\ untouched (fun p => P p /\ p <> k) w0 w' /\
  size (files w') = size (files w).
Proof.
  intros Hck Hun Hq.
  pose proof (os_rename_files k q w) as Hm.
  destruct (os_rename k q w) as [[[]|e] w'].
  - destruct Hm as (dk & Hk & Hfiles).
    assert (Hkq : k <> q) by congruence. split; [|split].
    + intros p d Hp. destruct (Hck p d Hp) as (p' & d' & Hp' & Hd').
      destruct (decide (p' = k)) as [->|Hpk].
      * exists q, dk. rewrite Hfiles, lookup_insert_eq.
        split; [reflexivity|]. congruence.
      * exists p', d'. rewrite Hfiles.
        rewrite lookup_insert_ne by congruence.
        rewrite lookup_delete_ne by congruence. auto.
    + intros p d [Hp Hpk] H0. specialize (Hun p d Hp H0). rewrite Hfiles.
      rewrite lookup_insert_ne by congruence.
      rewrite lookup_delete_ne by congruence. exact Hun.
    + rewrite Hfiles, map_size_insert, lookup_delete_ne by congruence.
      rewrite Hq, map_size_delete, Hk. cbn.
      assert (size (files w) <> 0).
      { intros Hz. apply map_size_empty_iff in Hz. rewrite Hz in Hk.
        rewrite lookup_empty in Hk. discriminate. }
      lia.
  - destruct (same_files_keeps P (fun p => P p /\ p <> k) w0 w w' Hck Hun Hm)
      as [H1 H2]; [tauto|].
    split; [exact H1|]. split; [exact H2|]. rewrite Hm. reflexivity.
Qed.

(** The loop over the duplicates of one keeper never raises, and keeps
    the contents; the counter counts the files it removes. *)
Lemma unlink_rest_spec (w0 : World) (k : string) (rest : list string) :
  forall (stats : RenameStats) (w : World) (P : string -> Prop),
    content_kept md5 w0 w -> untouched P w0 w ->
    P (canon k) -> (forall f, In f rest -> P (canon f)) ->
    NoDup (map canon (k :: rest)) ->
    (forall f, In f rest ->
       exists df dk,
         files w0 !! canon f = Some df /\ files w0 !! canon k = Some dk /\
         md5 df = md5 dk) ->
    exists stats' w',
      unlink_rest canon rest stats w = (Ok stats', w') /\
      content_kept md5 w0 w' /\
      untouched (fun p => P p /\ ~ In p (map canon rest)) w0 w' /\
      size (files w') + deduped_count stats'
      = size (files w) + deduped_count stats /\
      renamed_count stats' = renamed_count stats.
Proof.
  induction rest as [|f rest IH]; intros stats w P Hck Hun Hk Hrest Hnd Hsame.
  - exists stats, w. split; [reflexivity|]. split; [exact Hck|].
    split; [|split; reflexivity].
    eapply untouched_weaken; [|exact Hun]. intros p [Hp _]. exact Hp.
  - cbn [unlink_rest]. unfold xbind at 1. unfold xtry, xbind at 1.
    cbn [map] in Hnd.
    apply NoDup_cons in Hnd as [Hkf Hnd].
    assert (Hkf' : canon k <> canon f).
    { intros Heq. apply Hkf. rewrite Heq. left. }
    assert (Hnd' : NoDup (map canon (k :: rest))).
    { cbn [map]. apply NoDup_cons. apply NoDup_cons in Hnd as [Hf Hnd].
      split; [|exact Hnd]. intros H. apply Hkf. right. exact H. }
    assert (Hfrest : ~ In (canon f) (map canon rest)).
    { apply NoDup_cons in Hnd as [Hf _]. intros H. apply Hf.
      apply list_elem_of_In, H. }
    destruct (Hsame f (or_introl eq_refl)) as (df & dk & Hf0 & Hk0 & Hmd).
    pose proof (Hun (canon k) dk Hk Hk0) as Hkw.
    pose proof (Hun (canon f) df (Hrest f (or_introl eq_refl)) Hf0) as Hfw.
    pose proof (os_unlink_files (canon f) w) as Hu.
    destruct (os_unlink (canon f) w) as [[[]|e] w1].
    + rename Hu into Hfiles. cbn.
      destruct (delete_keeps P w0 w w1 (canon f) (canon k) df dk Hck Hun
                             Hfiles Hkf' Hkw Hfw (eq_sym Hmd))
        as (Hck1 & Hun1 & Hsz).
      destruct (IH (bump_deduped stats) w1 (fun p => P p /\ p <> canon f)
                   Hck1 Hun1) as (stats' & w' & Hrun & Hck' & Hun' & Hsz' & Hrn).
      * split; [exact Hk|exact Hkf'].
      * intros x Hx. split; [apply Hrest; right; exact Hx|].
        intros Heq. apply Hfrest. rewrite <- Heq. apply in_map, Hx.
      * exact Hnd'.
      * intros x Hx. apply Hsame. right. exact Hx.
      * exists stats', w'. split; [exact Hrun|]. split; [exact Hck'|].
        split; [|split; [cbn in Hsz'; lia|exact Hrn]].
        eapply untouched_weaken; [|exact Hun'].
        intros p [Hp Hnin]. split; [split; [exact Hp|]|].
        -- intros ->. apply Hnin. left. reflexivity.
        -- intros H. apply Hnin. right. exact H.
    + cbn.
      destruct (same_files_keeps P (fun p => P p /\ p <> canon f) w0 w w1
                                 Hck Hun Hu)
        as [Hck1 Hun1]; [tauto|].
      destruct (IH stats w1 (fun p => P p /\ p <> canon f) Hck1 Hun1)
        as (stats' & w' & Hrun & Hck' & Hun' & Hsz' & Hrn).
      * split; [exact Hk|exact Hkf'].
      * intros x Hx. split; [apply Hrest; right; exact Hx|].
        intros Heq. apply Hfrest. rewrite <- Heq. apply in_map, Hx.
      * exact Hnd'.
      * intros x Hx. apply Hsame. right. exact Hx.
      * exists stats', w'. split; [exact Hrun|]. split; [exact Hck'|].
        split; [|split; [rewrite Hu in Hsz'; exact Hsz'|exact Hrn]].
        eapply untouched_weaken; [|exact Hun'].
        intros p [Hp Hnin]. split; [split; [exact Hp|]|].
        -- intros ->. apply Hnin. left. reflexivity.
        -- intros H. apply Hnin. right. exact H.
Qed.

Lemma xbind_Ok {A B : Type} (m : X A) (k : A -> X B) (w w' : World) (a : A) :
  m w = (Ok a, w') -> xbind m k w = k a w'.
Proof. intros H. unfold xbind. rewrite H. reflexivity. Qed.

Lemma not_exists_None (w : World) (p : string) :
  _exists w p = false -> files w !! p = None.
Proof.
  unfold _exists. intros H. apply bool_decide_eq_false in H.
  destruct (files w !! p) eqn:E; [|reflexivity]. exfalso. apply H. eauto.
Qed.

(** The duplicates of a keeper are readable files with its digest. *)
Lemma same_hash_same_digest (w0 : World) (k : string) (rest : list string) :
  NoDup (map canon (k :: rest)) ->
  (forall f, In f rest ->
             rescan_hash md5 canon w0 f = rescan_hash md5 canon w0 k) ->
  forall f, In f rest ->
    exists df dk,
      files w0 !! canon f = Some df /\ files w0 !! canon k = Some dk /\
      md5 df = md5 dk.
Proof.
  intros Hnd Hsame f Hf. apply rescan_hash_eq; [|apply Hsame, Hf].
  cbn [map] in Hnd. apply NoDup_cons in Hnd as [Hk _]. intros ->. apply Hk.
  apply list_elem_of_In, in_map, Hf.
Qed.

(** The branch of one hash. *)
Lemma rescan_single_spec (w0 : World) (base_name vin k : string)
    (rest : list string) (st : RescanState) (w : World)
    (P : string -> Prop) :
  (Path.name k <> base_name +:+ ".pdf" ->
   canon (Path.join (Path.parent k) (base_name +:+ ".pdf")) <> canon k) ->
  content_kept md5 w0 w -> untouched P w0 w ->
  (forall f, In f (k :: rest) -> P (canon f)) ->
  NoDup (map canon (k :: rest)) ->
  (forall f, In f rest ->
             rescan_hash md5 canon w0 f = rescan_hash md5 canon w0 k) ->
  let '(out, w') := rescan_single md5 canon base_name vin (k :: rest) st w in
  content_kept md5 w0 w' /\
  untouched (fun p => P p /\ ~ In p (map canon (k :: rest))) w0 w' /\
  match out with
  | Ok st' =>
      size (files w') + deduped_count (fst st')
      = size (files w) + deduped_count (fst st)
  | Raise _ => True
  end.
Proof.
  intros Hapart Hck Hun HP Hnd Hsame. cbn [rescan_single].
  destruct (unlink_rest_spec w0 k rest (fst st) w P Hck Hun
              (HP k (or_introl eq_refl))
              (fun f Hf => HP f (or_intror Hf)) Hnd
              (same_hash_same_digest w0 k rest Hnd Hsame))
    as (stats & w1 & Hrun & Hck1 & Hun1 & Hsz1 & _).
  rewrite (xbind_Ok _ _ _ _ _ Hrun).
  set (new_name := base_name +:+ ".pdf") in *.
  set (new_path := Path.join (Path.parent k) new_name) in *.
  assert (Hweak : forall p,
            P p /\ ~ In p (map canon (k :: rest)) ->
            (P p /\ ~ In p (map canon rest)) /\ p <> canon k).
  { intros p [Hp Hnin]. split; [split; [exact Hp|]|].
    - intros H. apply Hnin. right. exact H.
    - intros ->. apply Hnin. left. reflexivity. }
  assert (Hstay :
    content_kept md5 w0 w1 /\
    untouched (fun p => P p /\ ~ In p (map canon (k :: rest))) w0 w1 /\
    size (files w1) + deduped_count stats
    = size (files w) + deduped_count (fst st)).
  { split; [exact Hck1|]. split; [|exact Hsz1].
    eapply untouched_weaken; [|exact Hun1]. intros p Hp.
    apply (proj1 (Hweak p Hp)). }
  destruct (String.eqb (Path.name k) new_name) eqn:Hname; [exact Hstay|].
  apply String.eqb_neq in Hname.
  assert (Hnew : canon new_path <> canon k) by (apply Hapart, Hname).
  assert (Hnew' : k <> new_path) by (intros Heq; apply Hnew; congruence).
  destruct (_exists w1 (canon new_path)
            && files_identical_of md5 canon w1 k new_path) eqn:Hid.
  - apply andb_true_iff in Hid as [_ Hid].
    destruct (files_identical_md5 w1 k new_path Hnew' Hid)
      as (dk & dn & Hk1 & Hn1 & Hmd).
    pose proof (os_unlink_files (canon k) w1) as Hu. unfold xbind.
    destruct (os_unlink (canon k) w1) as [[[]|e] w2].
    + rename Hu into Hfiles.
      destruct (delete_keeps (fun p => P p /\ ~ In p (map canon rest)) w0 w1 w2
                             (canon k) (canon new_path)
                             dk dn Hck1 Hun1 Hfiles Hnew Hn1 Hk1
                             (eq_sym Hmd)) as (Hck2 & Hun2 & Hsz2).
      split; [exact Hck2|]. split.
      * eapply untouched_weaken; [|exact Hun2]. exact Hweak.
      * cbn. lia.
    + destruct (same_files_keeps (fun p => P p /\ ~ In p (map canon rest))
                  (fun p => P p /\ ~ In p (map canon (k :: rest)))
                  w0 w1 w2 Hck1 Hun1 Hu)
        as [Hck2 Hun2]; [intros p Hp; apply (proj1 (Hweak p Hp))|].
      split; [exact Hck2|]. split; [exact Hun2|exact I].
  - destruct (negb (_exists w1 (canon new_path))) eqn:Hex; [|exact Hstay].
    apply negb_true_iff, not_exists_None in Hex.
    pose proof (rename_keeps (fun p => P p /\ ~ In p (map canon rest)) w0 w1
                             (canon k) (canon new_path) Hck1 Hun1 Hex) as Hr.
    unfold xbind.
    destruct (os_rename (canon k) (canon new_path) w1) as [[[]|e] w2].
    + destruct Hr as (Hck2 & Hun2 & Hsz2). split; [exact Hck2|]. split.
      * eapply untouched_weaken; [|exact Hun2]. exact Hweak.
      * cbn. lia.
    + destruct Hr as (Hck2 & Hun2 & _). split; [exact Hck2|]. split; [|exact I].
      eapply untouched_weaken; [|exact Hun2]. exact Hweak.
Qed.

(** The branch of several hashes. *)
Lemma rescan_numbered_spec (w0 : World) (base_name vin : string)
    (groups : list (string * list string)) :
  forall (counter : nat) (st : RescanState) (w : World) (P : string -> Prop),
    content_kept md5 w0 w -> untouched P w0 w ->
    (forall f, In f (concat (map snd groups)) -> P (canon f)) ->
    NoDup (map canon (concat (map snd groups))) ->
    (forall h g, In (h, g) groups ->
       forall x, In x g -> rescan_hash md5 canon w0 x = h) ->
    let '(out, w') :=
      rescan_numbered canon base_name vin counter groups st w in
    content_kept md5 w0 w' /\
    untouched (fun p => P p /\
                 ~ In p (map canon (concat (map snd groups)))) w0 w' /\
    match out with
    | Ok st' =>
        size (files w') + deduped_count (fst st')
        = size (files w) + deduped_count (fst st)
    | Raise _ => True
    end.
Proof.
  induction groups as [|[h g] groups IH];
    intros counter st w P Hck Hun HP Hnd Hkeys.
  - cbn. split; [exact Hck|]. split; [|reflexivity].
    eapply untouched_weaken; [|exact Hun]. intros p [Hp _]. exact Hp.
  - cbn [rescan_numbered]. destruct g as [|k rest].
    + cbn. split; [exact Hck|]. split; [|reflexivity].
      eapply untouched_weaken; [|exact Hun]. intros p [Hp _]. exact Hp.
    + cbn [map snd concat] in HP, Hnd. rewrite map_app in Hnd.
      apply NoDup_app_parts in Hnd as (Hg & Hrest & Hdis).
      assert (Hsame : forall f, In f rest ->
                rescan_hash md5 canon w0 f = rescan_hash md5 canon w0 k).
      { intros f Hf.
        rewrite (Hkeys h (k :: rest) (or_introl eq_refl) f (or_intror Hf)).
        rewrite (Hkeys h (k :: rest) (or_introl eq_refl) k
                       (or_introl eq_refl)).
        reflexivity. }
      destruct (unlink_rest_spec w0 k rest (fst st) w P Hck Hun)
        as (stats & w1 & Hrun & Hck1 & Hun1 & Hsz1 & _).
      { apply HP. left. reflexivity. }
      { intros f Hf. apply HP. right. apply in_or_app. left. exact Hf. }
      { exact Hg. }
      { apply (same_hash_same_digest w0 k rest Hg Hsame). }
      rewrite (xbind_Ok _ _ _ _ _ Hrun).
      set (new_name := base_name +:+ "_" +:+ str_nat (S counter) +:+ ".pdf").
      set (new_path := Path.join (Path.parent k) new_name).
      set (P2 := fun p => (P p /\ ~ In p (map canon rest)) /\ p <> canon k).
      assert (Hweak : forall p,
                (P2 p /\ ~ In p (map canon (concat (map snd groups)))) <->
                (P p /\ ~ In p (map canon ((k :: rest)
                                           ++ concat (map snd groups))))).
      { intros p. unfold P2. rewrite map_app, in_app_iff. cbn [map In].
        split.
        - intros [[[Hp Hr] Hk] Hc]. split; [exact Hp|].
          intros [[Heq|H]|H]; [congruence|tauto|tauto].
        - intros [Hp Hn]. repeat split; try tauto.
          intros ->. apply Hn. left. left. reflexivity. }
      assert (Hnext : forall st1 w2,
        content_kept md5 w0 w2 -> untouched P2 w0 w2 ->
        size (files w2) + deduped_count (fst st1)
        = size (files w) + deduped_count (fst st) ->
        let '(out, w') :=
          rescan_numbered canon base_name vin (S counter) groups st1 w2 in
        content_kept md5 w0 w' /\
        untouched (fun p => P p /\
                     ~ In p (map canon ((k :: rest)
                                        ++ concat (map snd groups)))) w0 w' /\
        match out with
        | Ok st' =>
            size (files w') + deduped_count (fst st')
            = size (files w) + deduped_count (fst st)
        | Raise _ => True
        end).
      { intros st1 w2 Hck2 Hun2 Hsz2.
        pose proof (IH (S counter) st1 w2 P2 Hck2 Hun2) as HIH.
        destruct (rescan_numbered canon base_name vin (S counter) groups
                                  st1 w2) as [out w'].
        destruct HIH as (Hck' & Hun' & Hsz').
        - intros f Hf. unfold P2. split; [split|].
          + apply HP. right. apply in_or_app. right. exact Hf.
          + intros Hr. apply (Hdis (canon f));
              [right; exact Hr|apply in_map, Hf].
          + intros Heq. apply (Hdis (canon k));
              [left; reflexivity|rewrite <- Heq; apply in_map, Hf].
        - exact Hrest.
        - intros h' g' Hin. apply Hkeys. right. exact Hin.
        - split; [exact Hck'|]. split.
          + eapply untouched_weaken; [|exact Hun']. intros p Hp.
            apply Hweak, Hp.
          + destruct out; [lia|exact I]. }
      assert (Hun1' : untouched P2 w0 w1).
      { eapply untouched_weaken; [|exact Hun1]. intros p [Hp _]. exact Hp. }
      cbn [map snd concat]. unfold xbind at 1. cbn beta.
      destruct (negb (String.eqb (Path.name k) new_name)
                && negb (_exists w1 (canon new_path))) eqn:Hcond.
      * apply andb_true_iff in Hcond as [_ Hex].
        apply negb_true_iff, not_exists_None in Hex.
        pose proof (rename_keeps (fun p => P p /\ ~ In p (map canon rest))
                                 w0 w1 (canon k) (canon new_path)
                                 Hck1 Hun1 Hex) as Hr.
        unfold xbind at 1.
        destruct (os_rename (canon k) (canon new_path) w1) as [[[]|e] w2].
        -- destruct Hr as (Hck2 & Hun2 & Hsz2). cbn [xret].
           apply Hnext; [exact Hck2|exact Hun2|cbn; lia].
        -- destruct Hr as (Hck2 & Hun2 & _). split; [exact Hck2|].
           split; [|exact I].
           eapply untouched_weaken; [|exact Hun2]. intros p Hp.
           apply Hweak. exact Hp.
      * apply Hnext; [exact Hck1|exact Hun1'|exact Hsz1].
Qed.

End RescanFacts.

(** A file system that tells all names apart. *)
Lemma exact_names_apart (base_name : string) (fs : list string) :
  plain_name base_name -> expected_apart exact_names base_name fs.
Proof.
  intros Hplain f _ Hname Heq. unfold exact_names in Heq. apply Hname.
  rewrite <- Heq. apply name_join.
  apply plain_app; [exact Hplain|reflexivity].
Qed.

(** X23: [_rescan_rename_group] loses no content where the file system
    does not take the expected name for the name of a file that the
    program sees under another name.  For digests written in
    hexadecimal digits, a list of paths of distinct files, a base name
    [B] without separator, and a file system for which [B.pdf], in the
    folder of a file of the list with another name, is not that file:
    whatever the operating system refuses and whether the function
    returns or raises, every file content that was on disk is
    afterwards still held, up to its MD5 digest, by a file; the files
    outside the list are where they were, with their bytes; and when
    the function returns, the counter of duplicates has grown by the
    number of files that are gone. *)
Theorem rescan_rename_keeps_content (md5 : string -> string)
    (canon : string -> string) (fs : list string)
    (base_name vin : string) (st : RescanState) (w : World) :
  hex_digests md5 -> NoDup (map canon fs) -> plain_name base_name ->
  expected_apart canon base_name fs ->
  let '(out, w') := _rescan_rename_group md5 canon fs base_name vin st w in
  content_kept md5 w w' /\
  untouched (fun p => ~ In p (map canon fs)) w w' /\
  match out with
  | Ok st' =>
      size (files w') + deduped_count (fst st')
      = size (files w) + deduped_count (fst st)
  | Raise _ => True
  end.
Proof.
  intros Hhex Hnd Hplain Hapart. unfold _rescan_rename_group.
  assert (Hrefl : content_kept md5 w w) by (intros p d Hp; eauto).
  assert (Hsame : content_kept md5 w w /\
                  untouched (fun p => ~ In p (map canon fs)) w w /\
                  size (files w) + deduped_count (fst st)
                  = size (files w) + deduped_count (fst st)).
  { split; [exact Hrefl|]. split; [|reflexivity]. intros p d _ Hp. exact Hp. }
  destruct (is_empty fs); [exact Hsame|].
  destruct (forallb _ fs); [exact Hsame|].
  destruct (group_paths_spec md5 canon w fs) as [Hperm Hkeys].
  assert (Hun : untouched (fun _ => True) w w) by (intros p d _ Hp; exact Hp).
  assert (Hnd' : NoDup (map canon
                          (concat (map snd (group_paths md5 canon w fs)))))
    by (rewrite Hperm; exact Hnd).
  assert (Hout : forall w',
    untouched (fun p => True /\
                 ~ In p (map canon
                           (concat (map snd (group_paths md5 canon w fs)))))
              w w' ->
    untouched (fun p => ~ In p (map canon fs)) w w').
  { intros w' Hun'. eapply untouched_weaken; [|exact Hun'].
    intros p Hp. split; [exact I|]. intros Hin. apply Hp.
    apply (Permutation_In_iff _ _ p (Permutation_map canon Hperm)), Hin. }
  assert (Hin : forall f,
            In f (concat (map snd (group_paths md5 canon w fs))) -> In f fs).
  { intros f Hf. apply (Permutation_In_iff _ _ f Hperm), Hf. }
  destruct (group_paths md5 canon w fs) as [|[h g] [|hg groups]] eqn:Hg.
  - exact Hsame.
  - destruct g as [|k rest]; [exact Hsame|].
    cbn [map snd concat] in Hnd', Hout, Hin.
    rewrite app_nil_r in Hnd', Hout, Hin.
    pose proof (rescan_single_spec md5 Hhex canon w base_name vin k rest st w
                  (fun _ => True)) as Hs.
    destruct (rescan_single md5 canon base_name vin (k :: rest) st w)
      as [out w'].
    destruct Hs as (Hck & Hun' & Hsz).
    + intros Hname. apply Hapart; [apply Hin; left; reflexivity|exact Hname].
    + exact Hrefl.
    + exact Hun.
    + intros f _. exact I.
    + exact Hnd'.
    + intros f Hf.
      rewrite (Hkeys h (k :: rest) (or_introl eq_refl) f (or_intror Hf)).
      rewrite (Hkeys h (k :: rest) (or_introl eq_refl) k (or_introl eq_refl)).
      reflexivity.
    + split; [exact Hck|]. split; [apply Hout, Hun'|exact Hsz].
  - pose proof (rescan_numbered_spec md5 Hhex canon w base_name vin
                  ((h, g) :: hg :: groups) 0 st w (fun _ => True)
                  Hrefl Hun (fun _ _ => I) Hnd' Hkeys) as Hs.
    destruct (rescan_numbered canon base_name vin 0 ((h, g) :: hg :: groups)
                              st w) as [out w'].
    destruct Hs as (Hck & Hun' & Hsz).
    split; [exact Hck|]. split; [apply Hout, Hun'|exact Hsz].
Qed.

Lemma rescan_rename_keeps_content_witness :
  hex_digests length_digest /\
  NoDup (map folded_names
           ["/OUT/P/V/Contract A.pdf"; "/OUT/P/V/Contract B.pdf"]) /\
  expected_apart folded_names "cc"
                 ["/OUT/P/V/Contract A.pdf"; "/OUT/P/V/Contract B.pdf"] /\
  exists w',
    snd (_rescan_rename_group length_digest folded_names
           ["/OUT/P/V/Contract A.pdf"; "/OUT/P/V/Contract B.pdf"]
           "cc" "V" (mkStats 0 0, ∅) two_copies) = w' /\
    content_kept length_digest two_copies w' /\
    files w' !! folded_names "/OUT/P/V/talon.pdf" = Some "%PDF talon".
Proof.
  split; [exact length_digest_hex|].
  assert (Hnd : NoDup (map folded_names
                         ["/OUT/P/V/Contract A.pdf";
                          "/OUT/P/V/Contract B.pdf"])).
  { apply NoDup_cons. split; [|apply NoDup_singleton].
    intros H. apply list_elem_of_In in H. destruct H as [H|[]].
    vm_compute in H. discriminate. }
  assert (Hap : expected_apart folded_names "cc"
                  ["/OUT/P/V/Contract A.pdf"; "/OUT/P/V/Contract B.pdf"]).
  { intros f [<-|[<-|[]]] _; vm_compute; discriminate. }
  split; [exact Hnd|]. split; [exact Hap|].
  pose proof (rescan_rename_keeps_content length_digest folded_names
                ["/OUT/P/V/Contract A.pdf"; "/OUT/P/V/Contract B.pdf"]
                "cc" "V" (mkStats 0 0, ∅) two_copies length_digest_hex
                Hnd eq_refl Hap) as H.
  destruct (_rescan_rename_group length_digest folded_names _ "cc" "V"
                                 (mkStats 0 0, ∅) two_copies) as [out w'].
  destruct H as (Hck & Hout & _). exists w'. split; [reflexivity|].
  split; [exact Hck|]. apply Hout; [|reflexivity].
  intros [H|[H|[]]]; vm_compute in H; discriminate.
Defined.

(** X24: on a file system that folds the case of names,
    [_rescan_rename_group] can remove the only copy of a file.  A
    folder holds the single policy [RCA.pdf]; the name is not the
    expected [rca.pdf], the path with that name exists, since it names
    the same file, and is identical to the keeper, and the keeper is
    removed as a duplicate: the folder is empty afterwards and one file
    is counted as removed. *)
Theorem rescan_rename_folded_names_loses_file :
  files one_policy !! folded_names "/OUT/P/V/RCA.pdf" = Some "%PDF rca" /\
  NoDup (map folded_names ["/OUT/P/V/RCA.pdf"]) /\
  _rescan_rename_group length_digest folded_names ["/OUT/P/V/RCA.pdf"]
                       "rca" "V" (mkStats 0 0, ∅) one_policy
  = (Ok (mkStats 0 1, ∅),
     mkWorld ∅ ∅ [] [] [] []) /\
  ~ content_kept length_digest one_policy (mkWorld ∅ ∅ [] [] [] []) /\
  ~ expected_apart folded_names "rca" ["/OUT/P/V/RCA.pdf"].
Proof.
  split; [vm_compute; reflexivity|]. split.
  { apply NoDup_singleton. }
  split; [vm_compute; reflexivity|]. split.
  { intros H.
    destruct (H (folded_names "/OUT/P/V/RCA.pdf") "%PDF rca")
      as (p' & d' & Hp & _); [vm_compute; reflexivity|].
    cbn [files] in Hp. rewrite lookup_empty in Hp. discriminate. }
  intros H.
  apply (H "/OUT/P/V/RCA.pdf"); [left; reflexivity| |];
    vm_compute; try reflexivity. discriminate.
Qed.
